(** * Outline parser of the vocabulary mind map: a shallow embedding

    The development follows [src/VocabularyMindMapApp.tsx]: the string
    primitives of the JavaScript runtime the parser relies on, the regular
    expressions it uses (written as scanners), [getDepth], [resolveColor],
    [parseText] with its ancestor stack and its shared, mutated node objects,
    [applyColor], and the cross-link computation.

    Strings are sequences of code units; a code unit is modelled by an
    [ascii], that is the code units 0..255 of a JavaScript string.  On that
    range white space, lower-casing and case-insensitive matching are the
    runtime's. *)

From Stdlib Require Import Ascii String ZArith NArith Lia Sorting.Sorted.
From stdpp Require Import base option list gmap strings pretty sorting.

(** ** Strings *)

Abbreviation jsstring := (list ascii).

Definition str (s : string) : jsstring := list_ascii_of_string s.

Definition TAB : ascii := "009"%char.
Definition LF : ascii := "010"%char.
Definition CR : ascii := "013"%char.
Definition SPACE : ascii := " "%char.
Definition BACKSLASH : ascii := "\"%char.
Definition LBRACE : ascii := "{"%char.
Definition RBRACE : ascii := "}"%char.
Definition HASH : ascii := "#"%char.
Definition COMMA : ascii := ","%char.

Module Js.

(** White space and line terminators ([\s], [String.prototype.trim]):
    TAB, LF, VT, FF, CR, SPACE and NBSP. *)
Definition isWhiteSpace (c : ascii) : bool :=
  match c with
  | "009" | "010" | "011" | "012" | "013" | " " | "160" => true
  | _ => false
  end%char.

Fixpoint dropWhile (f : ascii -> bool) (s : jsstring) : jsstring :=
  match s with
  | [] => []
  | c :: s' => if f c then dropWhile f s' else s
  end.

Fixpoint takeWhile (f : ascii -> bool) (s : jsstring) : jsstring :=
  match s with
  | [] => []
  | c :: s' => if f c then c :: takeWhile f s' else []
  end.

Definition trimStart (s : jsstring) : jsstring := dropWhile isWhiteSpace s.
Definition trimEnd (s : jsstring) : jsstring :=
  rev (dropWhile isWhiteSpace (rev s)).
Definition trim (s : jsstring) : jsstring := trimEnd (trimStart s).

(** [String.prototype.toLowerCase] on one code unit: A-Z and the
    upper-case letters of 192..222 (215, the multiplication sign, apart). *)
Definition toLowerChar (c : ascii) : ascii :=
  let n := N_of_ascii c in
  if ((65 <=? n) && (n <=? 90) || (192 <=? n) && (n <=? 222) && negb (n =? 215))%N
  then ascii_of_N (n + 32) else c.

Definition toLowerCase (s : jsstring) : jsstring := map toLowerChar s.

(** Truthiness of a string: the empty string is falsy. *)
Definition truthy (s : jsstring) : bool :=
  match s with [] => false | _ :: _ => true end.

(** Truthiness of [a.length]. *)
Definition truthy_list {A : Type} (l : list A) : bool :=
  match l with [] => false | _ :: _ => true end.

(** [s.startsWith(p)], returning what follows the prefix. *)
Fixpoint stripPrefix (p s : jsstring) : option jsstring :=
  match p, s with
  | [], _ => Some s
  | a :: p', b :: s' => if Ascii.eqb a b then stripPrefix p' s' else None
  | _ :: _, [] => None
  end.

(** [s.indexOf(p)]. *)
Fixpoint indexOf (p s : jsstring) : option nat :=
  match stripPrefix p s with
  | Some _ => Some 0
  | None =>
      match s with
      | [] => None
      | _ :: s' => S <$> indexOf p s'
      end
  end.

(** [s.replace(p, r)] with a string pattern: the first occurrence only. *)
Definition replaceFirst (p r s : jsstring) : jsstring :=
  match indexOf p s with
  | Some i => take i s ++ r ++ drop (i + length p) s
  | None => s
  end.

(** [s.replace(/\r\n?/g, "\n")]. *)
Fixpoint normalizeNewlines (s : jsstring) : jsstring :=
  match s with
  | [] => []
  | c :: s1 =>
      if Ascii.eqb c CR then
        match s1 with
        | c1 :: s2 =>
            if Ascii.eqb c1 LF then LF :: normalizeNewlines s2
            else LF :: normalizeNewlines s1
        | [] => [LF]
        end
      else c :: normalizeNewlines s1
  end.

(** [s.split(sep)] for a one-character separator: the pieces between the
    separators, empty pieces included; never the empty list. *)
Fixpoint splitOn (sep : ascii) (s : jsstring) : list jsstring :=
  match s with
  | [] => [[]]
  | c :: s' =>
      if Ascii.eqb c sep then [] :: splitOn sep s'
      else match splitOn sep s' with
           | piece :: rest => (c :: piece) :: rest
           | [] => [[c]]
           end
  end.

(** [s.split(/[\,\s]+/)]: the pieces between the maximal runs of commas and
    white space; a run at either end leaves an empty piece there. *)
Definition isTagSep (c : ascii) : bool := Ascii.eqb c COMMA || isWhiteSpace c.

Fixpoint splitTags (s : jsstring) : list jsstring :=
  match s with
  | [] => [[]]
  | c :: s' =>
      if isTagSep c then
        match s' with
        | c' :: _ => if isTagSep c' then splitTags s' else [] :: splitTags s'
        | [] => [[]; []]
        end
      else match splitTags s' with
           | piece :: rest => (c :: piece) :: rest
           | [] => [[c]]
           end
  end.

(** [s.replace(/\s{2,}/g, " ")]: every maximal run of two or more white
    space characters becomes one space; a single one stays as it is. *)
Fixpoint collapseFrom (inRun : bool) (s : jsstring) : jsstring :=
  match s with
  | [] => []
  | c :: s' =>
      if isWhiteSpace c then
        if inRun then collapseFrom true s'
        else match s' with
             | c' :: _ =>
                 if isWhiteSpace c' then SPACE :: collapseFrom true s'
                 else c :: collapseFrom false s'
             | [] => [c]
             end
      else c :: collapseFrom false s'
  end.
Definition collapseSpaces (s : jsstring) : jsstring := collapseFrom false s.

End Js.

(** ** Results of code that can throw

    [TypeError] is the exception of a property read on [undefined];
    [OutOfFuel] is the loop bound of the model running out, which a
    terminating loop never reaches. *)

Inductive result (A : Type) : Type :=
| Ok (a : A)
| TypeError
| OutOfFuel.
Arguments Ok {A} a.
Arguments TypeError {A}.
Arguments OutOfFuel {A}.

#[global] Instance result_bind : MBind result := fun A B k m =>
  match m with
  | Ok a => k a
  | TypeError => TypeError
  | OutOfFuel => OutOfFuel
  end.

(** ** The directive regular expressions

    Every directive is searched with a regular expression of one shape,
    [/\\?KEYWORD\{([^}]+)\}/]: a backslash, an optional second backslash,
    the keyword, an opening brace, one or more characters other than a
    closing brace (the captured group), a closing brace.  The expressions
    differ in the keyword and in their flags. *)

Module Re.

Record regex : Type := mkRegex { keyword : jsstring; ignoreCase : bool }.

(** What [exec] and [match] return: the index of the match, the matched
    text [m[0]] and the captured group [m[1]]. *)
Record matchResult : Type :=
  mkMatch { index : nat; matched : jsstring; group1 : jsstring }.

(** Canonicalisation of the [i] flag: a letter compares as its upper case. *)
Definition canonicalize (c : ascii) : ascii :=
  let n := N_of_ascii c in
  if ((97 <=? n) && (n <=? 122) || (224 <=? n) && (n <=? 254) && negb (n =? 247))%N
  then ascii_of_N (n - 32) else c.

Definition charMatches (ic : bool) (p t : ascii) : bool :=
  if ic then Ascii.eqb (canonicalize p) (canonicalize t) else Ascii.eqb p t.

(** A literal at the head of [s]; what follows it. *)
Fixpoint matchLiteral (ic : bool) (lit s : jsstring) : option jsstring :=
  match lit, s with
  | [], _ => Some s
  | p :: lit', t :: s' =>
      if charMatches ic p t then matchLiteral ic lit' s' else None
  | _ :: _, [] => None
  end.

Definition notRBrace (c : ascii) : bool := negb (Ascii.eqb c RBRACE).

(** [([^}]+)\}] at the head of [s]: the group and what follows the brace.
    The group is greedy, and a shorter group would be followed by a
    character that is not a closing brace. *)
Definition matchGroup (s : jsstring) : option (jsstring * jsstring) :=
  match Js.takeWhile notRBrace s, Js.dropWhile notRBrace s with
  | [], _ => None
  | g, _ :: rest => Some (g, rest)
  | _, [] => None
  end.

(** [KEYWORD\{([^}]+)\}] at the head of [s]. *)
Definition matchTail (re : regex) (s : jsstring) : option (jsstring * jsstring) :=
  match matchLiteral (ignoreCase re) (keyword re ++ [LBRACE]) s with
  | Some s' => matchGroup s'
  | None => None
  end.

(** The whole expression at the head of [s]; the optional backslash is
    greedy: two backslashes are tried before one. *)
Definition matchHere (re : regex) (s : jsstring) : option (jsstring * jsstring) :=
  match s with
  | c :: s1 =>
      if Ascii.eqb c BACKSLASH then
        let two :=
          match s1 with
          | c1 :: s2 => if Ascii.eqb c1 BACKSLASH then matchTail re s2 else None
          | [] => None
          end in
        match two with
        | Some (g, rest) => Some (g, rest)
        | None => matchTail re s1
        end
      else None
  | [] => None
  end.

(** The leftmost match in [s], at offset [base]. *)
Fixpoint searchFrom (re : regex) (base : nat) (s : jsstring) : option matchResult :=
  match matchHere re s with
  | Some (g, rest) => Some (mkMatch base (take (length s - length rest) s) g)
  | None =>
      match s with
      | [] => None
      | _ :: s' => searchFrom re (S base) s'
      end
  end.

(** [text.match(re)] for an expression without the [g] flag. *)
Definition search (re : regex) (text : jsstring) : option matchResult :=
  searchFrom re 0 text.

(** [re.exec(text)] for an expression with the [g] flag whose [lastIndex]
    is [lastIndex]: the leftmost match at or after it. *)
Definition exec (re : regex) (text : jsstring) (lastIndex : nat) : option matchResult :=
  if length text <? lastIndex then None
  else searchFrom re lastIndex (drop lastIndex text).

(** [text.replace(re, "")] for an expression with the [g] flag: the
    matches are taken from left to right, each search starting where the
    previous match ended.  [skip] counts the characters of the current
    match still to be dropped. *)
Fixpoint removeAllFrom (re : regex) (skip : nat) (s : jsstring) : jsstring :=
  match s with
  | [] => []
  | c :: s' =>
      match skip with
      | S k => removeAllFrom re k s'
      | 0 =>
          match matchHere re s with
          | Some (_, rest) => removeAllFrom re (length s' - length rest) s'
          | None => c :: removeAllFrom re 0 s'
          end
      end
  end.
Definition removeAll (re : regex) (s : jsstring) : jsstring := removeAllFrom re 0 s.

End Re.

Definition colorRegex : Re.regex := Re.mkRegex (str "color") true.
Definition labelRegex : Re.regex := Re.mkRegex (str "label") false.
Definition posRegex : Re.regex := Re.mkRegex (str "pos") true.
Definition jpRegex : Re.regex := Re.mkRegex (str "jp") true.
Definition tagsRegex : Re.regex := Re.mkRegex (str "tags") true.
Definition refRegex : Re.regex := Re.mkRegex (str "ref") false.

(** ** Colours *)

(** A value read from an object: a string, or a member that the object
    inherits from [Object.prototype] (a function or an object, never a
    string), named by its key. *)
Inductive jsval : Type :=
| VString (s : jsstring)
| VInherited (key : jsstring).

#[global] Instance jsval_eq_dec : EqDecision jsval.
Proof. solve_decision. Defined.

Definition COLOR_PRESETS : list (jsstring * jsstring) :=
  [ (str "red", str "#ef4444");
    (str "blue", str "#3b82f6");
    (str "green", str "#22c55e");
    (str "orange", str "#f59e0b");
    (str "purple", str "#a78bfa");
    (str "teal", str "#14b8a6");
    (str "pink", str "#ec4899");
    (str "gray", str "#6b7280");
    (str "slate", str "#64748b");
    (str "amber", str "#f59e0b");
    (str "lime", str "#84cc16") ].

(** The property names of [Object.prototype], the prototype of an object
    literal such as [COLOR_PRESETS]. *)
Definition objectPrototype : list jsstring :=
  [ str "constructor"; str "__defineGetter__"; str "__defineSetter__";
    str "hasOwnProperty"; str "__lookupGetter__"; str "__lookupSetter__";
    str "isPrototypeOf"; str "propertyIsEnumerable"; str "toString";
    str "valueOf"; str "__proto__"; str "toLocaleString" ].

Fixpoint ownProperty (key : jsstring) (obj : list (jsstring * jsstring)) : option jsstring :=
  match obj with
  | [] => None
  | (k, v) :: obj' => if bool_decide (k = key) then Some v else ownProperty key obj'
  end.

(** [obj[key]]: an own property, or else one found along the prototype
    chain; [None] is [undefined]. *)
Definition getProperty (obj : list (jsstring * jsstring)) (key : jsstring) : option jsval :=
  match ownProperty key obj with
  | Some v => Some (VString v)
  | None => if bool_decide (key ∈ objectPrototype) then Some (VInherited key) else None
  end.

Definition isHexDigit (c : ascii) : bool :=
  let n := N_of_ascii c in
  ((48 <=? n) && (n <=? 57) || (97 <=? n) && (n <=? 102) || (65 <=? n) && (n <=? 70))%N.

(** [/^#([0-9a-fA-F]{3}|[0-9a-fA-F]{6}|[0-9a-fA-F]{8})$/.test(s)] *)
Definition isHexColor (s : jsstring) : bool :=
  match s with
  | c :: digits =>
      Ascii.eqb c HASH && forallb isHexDigit digits
      && ((length digits =? 3) || (length digits =? 6) || (length digits =? 8))
  | [] => false
  end.

Definition resolveColor (str : option jsstring) : option jsval :=
  match str with
  | None => None
  | Some str =>
      if negb (Js.truthy str) then None
      else
        let s := Js.trim str in
        if isHexColor s then Some (VString s)
        else getProperty COLOR_PRESETS (Js.toLowerCase s)
  end.

(** ** Indentation *)

Fixpoint getDepthFrom (depth : nat) (s : jsstring) : nat * jsstring :=
  match s with
  | c :: s1 =>
      if Ascii.eqb c TAB then getDepthFrom (S depth) s1
      else if Ascii.eqb c SPACE then
        match s1 with
        | c1 :: s2 =>
            if Ascii.eqb c1 SPACE then getDepthFrom (S depth) s2 else (depth, s)
        | [] => (depth, s)
        end
      else (depth, s)
  | [] => (depth, s)
  end.

(** [getDepth(s)] returns [{ depth, rest }]. *)
Definition getDepth (s : jsstring) : nat * jsstring := getDepthFrom 0 s.

(** ** Nodes

    Node objects are shared between the tree and the ancestor stack and are
    mutated through both, so they live in a heap: the list of the objects in
    the order of their creation, an object being referred to by its position
    there. *)

Abbreviation ref := nat.

Module RawNode.
Record t : Type := mk {
  id : jsstring;
  depth : Z;
  line : Z;
  text : jsstring;
  jp : option jsstring;
  label : option jsstring;
  color : option jsval;
  effectiveColor : option jsval;
  refs : list jsstring;
  pos : option jsstring;
  tags : list jsstring;
  children : list ref
}.

(** [node.children.push(child)] *)
Definition pushChild (child : ref) (n : t) : t :=
  mk (id n) (depth n) (line n) (text n) (jp n) (label n) (color n)
     (effectiveColor n) (refs n) (pos n) (tags n) (children n ++ [child]).

(** [node.effectiveColor = c] *)
Definition setEffectiveColor (c : option jsval) (n : t) : t :=
  mk (id n) (depth n) (line n) (text n) (jp n) (label n) (color n)
     c (refs n) (pos n) (tags n) (children n).
End RawNode.

Abbreviation heap := (list RawNode.t).

Definition ROOT : ref := 0.

Definition root : RawNode.t :=
  RawNode.mk (str "root") (-1) (-1) (str "root") None None None None [] None [] [].

(** ** The parser *)

(** One directive that occurs at most once: [text.match(re)] and, on a
    match, [text = text.replace(m[0], "").trim()]. *)
Definition extract (re : Re.regex) (text : jsstring) : option Re.matchResult * jsstring :=
  match Re.search re text with
  | Some m => (Some m, Js.trim (Js.replaceFirst (Re.matched m) [] text))
  | None => (None, text)
  end.

(** [while ((m = refRegex.exec(text))) refs.push(m[1].trim())] *)
Fixpoint collectRefs (fuel : nat) (text : jsstring) (lastIndex : nat)
    (refs : list jsstring) : result (list jsstring) :=
  match fuel with
  | 0 => OutOfFuel
  | S fuel' =>
      match Re.exec refRegex text lastIndex with
      | Some m =>
          collectRefs fuel' text (Re.index m + length (Re.matched m))
            (refs ++ [Js.trim (Re.group1 m)])
      | None => Ok refs
      end
  end.

Definition payloadOf (m : Re.matchResult) : jsstring := Js.trim (Re.group1 m).

Definition tagsOf (m : Re.matchResult) : list jsstring :=
  filter (fun t => Js.truthy t)
    (map (fun t => Js.toLowerCase (Js.trim t)) (Js.splitTags (Re.group1 m))).

Definition PLACEHOLDER : jsstring := str "(untitled)".

(** The node object built for the non-blank line [raw] of index [idx]. *)
Definition makeNode (idx : nat) (raw : jsstring) : result RawNode.t :=
  let '(depth, rest) := getDepth raw in
  let text := Js.trim rest in
  let '(colorMatch, text) := extract colorRegex text in
  let colorRaw := payloadOf <$> colorMatch in
  let '(labelMatch, text) := extract labelRegex text in
  let label := payloadOf <$> labelMatch in
  let '(posMatch, text) := extract posRegex text in
  let pos := (fun m => Js.toLowerCase (payloadOf m)) <$> posMatch in
  let '(jpMatch, text) := extract jpRegex text in
  let jp := payloadOf <$> jpMatch in
  let '(tagsMatch, text) := extract tagsRegex text in
  let tags := from_option tagsOf [] tagsMatch in
  let tags :=
    match pos with
    | Some p => if Js.truthy p then tags ++ [p] else tags
    | None => tags
    end in
  refs ← collectRefs (S (length text)) text 0 [];
  let text := Js.trim (Js.collapseSpaces (Re.removeAll refRegex text)) in
  Ok (RawNode.mk (str "n_" ++ str (pretty idx)) (Z.of_nat depth) (Z.of_nat idx)
        (if Js.truthy text then text else PLACEHOLDER)
        jp label (resolveColor colorRaw) None refs pos tags []).

Record state : Type := mkState {
  nodes : heap;
  stack : list ref;          (* the top of the stack is the head *)
  labelToId : gmap jsstring jsstring
}.

(** [while (stack.length && stack[stack.length - 1].depth >= depth) stack.pop()] *)
Fixpoint popWhile (h : heap) (depth : Z) (stack : list ref) : result (list ref) :=
  match stack with
  | [] => Ok []
  | top :: below =>
      match h !! top with
      | None => TypeError
      | Some n =>
          if (depth <=? RawNode.depth n)%Z then popWhile h depth below
          else Ok stack
      end
  end.

(** The callback of [lines.forEach]. *)
Definition step (st : state) (idx : nat) (raw : jsstring) : result state :=
  if negb (Js.truthy (Js.trim raw)) then Ok st
  else
    node ← makeNode idx raw;
    let r := length (nodes st) in
    let h := nodes st ++ [node] in
    stack1 ← popWhile h (RawNode.depth node) (stack st);
    match stack1 with
    | [] => TypeError
    | parent :: _ =>
        match h !! parent with
        | None => TypeError
        | Some p =>
            Ok (mkState
                  (<[parent := RawNode.pushChild r p]> h)
                  (r :: stack1)
                  (match RawNode.label node with
                   | Some l =>
                       if Js.truthy l then <[l := RawNode.id node]> (labelToId st)
                       else labelToId st
                   | None => labelToId st
                   end))
        end
    end.

Fixpoint forEachLine (lines : list jsstring) (idx : nat) (st : state) : result state :=
  match lines with
  | [] => Ok st
  | raw :: lines' => st' ← step st idx raw; forEachLine lines' (S idx) st'
  end.

(** [applyColor(node, inherited)]; the recursion follows the references of
    the heap, bounded by [fuel], which is taken off once for every nested
    call.  [parseText] gives it the number of the nodes, which no nesting
    exceeds; the call stack of an engine is the subject of [applyColorOn]. *)
Fixpoint applyColor (fuel : nat) (node : ref) (inherited : option jsval)
    (h : heap) : result heap :=
  match fuel with
  | 0 => OutOfFuel
  | S fuel' =>
      match h !! node with
      | None => TypeError
      | Some n =>
          let cur :=
            match RawNode.color n with
            | Some c => Some c
            | None => inherited
            end in
          foldl (fun acc c => h' ← acc; applyColor fuel' c cur h')
                (Ok (<[node := RawNode.setEffectiveColor cur n]> h))
                (RawNode.children n)
      end
  end.

Definition initialState : state := mkState [root] [ROOT] ∅.

Definition lines (input : jsstring) : list jsstring :=
  Js.splitOn LF (Js.normalizeNewlines input).

(** What [parseText] returns: the root object, that is its reference and the
    heap it refers into, and the label map. *)
Record parsed : Type := mkParsed {
  objects : heap;
  rootRef : ref;
  labels : gmap jsstring jsstring
}.

Definition parseText (input : jsstring) : result parsed :=
  st ← forEachLine (lines input) 0 initialState;
  h ← applyColor (length (nodes st)) ROOT None (nodes st);
  Ok (mkParsed h ROOT (labelToId st)).

(** ** Cross links

    [crossLinks] walks the laid-out hierarchy of the parsed tree.  The
    hierarchy has one node per object reachable from the root, and its
    [each] visits them breadth first, level by level.  A position object
    [{ x, y, data }] is created per visited node; it is modelled by the
    reference of that node, which determines both its identity and the
    coordinates it carries. *)

Definition childrenOf (h : heap) (r : ref) : list ref :=
  from_option RawNode.children [] (h !! r).

Fixpoint eachFrom (fuel : nat) (h : heap) (current : list ref) : result (list ref) :=
  match current with
  | [] => Ok []
  | _ :: _ =>
      match fuel with
      | 0 => OutOfFuel
      | S fuel' =>
          rest ← eachFrom fuel' h (current ≫= childrenOf h);
          Ok (current ++ rest)
      end
  end.

(** The nodes in the order in which [treeRoot.each] visits them. *)
Definition each (p : parsed) : result (list ref) :=
  eachFrom (length (objects p)) (objects p) [rootRef p].

(** [nodePos]: [if (d.data.id) map.set(d.data.id, { x, y, data })] for every
    visited node. *)
Definition nodePos (h : heap) (visited : list ref) : gmap jsstring ref :=
  foldl (fun m d =>
           match h !! d with
           | Some data =>
               if Js.truthy (RawNode.id data) then <[RawNode.id data := d]> m else m
           | None => m
           end) ∅ visited.

Module Link.
Record t : Type := mk { from : ref; to : ref; color : option jsval }.
End Link.

Definition linksOf (p : parsed) (pos : gmap jsstring ref) (data : RawNode.t) : list Link.t :=
  if Js.truthy_list (RawNode.refs data) then
    RawNode.refs data ≫= fun r =>
      let targetId := labels p !! r in
      let from := pos !! RawNode.id data in
      let to :=
        match targetId with
        | Some t => if Js.truthy t then pos !! t else None
        | None => None
        end in
      match from, to with
      | Some f, Some t =>
          if bool_decide (f ≠ t) then [Link.mk f t (RawNode.effectiveColor data)] else []
      | _, _ => []
      end
  else [].

Definition crossLinks (p : parsed) : result (list Link.t) :=
  visited ← each p;
  let pos := nodePos (objects p) visited in
  Ok (visited ≫= fun d => from_option (linksOf p pos) [] (objects p !! d)).

(** * The editor and the view

    The rest of [src/VocabularyMindMapApp.tsx] that is a computation on
    strings, lists and maps: the indentation that a new line inherits, the
    key handler of the text area, the mapping between lines and character
    ranges, the tag filter, the snapshot history and the click on a node.
    A handler is modelled by the function from what it reads to what it
    passes to the state setters and to [setSelectionRange]. *)

Module JsStr.

(** [pieces.join(sep)] *)
Fixpoint join (sep : jsstring) (pieces : list jsstring) : jsstring :=
  match pieces with
  | [] => []
  | p :: rest =>
      match rest with
      | [] => p
      | _ :: _ => p ++ sep ++ join sep rest
      end
  end.

(** [a.slice(from, to)] and [a.slice(from)] for indices that are not
    negative: an index beyond the end is the end, and [to <= from] gives
    the empty sequence. *)
Definition slice {A : Type} (a : list A) (from to : nat) : list A :=
  take (to - from) (drop from a).

Definition sliceFrom {A : Type} (a : list A) (from : nat) : list A := drop from a.

(** [s.startsWith(p)] *)
Definition startsWith (p s : jsstring) : bool :=
  match Js.stripPrefix p s with
  | Some _ => true
  | None => false
  end.

(** [s.indexOf(p, from)] for [from >= 0]; [None] is [-1]. *)
Definition indexOfFrom (p s : jsstring) (from : nat) : option nat :=
  let start := from `min` length s in
  (fun i => start + i) <$> Js.indexOf p (drop start s).

(** The largest [k < n] at which [p] occurs in [s]. *)
Fixpoint lastIndexBelow (p s : jsstring) (n : nat) : option nat :=
  match n with
  | 0 => None
  | S k => if startsWith p (drop k s) then Some k else lastIndexBelow p s k
  end.

(** [s.lastIndexOf(p, position)]: the search starts at [position] clamped
    between 0 and [s.length - p.length] and goes down; a position left out
    is the end.  [None] is [-1]. *)
Definition lastIndexOf (p s : jsstring) (position : option Z) : option nat :=
  let len := Z.of_nat (length s) in
  let pos := from_option id len position in
  let start := ((pos `max` 0) `min` (len - Z.of_nat (length p)))%Z in
  lastIndexBelow p s (Z.to_nat (start + 1)).

(** [s.split(re)] for an expression [[...]+] over the characters of [sep]:
    the pieces between the maximal runs of separators; a run at either end
    leaves an empty piece there. *)
Fixpoint splitRuns (sep : ascii -> bool) (s : jsstring) : list jsstring :=
  match s with
  | [] => [[]]
  | c :: s' =>
      if sep c then
        match s' with
        | c' :: _ => if sep c' then splitRuns sep s' else [] :: splitRuns sep s'
        | [] => [[]; []]
        end
      else match splitRuns sep s' with
           | piece :: rest => (c :: piece) :: rest
           | [] => [[c]]
           end
  end.

End JsStr.

(** ** Automatic indentation *)

Definition isTab (c : ascii) : bool := Ascii.eqb c TAB.

(** [(?: {2})+] at the head of [s], greedy; empty where there is no pair. *)
Fixpoint spacePairs (s : jsstring) : jsstring :=
  match s with
  | c :: c1 :: s2 =>
      if Ascii.eqb c SPACE && Ascii.eqb c1 SPACE then c :: c1 :: spacePairs s2 else []
  | _ => []
  end.

(** [s.match(/^(\t+|(?: {2})+)/)]: the alternative of the tabs is tried
    first; [m ? m[0] : ""]. *)
Definition leadingIndent (s : jsstring) : jsstring :=
  match Js.takeWhile isTab s with
  | [] => spacePairs s
  | tabs => tabs
  end.

Definition nextLineIndent (prevLine : jsstring) : jsstring := leadingIndent prevLine.

(** ** The key handler of the text area *)

Module Textarea.
Record t : Type := mk { value : jsstring; selectionStart : nat; selectionEnd : nat }.
End Textarea.

Module KeyEvent.
Record t : Type := mk { key : jsstring; ctrlKey : bool; metaKey : bool; shiftKey : bool }.
End KeyEvent.

(** What a key press leads to: a snapshot, or a new text with the selection
    to set on the next frame, or nothing (the default action is left to the
    browser). *)
Inductive keyAction : Type :=
| SaveSnapshot
| SetText (next : jsstring) (selStart : nat) (selEnd : Z)
| NoAction.

(** The branch of [Enter]: the new text and the caret. *)
Definition enterKey (value : jsstring) (start end_ : nat) : jsstring * nat :=
  let before := JsStr.slice value 0 start in
  let after := JsStr.sliceFrom value end_ in
  let prevLineStart :=
    match JsStr.lastIndexOf [LF] before None with
    | Some i => S i
    | None => 0
    end in
  let prevLine := JsStr.sliceFrom before prevLineStart in
  let indent := nextLineIndent prevLine in
  let insert := [LF] ++ indent in
  let next := before ++ insert ++ after in
  (next, length before + length insert).

Definition outdentLine (ln : jsstring) : jsstring :=
  if JsStr.startsWith [TAB] ln then JsStr.sliceFrom ln 1
  else if JsStr.startsWith [SPACE; SPACE] ln then JsStr.sliceFrom ln 2
  else ln.

Definition indentLine (ln : jsstring) : jsstring := [SPACE; SPACE] ++ ln.

(** The branch of [Tab]: the new text, [newStart] and [newEnd]. *)
Definition tabKey (value : jsstring) (selStart selEnd : nat) (isShift : bool)
    : jsstring * nat * Z :=
  let lineStart :=
    match JsStr.lastIndexOf [LF] value (Some (Z.of_nat selStart - 1)%Z) with
    | Some i => S i
    | None => 0
    end in
  let lineEnd := JsStr.indexOfFrom [LF] value selEnd in
  let actualLineEnd := from_option id (length value) lineEnd in
  let selection := JsStr.slice value lineStart actualLineEnd in
  let lines := Js.splitOn LF selection in
  let changed :=
    JsStr.join [LF]
      (map (fun ln => if isShift then outdentLine ln else indentLine ln) lines) in
  let next := JsStr.slice value 0 lineStart ++ changed ++ JsStr.sliceFrom value actualLineEnd in
  let delta := (Z.of_nat (length changed) - Z.of_nat (length selection))%Z in
  let newStart := selStart + (if isShift then 0 else 2) in
  let newEnd := (Z.of_nat selEnd + delta)%Z in
  (next, newStart, newEnd).

Definition handleEditorKeyDown (e : KeyEvent.t) (ta : Textarea.t) : keyAction :=
  if (KeyEvent.ctrlKey e || KeyEvent.metaKey e)
     && bool_decide (Js.toLowerCase (KeyEvent.key e) = str "s")
  then SaveSnapshot
  else if bool_decide (KeyEvent.key e = str "Enter") then
    let '(next, caret) :=
      enterKey (Textarea.value ta) (Textarea.selectionStart ta) (Textarea.selectionEnd ta) in
    SetText next caret (Z.of_nat caret)
  else if bool_decide (KeyEvent.key e = str "Tab") then
    let '(next, newStart, newEnd) :=
      tabKey (Textarea.value ta) (Textarea.selectionStart ta) (Textarea.selectionEnd ta)
             (KeyEvent.shiftKey e) in
    SetText next newStart newEnd
  else NoAction.

(** ** Lines and character ranges *)

(** [for (let i = 0; i < lineIdx; i++) start += lines[i].length + 1]: the
    turns [i .. i + todo - 1] of the loop. *)
Fixpoint sumLines (ls : list jsstring) (i todo start : nat) : result nat :=
  match todo with
  | 0 => Ok start
  | S todo' =>
      match ls !! i with
      | Some l => sumLines ls (S i) todo' (start + (length l + 1))
      | None => TypeError
      end
  end.

(** [handleSelectLine(lineIdx)] with the text area mounted: the arguments of
    [setSelectionRange] and the caret line that is set. *)
Definition handleSelectLine (text : jsstring) (lineIdx : Z) : result (nat * nat * Z) :=
  let ls := lines text in
  start ← sumLines ls 0 (Z.to_nat lineIdx) 0;
  let len :=
    if (lineIdx <? 0)%Z then 0
    else from_option length 0 (ls !! Z.to_nat lineIdx) in
  Ok (start, start + len, lineIdx).

(** [onEditorCursor]: the caret line for the text area value and
    [selectionStart]. *)
Definition onEditorCursor (value : jsstring) (upto : nat) : Z :=
  let before := Js.normalizeNewlines (JsStr.slice value 0 upto) in
  (Z.of_nat (length (Js.splitOn LF before)) - 1)%Z.

(** [idToLine]: [if (typeof d.data.line === "number" && d.data.line >= 0)
    m.set(d.data.id, d.data.line)] for every visited node. *)
Definition idToLineOf (h : heap) (visited : list ref) : gmap jsstring Z :=
  foldl (fun m d =>
           match h !! d with
           | Some data =>
               if (0 <=? RawNode.line data)%Z
               then <[RawNode.id data := RawNode.line data]> m else m
           | None => m
           end) ∅ visited.

Definition idToLine (p : parsed) : result (gmap jsstring Z) :=
  visited ← each p;
  Ok (idToLineOf (objects p) visited).

(** [onNodeClick(data)]: the text of the alert, if one is shown, and what
    [handleSelectLine] does, if it is called. *)
Definition onNodeClick (text : jsstring) (lineOf : gmap jsstring Z) (data : RawNode.t)
    : result (option jsstring * option (nat * nat * Z)) :=
  let alert :=
    match RawNode.jp data with
    | Some jp =>
        if Js.truthy jp && (0 <? length (Js.trim jp))
        then Some (RawNode.text data ++ str " : " ++ jp)
        else None
    | None => None
    end in
  match lineOf !! RawNode.id data with
  | Some line => sel ← handleSelectLine text line; Ok (alert, Some sel)
  | None => Ok (alert, None)
  end.

(** ** The tag filter *)

Definition isQuerySep (c : ascii) : bool := Ascii.eqb c SPACE || Ascii.eqb c COMMA.

(** [tagQuery.toLowerCase().split(/[ ,]+/).map(s => s.trim()).filter(Boolean)] *)
Definition wantedTags (tagQuery : jsstring) : list jsstring :=
  filter (fun t => Js.truthy t)
    (map Js.trim (JsStr.splitRuns isQuerySep (Js.toLowerCase tagQuery))).

(** [nodeMatches(n)] for the wanted tags of the current query. *)
Definition nodeMatches (wanted : list jsstring) (n : RawNode.t) : bool :=
  (length wanted =? 0) || forallb (fun t => bool_decide (t ∈ RawNode.tags n)) wanted.

(** ** The snapshot history *)

Module Snapshot.
Record t : Type := mk { ts : Z; text : jsstring }.
End Snapshot.

(** [saveSnapshot()] at the time [now]: the next history. *)
Definition saveSnapshot (now : Z) (text : jsstring) (history : list Snapshot.t)
    : list Snapshot.t :=
  JsStr.slice (Snapshot.mk now text :: history) 0 30.

(** * Vocabulary of the specification *)

Inductive indentUnit : jsstring -> Prop :=
| unit_tab : indentUnit [TAB]
| unit_pair : indentUnit [SPACE; SPACE].

Definition stopsIndent (rest : jsstring) : Prop :=
  forall u, indentUnit u -> ~ u `prefix_of` rest.

Definition keywordMatches (re : Re.regex) (w : jsstring) : Prop :=
  Forall2 (fun p t => Re.charMatches (Re.ignoreCase re) p t = true) (Re.keyword re) w.

(** [m0] is an occurrence of the directive of [re] with payload [g]. *)
Definition isDirective (re : Re.regex) (m0 g : jsstring) : Prop :=
  exists bs w,
    (bs = [BACKSLASH] \/ bs = [BACKSLASH; BACKSLASH]) /\ keywordMatches re w /\
    g <> [] /\ (RBRACE ∉ g) /\ m0 = bs ++ w ++ [LBRACE] ++ g ++ [RBRACE].

(** The keyword of every expression of the parser starts with a letter. *)
Definition keywordStartsPlain (re : Re.regex) : Prop :=
  exists k kw, Re.keyword re = k :: kw /\ Re.canonicalize k <> BACKSLASH /\ k <> BACKSLASH.

(** No occurrence of the directive starts at one of the first [n] positions. *)
Definition noMatchBefore (re : Re.regex) (n : nat) (s : jsstring) : Prop :=
  forall k, k < n -> Re.matchHere re (drop k s) = None.

(** The occurrences that a left-to-right, find-all scan of [s] meets: each
    with the text skipped before it, its matched text and its payload; [tail]
    is what follows the last one. *)
Inductive occurrences (re : Re.regex) :
    jsstring -> list (jsstring * jsstring * jsstring) -> jsstring -> Prop :=
| occ_done tail :
    (forall k, Re.matchHere re (drop k tail) = None) ->
    occurrences re tail [] tail
| occ_next gap m0 g rest occs tail :
    noMatchBefore re (length gap) (gap ++ m0 ++ rest) ->
    Re.matchHere re (m0 ++ rest) = Some (g, rest) ->
    occurrences re rest occs tail ->
    occurrences re (gap ++ m0 ++ rest) ((gap, m0, g) :: occs) tail.

Definition occGap (o : jsstring * jsstring * jsstring) : jsstring := o.1.1.
Definition occMatched (o : jsstring * jsstring * jsstring) : jsstring := o.1.2.
Definition occPayload (o : jsstring * jsstring * jsstring) : jsstring := o.2.


(** Neither the first nor the last character is white space. *)
Definition noOuterWhiteSpace (s : jsstring) : Prop :=
  (forall c, head s = Some c -> Js.isWhiteSpace c = false) /\
  (forall c, last s = Some c -> Js.isWhiteSpace c = false).



Definition depthOf (h : heap) (r : ref) : Z :=
  from_option RawNode.depth 0%Z (h !! r).

(** A node as it was created: the two fields written later, its children
    and its effective colour, are left out. *)
Definition created (n : RawNode.t) : RawNode.t :=
  RawNode.mk (RawNode.id n) (RawNode.depth n) (RawNode.line n) (RawNode.text n)
    (RawNode.jp n) (RawNode.label n) (RawNode.color n) None (RawNode.refs n)
    (RawNode.pos n) (RawNode.tags n) [].

Definition blank (raw : jsstring) : bool := negb (Js.truthy (Js.trim raw)).

(** The text of a line once the five directives that occur at most once have
    been extracted, in the order of the parser. *)
Definition afterColor (raw : jsstring) : jsstring :=
  (extract colorRegex (Js.trim (getDepth raw).2)).2.
Definition afterLabel (raw : jsstring) : jsstring :=
  (extract labelRegex (afterColor raw)).2.
Definition afterPos (raw : jsstring) : jsstring :=
  (extract posRegex (afterLabel raw)).2.
Definition afterJp (raw : jsstring) : jsstring :=
  (extract jpRegex (afterPos raw)).2.
Definition afterDirectives (raw : jsstring) : jsstring :=
  (extract tagsRegex (afterJp raw)).2.

Definition displayText (text : jsstring) : jsstring :=
  let t := Js.trim (Js.collapseSpaces text) in
  if Js.truthy t then t else PLACEHOLDER.

(** The invariant of the parsing loop; [ls] are the lines consumed so far. *)
Record invariant (ls : list jsstring) (st : state) : Prop := mkInvariant {
  inv_root : created <$> (nodes st !! ROOT) = Some root;
  inv_line : forall r n, r <> ROOT -> nodes st !! r = Some n ->
    exists idx raw,
      ls !! idx = Some raw /\ blank raw = false /\ makeNode idx raw = Ok (created n);
  inv_line_node : forall idx raw,
    ls !! idx = Some raw -> blank raw = false ->
    exists r n, r <> ROOT /\ nodes st !! r = Some n /\ makeNode idx raw = Ok (created n);
  inv_line_mono : forall r r' n n',
    r < r' -> nodes st !! r = Some n -> nodes st !! r' = Some n' ->
    (RawNode.line n < RawNode.line n')%Z;
  inv_stack_sorted : StronglySorted (fun a b => b < a) (stack st);
  inv_stack_bound : Forall (fun r => r < length (nodes st)) (stack st);
  inv_stack_root : last (stack st) = Some ROOT;
  inv_stack_open : forall r,
    r < length (nodes st) ->
    (forall r', r < r' < length (nodes st) ->
                (depthOf (nodes st) r < depthOf (nodes st) r')%Z) ->
    r ∈ stack st;
  inv_children_bound : forall p n c,
    nodes st !! p = Some n -> c ∈ RawNode.children n -> p < c < length (nodes st);
  inv_children_depth : forall p n c,
    nodes st !! p = Some n -> c ∈ RawNode.children n ->
    (RawNode.depth n < depthOf (nodes st) c)%Z;
  inv_children_recent : forall p n c r,
    nodes st !! p = Some n -> c ∈ RawNode.children n -> p < r < c ->
    (depthOf (nodes st) c <= depthOf (nodes st) r)%Z;
  inv_children_nodup : forall p n,
    nodes st !! p = Some n -> NoDup (RawNode.children n);
  inv_parent_unique : forall p1 p2 n1 n2 c,
    nodes st !! p1 = Some n1 -> nodes st !! p2 = Some n2 ->
    c ∈ RawNode.children n1 -> c ∈ RawNode.children n2 -> p1 = p2;
  inv_has_parent : forall c,
    0 < c < length (nodes st) ->
    exists p n, nodes st !! p = Some n /\ c ∈ RawNode.children n;
  inv_labels : forall l i,
    labelToId st !! l = Some i ->
    Js.truthy l = true /\
    exists r n, r <> ROOT /\ nodes st !! r = Some n /\ RawNode.id n = i /\
                RawNode.label n = Some l /\
                forall r' n', r < r' -> nodes st !! r' = Some n' ->
                              RawNode.label n' <> Some l;
  inv_labelled : forall r n l,
    nodes st !! r = Some n -> RawNode.label n = Some l -> Js.truthy l = true ->
    is_Some (labelToId st !! l)
}.

Inductive descendant (h : heap) : ref -> ref -> Prop :=
| desc_refl n : descendant h n n
| desc_step n nd c r :
    h !! n = Some nd -> c ∈ RawNode.children nd -> descendant h c r ->
    descendant h n r.

Record treeHeap (h : heap) : Prop := mkTreeHeap {
  tree_bound : forall p n c,
    h !! p = Some n -> c ∈ RawNode.children n -> p < c < length h;
  tree_nodup : forall p n, h !! p = Some n -> NoDup (RawNode.children n);
  tree_parent : forall p1 p2 n1 n2 c,
    h !! p1 = Some n1 -> h !! p2 = Some n2 ->
    c ∈ RawNode.children n1 -> c ∈ RawNode.children n2 -> p1 = p2
}.

(** [a ?? b] *)
Definition coalesce (a b : option jsval) : option jsval :=
  match a with Some c => Some c | None => b end.

Definition shapeOf (n : RawNode.t) : RawNode.t := RawNode.setEffectiveColor None n.

(** Two heaps that differ in the effective colours only. *)
Definition sameShape (h h' : heap) : Prop := shapeOf <$> h = shapeOf <$> h'.

Definition effAt (h : heap) (r : ref) : option jsval := h !! r ≫= RawNode.effectiveColor.
Definition colorAt (h : heap) (r : ref) : option jsval := h !! r ≫= RawNode.color.

(** The chain of nodes from a node up to the root: the node itself first. *)
Inductive ancestry (h : heap) : ref -> list RawNode.t -> Prop :=
| ancestry_root n : h !! ROOT = Some n -> ancestry h ROOT [n]
| ancestry_child q nq path c nc :
    ancestry h q (nq :: path) -> c ∈ RawNode.children nq -> h !! c = Some nc ->
    ancestry h c (nc :: nq :: path).

(** The declared colour of the nearest node of the chain that has one. *)
Fixpoint nearestColor (path : list RawNode.t) : option jsval :=
  match path with
  | [] => None
  | n :: path' =>
      match RawNode.color n with
      | Some c => Some c
      | None => nearestColor path'
      end
  end.

(** The inputs of the self tests of the source. *)
Definition indentSample : jsstring :=
  str "A" ++ [LF] ++ str "  B" ++ [LF] ++ str "    C".
Definition colorSample : jsstring :=
  str "Parent \color{red}" ++ [LF] ++ str "  Child".
Definition jumpSample : jsstring :=
  str "A" ++ [LF] ++ str "      B" ++ [LF] ++ str "  " ++ [LF] ++ str "  C".

(** The field [f] of every object of a parse, in the order of creation. *)
Definition fieldsOf {A : Type} (f : RawNode.t -> A) (input : jsstring) : list A :=
  match parseText input with
  | Ok p => f <$> objects p
  | _ => []
  end.

(** Two strings that differ in the case of their letters only. *)
Definition sameUpToCase (s s' : jsstring) : Prop :=
  Re.canonicalize <$> s = Re.canonicalize <$> s'.

Definition sameMatch (r r' : option (jsstring * jsstring)) : Prop :=
  option_Forall2 (fun x y => sameUpToCase x.1 y.1 /\ sameUpToCase x.2 y.2) r r'.

Definition refSample : jsstring :=
  str "node \label{apple}" ++ [LF] ++ str "use \ref{apple} here".

(** The entry of the label map of a parse. *)
Definition labelOf (input key : jsstring) : option jsstring :=
  match parseText input with
  | Ok p => labels p !! key
  | _ => None
  end.

(** A text without a backslash: no directive starts in it. *)
Definition plain (s : jsstring) : Prop := BACKSLASH ∉ s.

(** The text of a reference, or label, directive with the payload [x]. *)
Definition directiveText (keyword x : jsstring) : jsstring :=
  [BACKSLASH] ++ keyword ++ [LBRACE] ++ x ++ [RBRACE].

(** The text [w] stands somewhere in [s]. *)
Definition occursIn (w s : jsstring) : Prop := exists u v, s = u ++ w ++ v.

(** The claim on references as it is stated, for the input [input] and the
    payload [x]: where one line holds the label directive of [x] and another
    the reference directive of [x], the label map sends [x] to the identity
    of the node of the first, the references of the node of the second
    contain [x], and its display text holds no opening of a reference
    directive. *)
Definition refRoundTrip (input x : jsstring) : Prop :=
  forall i j li lj,
    lines input !! i = Some li -> lines input !! j = Some lj -> i <> j ->
    occursIn (directiveText (str "label") x) li ->
    occursIn (directiveText (str "ref") x) lj ->
    exists p ni nj,
      parseText input = Ok p /\ ni ∈ objects p /\ nj ∈ objects p /\
      RawNode.line ni = Z.of_nat i /\ RawNode.line nj = Z.of_nat j /\
      labels p !! x = Some (RawNode.id ni) /\
      x ∈ RawNode.refs nj /\
      ~ occursIn (str "\ref{") (RawNode.text nj).

(** A line with a reference directive and, after it, the opening of one
    that has no payload. *)
Definition residualSample : jsstring :=
  str "a \label{x}" ++ [LF] ++ str "b \ref{x} \ref{}".

(** The claim on the part of speech, as a property of one line: whenever the
    directive matches, the stored part of speech is the payload, trimmed and
    in lower case, and that form is among the tags. *)
Definition posAppended (idx : nat) (raw : jsstring) : Prop :=
  forall n m,
    makeNode idx raw = Ok n ->
    Re.search posRegex (afterLabel raw) = Some m ->
    RawNode.pos n = Some (Js.toLowerCase (Js.trim (Re.group1 m))) /\
    Js.toLowerCase (Js.trim (Re.group1 m)) ∈ RawNode.tags n.

(** The tags that the tags directive of a line declares. *)
Definition declaredTags (raw : jsstring) : list jsstring :=
  from_option tagsOf [] (extract tagsRegex (afterJp raw)).1.

(** The cross links of a parse; no link when the computation fails. *)
Definition linksOfInput (input : jsstring) : list Link.t :=
  match parseText input with
  | Ok p => match crossLinks p with Ok ls => ls | _ => [] end
  | _ => []
  end.

(** ** The limits of the engine

    Two statements of [parseText] take from the call stack of the engine as
    much as the input asks for: [tags.push(...arr)] passes every element of
    [arr] as an argument of one call, and [applyColor] calls itself once for
    every level of nesting of the outline.  An engine takes finitely many
    arguments in a call and has room for finitely many nested calls; beyond
    that it throws a [RangeError].  The two limits are parameters here: they
    differ from engine to engine. *)

Record engine : Type := mkEngine {
  maxArguments : nat;     (* the arguments that one call takes *)
  maxCalls : nat          (* the calls of [applyColor] that can be nested *)
}.

(** The outcome of code on an engine: what it does within the limits, or the
    [RangeError] of a limit that is exceeded. *)
Inductive limited (A : Type) : Type :=
| Within (r : result A)
| RangeError.
Arguments Within {A} r.
Arguments RangeError {A}.

#[global] Instance limited_bind : MBind limited := fun A B k m =>
  match m with
  | Within (Ok a) => k a
  | Within TypeError => Within TypeError
  | Within OutOfFuel => Within OutOfFuel
  | RangeError => RangeError
  end.

(** The callback of [lines.forEach] on the engine [e].  The elements of
    [arr] are the tags that the tags directive of the line declares; no
    statement before [tags.push(...arr)] can throw, and the statements after
    it are those of [step]. *)
Definition stepOn (e : engine) (st : state) (idx : nat) (raw : jsstring) : limited state :=
  if negb (Js.truthy (Js.trim raw)) then Within (Ok st)
  else if maxArguments e <? length (declaredTags raw) then RangeError
  else Within (step st idx raw).

Fixpoint forEachLineOn (e : engine) (lines : list jsstring) (idx : nat) (st : state)
    : limited state :=
  match lines with
  | [] => Within (Ok st)
  | raw :: lines' => st' ← stepOn e st idx raw; forEachLineOn e lines' (S idx) st'
  end.

(** [applyColor(root, undefined)] on the engine [e].  The bound of
    [applyColor] is taken off once for every nested call, so with the bound
    [maxCalls e] it runs out exactly where the calls are nested deeper than
    the engine has room for. *)
Definition applyColorOn (e : engine) (h : heap) : limited heap :=
  match applyColor (maxCalls e) ROOT None h with
  | Ok h' => Within (Ok h')
  | TypeError => Within TypeError
  | OutOfFuel => RangeError
  end.

Definition parseTextOn (e : engine) (input : jsstring) : limited parsed :=
  st ← forEachLineOn e (lines input) 0 initialState;
  h ← applyColorOn e (nodes st);
  Within (Ok (mkParsed h ROOT (labelToId st))).

(** The nodes of [path] lead down from the node [n]: the first is a child of
    [n], and every other one a child of the one before it. *)
Fixpoint leadsDown (h : heap) (n : ref) (path : list ref) : Prop :=
  match path with
  | [] => True
  | c :: path' => c ∈ childrenOf h n /\ leadsDown h c path'
  end.

(** An outline of [n] lines, each indented one level deeper than the line
    before it. *)
Definition deepLine (k : nat) : jsstring := replicate k TAB ++ str "a".

Definition deepOutline (n : nat) : jsstring :=
  JsStr.join [LF] (deepLine <$> seq 0 n).

(** One line that declares [n] tags. *)
Definition tagList (n : nat) : jsstring := concat (replicate n (str "a,")).

Definition manyTags (n : nat) : jsstring :=
  str "x \tags{" ++ tagList n ++ [RBRACE].

(** The state of the loop after the first [k] lines of the outline: the
    nodes are a chain, every one the only child of the one before it, and
    all of them are on the stack. *)
Record chainState (k : nat) (st : state) : Prop := mkChainState {
  chain_inv : invariant (deepLine <$> seq 0 k) st;
  chain_length : length (nodes st) = S k;
  chain_stack : stack st = rev (seq 0 (S k));
  chain_depth : forall i, i <= k -> depthOf (nodes st) i = (Z.of_nat i - 1)%Z;
  chain_children : forall i, i < k -> childrenOf (nodes st) i = [S i];
  chain_last : childrenOf (nodes st) k = []
}.

(** ** Vocabulary of the editor and the view *)

(** The offset of the line [k]: the lengths of the lines before it, and one
    line feed for each. *)
Definition offsetOf (ls : list jsstring) (k : nat) : nat :=
  sum_list ((fun l => length l + 1) <$> take k ls).

(** The index of the line that the position [p] of [value] is on. *)
Definition lineAt (value : jsstring) (p : nat) : nat :=
  length (Js.splitOn LF (take p value)) - 1.

(** [lineStart] and [actualLineEnd] of the branch of [Tab]. *)
Definition lineStartOf (value : jsstring) (selStart : nat) : nat :=
  match JsStr.lastIndexOf [LF] value (Some (Z.of_nat selStart - 1)%Z) with
  | Some i => S i
  | None => 0
  end.

Definition lineEndOf (value : jsstring) (selEnd : nat) : nat :=
  from_option id (length value) (JsStr.indexOfFrom [LF] value selEnd).

(** What the branch of [Tab] does to one line. *)
Definition shiftLine (isShift : bool) (ln : jsstring) : jsstring :=
  if isShift then outdentLine ln else indentLine ln.

(** A text [P ++ M1 ++ M2 ++ M3 ++ Q] in which [M2] is selected, [M1] is the
    part of the first selected line before the selection and [M3] the part
    of the last selected line after it. *)
Record selectedLines (P M1 M2 M3 Q : jsstring) : Prop := mkSelectedLines {
  sel_before : P = [] \/ exists P', P = P' ++ [LF];
  sel_first : LF ∉ M1;
  sel_last : LF ∉ M3;
  sel_after : Q = [] \/ exists Q', Q = LF :: Q';
  sel_top : P ++ M1 = [] -> head (M2 ++ M3 ++ Q) <> Some LF
}.

(** The selected text after Tab: every line of it but the first has got its
    two spaces. *)
Definition indentedSelection (M2 : jsstring) : jsstring :=
  JsStr.join [LF]
    (match Js.splitOn LF M2 with
     | h :: t => h :: (indentLine <$> t)
     | [] => []
     end).

(** A tag as the filter can ask for it: not empty, in lower case, without
    white space at its ends. *)
Definition wellFormedTag (t : jsstring) : Prop :=
  t <> [] /\ Js.toLowerCase t = t /\ noOuterWhiteSpace t.

(** The history after the snapshots [saves], the first of them taken first. *)
Definition saveAll (saves : list (Z * jsstring)) (history : list Snapshot.t)
    : list Snapshot.t :=
  foldl (fun h s => saveSnapshot s.1 s.2 h) history saves.

(** A colour value that the view can draw with, or the slip of the preset
    lookup: a hex literal, or a member inherited from [Object.prototype]. *)
Definition hexOrInherited (v : jsval) : Prop :=
  match v with
  | VString s => isHexColor s = true
  | VInherited key => key ∈ objectPrototype
  end.

(** The nodes of the subtree of [r]: a node before its children, the
    children in their order, each with its subtree; [fuel] bounds the depth
    that is followed. *)
Fixpoint preorder (fuel : nat) (h : heap) (r : ref) : list ref :=
  match fuel with
  | 0 => []
  | S fuel' => r :: (childrenOf h r ≫= preorder fuel' h)
  end.

(** Every node of the stack is the last child of the node below it. *)
Fixpoint lastChildChain (h : heap) (stack : list ref) : Prop :=
  match stack with
  | a :: rest =>
      match rest with
      | b :: _ => last (childrenOf h b) = Some a /\ lastChildChain h rest
      | [] => True
      end
  | [] => True
  end.

(** What the parsing loop keeps besides its invariant: the nodes created so
    far, read off the tree, come in the order of their creation, and the
    stack runs along the last children. *)
Definition inTextOrder (st : state) : Prop :=
  preorder (length (nodes st)) (nodes st) ROOT = seq 0 (length (nodes st)) /\
  lastChildChain (nodes st) (stack st).

(** * Properties *)

(** ** Indentation *)

(** Induction on the length of a string, for scanners that consume more than
    one character per step. *)
Lemma jsstring_length_ind (P : jsstring -> Prop) :
  (forall s, (forall s', length s' < length s -> P s') -> P s) -> forall s, P s.
Proof.
  intros H s. remember (length s) as n eqn:Hn. revert s Hn.
  induction n as [n IH] using lt_wf_ind. intros s ->.
  apply H. intros s' Hlt. exact (IH _ Hlt s' eq_refl).
Qed.

Lemma getDepthFrom_shift s : forall d,
  getDepthFrom d s = (d + (getDepthFrom 0 s).1, (getDepthFrom 0 s).2).
Proof.
  induction s as [s IH] using jsstring_length_ind. intros d.
  destruct s as [|c s1]; simpl.
  - f_equal. lia.
  - destruct (Ascii.eqb c TAB).
    + rewrite (IH s1 ltac:(simpl; lia) (S d)), (IH s1 ltac:(simpl; lia) 1).
      simpl. f_equal. lia.
    + destruct (Ascii.eqb c SPACE); [|simpl; f_equal; lia].
      destruct s1 as [|c1 s2]; [simpl; f_equal; lia|].
      destruct (Ascii.eqb c1 SPACE); [|simpl; f_equal; lia].
      rewrite (IH s2 ltac:(simpl; lia) (S d)), (IH s2 ltac:(simpl; lia) 1).
      simpl. f_equal. lia.
Qed.

Lemma getDepth_tab s :
  getDepth (TAB :: s) = (S (getDepth s).1, (getDepth s).2).
Proof. unfold getDepth. simpl. by rewrite getDepthFrom_shift. Qed.

Lemma getDepth_pair s :
  getDepth (SPACE :: SPACE :: s) = (S (getDepth s).1, (getDepth s).2).
Proof. unfold getDepth. simpl. by rewrite getDepthFrom_shift. Qed.

Lemma getDepth_stop s :
  stopsIndent s -> getDepth s = (0, s).
Proof.
  intros Hs. unfold getDepth. destruct s as [|c s1]; [done|]. simpl.
  destruct (Ascii.eqb_spec c TAB) as [->|_].
  { exfalso. apply (Hs [TAB]); [constructor|]. by exists s1. }
  destruct (Ascii.eqb_spec c SPACE) as [->|_]; [|done].
  destruct s1 as [|c1 s2]; [done|].
  destruct (Ascii.eqb_spec c1 SPACE) as [->|_]; [|done].
  exfalso. apply (Hs [SPACE; SPACE]); [constructor|]. by exists s2.
Qed.

Lemma getDepth_units s :
  exists units,
    Forall indentUnit units /\ s = concat units ++ (getDepth s).2
    /\ (getDepth s).1 = length units /\ stopsIndent (getDepth s).2.
Proof.
  induction s as [s IH] using jsstring_length_ind.
  assert (Hstop : stopsIndent s -> exists units,
    Forall indentUnit units /\ s = concat units ++ (getDepth s).2
    /\ (getDepth s).1 = length units /\ stopsIndent (getDepth s).2).
  { intros Hs. exists []. rewrite (getDepth_stop s Hs). by repeat split. }
  destruct s as [|c s1].
  { apply Hstop. intros u Hu [k Hk]. destruct Hu; discriminate. }
  destruct (Ascii.eqb_spec c TAB) as [->|Hc].
  { destruct (IH s1 ltac:(simpl; lia)) as (us & Hus & Heq & Hlen & Hst).
    exists ([TAB] :: us). rewrite getDepth_tab. simpl.
    repeat split; [by constructor; [constructor|] | by f_equal | by f_equal | done]. }
  destruct (Ascii.eqb_spec c SPACE) as [->|Hc'].
  2: { apply Hstop. intros u Hu [k Hk]. destruct Hu; simplify_eq/=. }
  destruct s1 as [|c1 s2].
  { apply Hstop. intros u Hu [k Hk]. destruct Hu; simplify_eq/=. }
  destruct (Ascii.eqb_spec c1 SPACE) as [->|Hc1].
  2: { apply Hstop. intros u Hu [k Hk]. destruct Hu; simplify_eq/=. }
  destruct (IH s2 ltac:(simpl; lia)) as (us & Hus & Heq & Hlen & Hst).
  exists ([SPACE; SPACE] :: us). rewrite getDepth_pair. simpl.
  repeat split; [by constructor; [constructor|] | by do 2 f_equal | by f_equal | done].
Qed.

(** The decomposition is unique: the depth is the number of units of the
    maximal leading run, whichever way it is found. *)
Lemma getDepth_unique units rest :
  Forall indentUnit units -> stopsIndent rest ->
  getDepth (concat units ++ rest) = (length units, rest).
Proof.
  intros Hus Hst. induction Hus as [|u us Hu _ IH]; simpl.
  - by apply getDepth_stop.
  - destruct Hu; simpl.
    + by rewrite getDepth_tab, IH.
    + by rewrite getDepth_pair, IH.
Qed.

(** ** The scanner of a directive *)

Ltac assoc_norm := repeat (progress (rewrite <- ?app_assoc; simpl)).

Section Scanner.

Lemma takeWhile_dropWhile f s : Js.takeWhile f s ++ Js.dropWhile f s = s.
Proof. induction s as [|c s IH]; simpl; [done|]. destruct (f c); simpl; by f_equal. Qed.

Lemma takeWhile_Forall f s : Forall (fun c => f c = true) (Js.takeWhile f s).
Proof.
  induction s as [|c s IH]; simpl; [constructor|].
  destruct (f c) eqn:E; by constructor.
Qed.

Lemma dropWhile_head f s c rest : Js.dropWhile f s = c :: rest -> f c = false.
Proof.
  induction s as [|d s IH]; simpl; [done|].
  destruct (f d) eqn:E; [done|]. by intros [= -> _].
Qed.

Lemma takeWhile_app_stop f g c rest :
  Forall (fun c => f c = true) g -> f c = false ->
  Js.takeWhile f (g ++ c :: rest) = g /\ Js.dropWhile f (g ++ c :: rest) = c :: rest.
Proof.
  intros Hg Hc. induction Hg as [|d g Hd _ [IH1 IH2]]; simpl.
  - by rewrite Hc.
  - rewrite Hd. by rewrite IH1, IH2.
Qed.

Lemma dropWhile_length f s : length (Js.dropWhile f s) <= length s.
Proof. induction s as [|c s IH]; simpl; [done|]. destruct (f c); simpl; lia. Qed.

Lemma notRBrace_true c : Re.notRBrace c = true <-> c <> RBRACE.
Proof. unfold Re.notRBrace. destruct (Ascii.eqb_spec c RBRACE); naive_solver. Qed.

Lemma notRBrace_false c : Re.notRBrace c = false <-> c = RBRACE.
Proof. unfold Re.notRBrace. destruct (Ascii.eqb_spec c RBRACE); naive_solver. Qed.

Lemma Forall_notRBrace g : Forall (fun c => Re.notRBrace c = true) g <-> RBRACE ∉ g.
Proof.
  rewrite Forall_forall. split.
  - intros H Hin. apply H in Hin. by apply notRBrace_true in Hin.
  - intros H c Hc. apply notRBrace_true. by intros ->.
Qed.

Lemma matchGroup_Some s g rest :
  Re.matchGroup s = Some (g, rest) <->
  s = g ++ RBRACE :: rest /\ g <> [] /\ (RBRACE ∉ g).
Proof.
  unfold Re.matchGroup. split.
  - intros H.
    pose proof (takeWhile_dropWhile Re.notRBrace s) as Hs.
    pose proof (takeWhile_Forall Re.notRBrace s) as Hg.
    destruct (Js.takeWhile Re.notRBrace s) as [|a g'] eqn:Ht; [done|].
    destruct (Js.dropWhile Re.notRBrace s) as [|c r] eqn:Hd; [done|].
    apply dropWhile_head in Hd. apply notRBrace_false in Hd as ->.
    simplify_eq. split; [done|]. split; [done|]. by apply Forall_notRBrace.
  - intros (-> & Hne & Hno).
    destruct (takeWhile_app_stop Re.notRBrace g RBRACE rest) as [-> ->].
    + by apply Forall_notRBrace.
    + by apply notRBrace_false.
    + by destruct g.
Qed.

Lemma matchLiteral_Some ic lit s s' :
  Re.matchLiteral ic lit s = Some s' <->
  exists w, s = w ++ s' /\ Forall2 (fun p t => Re.charMatches ic p t = true) lit w.
Proof.
  revert s. induction lit as [|p lit IH]; intros s; simpl.
  - split.
    + intros [= ->]. exists []. by split; [|constructor].
    + intros (w & -> & Hw). by inversion Hw.
  - destruct s as [|t s]; simpl.
    + split; [done|]. intros (w & Hs & Hw). inversion Hw; simplify_eq/=.
    + destruct (Re.charMatches ic p t) eqn:E.
      * rewrite IH. split.
        -- intros (w & -> & Hw). exists (t :: w). split; [done|]. by constructor.
        -- intros (w & Hs & Hw). inversion Hw; simplify_eq/=. by eexists.
      * split; [done|]. intros (w & Hs & Hw). inversion Hw; simplify_eq/=. congruence.
Qed.

Lemma canonicalize_fixes c x :
  x = BACKSLASH \/ x = LBRACE \/ x = RBRACE ->
  Re.canonicalize c = x <-> c = x.
Proof.
  intros Hx.
  destruct c as [[] [] [] [] [] [] [] []];
    destruct Hx as [->|[->| ->]]; vm_compute; split; congruence.
Qed.

Lemma charMatches_LBRACE ic t : Re.charMatches ic LBRACE t = true <-> t = LBRACE.
Proof.
  unfold Re.charMatches. destruct ic.
  - destruct (Ascii.eqb_spec (Re.canonicalize LBRACE) (Re.canonicalize t)) as [E|E].
    + change (Re.canonicalize LBRACE) with LBRACE in E. symmetry in E.
      apply (proj1 (canonicalize_fixes t LBRACE ltac:(auto))) in E. by subst.
    + split; [done|]. intros ->. done.
  - destruct (Ascii.eqb_spec LBRACE t); naive_solver.
Qed.

Lemma matchTail_Some re s g rest :
  Re.matchTail re s = Some (g, rest) <->
  exists w, keywordMatches re w /\ g <> [] /\ (RBRACE ∉ g) /\
            s = w ++ [LBRACE] ++ g ++ [RBRACE] ++ rest.
Proof.
  unfold Re.matchTail, keywordMatches. split.
  - destruct (Re.matchLiteral _ _ s) as [s'|] eqn:E; [|done].
    apply matchLiteral_Some in E as (w & -> & Hw).
    apply Forall2_app_inv_l in Hw as (w1 & w2 & Hw1 & Hw2 & ->).
    inversion Hw2 as [|? t ? ? Ht Hnil]; subst. inversion Hnil; subst.
    apply charMatches_LBRACE in Ht as ->.
    intros (-> & Hne & Hno)%matchGroup_Some.
    exists w1. repeat split; [done..|]. by assoc_norm.
  - intros (w & Hw & Hne & Hno & ->).
    assert (Re.matchLiteral (Re.ignoreCase re) (Re.keyword re ++ [LBRACE])
              (w ++ [LBRACE] ++ g ++ [RBRACE] ++ rest) = Some (g ++ [RBRACE] ++ rest)) as ->.
    { apply matchLiteral_Some. exists (w ++ [LBRACE]). split; [by assoc_norm|].
      apply Forall2_app; [done|]. constructor; [|constructor].
      by apply charMatches_LBRACE. }
    by apply matchGroup_Some.
Qed.

Lemma matchHere_sound re s g rest :
  Re.matchHere re s = Some (g, rest) ->
  exists m0, s = m0 ++ rest /\ isDirective re m0 g.
Proof.
  unfold Re.matchHere. destruct s as [|c s1]; [done|].
  destruct (Ascii.eqb_spec c BACKSLASH) as [->|]; [|done].
  assert (Hone : Re.matchTail re s1 = Some (g, rest) ->
                 exists m0, BACKSLASH :: s1 = m0 ++ rest /\ isDirective re m0 g).
  { intros (w & Hw & Hne & Hno & ->)%matchTail_Some.
    exists ([BACKSLASH] ++ w ++ [LBRACE] ++ g ++ [RBRACE]). split.
    - by assoc_norm.
    - exists [BACKSLASH], w. auto. }
  destruct s1 as [|c1 s2]; [done|].
  destruct (Ascii.eqb_spec c1 BACKSLASH) as [->|]; [|done].
  destruct (Re.matchTail re s2) as [[g' rest']|] eqn:E; [|done].
  intros [= -> ->]. clear Hone.
  apply matchTail_Some in E as (w & Hw & Hne & Hno & ->).
  exists ([BACKSLASH; BACKSLASH] ++ w ++ [LBRACE] ++ g ++ [RBRACE]). split.
  - by assoc_norm.
  - exists [BACKSLASH; BACKSLASH], w. auto.
Qed.

Lemma charMatches_BACKSLASH ic k :
  Re.canonicalize k <> BACKSLASH -> k <> BACKSLASH ->
  Re.charMatches ic k BACKSLASH = false.
Proof.
  intros H1 H2. unfold Re.charMatches. destruct ic.
  - change (Re.canonicalize BACKSLASH) with BACKSLASH.
    by destruct (Ascii.eqb_spec (Re.canonicalize k) BACKSLASH).
  - by destruct (Ascii.eqb_spec k BACKSLASH).
Qed.

Lemma matchHere_complete re m0 g rest :
  keywordStartsPlain re -> isDirective re m0 g ->
  Re.matchHere re (m0 ++ rest) = Some (g, rest).
Proof.
  intros (k & kw & Hkw & Hk1 & Hk2) (bs & w & Hbs & Hw & Hne & Hno & ->).
  assert (Htail : Re.matchTail re (w ++ [LBRACE] ++ g ++ [RBRACE] ++ rest) = Some (g, rest)).
  { apply matchTail_Some. by exists w. }
  destruct Hbs as [-> | ->]; assoc_norm.
  - unfold keywordMatches in Hw. rewrite Hkw in Hw.
    inversion Hw as [|? t ? w' Ht Hw']; subst. simpl in *.
    destruct (Ascii.eqb_spec t BACKSLASH) as [->|Hne'].
    + by rewrite charMatches_BACKSLASH in Ht.
    + exact Htail.
  - simpl in Htail. by rewrite Htail.
Qed.

Lemma matchHere_shorter re s g rest :
  Re.matchHere re s = Some (g, rest) -> length rest < length s.
Proof.
  intros (m0 & -> & bs & w & Hbs & _ & _ & _ & ->)%matchHere_sound.
  rewrite !length_app. destruct Hbs as [-> | ->]; simpl; lia.
Qed.

End Scanner.

(** ** Searching and finding all *)

Section FindAll.

#[local] Arguments Re.matchHere : simpl never.

Section Searching.
Context (re : Re.regex).

Lemma matchHere_split s g rest :
  Re.matchHere re s = Some (g, rest) ->
  exists m0, s = m0 ++ rest /\ m0 <> [] /\ take (length s - length rest) s = m0.
Proof.
  intros H. pose proof (matchHere_shorter _ _ _ _ H) as Hlen.
  apply matchHere_sound in H as (m0 & -> & _).
  exists m0. rewrite length_app in *. split; [done|]. split.
  - intros ->. simpl in Hlen. lia.
  - replace (length m0 + length rest - length rest) with (length m0) by lia.
    by rewrite take_app_length.
Qed.

Lemma searchFrom_Some base s m :
  Re.searchFrom re base s = Some m ->
  exists pre rest,
    s = pre ++ Re.matched m ++ rest /\ Re.index m = base + length pre /\
    Re.matchHere re (Re.matched m ++ rest) = Some (Re.group1 m, rest) /\
    noMatchBefore re (length pre) s.
Proof.
  revert base. induction s as [|c s IH]; intros base; simpl.
  - destruct (Re.matchHere re []) as [[g rest]|] eqn:E; [|done].
    apply matchHere_shorter in E. simpl in E. lia.
  - destruct (Re.matchHere re (c :: s)) as [[g rest]|] eqn:E.
    + intros [= <-]. simpl.
      destruct (matchHere_split _ _ _ E) as (m0 & Hs & Hne & Ht).
      simpl in Ht. rewrite Ht. exists [], rest. simpl. rewrite <- Hs.
      split_and!; [done|lia|done|]. intros k Hk. lia.
    + intros (pre & rest & -> & Hi & Hm & Hno)%IH.
      exists (c :: pre), rest. simpl. split_and!; [done|lia|done|].
      intros [|k] Hk; simpl; [done|]. apply Hno. lia.
Qed.

Lemma searchFrom_None base s :
  Re.searchFrom re base s = None <-> forall k, Re.matchHere re (drop k s) = None.
Proof.
  revert base. induction s as [|c s IH]; intros base; simpl.
  - destruct (Re.matchHere re []) as [[g rest]|] eqn:E.
    { apply matchHere_shorter in E. simpl in E. lia. }
    split; [|done]. intros _ k. by rewrite drop_nil.
  - destruct (Re.matchHere re (c :: s)) as [[g rest]|] eqn:E.
    + split; [done|]. intros H. specialize (H 0). simpl in H. congruence.
    + rewrite IH. split.
      * intros H [|k]; [done|]. apply H.
      * intros H k. apply (H (S k)).
Qed.

Lemma searchFrom_eq base s :
  Re.searchFrom re base s =
  match Re.matchHere re s with
  | Some (g, rest) => Some (Re.mkMatch base (take (length s - length rest) s) g)
  | None => match s with [] => None | _ :: s' => Re.searchFrom re (S base) s' end
  end.
Proof. by destruct s. Qed.

Lemma searchFrom_found base pre m0 g rest :
  noMatchBefore re (length pre) (pre ++ m0 ++ rest) ->
  Re.matchHere re (m0 ++ rest) = Some (g, rest) ->
  Re.searchFrom re base (pre ++ m0 ++ rest) = Some (Re.mkMatch (base + length pre) m0 g).
Proof.
  revert base. induction pre as [|c pre IH]; intros base Hno Hm.
  - simpl. destruct (matchHere_split _ _ _ Hm) as (m0' & Hs & Hne & Ht).
    apply app_inv_tail in Hs as <-.
    rewrite searchFrom_eq, Hm, Ht. do 2 f_equal. lia.
  - pose proof (Hno 0 ltac:(simpl; lia)) as H0. simpl in H0. simpl. rewrite H0.
    rewrite IH; [do 2 f_equal; lia| |done].
    intros k Hk. apply (Hno (S k)). simpl. lia.
Qed.

Lemma occurrences_exists s : exists occs tail, occurrences re s occs tail.
Proof.
  induction s as [s IH] using jsstring_length_ind.
  destruct (Re.searchFrom re 0 s) as [m|] eqn:E.
  - apply searchFrom_Some in E as (pre & rest & -> & _ & Hm & Hno).
    destruct (IH rest) as (occs & tail & Hocc).
    { pose proof (matchHere_shorter _ _ _ _ Hm). rewrite !length_app in *. lia. }
    exists ((pre, Re.matched m, Re.group1 m) :: occs), tail. by constructor.
  - exists [], s. constructor. by apply (searchFrom_None 0).
Qed.

Lemma occurrences_text s occs tail :
  occurrences re s occs tail ->
  s = concat (map (fun o => occGap o ++ occMatched o) occs) ++ tail.
Proof.
  induction 1 as [|gap m0 g rest occs tail _ _ _ IH]; simpl; [done|].
  rewrite <- !app_assoc. by rewrite <- IH.
Qed.

Lemma occurrences_length s occs tail :
  occurrences re s occs tail -> length occs + length tail <= length s.
Proof.
  induction 1 as [|gap m0 g rest occs tail _ Hm _ IH]; simpl; [lia|].
  apply matchHere_shorter in Hm. rewrite !length_app in *. lia.
Qed.

Lemma occurrences_directive s occs tail :
  occurrences re s occs tail ->
  Forall (fun o => isDirective re (occMatched o) (occPayload o)) occs.
Proof.
  induction 1 as [|gap m0 g rest occs tail _ Hm _ IH]; constructor; [|done].
  apply matchHere_sound in Hm as (m0' & Heq & Hd).
  by apply app_inv_tail in Heq as <-.
Qed.

Lemma removeAllFrom_skip k s :
  Re.removeAllFrom re k s = Re.removeAllFrom re 0 (drop k s).
Proof.
  revert k. induction s as [|c s IH]; intros [|k]; simpl; try done.
Qed.

Lemma removeAllFrom_gap gap s :
  noMatchBefore re (length gap) (gap ++ s) ->
  Re.removeAllFrom re 0 (gap ++ s) = gap ++ Re.removeAllFrom re 0 s.
Proof.
  induction gap as [|c gap IH]; intros Hno; [done|].
  pose proof (Hno 0 ltac:(simpl; lia)) as H0. simpl in H0.
  simpl. rewrite H0. f_equal. apply IH.
  intros k Hk. apply (Hno (S k)). simpl. lia.
Qed.

Lemma removeAllFrom_match m0 g rest :
  Re.matchHere re (m0 ++ rest) = Some (g, rest) ->
  Re.removeAllFrom re 0 (m0 ++ rest) = Re.removeAllFrom re 0 rest.
Proof.
  intros Hm. pose proof (matchHere_shorter _ _ _ _ Hm) as Hlen.
  destruct m0 as [|c m0]; [simpl in Hlen; lia|].
  simpl. simpl in Hm. rewrite Hm. rewrite removeAllFrom_skip.
  rewrite length_app. replace (length m0 + length rest - length rest) with (length m0) by lia.
  by rewrite drop_app_length.
Qed.

Lemma removeAll_no_match s :
  (forall k, Re.matchHere re (drop k s) = None) -> Re.removeAll re s = s.
Proof.
  unfold Re.removeAll. induction s as [|c s IH]; intros H; [done|].
  pose proof (H 0) as H0. simpl in H0.
  simpl. rewrite H0. f_equal. apply IH. intros k. apply (H (S k)).
Qed.

Lemma removeAll_occurrences s occs tail :
  occurrences re s occs tail ->
  Re.removeAll re s = concat (map occGap occs) ++ tail.
Proof.
  induction 1 as [tail H|gap m0 g rest occs tail Hno Hm _ IH]; simpl.
  - by apply removeAll_no_match.
  - unfold Re.removeAll in *. rewrite removeAllFrom_gap by done.
    rewrite (removeAllFrom_match _ _ _ Hm), IH. unfold occGap at 2. simpl.
    by rewrite <- app_assoc.
Qed.

End Searching.

Lemma exec_at re pre s :
  Re.exec re (pre ++ s) (length pre) = Re.searchFrom re (length pre) s.
Proof.
  unfold Re.exec. rewrite length_app.
  destruct (Nat.ltb_spec (length pre + length s) (length pre)); [lia|].
  by rewrite drop_app_length.
Qed.

Lemma collectRefs_occurrences s occs tail :
  occurrences refRegex s occs tail ->
  forall fuel pre acc, length occs < fuel ->
    collectRefs fuel (pre ++ s) (length pre) acc
    = Ok (acc ++ map (fun o => Js.trim (occPayload o)) occs).
Proof.
  induction 1 as [tail H|gap m0 g rest occs tail Hno Hm _ IH];
    intros fuel pre acc Hfuel; (destruct fuel as [|fuel]; [simpl in Hfuel; lia|]); simpl.
  - rewrite exec_at. rewrite (proj2 (searchFrom_None _ _ _) H). by rewrite app_nil_r.
  - rewrite exec_at, (searchFrom_found _ _ _ _ _ _ Hno Hm). simpl.
    replace (pre ++ gap ++ m0 ++ rest) with ((pre ++ gap ++ m0) ++ rest) by by assoc_norm.
    replace (length pre + length gap + length m0) with (length (pre ++ gap ++ m0))
      by (rewrite !length_app; lia).
    rewrite IH by (simpl in Hfuel; lia).
    by rewrite <- app_assoc.
Qed.

(** The loop that collects the references ends by itself: the bound is never
    reached. *)
Lemma collectRefs_total text :
  exists occs tail,
    occurrences refRegex text occs tail /\
    collectRefs (S (length text)) text 0 []
    = Ok (map (fun o => Js.trim (occPayload o)) occs).
Proof.
  destruct (occurrences_exists refRegex text) as (occs & tail & Hocc).
  exists occs, tail. split; [done|].
  pose proof (occurrences_length _ _ _ _ Hocc).
  apply (collectRefs_occurrences _ _ _ Hocc (S (length text)) [] []). lia.
Qed.

End FindAll.

(** ** Trimming and collapsing *)

Section Trim.

Lemma dropWhile_split f s :
  exists pre, s = pre ++ Js.dropWhile f s /\ Forall (fun c => f c = true) pre.
Proof.
  exists (Js.takeWhile f s). split.
  - by rewrite takeWhile_dropWhile.
  - apply takeWhile_Forall.
Qed.

Lemma dropWhile_head_not f s c :
  head (Js.dropWhile f s) = Some c -> f c = false.
Proof.
  destruct (Js.dropWhile f s) as [|d r] eqn:E; [done|].
  intros [= ->]. by apply dropWhile_head in E.
Qed.

Lemma dropWhile_all f s :
  Forall (fun c => f c = true) s -> Js.dropWhile f s = [].
Proof. induction 1 as [|c s Hc _ IH]; simpl; [done|]. by rewrite Hc. Qed.

Lemma dropWhile_keep f s c t :
  f c = false -> Forall (fun c => f c = true) s ->
  Js.dropWhile f (s ++ c :: t) = c :: t.
Proof.
  intros Hc. induction 1 as [|d s Hd _ IH]; simpl; [by rewrite Hc|]. by rewrite Hd.
Qed.

Lemma dropWhile_fixed f s :
  (forall c, head s = Some c -> f c = false) -> Js.dropWhile f s = s.
Proof. destruct s as [|c s]; [done|]. intros H. simpl. by rewrite (H c). Qed.

Lemma trimEnd_split s :
  exists post, s = Js.trimEnd s ++ post /\ Forall (fun c => Js.isWhiteSpace c = true) post.
Proof.
  unfold Js.trimEnd.
  destruct (dropWhile_split Js.isWhiteSpace (rev s)) as (pre & Heq & Hpre).
  exists (rev pre). split.
  - rewrite <- rev_app_distr, <- Heq. by rewrite rev_involutive.
  - by apply Forall_rev.
Qed.

Lemma last_rev_head {A} (l : list A) : last l = head (rev l).
Proof.
  induction l as [|a l IH] using rev_ind; [done|].
  by rewrite last_snoc, rev_app_distr.
Qed.

Lemma trimEnd_last s c : last (Js.trimEnd s) = Some c -> Js.isWhiteSpace c = false.
Proof.
  unfold Js.trimEnd. rewrite last_rev_head, rev_involutive. apply dropWhile_head_not.
Qed.

Lemma trimEnd_head s c :
  (forall d, head s = Some d -> Js.isWhiteSpace d = false) ->
  head (Js.trimEnd s) = Some c -> Js.isWhiteSpace c = false.
Proof.
  intros Hs. destruct (trimEnd_split s) as (post & Heq & _).
  destruct (Js.trimEnd s) as [|d t] eqn:E; [done|].
  intros [= ->]. apply Hs. by rewrite Heq.
Qed.

Lemma trim_split s :
  exists pre post,
    s = pre ++ Js.trim s ++ post /\
    Forall (fun c => Js.isWhiteSpace c = true) pre /\
    Forall (fun c => Js.isWhiteSpace c = true) post.
Proof.
  unfold Js.trim, Js.trimStart.
  destruct (dropWhile_split Js.isWhiteSpace s) as (pre & Heq & Hpre).
  destruct (trimEnd_split (Js.dropWhile Js.isWhiteSpace s)) as (post & Heq' & Hpost).
  exists pre, post. split; [|done]. by rewrite <- Heq', <- Heq.
Qed.

Lemma trim_noOuterWhiteSpace s : noOuterWhiteSpace (Js.trim s).
Proof.
  split.
  - unfold Js.trim, Js.trimStart. intros c. apply trimEnd_head.
    intros d. apply dropWhile_head_not.
  - apply trimEnd_last.
Qed.

Lemma trimEnd_fixed s :
  (forall c, last s = Some c -> Js.isWhiteSpace c = false) -> Js.trimEnd s = s.
Proof.
  intros H. unfold Js.trimEnd. rewrite dropWhile_fixed; [apply rev_involutive|].
  intros c. rewrite <- last_rev_head. apply H.
Qed.

Lemma trim_fixed s : noOuterWhiteSpace s -> Js.trim s = s.
Proof.
  intros [H1 H2]. unfold Js.trim, Js.trimStart.
  rewrite (dropWhile_fixed _ s H1). by apply trimEnd_fixed.
Qed.

Lemma trim_idemp s : Js.trim (Js.trim s) = Js.trim s.
Proof. apply trim_fixed, trim_noOuterWhiteSpace. Qed.

Lemma trim_length s : length (Js.trim s) <= length s.
Proof.
  destruct (trim_split s) as (pre & post & Heq & _).
  rewrite Heq at 2. rewrite !length_app. lia.
Qed.


End Trim.

Section Collapse.







End Collapse.

(** ** The node of a line *)

Section MakeNode.

(** The node of a line, field by field. *)
Lemma makeNode_eq idx raw :
  exists refs,
    collectRefs (S (length (afterDirectives raw))) (afterDirectives raw) 0 [] = Ok refs /\
    makeNode idx raw =
    Ok (RawNode.mk (str "n_" ++ str (pretty idx)) (Z.of_nat (getDepth raw).1)
          (Z.of_nat idx)
          (displayText (Re.removeAll refRegex (afterDirectives raw)))
          (payloadOf <$> (extract jpRegex (afterPos raw)).1)
          (payloadOf <$> (extract labelRegex (afterColor raw)).1)
          (resolveColor (payloadOf <$> (extract colorRegex (Js.trim (getDepth raw).2)).1))
          None refs
          ((fun m => Js.toLowerCase (payloadOf m)) <$> (extract posRegex (afterLabel raw)).1)
          (let tags := from_option tagsOf [] (extract tagsRegex (afterJp raw)).1 in
           match (fun m => Js.toLowerCase (payloadOf m)) <$> (extract posRegex (afterLabel raw)).1 with
           | Some p => if Js.truthy p then tags ++ [p] else tags
           | None => tags
           end)
          []).
Proof.
  destruct (collectRefs_total (afterDirectives raw)) as (occs & tail & _ & Hrefs).
  eexists. split; [exact Hrefs|].
  unfold makeNode, afterDirectives, afterJp, afterPos, afterLabel, afterColor in *.
  destruct (getDepth raw) as [d rest]. cbn [fst snd] in *.
  destruct (extract colorRegex (Js.trim rest)) as [cm t1]. cbn [fst snd] in *.
  destruct (extract labelRegex t1) as [lm t2]. cbn [fst snd] in *.
  destruct (extract posRegex t2) as [pm t3]. cbn [fst snd] in *.
  destruct (extract jpRegex t3) as [jm t4]. cbn [fst snd] in *.
  destruct (extract tagsRegex t4) as [tm t5]. cbn [fst snd] in *.
  rewrite Hrefs. reflexivity.
Qed.

Lemma makeNode_total idx raw : exists n, makeNode idx raw = Ok n.
Proof. destruct (makeNode_eq idx raw) as (refs & _ & ->). eauto. Qed.

Lemma makeNode_created idx raw n : makeNode idx raw = Ok n -> created n = n.
Proof. destruct (makeNode_eq idx raw) as (refs & _ & ->). by intros [= <-]. Qed.

Lemma makeNode_depth idx raw n :
  makeNode idx raw = Ok n -> RawNode.depth n = Z.of_nat (getDepth raw).1.
Proof. destruct (makeNode_eq idx raw) as (refs & _ & ->). by intros [= <-]. Qed.

Lemma makeNode_line idx raw n :
  makeNode idx raw = Ok n -> RawNode.line n = Z.of_nat idx.
Proof. destruct (makeNode_eq idx raw) as (refs & _ & ->). by intros [= <-]. Qed.

Lemma makeNode_id idx raw n :
  makeNode idx raw = Ok n -> RawNode.id n = str "n_" ++ str (pretty idx).
Proof. destruct (makeNode_eq idx raw) as (refs & _ & ->). by intros [= <-]. Qed.

Lemma makeNode_children idx raw n :
  makeNode idx raw = Ok n -> RawNode.children n = [].
Proof. destruct (makeNode_eq idx raw) as (refs & _ & ->). by intros [= <-]. Qed.

End MakeNode.

Section Stack.

Lemma popWhile_spec h D stk :
  Forall (fun r => r < length h) stk ->
  exists popped kept,
    stk = popped ++ kept /\ popWhile h D stk = Ok kept /\
    Forall (fun r => (D <= depthOf h r)%Z) popped /\
    (forall top, head kept = Some top -> (depthOf h top < D)%Z).
Proof.
  induction 1 as [|top stk Htop _ IH]; simpl.
  - exists [], []. by split_and!.
  - apply lookup_lt_is_Some in Htop as [n Hn]. rewrite Hn.
    destruct (Z.leb_spec D (RawNode.depth n)) as [Hle|Hlt].
    + destruct IH as (popped & kept & -> & Hpop & Hall & Hhead).
      exists (top :: popped), kept. split_and!; [done|done| |done].
      constructor; [|done]. unfold depthOf. by rewrite Hn.
    + exists [], (top :: stk). split_and!; [done|done|constructor|].
      intros ? [= <-]. unfold depthOf. by rewrite Hn.
Qed.

End Stack.

(** ** The parsing loop *)

Section Loop.

Lemma invariant_initial : invariant [] initialState.
Proof.
  split; simpl.
  - done.
  - intros [|r] n Hr; [done|]. by rewrite lookup_cons.
  - intros idx raw. by rewrite lookup_nil.
  - intros [|r] [|r'] n n' Hlt; try lia; by rewrite ?lookup_cons.
  - repeat constructor.
  - repeat constructor.
  - done.
  - intros r Hr _. assert (r = 0) as -> by lia. by apply list_elem_of_here.
  - intros [|p] n c; [|done]. intros [= <-]. simpl. by intros ?%elem_of_nil.
  - intros [|p] n c; [|done]. intros [= <-]. simpl. by intros ?%elem_of_nil.
  - intros [|p] n c r; [|done]. intros [= <-]. simpl. by intros ?%elem_of_nil.
  - intros [|p] n; [|done]. intros [= <-]. constructor.
  - intros [|p1] p2 n1 n2 c; [|done]. intros [= <-]. simpl. by intros _ ?%elem_of_nil.
  - intros c Hc. lia.
  - intros l i. by rewrite lookup_empty.
  - intros [|r] n l; [|done]. by intros [= <-].
Qed.

Lemma created_pushChild c n : created (RawNode.pushChild c n) = created n.
Proof. done. Qed.

Lemma created_root n :
  created <$> Some n = Some root ->
  RawNode.depth n = (-1)%Z /\ RawNode.line n = (-1)%Z /\
  RawNode.id n = str "root" /\ RawNode.refs n = [] /\ RawNode.color n = None.
Proof.
  intros H. apply (inj Some) in H.
  split_and!;
    [ apply (f_equal RawNode.depth) in H | apply (f_equal RawNode.line) in H
    | apply (f_equal RawNode.id) in H | apply (f_equal RawNode.refs) in H
    | apply (f_equal RawNode.color) in H ]; exact H.
Qed.

Lemma depth_nonneg ls st r n :
  invariant ls st -> nodes st !! r = Some n ->
  if decide (r = ROOT) then RawNode.depth n = (-1)%Z else (0 <= RawNode.depth n)%Z.
Proof.
  intros Hinv Hn. destruct (decide (r = ROOT)) as [->|Hr].
  - pose proof (inv_root _ _ Hinv) as H0. rewrite Hn in H0.
    by apply created_root in H0 as (? & _).
  - destruct (inv_line _ _ Hinv r n Hr Hn) as (idx & raw & _ & _ & Hmk).
    apply makeNode_depth in Hmk. simpl in Hmk. lia.
Qed.

Lemma line_bound ls st r n :
  invariant ls st -> nodes st !! r = Some n -> (RawNode.line n < Z.of_nat (length ls))%Z.
Proof.
  intros Hinv Hn. destruct (decide (r = ROOT)) as [->|Hr].
  - pose proof (inv_root _ _ Hinv) as H0. rewrite Hn in H0.
    apply created_root in H0 as (_ & H0 & _). lia.
  - destruct (inv_line _ _ Hinv r n Hr Hn) as (idx & raw & Hidx & _ & Hmk).
    apply makeNode_line in Hmk. simpl in Hmk. apply lookup_lt_Some in Hidx. lia.
Qed.

(** The heap after a node has been created and attached to its parent. *)
Lemma lookup_attached (h : heap) n p pn r :
  h !! p = Some pn ->
  (<[p := RawNode.pushChild (length h) pn]> (h ++ [n])) !! r =
  if decide (r = p) then Some (RawNode.pushChild (length h) pn)
  else if decide (r = length h) then Some n
  else h !! r.
Proof.
  intros Hp. pose proof (lookup_lt_Some _ _ _ Hp) as Hlt.
  destruct (decide (r = p)) as [->|Hne].
  - apply list_lookup_insert_eq. rewrite length_app. simpl. lia.
  - rewrite list_lookup_insert_ne by done.
    destruct (decide (r = length h)) as [->|Hne'].
    + rewrite lookup_app_r by lia. by rewrite Nat.sub_diag.
    + destruct (decide (r < length h)).
      * by rewrite lookup_app_l.
      * rewrite lookup_ge_None_2 by (rewrite length_app; simpl; lia).
        symmetry. apply lookup_ge_None_2. lia.
Qed.

Lemma depthOf_attached (h : heap) n p pn r :
  h !! p = Some pn ->
  depthOf (<[p := RawNode.pushChild (length h) pn]> (h ++ [n])) r =
  if decide (r = length h) then RawNode.depth n else depthOf h r.
Proof.
  intros Hp. unfold depthOf. rewrite (lookup_attached _ _ _ _ _ Hp).
  pose proof (lookup_lt_Some _ _ _ Hp) as Hlt.
  destruct (decide (r = p)) as [->|Hne].
  - rewrite decide_False by lia. by rewrite Hp.
  - by destruct (decide (r = length h)).
Qed.

Lemma depthOf_app_l (h : heap) n r : r < length h -> depthOf (h ++ [n]) r = depthOf h r.
Proof. intros Hr. unfold depthOf. by rewrite lookup_app_l. Qed.

(** What one turn of the loop does to a state that satisfies the invariant. *)
Lemma step_spec ls st raw :
  invariant ls st ->
  (blank raw = true -> step st (length ls) raw = Ok st) /\
  (blank raw = false ->
   exists n p pn popped kept,
     makeNode (length ls) raw = Ok n /\
     stack st = popped ++ p :: kept /\
     Forall (fun r => (RawNode.depth n <= depthOf (nodes st) r)%Z) popped /\
     nodes st !! p = Some pn /\
     (RawNode.depth pn < RawNode.depth n)%Z /\
     step st (length ls) raw =
     Ok (mkState
           (<[p := RawNode.pushChild (length (nodes st)) pn]> (nodes st ++ [n]))
           (length (nodes st) :: p :: kept)
           (match RawNode.label n with
            | Some l =>
                if Js.truthy l then <[l := RawNode.id n]> (labelToId st)
                else labelToId st
            | None => labelToId st
            end))).
Proof.
  intros Hinv. unfold step, blank. split.
  { by intros ->. }
  intros ->. destruct (makeNode_total (length ls) raw) as [n Hn]. rewrite Hn.
  cbn [mbind result_bind].
  assert (Hbound : Forall (fun r => r < length (nodes st ++ [n])) (stack st)).
  { eapply Forall_impl; [apply (inv_stack_bound _ _ Hinv)|].
    intros r Hr. simpl in Hr. rewrite length_app. simpl. lia. }
  destruct (popWhile_spec (nodes st ++ [n]) (RawNode.depth n) (stack st) Hbound)
    as (popped & kept & Hstk & Hpop & Hpopped & Hhead).
  rewrite Hpop. cbn [mbind result_bind].
  assert (Hpopped' : Forall (fun r => (RawNode.depth n <= depthOf (nodes st) r)%Z) popped).
  { rewrite Forall_forall in *. intros r Hr.
    rewrite <- (depthOf_app_l (nodes st) n r); [by apply Hpopped|].
    pose proof (inv_stack_bound _ _ Hinv) as Hb. rewrite Forall_forall in Hb.
    apply Hb. rewrite Hstk. apply elem_of_app. by left. }
  assert (Hdepth : (0 <= RawNode.depth n)%Z).
  { apply makeNode_depth in Hn. lia. }
  destruct kept as [|p kept].
  { exfalso. rewrite app_nil_r in Hstk.
    pose proof (inv_stack_root _ _ Hinv) as Hlast.
    apply last_Some_elem_of in Hlast. rewrite Hstk in Hlast.
    rewrite Forall_forall in Hpopped'. apply Hpopped' in Hlast.
    destruct (nodes st !! ROOT) as [n0|] eqn:E0.
    - pose proof (depth_nonneg _ _ _ _ Hinv E0) as Hd. simpl in Hd.
      unfold depthOf in Hlast. rewrite E0 in Hlast. simpl in Hlast. lia.
    - pose proof (inv_root _ _ Hinv) as H0. by rewrite E0 in H0. }
  assert (Hp : p < length (nodes st)).
  { pose proof (inv_stack_bound _ _ Hinv) as Hb. rewrite Forall_forall in Hb.
    apply Hb. rewrite Hstk. apply elem_of_app. right. by apply list_elem_of_here. }
  destruct (lookup_lt_is_Some_2 _ _ Hp) as [pn Hpn].
  rewrite (lookup_app_l_Some _ _ _ _ Hpn).
  exists n, p, pn, popped, kept. split_and!; try done.
  specialize (Hhead p eq_refl). rewrite depthOf_app_l in Hhead by done.
  unfold depthOf in Hhead. by rewrite Hpn in Hhead.
Qed.

End Loop.

(** ** One turn of the loop keeps the invariant *)

Section Preservation.

Lemma sorted_app_inv (popped kept : list ref) :
  StronglySorted (fun a b => b < a) (popped ++ kept) ->
  StronglySorted (fun a b => b < a) kept /\
  (forall a b, a ∈ popped -> b ∈ kept -> b < a).
Proof.
  induction popped as [|x popped IH]; simpl; intros H.
  - split; [done|]. by intros a b ?%elem_of_nil.
  - apply StronglySorted_inv in H as [H Hx]. destruct (IH H) as [Hk Hlt].
    split; [done|]. intros a b [->|Ha]%elem_of_cons Hb.
    + rewrite Forall_forall in Hx. apply Hx. apply elem_of_app. by right.
    + by apply Hlt.
Qed.

(** The node on top of the stack once the loop has popped is the most
    recently created node that is less deep than the new one. *)
Lemma popped_recent ls st D popped p kept :
  invariant ls st ->
  stack st = popped ++ p :: kept ->
  Forall (fun r => (D <= depthOf (nodes st) r)%Z) popped ->
  forall r, p < r < length (nodes st) -> (D <= depthOf (nodes st) r)%Z.
Proof.
  intros Hinv Hstk Hpopped r.
  remember (length (nodes st) - r) as k eqn:Hk. revert r Hk.
  induction k as [k IH] using lt_wf_ind. intros r -> Hr.
  destruct (Z.le_gt_cases D (depthOf (nodes st) r)) as [|Hlt]; [done|exfalso].
  assert (Hin : r ∈ stack st).
  { apply (inv_stack_open _ _ Hinv); [lia|]. intros r' Hr'.
    assert (D <= depthOf (nodes st) r')%Z; [|lia].
    apply (IH (length (nodes st) - r')); lia. }
  pose proof (inv_stack_sorted _ _ Hinv) as Hsorted. rewrite Hstk in Hsorted, Hin.
  apply elem_of_app in Hin as [Hin|Hin].
  - rewrite Forall_forall in Hpopped. apply Hpopped in Hin. lia.
  - apply sorted_app_inv in Hsorted as [Hsorted _].
    apply StronglySorted_inv in Hsorted as [_ Hp]. rewrite Forall_forall in Hp.
    apply elem_of_cons in Hin as [->|Hin]; [lia|]. apply Hp in Hin. lia.
Qed.

Lemma step_invariant ls st raw st' :
  invariant ls st -> step st (length ls) raw = Ok st' -> invariant (ls ++ [raw]) st'.
Proof.
  intros Hinv Hstep. destruct (step_spec ls st raw Hinv) as [Hblank Hfull].
  destruct (blank raw) eqn:Eb.
  { rewrite (Hblank eq_refl) in Hstep. injection Hstep as <-.
    destruct Hinv as [H1 H2 H2' H3 H4 H5 H6 H7 H8 H9 H9' H10 H11 H12 H13 H14]. split; try done.
    - intros r n Hr Hn. destruct (H2 r n Hr Hn) as (idx & raw' & Hidx & ?).
      exists idx, raw'. split; [|done]. by apply lookup_app_l_Some.
    - intros idx raw' Hidx Hb. apply lookup_app_Some in Hidx as [Hidx|[_ Hidx]].
      + by apply (H2' idx raw').
      + apply list_lookup_singleton_Some in Hidx as [_ <-]. congruence. }
  destruct (Hfull eq_refl) as (n & p & pn & popped & kept & Hn & Hstk & Hpopped & Hpn & Hlt & Heq).
  rewrite Heq in Hstep. injection Hstep as <-. clear Hblank Hfull Heq.
  pose proof (lookup_lt_Some _ _ _ Hpn) as Hp.
  pose proof (lookup_attached (nodes st) n p pn) as Hlook.
  pose proof (depthOf_attached (nodes st) n p pn) as Hdep.
  set (h' := <[p := RawNode.pushChild (length (nodes st)) pn]> (nodes st ++ [n])) in *.
  assert (Hlen : length h' = S (length (nodes st))).
  { unfold h'. rewrite length_insert, length_app. simpl. lia. }
  assert (Hold : forall r m, h' !! r = Some m ->
            (r = length (nodes st) /\ m = n) \/
            (r < length (nodes st) /\ exists m0, nodes st !! r = Some m0 /\
               created m = created m0 /\
               (forall c, c ∈ RawNode.children m ->
                  c ∈ RawNode.children m0 \/ (r = p /\ c = length (nodes st))) /\
               (forall c, c ∈ RawNode.children m0 -> c ∈ RawNode.children m))).
  { intros r m. rewrite (Hlook r Hpn).
    destruct (decide (r = p)) as [->|Hne].
    - intros [= <-]. right. split; [done|]. exists pn. split_and!; [done|done| |].
      + simpl. intros c [Hc|Hc%list_elem_of_singleton]%elem_of_app; auto.
      + simpl. intros c Hc. apply elem_of_app. by left.
    - destruct (decide (r = length (nodes st))) as [->|Hne'].
      + intros [= <-]. by left.
      + intros Hm. right. split; [by apply lookup_lt_Some in Hm|].
        exists m. by split_and!; auto. }
  assert (Hnew : h' !! length (nodes st) = Some n).
  { rewrite (Hlook _ Hpn). rewrite decide_False by lia. by rewrite decide_True. }
  assert (Hdn : (0 <= RawNode.depth n)%Z).
  { apply makeNode_depth in Hn. lia. }
  pose proof (inv_stack_sorted _ _ Hinv) as Hsorted. rewrite Hstk in Hsorted.
  apply sorted_app_inv in Hsorted as [Hsorted Hpk].
  pose proof (inv_stack_bound _ _ Hinv) as Hbound. rewrite Hstk in Hbound.
  apply Forall_app in Hbound as [_ Hbound].
  split; cbn [nodes stack labelToId].
  - (* root *)
    destruct (h' !! ROOT) as [m|] eqn:E0.
    + destruct (Hold _ _ E0) as [[H0 _]|(_ & m0 & Hm0 & Hc & _)]; [unfold ROOT in *; lia|].
      pose proof (inv_root _ _ Hinv) as Hr. rewrite Hm0 in Hr. simpl in *. by rewrite Hc.
    + apply lookup_ge_None_1 in E0. unfold ROOT in *. lia.
  - (* lines *)
    intros r m Hr Hm. destruct (Hold _ _ Hm) as [[-> ->]|(_ & m0 & Hm0 & Hc & _)].
    + exists (length ls), raw. split_and!; [|done|].
      * rewrite lookup_app_r by lia. by rewrite Nat.sub_diag.
      * by rewrite (makeNode_created _ _ _ Hn).
    + destruct (inv_line _ _ Hinv r m0 Hr Hm0) as (idx & raw' & Hidx & Hb & Hmk).
      exists idx, raw'. split_and!; [by apply lookup_app_l_Some|done|by rewrite Hc].
  - (* every line that is not blank has its node *)
    intros idx raw' Hidx Hb. apply lookup_app_Some in Hidx as [Hidx|[Hge Hidx]].
    + destruct (inv_line_node _ _ Hinv idx raw' Hidx Hb) as (r & m0 & Hr & Hm0 & Hmk).
      pose proof (lookup_lt_Some _ _ _ Hm0) as Hq.
      destruct (lookup_lt_is_Some_2 h' r ltac:(lia)) as [m Hm].
      exists r, m. split_and!; [done|done|].
      destruct (Hold _ _ Hm) as [[-> ->]|(_ & m0' & Hm0' & Hc & _)]; [lia|].
      rewrite Hc. congruence.
    + apply list_lookup_singleton_Some in Hidx as [Hi <-].
      assert (idx = length ls) as -> by lia.
      exists (length (nodes st)), n. split_and!; [unfold ROOT; lia|done|].
      by rewrite (makeNode_created _ _ _ Hn).
  - (* line order *)
    intros r r' m m' Hrr Hm Hm'.
    assert (Hline : forall r m, h' !! r = Some m -> r < length (nodes st) ->
              exists m0, nodes st !! r = Some m0 /\ RawNode.line m = RawNode.line m0).
    { intros r0 m1 Hm1 Hr0. destruct (Hold _ _ Hm1) as [[-> _]|(_ & m0 & Hm0 & Hc & _)]; [lia|].
      exists m0. split; [done|]. by apply (f_equal RawNode.line) in Hc. }
    destruct (Hold _ _ Hm') as [[-> ->]|(Hr' & _)].
    + destruct (Hline _ _ Hm Hrr) as (m0 & Hm0 & ->).
      rewrite (makeNode_line _ _ _ Hn). by apply (line_bound ls st r).
    + destruct (Hline _ _ Hm ltac:(lia)) as (m0 & Hm0 & ->).
      destruct (Hline _ _ Hm' Hr') as (m0' & Hm0' & ->).
      by apply (inv_line_mono _ _ Hinv r r').
  - (* stack sorted *)
    constructor; [done|]. eapply Forall_impl; [exact Hbound|]. simpl. lia.
  - (* stack bound *)
    rewrite Hlen. constructor; [lia|]. eapply Forall_impl; [exact Hbound|]. simpl. lia.
  - (* stack root *)
    pose proof (inv_stack_root _ _ Hinv) as Hlast. rewrite Hstk in Hlast.
    rewrite last_cons. rewrite last_app in Hlast.
    destruct (last (p :: kept)) eqn:E; [done|]. by apply last_None in E.
  - (* stack open *)
    rewrite Hlen. intros r Hr Hdeeper.
    destruct (decide (r = length (nodes st))) as [->|Hne]; [by apply list_elem_of_here|].
    apply list_elem_of_further.
    assert (Hrn : (depthOf (nodes st) r < RawNode.depth n)%Z).
    { specialize (Hdeeper (length (nodes st)) ltac:(lia)).
      rewrite !Hdep in Hdeeper by done.
      rewrite decide_False in Hdeeper by done. by rewrite decide_True in Hdeeper. }
    assert (Hin : r ∈ stack st).
    { apply (inv_stack_open _ _ Hinv); [lia|]. intros r' Hr'.
      specialize (Hdeeper r' ltac:(lia)). rewrite !Hdep in Hdeeper by done.
      by rewrite !decide_False in Hdeeper by lia. }
    rewrite Hstk in Hin. apply elem_of_app in Hin as [Hin|Hin]; [|done].
    rewrite Forall_forall in Hpopped. apply Hpopped in Hin. lia.
  - (* children bound *)
    rewrite Hlen. intros q m c Hm Hc.
    destruct (Hold _ _ Hm) as [[-> ->]|(Hq & m0 & Hm0 & _ & Hch & _)].
    + rewrite (makeNode_children _ _ _ Hn) in Hc. by apply elem_of_nil in Hc.
    + destruct (Hch c Hc) as [Hc0|[-> ->]]; [|lia].
      pose proof (inv_children_bound _ _ Hinv q m0 c Hm0 Hc0). lia.
  - (* children depth *)
    intros q m c Hm Hc. rewrite Hdep by done.
    destruct (Hold _ _ Hm) as [[-> ->]|(Hq & m0 & Hm0 & Hcr & Hch & _)].
    + rewrite (makeNode_children _ _ _ Hn) in Hc. by apply elem_of_nil in Hc.
    + apply (f_equal RawNode.depth) in Hcr. simpl in Hcr. rewrite Hcr.
      destruct (Hch c Hc) as [Hc0|[-> ->]].
      * pose proof (inv_children_bound _ _ Hinv q m0 c Hm0 Hc0).
        rewrite decide_False by lia. by apply (inv_children_depth _ _ Hinv q).
      * rewrite decide_True by done. congruence.
  - (* the parent is the most recent node that is less deep *)
    intros q m c r Hm Hc Hr. rewrite !Hdep by done.
    destruct (Hold _ _ Hm) as [[-> ->]|(Hq & m0 & Hm0 & _ & Hch & _)].
    { rewrite (makeNode_children _ _ _ Hn) in Hc. by apply elem_of_nil in Hc. }
    destruct (Hch c Hc) as [Hc0|[-> ->]].
    + pose proof (inv_children_bound _ _ Hinv q m0 c Hm0 Hc0).
      rewrite !decide_False by lia. by apply (inv_children_recent _ _ Hinv q m0).
    + rewrite decide_True by done. rewrite decide_False by lia.
      by apply (popped_recent ls st _ popped p kept).
  - (* children without repetition *)
    intros q m. rewrite (Hlook q Hpn).
    destruct (decide (q = p)) as [->|Hne].
    + intros [= <-]. simpl. apply NoDup_app. split_and!.
      * by apply (inv_children_nodup _ _ Hinv p).
      * intros c Hc ->%list_elem_of_singleton.
        pose proof (inv_children_bound _ _ Hinv p pn _ Hpn Hc). lia.
      * apply NoDup_singleton.
    + destruct (decide (q = length (nodes st))) as [->|Hne'].
      * intros [= <-]. rewrite (makeNode_children _ _ _ Hn). constructor.
      * apply (inv_children_nodup _ _ Hinv q).
  - (* one parent *)
    intros q1 q2 m1 m2 c Hm1 Hm2 Hc1 Hc2.
    destruct (Hold _ _ Hm1) as [[-> ->]|(Hq1 & m01 & Hm01 & _ & Hch1 & _)].
    { rewrite (makeNode_children _ _ _ Hn) in Hc1. by apply elem_of_nil in Hc1. }
    destruct (Hold _ _ Hm2) as [[-> ->]|(Hq2 & m02 & Hm02 & _ & Hch2 & _)].
    { rewrite (makeNode_children _ _ _ Hn) in Hc2. by apply elem_of_nil in Hc2. }
    destruct (Hch1 c Hc1) as [Hc01|[Hq1p Hc1n]], (Hch2 c Hc2) as [Hc02|[Hq2p Hc2n]].
    + by apply (inv_parent_unique _ _ Hinv q1 q2 m01 m02 c).
    + pose proof (inv_children_bound _ _ Hinv q1 m01 _ Hm01 Hc01). lia.
    + pose proof (inv_children_bound _ _ Hinv q2 m02 _ Hm02 Hc02). lia.
    + congruence.
  - (* every node but the root has a parent *)
    rewrite Hlen. intros c Hc.
    destruct (decide (c = length (nodes st))) as [->|Hne].
    + exists p, (RawNode.pushChild (length (nodes st)) pn). split.
      * rewrite (Hlook p Hpn). by rewrite decide_True.
      * simpl. apply elem_of_app. right. by apply list_elem_of_singleton.
    + destruct (inv_has_parent _ _ Hinv c ltac:(lia)) as (q & m0 & Hm0 & Hc0).
      pose proof (lookup_lt_Some _ _ _ Hm0) as Hq.
      destruct (lookup_lt_is_Some_2 h' q ltac:(lia)) as [m Hm].
      exists q, m. split; [done|].
      destruct (Hold _ _ Hm) as [[-> ->]|(_ & m0' & Hm0' & _ & _ & Hch)]; [lia|].
      apply Hch. congruence.
  - (* labels *)
    assert (Hkeep : forall l i, labelToId st !! l = Some i ->
              RawNode.label n <> Some l ->
              Js.truthy l = true /\
              exists r m, r <> ROOT /\ h' !! r = Some m /\ RawNode.id m = i /\
                          RawNode.label m = Some l /\
                          forall r' m', r < r' -> h' !! r' = Some m' ->
                                        RawNode.label m' <> Some l).
    { intros l i Hl Hnl.
      destruct (inv_labels _ _ Hinv l i Hl) as (Htl & r & m0 & Hr & Hm0 & Hid & Hlab & Hlast).
      split; [done|].
      pose proof (lookup_lt_Some _ _ _ Hm0) as Hq.
      destruct (lookup_lt_is_Some_2 h' r ltac:(lia)) as [m Hm].
      assert (Hcm : created m = created m0).
      { destruct (Hold _ _ Hm) as [[-> ->]|(_ & m0' & Hm0' & Hc & _)]; [lia|]. congruence. }
      exists r, m. split_and!; [done|done| | |].
      - apply (f_equal RawNode.id) in Hcm. simpl in Hcm. congruence.
      - apply (f_equal RawNode.label) in Hcm. simpl in Hcm. congruence.
      - intros r' m' Hrr Hm'.
        destruct (Hold _ _ Hm') as [[-> ->]|(_ & m0' & Hm0' & Hc & _)]; [done|].
        apply (f_equal RawNode.label) in Hc. simpl in Hc. rewrite Hc.
        by apply (Hlast r'). }
    intros l i. destruct (RawNode.label n) as [l'|] eqn:El; [|intros Hl; by apply Hkeep].
    destruct (Js.truthy l') eqn:Et.
    2: { intros Hl. apply Hkeep; [done|]. intros [= ->].
         destruct (inv_labels _ _ Hinv l i Hl) as (Htl & _). congruence. }
    destruct (decide (l' = l)) as [->|Hne].
    + rewrite lookup_insert_eq. intros [= <-]. split; [done|].
      exists (length (nodes st)), n. split_and!; [unfold ROOT; lia|done|done|done|].
      intros r' m' Hrr Hm'. apply lookup_lt_Some in Hm'. lia.
    + rewrite lookup_insert_ne by done. intros Hl. apply Hkeep; [done|congruence].
  - (* every label has an entry *)
    intros r m l Hm Hlab Htr.
    assert (Hmono : is_Some (labelToId st !! l) ->
              is_Some (match RawNode.label n with
                       | Some l0 => if Js.truthy l0 then <[l0:=RawNode.id n]> (labelToId st)
                                    else labelToId st
                       | None => labelToId st
                       end !! l)).
    { intros Hs. destruct (RawNode.label n) as [l0|]; [|done].
      destruct (Js.truthy l0); [|done].
      destruct (decide (l0 = l)) as [->|Hne].
      - rewrite lookup_insert_eq. eauto.
      - by rewrite lookup_insert_ne. }
    destruct (Hold _ _ Hm) as [[-> ->]|(_ & m0 & Hm0 & Hc & _)].
    + rewrite Hlab, Htr. rewrite lookup_insert_eq. eauto.
    + apply Hmono. apply (inv_labelled _ _ Hinv r m0 l Hm0); [|done].
      apply (f_equal RawNode.label) in Hc. simpl in Hc. congruence.
Qed.

End Preservation.

(** ** The loop as a whole, and trees in a heap *)

Section Lines.

Lemma forEachLine_app a b i st :
  forEachLine (a ++ b) i st = (st' ← forEachLine a i st; forEachLine b (i + length a) st').
Proof.
  revert i st. induction a as [|raw a IH]; intros i st; simpl.
  - by rewrite Nat.add_0_r.
  - destruct (step st i raw) as [st1| |]; cbn [mbind result_bind]; [|done..].
    rewrite IH. by replace (S i + length a) with (i + S (length a)) by lia.
Qed.

Lemma forEachLine_invariant rest : forall ls st,
  invariant ls st ->
  exists st', forEachLine rest (length ls) st = Ok st' /\ invariant (ls ++ rest) st'.
Proof.
  induction rest as [|raw rest IH]; intros ls st Hinv; simpl.
  - exists st. by rewrite app_nil_r.
  - destruct (step_spec ls st raw Hinv) as [Hblank Hfull].
    assert (exists st1, step st (length ls) raw = Ok st1) as [st1 Hst1].
    { destruct (blank raw); [eauto|].
      destruct (Hfull eq_refl) as (n & p & pn & popped & kept & _ & _ & _ & _ & _ & ->). eauto. }
    rewrite Hst1. cbn [mbind result_bind].
    pose proof (step_invariant _ _ _ _ Hinv Hst1) as Hinv1.
    destruct (IH (ls ++ [raw]) st1 Hinv1) as (st' & Hrun & Hinv').
    rewrite length_app, Nat.add_1_r in Hrun. exists st'. split; [done|].
    by rewrite <- app_assoc in Hinv'.
Qed.

(** The loop over the lines never throws, whatever the lines are. *)
Lemma forEachLine_total ls :
  exists st, forEachLine ls 0 initialState = Ok st /\ invariant ls st.
Proof. apply (forEachLine_invariant ls [] initialState invariant_initial). Qed.

End Lines.

Lemma invariant_treeHeap ls st : invariant ls st -> treeHeap (nodes st).
Proof.
  intros Hinv. split.
  - apply (inv_children_bound _ _ Hinv).
  - apply (inv_children_nodup _ _ Hinv).
  - apply (inv_parent_unique _ _ Hinv).
Qed.

Section Tree.
Context (h : heap) (Htree : treeHeap h).

Lemma descendant_le n r : descendant h n r -> n <= r.
Proof.
  induction 1 as [|n nd c r Hn Hc _ IH]; [done|].
  pose proof (tree_bound _ Htree _ _ _ Hn Hc). lia.
Qed.

Lemma descendant_trans a b c : descendant h a b -> descendant h b c -> descendant h a c.
Proof. induction 1; [done|]. intros. econstructor; eauto. Qed.

Lemma descendant_inv_r n r :
  descendant h n r ->
  r = n \/ exists q nq, descendant h n q /\ h !! q = Some nq /\ r ∈ RawNode.children nq.
Proof.
  induction 1 as [|n nd c r Hn Hc _ IH]; [by left|]. right.
  destruct IH as [->|(q & nq & Hq & Hnq & Hr)].
  - exists n, nd. split; [constructor|done].
  - exists q, nq. split; [|done]. by econstructor.
Qed.

Lemma descendant_chain r : forall a b,
  descendant h a r -> descendant h b r -> descendant h a b \/ descendant h b a.
Proof.
  induction r as [r IH] using lt_wf_ind. intros a b Ha Hb.
  destruct (descendant_inv_r _ _ Ha) as [->|(q1 & n1 & Hq1 & Hn1 & Hr1)]; [by right|].
  destruct (descendant_inv_r _ _ Hb) as [->|(q2 & n2 & Hq2 & Hn2 & Hr2)]; [by left|].
  assert (q1 = q2) as <- by (by eapply (tree_parent _ Htree)).
  apply (IH q1); [|done..]. pose proof (tree_bound _ Htree _ _ _ Hn1 Hr1). lia.
Qed.

Lemma descendant_siblings n nd c1 c2 r :
  h !! n = Some nd -> c1 ∈ RawNode.children nd -> c2 ∈ RawNode.children nd ->
  c1 <> c2 -> descendant h c1 r -> descendant h c2 r -> False.
Proof.
  intros Hn Hc1 Hc2 Hne H1 H2.
  assert (Hup : forall a b, a ∈ RawNode.children nd -> b ∈ RawNode.children nd ->
                  a <> b -> descendant h a b -> False).
  { intros a b Ha Hb Hab Hd.
    destruct (descendant_inv_r _ _ Hd) as [->|(q & nq & Hq & Hnq & Hbq)]; [done|].
    assert (q = n) as -> by (by eapply (tree_parent _ Htree)).
    apply descendant_le in Hq. pose proof (tree_bound _ Htree _ _ _ Hn Ha). lia. }
  destruct (descendant_chain r c1 c2 H1 H2); eauto.
Qed.

End Tree.

(** ** Colour inheritance *)

Section ApplyColor.

Lemma sameShape_length h h' : sameShape h h' -> length h = length h'.
Proof. intros H. apply (f_equal length) in H. by rewrite !length_fmap in H. Qed.

Lemma sameShape_lookup h h' r n :
  sameShape h h' -> h !! r = Some n ->
  exists n', h' !! r = Some n' /\ shapeOf n' = shapeOf n.
Proof.
  intros H Hn. apply (f_equal (fun l => l !! r)) in H.
  rewrite !list_lookup_fmap, Hn in H. simpl in H.
  destruct (h' !! r) as [n'|]; [|done]. exists n'. split; [done|].
  simpl in H. symmetry. by apply (inj Some).
Qed.

Lemma sameShape_refl h : sameShape h h.
Proof. done. Qed.

Lemma sameShape_sym h h' : sameShape h h' -> sameShape h' h.
Proof. done. Qed.

Lemma sameShape_insert h h' r n' c :
  sameShape h h' -> h' !! r = Some n' ->
  sameShape h (<[r := RawNode.setEffectiveColor c n']> h').
Proof.
  intros H Hn. unfold sameShape. rewrite list_fmap_insert.
  rewrite H. symmetry. apply list_insert_id. by rewrite list_lookup_fmap, Hn.
Qed.

Lemma shapeOf_children n n' : shapeOf n' = shapeOf n -> RawNode.children n' = RawNode.children n.
Proof. intros H. by apply (f_equal RawNode.children) in H. Qed.

Lemma shapeOf_color n n' : shapeOf n' = shapeOf n -> RawNode.color n' = RawNode.color n.
Proof. intros H. by apply (f_equal RawNode.color) in H. Qed.

Lemma sameShape_colorAt h h' r : sameShape h h' -> colorAt h' r = colorAt h r.
Proof.
  intros H. unfold colorAt. destruct (h !! r) as [n|] eqn:E.
  - destruct (sameShape_lookup _ _ _ _ H E) as (n' & -> & Hs). simpl.
    by apply shapeOf_color.
  - apply lookup_ge_None_1 in E. rewrite (sameShape_length _ _ H) in E.
    by rewrite (lookup_ge_None_2 _ _ E).
Qed.

Context (h0 : heap) (Htree : treeHeap h0).

Lemma applyColor_spec fuel : forall n inh h,
  sameShape h0 h -> n < length h0 -> length h0 <= fuel + n ->
  exists h',
    applyColor fuel n inh h = Ok h' /\ sameShape h0 h' /\
    (forall r, ~ descendant h0 n r -> h' !! r = h !! r) /\
    effAt h' n = coalesce (colorAt h0 n) inh /\
    (forall q nq c, descendant h0 n q -> h0 !! q = Some nq -> c ∈ RawNode.children nq ->
       effAt h' c = coalesce (colorAt h0 c) (effAt h' q)).
Proof.
  induction fuel as [|fuel IHfuel]; intros n inh h Hshape Hn Hfuel; [lia|].
  destruct (lookup_lt_is_Some_2 _ _ Hn) as [nd0 Hnd0].
  destruct (sameShape_lookup _ _ _ _ Hshape Hnd0) as (nd & Hnd & Hnd_shape).
  pose proof (shapeOf_children _ _ Hnd_shape) as Hkids.
  pose proof (shapeOf_color _ _ Hnd_shape) as Hcol.
  simpl. rewrite Hnd, Hkids, Hcol.
  set (cur := match RawNode.color nd0 with Some c => Some c | None => inh end).
  assert (Hcur : cur = coalesce (colorAt h0 n) inh).
  { unfold colorAt. by rewrite Hnd0. }
  set (h1 := <[n := RawNode.setEffectiveColor cur nd]> h).
  assert (Hshape1 : sameShape h0 h1) by (by apply sameShape_insert).
  set (F := fun (acc : result heap) (c : ref) => h' ← acc; applyColor fuel c cur h').
  assert (Hfold : forall cs hcur,
    (forall c, c ∈ cs -> c ∈ RawNode.children nd0) -> NoDup cs -> sameShape h0 hcur ->
    exists h',
      foldl F (Ok hcur) cs = Ok h' /\ sameShape h0 h' /\
      (forall r, (forall c, c ∈ cs -> ~ descendant h0 c r) -> h' !! r = hcur !! r) /\
      (forall c, c ∈ cs ->
         effAt h' c = coalesce (colorAt h0 c) cur /\
         forall q nq c', descendant h0 c q -> h0 !! q = Some nq -> c' ∈ RawNode.children nq ->
           effAt h' c' = coalesce (colorAt h0 c') (effAt h' q))).
  { induction cs as [|c cs IHcs]; intros hcur Hsub Hnodup Hsh.
    - exists hcur. split_and!; [done|done|done|]. by intros c ?%elem_of_nil.
    - apply NoDup_cons in Hnodup as [Hc_notin Hnodup].
      assert (Hc : c ∈ RawNode.children nd0) by (apply Hsub, list_elem_of_here).
      pose proof (tree_bound _ Htree _ _ _ Hnd0 Hc) as Hcb.
      destruct (IHfuel c cur hcur Hsh ltac:(lia) ltac:(lia))
        as (h2 & Hrun & Hsh2 & Hframe2 & Heff2 & Hedges2).
      destruct (IHcs h2 (fun c' Hc' => Hsub c' (list_elem_of_further _ _ _ Hc')) Hnodup Hsh2)
        as (h' & Hrun' & Hsh' & Hframe' & Hcs').
      exists h'.
      change (foldl F (Ok hcur) (c :: cs)) with (foldl F (applyColor fuel c cur hcur) cs).
      rewrite Hrun.
      split_and!; [done|done| |].
      + intros r Hr. rewrite Hframe'; [apply Hframe2|].
        * apply Hr, list_elem_of_here.
        * intros c' Hc'. apply Hr. by apply list_elem_of_further.
      + assert (Hkeep : forall r, descendant h0 c r -> h' !! r = h2 !! r).
        { intros r Hr. apply Hframe'. intros c' Hc' Hr'.
          apply (descendant_siblings h0 Htree n nd0 c c' r); try done.
          - apply Hsub. by apply list_elem_of_further.
          - by intros ->. }
        intros c' [->|Hc']%elem_of_cons; [|by apply Hcs'].
        split.
        * unfold effAt. rewrite Hkeep by constructor. exact Heff2.
        * intros q nq c' Hq Hnq Hc'. unfold effAt.
          rewrite !Hkeep; [by apply (Hedges2 q nq c')|done|].
          eapply descendant_trans; [exact Hq|]. econstructor; [done|done|constructor]. }
  destruct (Hfold (RawNode.children nd0) h1 (fun c Hc => Hc)
              (tree_nodup _ Htree _ _ Hnd0) Hshape1)
    as (h' & Hrun & Hsh' & Hframe & Hkids').
  assert (Heffn : effAt h' n = cur).
  { unfold effAt. rewrite Hframe.
    - unfold h1. rewrite list_lookup_insert_eq; [done|].
      by rewrite <- (sameShape_length _ _ Hshape).
    - intros c Hc Hd. apply (descendant_le _ Htree) in Hd.
      pose proof (tree_bound _ Htree _ _ _ Hnd0 Hc). lia. }
  exists h'. split_and!; [done|done| | |].
  - intros r Hr. rewrite Hframe.
    + unfold h1. apply list_lookup_insert_ne. intros ->. apply Hr. constructor.
    + intros c Hc Hd. apply Hr. by econstructor.
  - by rewrite Heffn, Hcur.
  - intros q nq c Hq Hnq Hc. inversion Hq as [|? nd' c0 ? Hnd' Hc0 Hd]; subst.
    + assert (nq = nd0) as -> by congruence.
      rewrite Heffn. by apply Hkids'.
    + assert (nd' = nd0) as -> by congruence.
      by apply (proj2 (Hkids' c0 Hc0) q nq c).
Qed.

End ApplyColor.

(** ** What a parse returns *)

Section Parsed.

Lemma all_reachable ls st q :
  invariant ls st -> q < length (nodes st) -> descendant (nodes st) ROOT q.
Proof.
  intros Hinv. induction q as [q IH] using lt_wf_ind. intros Hq.
  destruct (decide (q = 0)) as [->|Hne]; [constructor|].
  destruct (inv_has_parent _ _ Hinv q ltac:(lia)) as (p & n & Hn & Hc).
  pose proof (inv_children_bound _ _ Hinv _ _ _ Hn Hc).
  eapply descendant_trans; [apply (IH p); lia|].
  econstructor; [done|done|constructor].
Qed.

Lemma sameShape_created h0 h r n :
  sameShape h0 h -> h !! r = Some n ->
  exists n0, h0 !! r = Some n0 /\ created n = created n0 /\
             RawNode.children n = RawNode.children n0.
Proof.
  intros Hs Hn. destruct (sameShape_lookup _ _ _ _ (sameShape_sym _ _ Hs) Hn) as (n0 & Hn0 & Hsh).
  exists n0. split; [done|]. split.
  - apply (f_equal created) in Hsh. symmetry. exact Hsh.
  - symmetry. by apply shapeOf_children.
Qed.

Lemma sameShape_depthOf h0 h r : sameShape h0 h -> depthOf h r = depthOf h0 r.
Proof.
  intros Hs. unfold depthOf. destruct (h0 !! r) as [n0|] eqn:E.
  - destruct (sameShape_lookup _ _ _ _ Hs E) as (n & -> & Hsh). simpl.
    by apply (f_equal RawNode.depth) in Hsh.
  - apply lookup_ge_None_1 in E. rewrite (sameShape_length _ _ Hs) in E.
    by rewrite (lookup_ge_None_2 _ _ E).
Qed.

(** The limits of the engine apart, [parseText] never throws; its result is
    the state of the loop with the effective colours filled in. *)
Lemma parseText_facts input :
  exists st p,
    forEachLine (lines input) 0 initialState = Ok st /\
    invariant (lines input) st /\
    parseText input = Ok p /\
    rootRef p = ROOT /\ labels p = labelToId st /\
    sameShape (nodes st) (objects p) /\
    effAt (objects p) ROOT = colorAt (objects p) ROOT /\
    (forall q nq c, objects p !! q = Some nq -> c ∈ RawNode.children nq ->
       effAt (objects p) c = coalesce (colorAt (objects p) c) (effAt (objects p) q)).
Proof.
  destruct (forEachLine_total (lines input)) as (st & Hrun & Hinv).
  pose proof (invariant_treeHeap _ _ Hinv) as Htree.
  assert (Hlen : 0 < length (nodes st)).
  { pose proof (inv_root _ _ Hinv) as H0.
    destruct (nodes st !! ROOT) eqn:E; [|done]. by apply lookup_lt_Some in E. }
  destruct (applyColor_spec (nodes st) Htree (length (nodes st)) ROOT None (nodes st)
              (sameShape_refl _) Hlen ltac:(lia))
    as (h & Happly & Hshape & _ & Hroot & Hedges).
  exists st, (mkParsed h ROOT (labelToId st)).
  unfold parseText. rewrite Hrun. cbn [mbind result_bind]. rewrite Happly.
  cbn [mbind result_bind objects rootRef labels].
  split_and!; try done.
  - rewrite Hroot. rewrite (sameShape_colorAt _ _ _ Hshape).
    by destruct (colorAt (nodes st) ROOT).
  - intros q nq c Hq Hc.
    destruct (sameShape_created _ _ _ _ Hshape Hq) as (n0 & Hn0 & _ & Hkids).
    rewrite (sameShape_colorAt _ _ _ Hshape).
    apply (Hedges q n0 c); [|done|by rewrite <- Hkids].
    apply (all_reachable _ _ _ Hinv). by apply lookup_lt_Some in Hn0.
Qed.

Lemma ancestry_exists ls st h :
  invariant ls st -> sameShape (nodes st) h ->
  forall r n, h !! r = Some n -> exists path, ancestry h r (n :: path).
Proof.
  intros Hinv Hs. induction r as [r IH] using lt_wf_ind. intros n Hn.
  destruct (decide (r = ROOT)) as [->|Hne].
  { exists []. by constructor. }
  pose proof (lookup_lt_Some _ _ _ Hn) as Hr. rewrite <- (sameShape_length _ _ Hs) in Hr.
  destruct (inv_has_parent _ _ Hinv r ltac:(unfold ROOT in *; lia)) as (q & nq0 & Hq0 & Hc).
  pose proof (inv_children_bound _ _ Hinv _ _ _ Hq0 Hc) as Hb.
  destruct (sameShape_lookup _ _ _ _ Hs Hq0) as (nq & Hq & Hsh).
  destruct (IH q ltac:(lia) nq Hq) as (path & Hpath).
  exists (nq :: path). apply (ancestry_child h q nq path r n); [done| |done].
  by rewrite (shapeOf_children _ _ Hsh).
Qed.

Lemma ancestry_color h :
  effAt h ROOT = colorAt h ROOT ->
  (forall q nq c, h !! q = Some nq -> c ∈ RawNode.children nq ->
     effAt h c = coalesce (colorAt h c) (effAt h q)) ->
  forall r path, ancestry h r path ->
    exists n, head path = Some n /\ h !! r = Some n /\
              RawNode.effectiveColor n = nearestColor path.
Proof.
  intros Hroot Hedges r path. induction 1 as [n Hn|q nq path c nc _ IH Hc Hnc].
  - exists n. split_and!; [done|done|]. unfold effAt, colorAt in Hroot.
    rewrite Hn in Hroot. simpl in *. rewrite Hroot. by destruct (RawNode.color n).
  - destruct IH as (nq' & [= <-] & Hq & Heff).
    exists nc. split_and!; [done|done|].
    pose proof (Hedges q nq c Hq Hc) as He. unfold effAt, colorAt in He.
    rewrite Hnc, Hq in He. simpl in He. rewrite He, Heff. done.
Qed.

End Parsed.

(** ** Indentation, totality, attachment, colours *)

(** C2: the depth that [getDepth] computes is the number of units, a TAB or
    a pair of spaces each, of the maximal leading run of such units, and the
    rest is what follows that run; no other split of the line into units and a
    rest that starts with no unit exists.  A single space is not consumed.
    The lines A, two-space B, four-space C get the depths 0, 1, 2, also as
    nodes of a parse. *)
Theorem getDepth_spec (s : jsstring) :
  (exists units,
     Forall indentUnit units /\ s = concat units ++ (getDepth s).2 /\
     (getDepth s).1 = length units /\ stopsIndent (getDepth s).2) /\
  (forall units rest,
     Forall indentUnit units -> stopsIndent rest -> s = concat units ++ rest ->
     getDepth s = (length units, rest)) /\
  getDepth (str "A") = (0, str "A") /\
  getDepth (str "  B") = (1, str "B") /\
  getDepth (str "    C") = (2, str "C") /\
  getDepth (TAB :: str "  D") = (2, str "D") /\
  getDepth (str "   E") = (1, str " E") /\
  fieldsOf RawNode.depth indentSample = [-1; 0; 1; 2]%Z.
Proof.
  split; [apply getDepth_units|].
  split; [intros units rest Hu Hr ->; by apply getDepth_unique|].
  clear s. split_and!; by vm_compute.
Qed.

(** The limits of the engine apart, [parseText] returns for every input; the
    object it returns as root has the identity "root", the depth -1 and the
    line -1, every other object has a depth and a line that are not negative
    and another identity, and every object of depth 0 is a child of the
    root.  What the limits of the engine add is the subject of
    [parseTextOn]. *)
Theorem parseText_total (input : jsstring) :
  exists p rootNode,
    parseText input = Ok p /\ rootRef p = ROOT /\
    objects p !! ROOT = Some rootNode /\
    RawNode.id rootNode = str "root" /\
    RawNode.depth rootNode = (-1)%Z /\ RawNode.line rootNode = (-1)%Z /\
    (forall r n, objects p !! r = Some n -> r <> ROOT ->
       (0 <= RawNode.depth n)%Z /\ (0 <= RawNode.line n)%Z /\
       RawNode.id n <> str "root") /\
    (forall r n, objects p !! r = Some n -> RawNode.depth n = 0%Z ->
       r ∈ RawNode.children rootNode).
Proof.
  destruct (parseText_facts input) as (st & p & _ & Hinv & Hp & Hroot & _ & Hshape & _).
  assert (Hfields : forall r n, objects p !! r = Some n ->
            exists n0, nodes st !! r = Some n0 /\ created n = created n0 /\
                       RawNode.children n = RawNode.children n0).
  { intros r n. by apply sameShape_created. }
  pose proof (inv_root _ _ Hinv) as H0.
  destruct (nodes st !! ROOT) as [n0|] eqn:E0; [|done].
  destruct (sameShape_lookup _ _ _ _ Hshape E0) as (rootNode & Hr & Hsh).
  assert (Hcr : created <$> Some rootNode = Some root).
  { rewrite <- H0. simpl. f_equal. by apply (f_equal created) in Hsh. }
  apply created_root in Hcr as (Hd & Hl & Hi & _).
  exists p, rootNode. split_and!; try done.
  - intros r n Hn Hne. destruct (Hfields _ _ Hn) as (m & Hm & Hc & _).
    destruct (inv_line _ _ Hinv r m Hne Hm) as (idx & raw & _ & _ & Hmk).
    rewrite <- Hc in Hmk.
    pose proof (makeNode_depth _ _ _ Hmk) as H1.
    pose proof (makeNode_line _ _ _ Hmk) as H2.
    pose proof (makeNode_id _ _ _ Hmk) as H3. simpl in *.
    split_and!; [lia|lia|]. by rewrite H3.
  - intros r n Hn Hdepth. destruct (Hfields _ _ Hn) as (m & Hm & Hc & _).
    assert (Hdm : RawNode.depth m = 0%Z).
    { apply (f_equal RawNode.depth) in Hc. simpl in Hc. congruence. }
    assert (Hne : r <> ROOT).
    { intros ->. rewrite E0 in Hm. injection Hm as ->.
      pose proof (depth_nonneg _ _ _ _ Hinv E0) as Hx. simpl in Hx. lia. }
    pose proof (lookup_lt_Some _ _ _ Hm) as Hlt.
    destruct (inv_has_parent _ _ Hinv r ltac:(unfold ROOT in *; lia)) as (q & nq & Hq & Hcq).
    pose proof (inv_children_depth _ _ Hinv _ _ _ Hq Hcq) as Hdq.
    unfold depthOf in Hdq. rewrite Hm in Hdq. simpl in Hdq.
    pose proof (depth_nonneg _ _ _ _ Hinv Hq) as Hx.
    destruct (decide (q = ROOT)) as [->|]; [|lia].
    rewrite (shapeOf_children _ _ Hsh). congruence.
Qed.

(** C3: after any lines, a blank line leaves the state, the stack with it,
    as it is; a line that is not blank yields a node [n] of depth D, the
    stack is popped while its top has a depth of D or more, the top [p] that
    remains is less deep than D and is the most recently created such node
    (every node created after it has a depth of D or more), [n] becomes the
    last child of [p] and the new top of the stack.  No depth is refused: in
    every tree that a parse returns a child is deeper than its parent, by
    any amount, and every node created between the two is at least as deep
    as the child. *)
Theorem stack_attachment (ls : list jsstring) (raw : jsstring) :
  (exists st,
     forEachLine ls 0 initialState = Ok st /\
     (blank raw = true -> step st (length ls) raw = Ok st) /\
     (blank raw = false ->
      exists n p pn popped kept,
        makeNode (length ls) raw = Ok n /\
        stack st = popped ++ p :: kept /\
        Forall (fun r => (RawNode.depth n <= depthOf (nodes st) r)%Z) popped /\
        nodes st !! p = Some pn /\
        (RawNode.depth pn < RawNode.depth n)%Z /\
        (forall r, p < r < length (nodes st) ->
                   (RawNode.depth n <= depthOf (nodes st) r)%Z) /\
        exists st',
          step st (length ls) raw = Ok st' /\
          nodes st' = <[p := RawNode.pushChild (length (nodes st)) pn]> (nodes st ++ [n]) /\
          RawNode.children (RawNode.pushChild (length (nodes st)) pn)
            = RawNode.children pn ++ [length (nodes st)] /\
          stack st' = length (nodes st) :: p :: kept)) /\
  (forall input, exists p,
     parseText input = Ok p /\
     forall q nq c nc,
       objects p !! q = Some nq -> c ∈ RawNode.children nq -> objects p !! c = Some nc ->
       q < c /\ (RawNode.depth nq < RawNode.depth nc)%Z /\
       forall r nr, q < r < c -> objects p !! r = Some nr ->
                    (RawNode.depth nc <= RawNode.depth nr)%Z) /\
  fieldsOf RawNode.children jumpSample = [[1]; [2; 3]; []; []] /\
  fieldsOf RawNode.depth jumpSample = [-1; 0; 3; 1]%Z.
Proof.
  split; [|split; [|clear ls raw; split; by vm_compute]].
  - destruct (forEachLine_total ls) as (st & Hrun & Hinv).
    exists st. split; [done|].
    destruct (step_spec ls st raw Hinv) as [Hblank Hfull]. split; [done|].
    intros Hb. destruct (Hfull Hb) as (n & p & pn & popped & kept & Hn & Hstk & Hpop & Hpn & Hlt & Hstep).
    exists n, p, pn, popped, kept. split_and!; try done.
    + by apply (popped_recent ls st _ popped p kept).
    + eexists. split; [exact Hstep|]. done.
  - intros input.
    destruct (parseText_facts input) as (st & p & _ & Hinv & Hp & _ & _ & Hshape & _).
    exists p. split; [done|]. intros q nq c nc Hq Hc Hnc.
    destruct (sameShape_created _ _ _ _ Hshape Hq) as (nq0 & Hq0 & Hcq & Hkids).
    rewrite Hkids in Hc.
    pose proof (inv_children_bound _ _ Hinv _ _ _ Hq0 Hc) as Hb.
    pose proof (inv_children_depth _ _ Hinv _ _ _ Hq0 Hc) as Hd.
    rewrite <- (sameShape_depthOf _ _ c Hshape) in Hd.
    assert (Hdc : depthOf (objects p) c = RawNode.depth nc).
    { unfold depthOf. by rewrite Hnc. }
    apply (f_equal RawNode.depth) in Hcq. simpl in Hcq.
    split_and!; [lia|lia|].
    intros r nr Hr Hnr.
    pose proof (inv_children_recent _ _ Hinv _ _ _ r Hq0 Hc Hr) as Hrec.
    rewrite <- !(sameShape_depthOf _ _ _ Hshape) in Hrec.
    rewrite Hdc in Hrec. unfold depthOf in Hrec. by rewrite Hnr in Hrec.
Qed.

(** C4: in every tree that a parse returns the effective colour of the root
    is its declared colour, and the effective colour of any other node is
    its declared colour when it has one and the effective colour of its
    parent otherwise; so it is the declared colour of the nearest node, on
    the chain from the node up to the root, that has one, and undefined when
    none has: no colour of a descendant enters.  A node with the colour
    directive red and its child without one both get the literal of red. *)
Theorem effectiveColor_inherited (input : jsstring) :
  (exists p,
     parseText input = Ok p /\
     (forall n, objects p !! ROOT = Some n ->
        RawNode.effectiveColor n = RawNode.color n) /\
     (forall q nq c nc,
        objects p !! q = Some nq -> c ∈ RawNode.children nq -> objects p !! c = Some nc ->
        RawNode.effectiveColor nc =
        match RawNode.color nc with
        | Some col => Some col
        | None => RawNode.effectiveColor nq
        end) /\
     (forall r n, objects p !! r = Some n ->
        exists path, ancestry (objects p) r (n :: path) /\
                     RawNode.effectiveColor n = nearestColor (n :: path))) /\
  fieldsOf RawNode.effectiveColor colorSample
    = [None; Some (VString (str "#ef4444")); Some (VString (str "#ef4444"))] /\
  ownProperty (str "red") COLOR_PRESETS = Some (str "#ef4444").
Proof.
  split; [|clear input; split; by vm_compute].
  destruct (parseText_facts input) as (st & p & _ & Hinv & Hp & _ & _ & Hshape & Hroot & Hedges).
  exists p. split_and!; [done| | |].
  - intros n Hn. unfold effAt, colorAt in Hroot. by rewrite Hn in Hroot.
  - intros q nq c nc Hq Hc Hnc. pose proof (Hedges q nq c Hq Hc) as He.
    unfold effAt, colorAt in He. by rewrite Hq, Hnc in He.
  - intros r n Hn.
    destruct (ancestry_exists _ _ _ Hinv Hshape r n Hn) as (path & Hpath).
    exists path. split; [done|].
    destruct (ancestry_color _ Hroot Hedges _ _ Hpath) as (n' & [= <-] & _ & Heff). done.
Qed.

(** ** Extraction and letter case *)

Section Extraction.

#[local] Arguments Re.matchHere : simpl never.

Section Replace.

Lemma stripPrefix_Some p s rest : Js.stripPrefix p s = Some rest <-> s = p ++ rest.
Proof.
  revert s. induction p as [|a p IH]; intros s; simpl.
  - split; [by intros [= ->]|by intros ->].
  - destruct s as [|b s]; [done|].
    destruct (Ascii.eqb_spec a b) as [->|Hne].
    + rewrite IH. split; [by intros ->|by intros [= ->]].
    + split; [done|]. intros [= -> _]. done.
Qed.

Lemma indexOf_first p pre post :
  (forall j rest, j < length pre -> drop j (pre ++ p ++ post) <> p ++ rest) ->
  Js.indexOf p (pre ++ p ++ post) = Some (length pre).
Proof.
  induction pre as [|c pre IH]; intros Hno.
  - simpl. destruct (p ++ post) as [|c s] eqn:E; simpl.
    + destruct p; [done|done].
    + rewrite <- E. by rewrite (proj2 (stripPrefix_Some p (p ++ post) post) eq_refl).
  - change ((c :: pre) ++ p ++ post) with (c :: (pre ++ p ++ post)). simpl.
    destruct (Js.stripPrefix p (c :: pre ++ p ++ post)) as [rest|] eqn:E.
    { apply stripPrefix_Some in E. exfalso. apply (Hno 0 rest); [simpl; lia|done]. }
    rewrite IH; [done|]. intros j rest Hj. apply (Hno (S j) rest). simpl. lia.
Qed.

Lemma replaceFirst_at p pre post :
  (forall j rest, j < length pre -> drop j (pre ++ p ++ post) <> p ++ rest) ->
  Js.replaceFirst p [] (pre ++ p ++ post) = pre ++ post.
Proof.
  intros Hno. unfold Js.replaceFirst. rewrite (indexOf_first _ _ _ Hno). simpl.
  rewrite take_app_length. f_equal.
  rewrite drop_app_ge by lia.
  replace (length pre + length p - length pre) with (length p) by lia.
  by rewrite drop_app_length.
Qed.

Context (re : Re.regex) (Hplain : keywordStartsPlain re).

(** A directive that is extracted is the leftmost occurrence of its kind,
    and it is that occurrence that is removed from the text. *)
Lemma extract_Some text m :
  Re.search re text = Some m ->
  exists pre post,
    text = pre ++ Re.matched m ++ post /\ Re.index m = length pre /\
    isDirective re (Re.matched m) (Re.group1 m) /\
    noMatchBefore re (length pre) text /\
    extract re text = (Some m, Js.trim (pre ++ post)).
Proof.
  intros Hs. unfold extract. rewrite Hs.
  apply searchFrom_Some in Hs as (pre & post & -> & Hi & Hm & Hno).
  exists pre, post. split_and!; [done|done| |done|].
  - apply matchHere_sound in Hm as (m0 & Heq & Hd).
    by apply app_inv_tail in Heq as <-.
  - f_equal. f_equal. apply replaceFirst_at. intros j rest Hj Heq.
    specialize (Hno j Hj). rewrite Heq in Hno.
    apply matchHere_sound in Hm as (m0 & Heq' & Hd).
    apply app_inv_tail in Heq' as <-.
    by rewrite (matchHere_complete re _ _ rest Hplain Hd) in Hno.
Qed.

Lemma extract_None text :
  Re.search re text = None ->
  extract re text = (None, text) /\
  forall k m0 g rest, drop k text = m0 ++ rest -> ~ isDirective re m0 g.
Proof.
  intros Hs. unfold extract. rewrite Hs. split; [done|].
  intros k m0 g rest Heq Hd.
  pose proof (proj1 (searchFrom_None re 0 text) Hs k) as Hno.
  rewrite Heq in Hno. by rewrite (matchHere_complete re _ _ rest Hplain Hd) in Hno.
Qed.

End Replace.

Lemma keywordStartsPlain_all re :
  re ∈ [colorRegex; labelRegex; posRegex; jpRegex; tagsRegex; refRegex] ->
  keywordStartsPlain re.
Proof.
  intros H. repeat (apply elem_of_cons in H as [->|H]);
    [..|by apply elem_of_nil in H];
    eexists _, _; (split; [reflexivity|]); split; by vm_compute.
Qed.

Section Case.

Lemma canonicalize_special c c' x :
  x = BACKSLASH \/ x = LBRACE \/ x = RBRACE ->
  Re.canonicalize c = Re.canonicalize c' -> Ascii.eqb c x = Ascii.eqb c' x.
Proof.
  intros Hx Hc.
  destruct (Ascii.eqb_spec c x) as [->|Hne], (Ascii.eqb_spec c' x) as [->|Hne']; try done.
  - exfalso. apply Hne'. symmetry in Hc. apply (canonicalize_fixes c' x Hx).
    rewrite Hc. by apply canonicalize_fixes.
  - exfalso. apply Hne. apply (canonicalize_fixes c x Hx).
    rewrite Hc. by apply canonicalize_fixes.
Qed.

Lemma sameUpToCase_cons c s c' s' :
  sameUpToCase (c :: s) (c' :: s') <->
  Re.canonicalize c = Re.canonicalize c' /\ sameUpToCase s s'.
Proof.
  unfold sameUpToCase. rewrite !fmap_cons. split; [by intros [= ? ?]|].
  intros [Hc Hs]. by rewrite Hc, Hs.
Qed.

Lemma sameUpToCase_nil_l s : sameUpToCase [] s <-> s = [].
Proof. unfold sameUpToCase. destruct s; simpl; split; done. Qed.

Lemma sameUpToCase_nil_r s : sameUpToCase s [] <-> s = [].
Proof. unfold sameUpToCase. destruct s; simpl; split; done. Qed.

Lemma sameUpToCase_refl s : sameUpToCase s s.
Proof. done. Qed.

Lemma sameUpToCase_length s s' : sameUpToCase s s' -> length s = length s'.
Proof. intros H. apply (f_equal length) in H. by rewrite !length_fmap in H. Qed.

Lemma sameUpToCase_drop k s s' : sameUpToCase s s' -> sameUpToCase (drop k s) (drop k s').
Proof. unfold sameUpToCase. intros H. by rewrite !fmap_drop, H. Qed.

Lemma sameUpToCase_app a b a' b' :
  sameUpToCase a a' -> sameUpToCase b b' -> sameUpToCase (a ++ b) (a' ++ b').
Proof. unfold sameUpToCase. intros H1 H2. by rewrite !fmap_app, H1, H2. Qed.

Lemma matchLiteral_case lit : forall s s',
  sameUpToCase s s' ->
  option_Forall2 sameUpToCase (Re.matchLiteral true lit s) (Re.matchLiteral true lit s').
Proof.
  induction lit as [|p lit IH]; intros s s' Hs; simpl.
  - by constructor.
  - destruct s as [|c s], s' as [|c' s'].
    + constructor.
    + by apply sameUpToCase_nil_l in Hs.
    + by apply sameUpToCase_nil_r in Hs.
    + apply sameUpToCase_cons in Hs as [Hc Hs]. unfold Re.charMatches. rewrite Hc.
      destruct (Ascii.eqb _ _); [by apply IH|constructor].
Qed.

Lemma matchGroup_case s s' :
  sameUpToCase s s' -> sameMatch (Re.matchGroup s) (Re.matchGroup s').
Proof.
  intros Hs. unfold Re.matchGroup.
  assert (H : sameUpToCase (Js.takeWhile Re.notRBrace s) (Js.takeWhile Re.notRBrace s') /\
              sameUpToCase (Js.dropWhile Re.notRBrace s) (Js.dropWhile Re.notRBrace s')).
  { revert s' Hs. induction s as [|c s IH]; intros [|c' s'] Hs; simpl.
    - done.
    - by apply sameUpToCase_nil_l in Hs.
    - by apply sameUpToCase_nil_r in Hs.
    - pose proof Hs as Hs0. apply sameUpToCase_cons in Hs as [Hc Hs]. unfold Re.notRBrace.
      rewrite (canonicalize_special c c' RBRACE) by auto.
      destruct (Ascii.eqb c' RBRACE); simpl; [done|].
      destruct (IH s' Hs) as [H1 H2]. split; [|done]. by apply sameUpToCase_cons. }
  destruct H as [H1 H2].
  destruct (Js.takeWhile Re.notRBrace s) as [|a g], (Js.takeWhile Re.notRBrace s') as [|a' g'].
  - constructor.
  - by apply sameUpToCase_nil_l in H1.
  - by apply sameUpToCase_nil_r in H1.
  - destruct (Js.dropWhile Re.notRBrace s) as [|b r], (Js.dropWhile Re.notRBrace s') as [|b' r'].
    + constructor.
    + by apply sameUpToCase_nil_l in H2.
    + by apply sameUpToCase_nil_r in H2.
    + constructor. simpl. split; [done|]. by apply sameUpToCase_cons in H2 as [_ ?].
Qed.

Context (re : Re.regex) (Hic : Re.ignoreCase re = true).

Lemma matchTail_case s s' :
  sameUpToCase s s' -> sameMatch (Re.matchTail re s) (Re.matchTail re s').
Proof.
  intros Hs. unfold Re.matchTail. rewrite Hic.
  destruct (matchLiteral_case (Re.keyword re ++ [LBRACE]) s s' Hs) as [r r' Hr|].
  - by apply matchGroup_case.
  - constructor.
Qed.

Lemma matchHere_case s s' :
  sameUpToCase s s' -> sameMatch (Re.matchHere re s) (Re.matchHere re s').
Proof.
  intros Hs. unfold Re.matchHere.
  destruct s as [|c s1], s' as [|c' s1'].
  - constructor.
  - by apply sameUpToCase_nil_l in Hs.
  - by apply sameUpToCase_nil_r in Hs.
  - apply sameUpToCase_cons in Hs as [Hc Hs1].
    rewrite (canonicalize_special c c' BACKSLASH) by auto.
    destruct (Ascii.eqb c' BACKSLASH); [|constructor].
    pose proof (matchTail_case s1 s1' Hs1) as Hone.
    destruct s1 as [|c1 s2], s1' as [|c1' s2'].
    + done.
    + by apply sameUpToCase_nil_l in Hs1.
    + by apply sameUpToCase_nil_r in Hs1.
    + apply sameUpToCase_cons in Hs1 as [Hc1 Hs2].
      rewrite (canonicalize_special c1 c1' BACKSLASH) by auto.
      destruct (Ascii.eqb c1' BACKSLASH); [|done].
      destruct (matchTail_case s2 s2' Hs2) as [[g r] [g' r'] Hr|]; [|done].
      by constructor.
Qed.

Lemma matchHere_case_None s s' :
  sameUpToCase s s' -> Re.matchHere re s = None -> Re.matchHere re s' = None.
Proof. intros Hs Hn. pose proof (matchHere_case s s' Hs) as H. rewrite Hn in H. by inversion H. Qed.

End Case.

End Extraction.

(** ** Nodes and their lines *)

Ltac in_list := repeat first [apply list_elem_of_here | apply list_elem_of_further].

Section Keywords.


Lemma keywordMatches_exact re w :
  Re.ignoreCase re = false -> keywordMatches re w <-> w = Re.keyword re.
Proof.
  intros Hic. unfold keywordMatches. rewrite Hic. unfold Re.charMatches.
  generalize (Re.keyword re). intros kw. split.
  - induction 1 as [|p t kw' w' Hpt _ IH]; [done|].
    apply Ascii.eqb_eq in Hpt. by subst.
  - intros ->. induction kw as [|p kw IH]; [constructor|].
    constructor; try done. apply Ascii.eqb_refl.
Qed.

Lemma keywordMatches_case re w :
  Re.ignoreCase re = true -> keywordMatches re w <-> sameUpToCase w (Re.keyword re).
Proof.
  intros Hic. unfold keywordMatches, sameUpToCase. rewrite Hic. unfold Re.charMatches.
  generalize (Re.keyword re). intros kw. split.
  - induction 1 as [|p t kw' w' Hpt _ IH]; [done|].
    apply Ascii.eqb_eq in Hpt. rewrite !fmap_cons. by rewrite Hpt, IH.
  - revert w. induction kw as [|p kw IH]; intros [|t w] H; try done; try (by constructor).
    rewrite !fmap_cons in H. injection H as Ht Hw.
    constructor; [by apply Ascii.eqb_eq|by apply IH].
Qed.

End Keywords.

Section Display.

Lemma truthy_nonempty s : Js.truthy s = true <-> s <> [].
Proof. by destruct s. Qed.



Lemma plain_noOuterWhiteSpace s :
  Forall (fun c => Js.isWhiteSpace c = false) s -> noOuterWhiteSpace s.
Proof.
  intros H. rewrite Forall_forall in H. split; intros c Hc; apply H.
  - by apply head_Some_elem_of.
  - by apply last_Some_elem_of.
Qed.


End Display.

Section Nodes.

Lemma makeNode_text idx raw n :
  makeNode idx raw = Ok n ->
  RawNode.text n = displayText (Re.removeAll refRegex (afterDirectives raw)).
Proof. destruct (makeNode_eq idx raw) as (refs & _ & ->). by intros [= <-]. Qed.

Lemma makeNode_refs idx raw n occs tail :
  makeNode idx raw = Ok n ->
  occurrences refRegex (afterDirectives raw) occs tail ->
  RawNode.refs n = map (fun o => Js.trim (occPayload o)) occs /\
  RawNode.text n = displayText (concat (map occGap occs) ++ tail).
Proof.
  intros Hn Hocc. split.
  - destruct (makeNode_eq idx raw) as (refs & Hrefs & Heq). rewrite Heq in Hn.
    injection Hn as <-. simpl.
    pose proof (occurrences_length _ _ _ _ Hocc) as Hlen.
    assert (Hc : collectRefs (S (length (afterDirectives raw))) (afterDirectives raw) 0 []
                 = Ok (map (fun o => Js.trim (occPayload o)) occs)).
    { apply (collectRefs_occurrences _ _ _ Hocc _ [] []). lia. }
    rewrite Hrefs in Hc. by injection Hc.
  - rewrite (makeNode_text _ _ _ Hn). by rewrite (removeAll_occurrences _ _ _ _ Hocc).
Qed.

Lemma makeNode_pos idx raw n :
  makeNode idx raw = Ok n ->
  RawNode.pos n = (fun m => Js.toLowerCase (payloadOf m)) <$> (extract posRegex (afterLabel raw)).1 /\
  RawNode.tags n =
    (let tags := from_option tagsOf [] (extract tagsRegex (afterJp raw)).1 in
     match RawNode.pos n with
     | Some p => if Js.truthy p then tags ++ [p] else tags
     | None => tags
     end).
Proof. destruct (makeNode_eq idx raw) as (refs & _ & ->). by intros [= <-]. Qed.

(** The nodes of a parse are the nodes of the lines that are not blank. *)
Lemma parseText_nodes input :
  exists p,
    parseText input = Ok p /\
    (forall r n, objects p !! r = Some n -> r <> ROOT ->
       exists idx raw,
         lines input !! idx = Some raw /\ blank raw = false /\
         makeNode idx raw = Ok (created n)) /\
    (forall idx raw, lines input !! idx = Some raw -> blank raw = false ->
       exists r n, r <> ROOT /\ objects p !! r = Some n /\
                   makeNode idx raw = Ok (created n)) /\
    (forall l i, labels p !! l = Some i ->
       exists r n, r <> ROOT /\ objects p !! r = Some n /\
                   RawNode.id n = i /\ RawNode.label n = Some l /\
                   forall r' n', r < r' -> objects p !! r' = Some n' ->
                                 RawNode.label n' <> Some l) /\
    (forall r n l, objects p !! r = Some n -> RawNode.label n = Some l ->
       Js.truthy l = true -> is_Some (labels p !! l)).
Proof.
  destruct (parseText_facts input) as (st & p & _ & Hinv & Hp & _ & Hlab & Hshape & _).
  exists p. split; [done|]. rewrite Hlab. split_and!.
  - intros r n Hn Hr. destruct (sameShape_created _ _ _ _ Hshape Hn) as (n0 & Hn0 & Hc & _).
    rewrite Hc. by apply (inv_line _ _ Hinv r).
  - intros idx raw Hidx Hb.
    destruct (inv_line_node _ _ Hinv idx raw Hidx Hb) as (r & n0 & Hr & Hn0 & Hmk).
    destruct (sameShape_lookup _ _ _ _ Hshape Hn0) as (n & Hn & Hsh).
    exists r, n. split_and!; [done|done|].
    apply (f_equal created) in Hsh. change (created (shapeOf n)) with (created n) in Hsh.
    change (created (shapeOf n0)) with (created n0) in Hsh. by rewrite Hsh.
  - intros l i Hl.
    destruct (inv_labels _ _ Hinv l i Hl) as (_ & r & n0 & Hr & Hn0 & Hid & Hl0 & Hlast).
    destruct (sameShape_lookup _ _ _ _ Hshape Hn0) as (n & Hn & Hsh).
    exists r, n. split_and!; [done|done| | |].
    + apply (f_equal RawNode.id) in Hsh. simpl in Hsh. congruence.
    + apply (f_equal RawNode.label) in Hsh. simpl in Hsh. congruence.
    + intros r' n' Hrr Hn'.
      destruct (sameShape_created _ _ _ _ Hshape Hn') as (m' & Hm' & Hc & _).
      apply (f_equal RawNode.label) in Hc. simpl in Hc. rewrite Hc. by apply (Hlast r').
  - intros r n l Hn Hl Ht.
    destruct (sameShape_created _ _ _ _ Hshape Hn) as (n0 & Hn0 & Hc & _).
    apply (inv_labelled _ _ Hinv r n0 l Hn0); [|done].
    apply (f_equal RawNode.label) in Hc. simpl in Hc. congruence.
Qed.

End Nodes.

Section PlainLines.

#[local] Arguments Re.matchHere : simpl never.

Lemma matchHere_None_head re s :
  (forall c, head s = Some c -> c <> BACKSLASH) -> Re.matchHere re s = None.
Proof.
  intros H. unfold Re.matchHere. destruct s as [|c s]; [done|].
  destruct (Ascii.eqb_spec c BACKSLASH) as [->|]; [|done]. by destruct (H BACKSLASH).
Qed.

Lemma plain_drop k s : plain s -> plain (drop k s).
Proof.
  unfold plain. intros H Hin. apply H.
  apply list_elem_of_lookup_1 in Hin as [i Hi]. rewrite lookup_drop in Hi.
  by eapply list_elem_of_lookup_2.
Qed.

Lemma plain_head s c : plain s -> head s = Some c -> c <> BACKSLASH.
Proof. intros H Hh ->. apply H. by apply head_Some_elem_of. Qed.

Lemma plain_app s s' : plain (s ++ s') <-> plain s /\ plain s'.
Proof. unfold plain. rewrite elem_of_app. tauto. Qed.

Lemma plain_no_match re s k : plain s -> Re.matchHere re (drop k s) = None.
Proof.
  intros H. apply matchHere_None_head. intros c. apply plain_head. by apply plain_drop.
Qed.

Lemma plain_search re s : plain s -> Re.search re s = None.
Proof. intros H. apply searchFrom_None. intros k. by apply plain_no_match. Qed.

Lemma plain_extract re s : plain s -> extract re s = (None, s).
Proof. intros H. unfold extract. by rewrite plain_search. Qed.

Lemma plain_trim s : plain s -> plain (Js.trim s).
Proof.
  intros H Hin. apply H. destruct (trim_split s) as (pre & post & Heq & _).
  rewrite Heq. apply elem_of_app. right. apply elem_of_app. by left.
Qed.

Lemma plain_collapseFrom b s : plain s -> plain (Js.collapseFrom b s).
Proof.
  unfold plain. revert b. induction s as [|c s IH]; intros b H; simpl; [done|].
  assert (Hc : BACKSLASH <> c) by (intros <-; apply H, list_elem_of_here).
  assert (Hs : BACKSLASH ∉ s) by (intros ?; by apply H, list_elem_of_further).
  destruct (Js.isWhiteSpace c).
  - destruct b; [by apply IH|].
    destruct s as [|c' s']; [by intros [?|?%elem_of_nil]%elem_of_cons|].
    destruct (Js.isWhiteSpace c').
    + intros [?|?]%elem_of_cons; [done|]. by apply (IH true).
    + intros [?|?]%elem_of_cons; [done|]. by apply (IH false).
  - intros [?|?]%elem_of_cons; [done|]. by apply (IH false).
Qed.

Lemma plain_displayText s : plain s -> plain (displayText s).
Proof.
  intros H. unfold displayText.
  destruct (Js.truthy _).
  - by apply plain_trim, plain_collapseFrom.
  - unfold plain. vm_compute. intros Hin.
    repeat (apply elem_of_cons in Hin as [Hin|Hin]; [discriminate|]).
    by apply elem_of_nil in Hin.
Qed.

Lemma plain_no_directive s u v keyword : plain s -> s <> u ++ [BACKSLASH] ++ keyword ++ v.
Proof.
  intros H ->. apply H. apply elem_of_app. right. apply list_elem_of_here.
Qed.

(** With one backslash in the text, only what starts there can match. *)
Lemma sole_backslash re pre tail :
  plain pre -> plain tail -> Re.matchHere re (BACKSLASH :: tail) = None ->
  forall k, Re.matchHere re (drop k (pre ++ BACKSLASH :: tail)) = None.
Proof.
  intros Hpre Htail Hnone k.
  destruct (Nat.lt_trichotomy k (length pre)) as [Hlt|[->|Hgt]].
  - apply matchHere_None_head. intros c Hc ->.
    rewrite head_lookup, lookup_drop, Nat.add_0_r in Hc.
    rewrite lookup_app_l in Hc by done. apply Hpre. by eapply list_elem_of_lookup_2.
  - by rewrite drop_app_length.
  - rewrite drop_app_ge by lia.
    destruct (k - length pre) as [|j] eqn:E; [lia|]. simpl. by apply plain_no_match.
Qed.

(** A directive of another keyword is no match. *)
Lemma other_keyword re k kw k2 tail :
  Re.keyword re = k :: kw -> Re.charMatches (Re.ignoreCase re) k k2 = false ->
  k2 <> BACKSLASH -> Re.matchHere re (BACKSLASH :: k2 :: tail) = None.
Proof.
  intros Hkw Hk Hk2. unfold Re.matchHere. rewrite Ascii.eqb_refl.
  destruct (Ascii.eqb_spec k2 BACKSLASH); [done|].
  unfold Re.matchTail. rewrite Hkw. simpl. by rewrite Hk.
Qed.

Lemma plain_directive_tail keyword x post :
  plain keyword -> plain x -> plain post ->
  plain (keyword ++ [LBRACE] ++ x ++ [RBRACE] ++ post).
Proof.
  intros Hk Hx Hp. repeat (apply plain_app; split); try done.
  - unfold plain. by intros ?%list_elem_of_singleton.
  - unfold plain. by intros ?%list_elem_of_singleton.
Qed.

(** A line whose working text holds one reference directive and no other
    backslash: the payload, trimmed, is its one reference, and no backslash
    stays in the display text. *)
Lemma plain_ref_line idx raw pre x post :
  plain pre -> plain x -> plain post -> x <> [] -> RBRACE ∉ x ->
  Js.trim (getDepth raw).2 = pre ++ directiveText (str "ref") x ++ post ->
  exists n,
    makeNode idx raw = Ok n /\ RawNode.refs n = [Js.trim x] /\
    RawNode.text n = displayText (pre ++ post) /\ plain (RawNode.text n) /\
    RawNode.label n = None.
Proof.
  intros Hpre Hx Hpost Hne Hno Ht.
  set (tail := str "ref" ++ [LBRACE] ++ x ++ [RBRACE] ++ post).
  assert (Htail : plain tail).
  { apply plain_directive_tail; try done. unfold plain. vm_compute. intros Hin.
    repeat (apply elem_of_cons in Hin as [Hin|Hin]; [discriminate|]).
    by apply elem_of_nil in Hin. }
  assert (Heq : Js.trim (getDepth raw).2 = pre ++ BACKSLASH :: tail).
  { rewrite Ht. unfold directiveText, tail. by rewrite <- !app_assoc. }
  assert (Hnone : forall re,
            re ∈ [colorRegex; labelRegex; posRegex; jpRegex; tagsRegex] ->
            extract re (pre ++ BACKSLASH :: tail) = (None, pre ++ BACKSLASH :: tail)).
  { intros re Hre. unfold extract, Re.search.
    rewrite (proj2 (searchFrom_None re 0 _)); [done|].
    apply sole_backslash; [done|done|].
    repeat (apply elem_of_cons in Hre as [->|Hre]); [..|by apply elem_of_nil in Hre];
      by eapply other_keyword. }
  assert (Hafter : afterDirectives raw = pre ++ BACKSLASH :: tail
                   /\ afterColor raw = pre ++ BACKSLASH :: tail).
  { unfold afterDirectives, afterJp, afterPos, afterLabel, afterColor. rewrite Heq.
    rewrite !Hnone; [done|in_list..]. }
  destruct Hafter as [Hafter HafterColor].
  assert (Hocc : occurrences refRegex (afterDirectives raw)
                   [(pre, directiveText (str "ref") x, x)] post).
  { rewrite Hafter.
    replace (pre ++ BACKSLASH :: tail)
      with (pre ++ directiveText (str "ref") x ++ post)
      by (unfold directiveText, tail; by rewrite <- !app_assoc).
    constructor.
    - intros k Hk. apply matchHere_None_head. intros c Hc ->.
      rewrite head_lookup, lookup_drop, Nat.add_0_r in Hc.
      rewrite lookup_app_l in Hc by done. apply Hpre. by eapply list_elem_of_lookup_2.
    - apply matchHere_complete; [apply keywordStartsPlain_all; in_list|].
      exists [BACKSLASH], (str "ref"). split_and!; try done; [by left|].
      apply keywordMatches_exact; done.
    - constructor. intros k. by apply plain_no_match. }
  destruct (makeNode_total idx raw) as [n Hn]. exists n. split; [done|].
  destruct (makeNode_refs _ _ _ _ _ Hn Hocc) as [Hrefs Htext]. simpl in Hrefs, Htext.
  rewrite app_nil_r in Htext.
  split_and!; [done|done| |].
  - rewrite Htext. apply plain_displayText. by apply plain_app.
  - destruct (makeNode_eq idx raw) as (refs & _ & Hmk). rewrite Hmk in Hn.
    injection Hn as <-. simpl. rewrite HafterColor, Hnone; [done|in_list].
Qed.

(** A line whose working text holds one label directive and no other
    backslash: the payload, trimmed, is its label. *)
Lemma plain_label_line idx raw pre x post :
  plain pre -> plain x -> plain post -> x <> [] -> RBRACE ∉ x ->
  Js.trim (getDepth raw).2 = pre ++ directiveText (str "label") x ++ post ->
  exists n,
    makeNode idx raw = Ok n /\ RawNode.label n = Some (Js.trim x) /\
    RawNode.id n = str "n_" ++ str (pretty idx) /\
    RawNode.refs n = [] /\ RawNode.text n = displayText (Js.trim (pre ++ post)).
Proof.
  intros Hpre Hx Hpost Hne Hno Ht.
  set (tail := str "label" ++ [LBRACE] ++ x ++ [RBRACE] ++ post).
  assert (Htail : plain tail).
  { apply plain_directive_tail; try done. unfold plain. vm_compute. intros Hin.
    repeat (apply elem_of_cons in Hin as [Hin|Hin]; [discriminate|]).
    by apply elem_of_nil in Hin. }
  assert (Heq : Js.trim (getDepth raw).2 = pre ++ BACKSLASH :: tail).
  { rewrite Ht. unfold directiveText, tail. by rewrite <- !app_assoc. }
  assert (Hcolor : afterColor raw = pre ++ directiveText (str "label") x ++ post).
  { unfold afterColor. rewrite Heq. unfold extract, Re.search.
    rewrite (proj2 (searchFrom_None colorRegex 0 _)).
    - unfold directiveText, tail. simpl. by rewrite <- !app_assoc.
    - apply sole_backslash; [done|done|]. by eapply other_keyword. }
  assert (Hplain : keywordStartsPlain labelRegex) by (apply keywordStartsPlain_all; in_list).
  assert (Hfound : Re.search labelRegex (afterColor raw)
                   = Some (Re.mkMatch (length pre) (directiveText (str "label") x) x)).
  { rewrite Hcolor. unfold Re.search. apply (searchFrom_found labelRegex 0).
    - intros k Hk. apply matchHere_None_head. intros c Hc ->.
      rewrite head_lookup, lookup_drop, Nat.add_0_r in Hc.
      rewrite lookup_app_l in Hc by done. apply Hpre. by eapply list_elem_of_lookup_2.
    - apply matchHere_complete; [done|].
      exists [BACKSLASH], (str "label"). split_and!; try done; [by left|].
      apply keywordMatches_exact; done. }
  destruct (extract_Some labelRegex Hplain _ _ Hfound) as (pre' & post' & Hsplit & Hidx & _ & _ & Hext).
  cbn [Re.matched Re.index] in *. rewrite Hcolor in Hsplit.
  apply app_inj_1 in Hsplit as [<- Hsplit]; [|done].
  apply app_inv_head in Hsplit as <-.
  assert (Hrest : plain (Js.trim (pre ++ post))) by (by apply plain_trim, plain_app).
  assert (Hlabel : afterLabel raw = Js.trim (pre ++ post)).
  { unfold afterLabel. by rewrite Hext. }
  assert (Hafter : afterDirectives raw = Js.trim (pre ++ post)).
  { unfold afterDirectives, afterJp, afterPos. rewrite Hlabel.
    rewrite (plain_extract posRegex) by done. cbn [snd].
    rewrite (plain_extract jpRegex) by done. cbn [snd].
    by rewrite (plain_extract tagsRegex). }
  assert (Hocc : occurrences refRegex (afterDirectives raw) [] (Js.trim (pre ++ post))).
  { rewrite Hafter. constructor. intros k. by apply plain_no_match. }
  destruct (makeNode_total idx raw) as [n Hn]. exists n. split; [done|].
  destruct (makeNode_refs _ _ _ _ _ Hn Hocc) as [Hrefs Htext]. simpl in Hrefs, Htext.
  split_and!; [|by apply makeNode_id in Hn|done|done].
  destruct (makeNode_eq idx raw) as (refs & _ & Hmk). rewrite Hmk in Hn.
  injection Hn as <-. simpl. by rewrite Hext.
Qed.

End PlainLines.

(** ** References, display text, part of speech *)

Section Occurs.

Context (w : jsstring) (Hne : w <> []).
Context (Hplain : Forall (fun c => Js.isWhiteSpace c = false) w).

Lemma occursIn_cons c s :
  occursIn w (c :: s) <-> w `prefix_of` (c :: s) \/ occursIn w s.
Proof.
  split.
  - intros (u & v & Heq). destruct u as [|c' u].
    + left. exists v. by rewrite Heq.
    + right. injection Heq as -> ->. by exists u, v.
  - intros [[v Heq]|(u & v & ->)].
    + exists [], v. by rewrite Heq.
    + by exists (c :: u), v.
Qed.

Lemma occursIn_nil : ~ occursIn w [].
Proof.
  intros (u & v & Heq). symmetry in Heq.
  apply app_eq_nil in Heq as [_ Heq]. by apply app_eq_nil in Heq as [? _].
Qed.

Lemma occursIn_white c s :
  Js.isWhiteSpace c = true -> occursIn w (c :: s) <-> occursIn w s.
Proof.
  intros Hc. rewrite occursIn_cons. split; [|by right].
  intros [[v Heq]|H]; [|done]. destruct w as [|d w']; [done|].
  injection Heq as <- _. apply Forall_cons in Hplain as [Hd _]. congruence.
Qed.

Lemma prefix_collapse : forall (w' : jsstring),
  Forall (fun c => Js.isWhiteSpace c = false) w' ->
  forall s, w' `prefix_of` Js.collapseFrom false s <-> w' `prefix_of` s.
Proof.
  induction w' as [|d w' IH]; intros Hw s.
  { split; intros _; apply prefix_nil. }
  apply Forall_cons in Hw as [Hd Hw].
  destruct s as [|c s]; [done|]. simpl.
  destruct (Js.isWhiteSpace c) eqn:Ec.
  - assert (Hno : ~ (d :: w') `prefix_of` (c :: s)).
    { intros [v Heq]. injection Heq as -> _. congruence. }
    split; [|done]. intros [v Heq]. exfalso.
    destruct s as [|c' s]; simpl in Heq.
    + injection Heq as -> _. congruence.
    + destruct (Js.isWhiteSpace c'); injection Heq as <- _; [done|congruence].
  - split; intros [v Heq].
    + injection Heq as -> Heq.
      destruct (proj1 (IH Hw s) (ex_intro _ v Heq)) as [v' ->]. by exists v'.
    + injection Heq as -> ->.
      destruct (proj2 (IH Hw (w' ++ v)) (ex_intro _ v eq_refl)) as [v' ->]. by exists v'.
Qed.

Lemma occursIn_collapseFrom s : forall b,
  occursIn w (Js.collapseFrom b s) <-> occursIn w s.
Proof.
  induction s as [|c s IH]; intros b; [done|].
  cbn [Js.collapseFrom]. destruct (Js.isWhiteSpace c) eqn:Ec.
  - rewrite (occursIn_white c s Ec). destruct b; [apply IH|].
    destruct s as [|c' s']; [by rewrite (occursIn_white c [] Ec)|].
    destruct (Js.isWhiteSpace c') eqn:Ec'.
    + rewrite (occursIn_white SPACE) by done. apply IH.
    + rewrite (occursIn_white c) by done. apply IH.
  - rewrite !occursIn_cons, IH.
    destruct w as [|d w'] eqn:Ew; [done|]. apply Forall_cons in Hplain as [_ Hw'].
    split; (intros [[v Heq]|H]; [left|by right]).
    + injection Heq as -> Heq.
      destruct (proj1 (prefix_collapse w' Hw' s) (ex_intro _ v Heq)) as [v' ->]. by exists v'.
    + injection Heq as -> ->.
      destruct (proj2 (prefix_collapse w' Hw' (w' ++ v)) (ex_intro _ v eq_refl)) as [v' ->].
      by exists v'.
Qed.

Lemma occursIn_dropWhile s :
  occursIn w (Js.dropWhile Js.isWhiteSpace s) <-> occursIn w s.
Proof.
  induction s as [|c s IH]; [done|]. simpl.
  destruct (Js.isWhiteSpace c) eqn:Ec; [|done]. by rewrite IH, occursIn_white.
Qed.

End Occurs.

Lemma occursIn_rev w s : occursIn (rev w) (rev s) <-> occursIn w s.
Proof.
  split; intros (u & v & Heq).
  - exists (rev v), (rev u). apply (f_equal (@rev ascii)) in Heq.
    rewrite rev_involutive, !rev_app_distr, rev_involutive in Heq.
    by rewrite Heq, <- app_assoc.
  - exists (rev v), (rev u). by rewrite Heq, !rev_app_distr, <- app_assoc.
Qed.

Lemma occursIn_trim w s :
  w <> [] -> Forall (fun c => Js.isWhiteSpace c = false) w ->
  occursIn w (Js.trim s) <-> occursIn w s.
Proof.
  intros Hne Hplain. unfold Js.trim, Js.trimEnd, Js.trimStart.
  rewrite <- occursIn_rev, rev_involutive.
  rewrite (occursIn_dropWhile (rev w)).
  - by rewrite occursIn_rev, occursIn_dropWhile.
  - intros H. apply (f_equal (@rev ascii)) in H. by rewrite rev_involutive in H.
  - by apply Forall_rev.
Qed.

(** A text without white space stands in the display text exactly where it
    stands in the text the display text is made from, the placeholder
    apart. *)
Lemma occursIn_displayText w t :
  w <> [] -> Forall (fun c => Js.isWhiteSpace c = false) w ->
  ~ occursIn w PLACEHOLDER ->
  occursIn w (displayText t) <-> occursIn w t.
Proof.
  intros Hne Hplain Hph.
  rewrite <- (occursIn_collapseFrom w Hne Hplain t false).
  rewrite <- (occursIn_trim w (Js.collapseFrom false t) Hne Hplain).
  unfold displayText, Js.collapseSpaces.
  destruct (Js.trim (Js.collapseFrom false t)) as [|c s]; [|done].
  simpl. split; [done|]. intros H. by apply occursIn_nil in H.
Qed.

Lemma refOpening_displayText t :
  occursIn (str "\ref{") (displayText t) <-> occursIn (str "\ref{") t.
Proof.
  apply occursIn_displayText; [done|by repeat constructor|].
  intros (u & v & Heq).
  assert (Hin : BACKSLASH ∈ PLACEHOLDER).
  { rewrite Heq. apply elem_of_app. right. apply list_elem_of_here. }
  vm_compute in Hin.
  repeat (apply elem_of_cons in Hin as [Hin|Hin]; [discriminate|]).
  by apply elem_of_nil in Hin.
Qed.

(** C5, as amended: the references of the node of a line are the payloads,
    trimmed, of all the occurrences of the reference directive that a scan
    from left to right finds in the text left by the five directives
    extracted before, in that order; each occurrence is a backslash or two,
    the keyword ref and, in braces, a payload that is not empty; no
    occurrence starts in what follows the last one; and the display text is
    made from the text between and after the occurrences.  The display text
    holds the opening of a reference directive exactly when that text
    between and after the occurrences holds it: an opening without a payload
    or without a closing brace is no occurrence and stays.  In every parse
    the nodes are those of the lines that are not blank, an entry of the
    label map is the identity of the last node that carries the label, and
    every label that is not empty has an entry.  In the label and reference
    sample the label map sends "apple" to the identity of the first node,
    the references of the second node are "apple" and its display text is
    free of the directive.  The other samples show what makes the
    difference to the claim as it is stated: an opening without a payload or
    without a closing brace stays, an opening can come about where an
    occurrence is taken out, a reference inside the payload of a directive
    extracted before goes with that directive, and of two nodes with one
    label the label map has the later. *)
Theorem references_collected (idx : nat) (raw : jsstring) :
  (exists n occs tail,
     makeNode idx raw = Ok n /\
     occurrences refRegex (afterDirectives raw) occs tail /\
     afterDirectives raw = concat (map (fun o => occGap o ++ occMatched o) occs) ++ tail /\
     Forall (fun o =>
               exists bs, (bs = [BACKSLASH] \/ bs = [BACKSLASH; BACKSLASH]) /\
                 occMatched o = bs ++ str "ref" ++ [LBRACE] ++ occPayload o ++ [RBRACE] /\
                 occPayload o <> [] /\ (RBRACE ∉ occPayload o)) occs /\
     (forall k m0 g rest, drop k tail = m0 ++ rest -> ~ isDirective refRegex m0 g) /\
     RawNode.refs n = map (fun o => Js.trim (occPayload o)) occs /\
     RawNode.text n = displayText (concat (map occGap occs) ++ tail) /\
     (occursIn (str "\ref{") (RawNode.text n) <->
      occursIn (str "\ref{") (concat (map occGap occs) ++ tail))) /\
  (forall input, exists p,
     parseText input = Ok p /\
     (forall r n, objects p !! r = Some n -> r <> ROOT ->
        exists idx raw,
          lines input !! idx = Some raw /\ blank raw = false /\
          makeNode idx raw = Ok (created n)) /\
     (forall l i, labels p !! l = Some i ->
        exists r n, r <> ROOT /\ objects p !! r = Some n /\
                    RawNode.id n = i /\ RawNode.label n = Some l /\
                    forall r' n', r < r' -> objects p !! r' = Some n' ->
                                  RawNode.label n' <> Some l) /\
     (forall r n l, objects p !! r = Some n -> RawNode.label n = Some l ->
        Js.truthy l = true -> is_Some (labels p !! l))) /\
  labelOf refSample (str "apple") = Some (str "n_0") /\
  fieldsOf RawNode.id refSample = [str "root"; str "n_0"; str "n_1"] /\
  fieldsOf RawNode.refs refSample = [[]; []; [str "apple"]] /\
  fieldsOf RawNode.text refSample = [str "root"; str "node"; str "use here"] /\
  fieldsOf RawNode.refs (str "a \ref{x} b \\ref{ y } c \ref{x}")
    = [[]; [str "x"; str "y"; str "x"]] /\
  fieldsOf RawNode.text (str "a \ref{x} b \\ref{ y } c \ref{x}")
    = [str "root"; str "a b c"] /\
  fieldsOf RawNode.refs (str "use \ref{x} \pos{noun}") = [[]; [str "x"]] /\
  fieldsOf RawNode.text (str "use \ref{x} \pos{noun}") = [str "root"; str "use"] /\
  labelOf residualSample (str "x") = Some (str "n_0") /\
  fieldsOf RawNode.refs residualSample = [[]; []; [str "x"]] /\
  fieldsOf RawNode.text residualSample = [str "root"; str "a"; str "b \ref{}"] /\
  fieldsOf RawNode.refs (str "c \ref{x") = [[]; []] /\
  fieldsOf RawNode.text (str "c \ref{x") = [str "root"; str "c \ref{x"] /\
  fieldsOf RawNode.refs (str "d \re\ref{x}f{y}") = [[]; [str "x"]] /\
  fieldsOf RawNode.text (str "d \re\ref{x}f{y}") = [str "root"; str "d \ref{y}"] /\
  fieldsOf RawNode.jp (str "e \jp{\ref{x}}") = [None; Some (str "\ref{x")] /\
  fieldsOf RawNode.refs (str "e \jp{\ref{x}}") = [[]; []] /\
  fieldsOf RawNode.text (str "e \jp{\ref{x}}") = [str "root"; str "e }"] /\
  labelOf (str "a \label{x}" ++ [LF] ++ str "b \label{x}") (str "x") = Some (str "n_1").
Proof.
  split; [|split; [|clear idx raw; split_and!; by vm_compute]].
  - destruct (makeNode_total idx raw) as [n Hn].
    destruct (occurrences_exists refRegex (afterDirectives raw)) as (occs & tail & Hocc).
    destruct (makeNode_refs _ _ _ _ _ Hn Hocc) as [Hrefs Htext].
    exists n, occs, tail. split_and!; try done.
    + exact (occurrences_text refRegex _ _ _ Hocc).
    + pose proof (occurrences_directive _ _ _ _ Hocc) as Hdir.
      eapply Forall_impl; [exact Hdir|].
      intros o (bs & w & Hbs & Hw & Hne & Hno & Hm). simpl in *.
      apply keywordMatches_exact in Hw; [|done]. subst w.
      exists bs. by split_and!.
    + intros k m0 g rest Heq Hd.
      assert (Hnone : forall k, Re.matchHere refRegex (drop k tail) = None).
      { clear -Hocc. induction Hocc; auto. }
      specialize (Hnone k). rewrite Heq in Hnone.
      rewrite (matchHere_complete refRegex m0 g rest) in Hnone; [done| |done].
      apply keywordStartsPlain_all. in_list.
    + rewrite Htext. apply refOpening_displayText.
  - intros input. destruct (parseText_nodes input) as (p & Hp & H1 & _ & H3 & H4).
    exists p. by split_and!.
Qed.


(** C10, as amended: whenever the part-of-speech directive matches on a
    line, the stored part of speech is the payload, trimmed and in lower
    case; when that form is not empty it is appended, as the last one, to the
    tags that the tags directive declares, and when it is empty nothing is
    appended. *)
Theorem pos_lowercased (idx : nat) (raw : jsstring) :
  (exists n,
     makeNode idx raw = Ok n /\
     (forall m, Re.search posRegex (afterLabel raw) = Some m ->
        isDirective posRegex (Re.matched m) (Re.group1 m) /\
        RawNode.pos n = Some (Js.toLowerCase (Js.trim (Re.group1 m))) /\
        (Js.toLowerCase (Js.trim (Re.group1 m)) <> [] ->
           RawNode.tags n = declaredTags raw ++ [Js.toLowerCase (Js.trim (Re.group1 m))]) /\
        (Js.toLowerCase (Js.trim (Re.group1 m)) = [] ->
           RawNode.tags n = declaredTags raw)) /\
     (Re.search posRegex (afterLabel raw) = None ->
        RawNode.pos n = None /\ RawNode.tags n = declaredTags raw)) /\
  fieldsOf RawNode.pos (str "w \pos{ NOUN }") = [None; Some (str "noun")] /\
  fieldsOf RawNode.tags (str "w \pos{ NOUN }") = [[]; [str "noun"]] /\
  fieldsOf RawNode.tags (str "w \pos{Verb} \tags{A, b}") = [[]; [str "a"; str "b"; str "verb"]] /\
  fieldsOf RawNode.pos (str "w \pos{ }") = [None; Some []] /\
  fieldsOf RawNode.tags (str "w \pos{ }") = [[]; []].
Proof.
  split; [|clear idx raw; split_and!; by vm_compute].
  destruct (makeNode_total idx raw) as [n Hn]. exists n. split; [done|].
  destruct (makeNode_pos _ _ _ Hn) as [Hpos Htags]. unfold declaredTags.
  assert (Hplain : keywordStartsPlain posRegex) by (apply keywordStartsPlain_all; in_list).
  split.
  - intros m Hs.
    destruct (extract_Some posRegex Hplain _ m Hs) as (pre & post & _ & _ & Hd & _ & He).
    rewrite He in Hpos. simpl in Hpos. unfold payloadOf in Hpos.
    split; [done|]. split; [done|]. rewrite Htags, Hpos. cbn zeta.
    destruct (Js.toLowerCase (Js.trim (Re.group1 m))) as [|c s]; simpl.
    + split; [done|done].
    + split; [done|done].
  - intros Hs. destruct (extract_None posRegex Hplain _ Hs) as [He _].
    rewrite He in Hpos. simpl in Hpos. split; [done|]. by rewrite Htags, Hpos.
Qed.

(** C10 as it is stated fails on a payload of white space only: the
    directive matches, the part of speech is the empty string, and nothing is
    appended to the tags. *)
Lemma pos_not_appended : ~ posAppended 0 (str "w \pos{ }").
Proof.
  intros H.
  destruct (H _ _ ltac:(vm_compute; reflexivity) ltac:(vm_compute; reflexivity)) as [_ Hin].
  vm_compute in Hin. by apply elem_of_nil in Hin.
Qed.

(** C5 as it is stated fails where the line of the reference holds, besides
    the directive, the opening of a reference directive without a payload:
    the reference is collected, and the opening stays in the display text. *)
Lemma ref_residual : ~ refRoundTrip residualSample (str "x").
Proof.
  intros H.
  destruct (H 0 1 (str "a \label{x}") (str "b \ref{x} \ref{}"))
    as (p & ni & nj & Hp & _ & Hnj & _ & Hline & _ & _ & Hres);
    [by vm_compute|by vm_compute|done|by exists (str "a "), []
    |by exists (str "b "), (str " \ref{}")|].
  vm_compute in Hp. injection Hp as <-. cbn [objects] in Hnj.
  apply Hres. clear Hres.
  repeat (apply elem_of_cons in Hnj as [->|Hnj];
          [try discriminate Hline|]).
  - by exists [ascii_of_nat 98; SPACE], [RBRACE].
  - by apply elem_of_nil in Hnj.
Qed.

(** ** Colour resolution *)

Section Colours.

Lemma isHexDigit_plain c : isHexDigit c = true -> Js.isWhiteSpace c = false.
Proof. destruct c as [[] [] [] [] [] [] [] []]; vm_compute; congruence. Qed.

Lemma isHexColor_plain s :
  isHexColor s = true -> s <> [] /\ Forall (fun c => Js.isWhiteSpace c = false) s.
Proof.
  destruct s as [|c digits]; [done|]. simpl.
  intros [[Hc Hd]%andb_prop _]%andb_prop. split; [done|].
  constructor.
  - apply Ascii.eqb_eq in Hc. by subst.
  - rewrite forallb_forall in Hd. apply Forall_forall. intros d Hin.
    apply isHexDigit_plain, Hd. by apply list_elem_of_In.
Qed.

(** What [resolveColor] returns, case by case. *)
Lemma resolveColor_spec (s : jsstring) :
  (isHexColor s = true -> resolveColor (Some s) = Some (VString s)) /\
  (s <> [] -> isHexColor (Js.trim s) = false ->
   resolveColor (Some s) =
   match ownProperty (Js.toLowerCase (Js.trim s)) COLOR_PRESETS with
   | Some v => Some (VString v)
   | None =>
       if bool_decide (Js.toLowerCase (Js.trim s) ∈ objectPrototype)
       then Some (VInherited (Js.toLowerCase (Js.trim s)))
       else None
   end) /\
  resolveColor (Some []) = None /\ resolveColor None = None.
Proof.
  split_and!; [| |done|done].
  - intros Hhex. destruct (isHexColor_plain s Hhex) as [Hne Hplain].
    unfold resolveColor. destruct s as [|c s']; [done|]. cbn [Js.truthy negb].
    rewrite (trim_fixed (c :: s')) by (by apply plain_noOuterWhiteSpace).
    by rewrite Hhex.
  - intros Hne Hhex. unfold resolveColor, getProperty.
    destruct s as [|c s']; [done|]. cbn [Js.truthy negb]. by rewrite Hhex.
Qed.

End Colours.

(** C6 fails on the code: a payload that is neither a hex literal nor the
    name of a preset, but the name of a member that every object inherits,
    does not resolve to undefined; the lookup in the preset table follows the
    prototype chain.  The other parts of the claim hold: a hex literal
    resolves to itself, a preset name in any case to its literal, and any
    other name to undefined. *)
Theorem resolveColor_inherited_member :
  resolveColor (Some (str "constructor")) = Some (VInherited (str "constructor")) /\
  resolveColor (Some (str "__proto__")) = Some (VInherited (str "__proto__")) /\
  isHexColor (str "constructor") = false /\
  ownProperty (Js.toLowerCase (str "constructor")) COLOR_PRESETS = None /\
  fieldsOf RawNode.color (str "X \color{constructor}")
    = [None; Some (VInherited (str "constructor"))] /\
  fieldsOf RawNode.effectiveColor (str "X \color{constructor}")
    = [None; Some (VInherited (str "constructor"))] /\
  resolveColor (Some (str "RED")) = Some (VString (str "#ef4444")) /\
  resolveColor (Some (str "#123456")) = Some (VString (str "#123456")) /\
  resolveColor (Some (str "#abc")) = Some (VString (str "#abc")) /\
  resolveColor (Some (str "#abcd")) = None /\
  resolveColor (Some (str "unknown")) = None /\
  (Js.toLowerCase ∘ fst <$> COLOR_PRESETS
   = str <$> ["red"; "blue"; "green"; "orange"; "purple"; "teal"; "pink"; "gray";
              "slate"; "amber"; "lime"]).
Proof. split_and!; by vm_compute. Qed.

Section KeywordCase.

Lemma sameUpToCase_sym s s' : sameUpToCase s s' -> sameUpToCase s' s.
Proof. done. Qed.

Lemma flagged_ignoreCase re :
  re ∈ [colorRegex; posRegex; jpRegex; tagsRegex] ->
  Re.ignoreCase re = true /\ keywordStartsPlain re.
Proof.
  intros H. repeat (apply elem_of_cons in H as [->|H]); [..|by apply elem_of_nil in H];
    (split; [done|apply keywordStartsPlain_all; in_list]).
Qed.

Lemma unflagged_ignoreCase re :
  re ∈ [labelRegex; refRegex] ->
  Re.ignoreCase re = false /\ keywordStartsPlain re.
Proof.
  intros H. repeat (apply elem_of_cons in H as [->|H]); [..|by apply elem_of_nil in H];
    (split; [done|apply keywordStartsPlain_all; in_list]).
Qed.

Lemma directive_unique_prefix bs w g bs' w' g' (rest rest' : jsstring) :
  (bs = [BACKSLASH] \/ bs = [BACKSLASH; BACKSLASH]) ->
  (bs' = [BACKSLASH] \/ bs' = [BACKSLASH; BACKSLASH]) ->
  length w = length w' ->
  (forall k, head w = Some k -> k <> BACKSLASH) ->
  (forall k, head w' = Some k -> k <> BACKSLASH) ->
  w <> [] -> w' <> [] ->
  bs ++ w ++ [LBRACE] ++ g ++ [RBRACE] ++ rest
  = bs' ++ w' ++ [LBRACE] ++ g' ++ [RBRACE] ++ rest' ->
  bs = bs' /\ w = w'.
Proof.
  intros Hbs Hbs' Hlen Hw Hw' Hne Hne' Heq.
  destruct w as [|k w]; [done|]. destruct w' as [|k' w']; [done|].
  specialize (Hw k eq_refl). specialize (Hw' k' eq_refl).
  destruct Hbs as [-> | ->], Hbs' as [-> | ->]; simpl in Heq.
  - injection Heq as -> Heq. split; [done|]. f_equal.
    apply app_inj_1 in Heq as [-> _]; [done|]. simpl in Hlen. lia.
  - injection Heq as ->. done.
  - injection Heq as <-. done.
  - injection Heq as -> Heq. split; [done|]. f_equal.
    apply app_inj_1 in Heq as [-> _]; [done|]. simpl in Hlen. lia.
Qed.

Lemma keywordMatches_head re w k :
  keywordStartsPlain re -> keywordMatches re w -> head w = Some k -> k <> BACKSLASH.
Proof.
  intros (k0 & kw & Hkw & Hk1 & Hk2) Hw Hh. unfold keywordMatches in Hw.
  rewrite Hkw in Hw. inversion Hw as [|? t ? w' Ht Hw']; subst. simpl in Hh.
  injection Hh as ->. intros ->. by rewrite charMatches_BACKSLASH in Ht.
Qed.

Lemma keywordMatches_length re w : keywordMatches re w -> length w = length (Re.keyword re).
Proof. intros H. symmetry. by apply Forall2_length in H. Qed.

Lemma keywordMatches_nonempty re w : keywordStartsPlain re -> keywordMatches re w -> w <> [].
Proof.
  intros (k0 & kw & Hkw & _) Hw ->. unfold keywordMatches in Hw. rewrite Hkw in Hw.
  inversion Hw.
Qed.

End KeywordCase.

(** ** Keyword case *)

Section CaseOfKeyword.

#[local] Arguments Re.matchHere : simpl never.

(** The case of the keyword, directive by directive.  The colour,
    part-of-speech, translation and tags directives are matched with the
    keyword compared without regard to case: where the lower-case spelling of
    such a directive is the match, the same directive with its keyword in any
    other case is the match too, at the same place and with the same
    payload.  The label and reference directives are matched with the
    keyword as it is written: with a letter of the keyword in upper case
    they are no match. *)
Theorem keyword_case (re : Re.regex) (pre bs kw' g post : jsstring) :
  sameUpToCase kw' (Re.keyword re) ->
  (re ∈ [colorRegex; posRegex; jpRegex; tagsRegex] ->
   Re.search re (pre ++ bs ++ Re.keyword re ++ [LBRACE] ++ g ++ [RBRACE] ++ post)
   = Some (Re.mkMatch (length pre) (bs ++ Re.keyword re ++ [LBRACE] ++ g ++ [RBRACE]) g) ->
   Re.search re (pre ++ bs ++ kw' ++ [LBRACE] ++ g ++ [RBRACE] ++ post)
   = Some (Re.mkMatch (length pre) (bs ++ kw' ++ [LBRACE] ++ g ++ [RBRACE]) g)) /\
  (re ∈ [labelRegex; refRegex] -> kw' <> Re.keyword re ->
   (bs = [BACKSLASH] \/ bs = [BACKSLASH; BACKSLASH]) ->
   Re.matchHere re (bs ++ kw' ++ [LBRACE] ++ g ++ [RBRACE] ++ post) = None).
Proof.
  intros Hcase. split.
  - intros Hre Hs. destruct (flagged_ignoreCase re Hre) as [Hic Hplain].
    unfold Re.search in *.
    apply searchFrom_Some in Hs as (pre0 & rest0 & Heq & Hi & Hm & Hno).
    cbn [Re.matched Re.index Re.group1] in *.
    assert (Hpre : pre0 = pre /\ rest0 = post).
    { replace (pre ++ bs ++ Re.keyword re ++ [LBRACE] ++ g ++ [RBRACE] ++ post)
        with (pre ++ (bs ++ Re.keyword re ++ [LBRACE] ++ g ++ [RBRACE]) ++ post) in Heq
        by (by rewrite <- !app_assoc).
      apply app_inj_1 in Heq as [-> Heq]; [|lia].
      by apply app_inv_head in Heq as ->. }
    destruct Hpre as [-> ->].
    apply matchHere_sound in Hm as (m0 & Hm0 & bs2 & w & Hbs2 & Hw & Hne & Hno' & ->).
    apply app_inv_tail in Hm0.
    assert (bs = bs2) as <-.
    { apply app_inj_2 in Hm0 as [? _]; [done|].
      rewrite !length_app. rewrite (keywordMatches_length _ _ Hw). done. }
    assert (Hd : isDirective re (bs ++ kw' ++ [LBRACE] ++ g ++ [RBRACE]) g).
    { exists bs, kw'. split_and!; try done. by apply keywordMatches_case. }
    pose proof (matchHere_complete re _ g post Hplain Hd) as Hm'.
    assert (Hsame : sameUpToCase
              (pre ++ bs ++ Re.keyword re ++ [LBRACE] ++ g ++ [RBRACE] ++ post)
              (pre ++ bs ++ kw' ++ [LBRACE] ++ g ++ [RBRACE] ++ post)).
    { apply sameUpToCase_app; [done|]. apply sameUpToCase_app; [done|].
      apply sameUpToCase_app; [by apply sameUpToCase_sym|done]. }
    replace (pre ++ bs ++ kw' ++ [LBRACE] ++ g ++ [RBRACE] ++ post)
      with (pre ++ (bs ++ kw' ++ [LBRACE] ++ g ++ [RBRACE]) ++ post) in *
      by (by rewrite <- !app_assoc).
    apply (searchFrom_found re 0); [|done].
    intros k Hk. apply (matchHere_case_None re Hic _ _ (sameUpToCase_drop k _ _ Hsame)).
    by apply Hno.
  - intros Hre Hne Hbs. destruct (unflagged_ignoreCase re Hre) as [Hic Hplain].
    destruct (Re.matchHere re _) as [[g' rest']|] eqn:E; [exfalso|done].
    apply matchHere_sound in E as (m0 & Hm0 & bs2 & w & Hbs2 & Hw & _ & _ & ->).
    pose proof (keywordMatches_head re w) as Hhead.
    pose proof (keywordMatches_nonempty re w Hplain Hw) as Hwne.
    pose proof (keywordMatches_length re w Hw) as Hwlen.
    apply keywordMatches_exact in Hw as ->; [|done].
    assert (Hkw' : keywordMatches (Re.mkRegex (Re.keyword re) true) kw').
    { by apply keywordMatches_case. }
    assert (Hplain' : keywordStartsPlain (Re.mkRegex (Re.keyword re) true)).
    { destruct Hplain as (k0 & kw & ? & ? & ?). by exists k0, kw. }
    rewrite <- !app_assoc in Hm0.
    destruct (directive_unique_prefix bs kw' g bs2 (Re.keyword re) g' post rest')
      as [_ Heq]; try done.
    + by apply sameUpToCase_length.
    + intros k. by apply (keywordMatches_head _ kw' k Hplain' Hkw').
    + intros k. apply Hhead; [done|]. by apply keywordMatches_exact.
    + by apply (keywordMatches_nonempty _ kw' Hplain').
Qed.

(** An upper-case colour directive is found where the lower-case one is,
    with the same payload, and an upper-case label directive is no match. *)
Lemma keyword_case_witness :
  sameUpToCase (str "COLOR") (Re.keyword colorRegex) /\
  Re.search colorRegex (str "a \COLOR{red} b")
  = Some (Re.mkMatch 2 (str "\COLOR{red}") (str "red")) /\
  sameUpToCase (str "LABEL") (Re.keyword labelRegex) /\
  Re.matchHere labelRegex (str "\LABEL{x} y") = None.
Proof.
  split; [reflexivity|]. split; [|split; [reflexivity|]].
  - apply (keyword_case colorRegex (str "a ") [BACKSLASH] (str "COLOR") (str "red")
             (str " b") eq_refl).
    + apply list_elem_of_here.
    + vm_compute. reflexivity.
  - apply (keyword_case labelRegex [] [BACKSLASH] (str "LABEL") (str "x")
             (str " y") eq_refl).
    + apply list_elem_of_here.
    + discriminate.
    + by left.
Defined.

(** C7 fails on the code for the label and the reference directive.  The
    six regular expressions are of one shape, and the flag [i], which bears
    on the keyword only, is on four of them: the colour, part-of-speech,
    translation and tags directives are extracted with the keyword in any
    case, as the claim says.  The expressions of the label and of the
    reference lack the flag: written with an upper-case letter in the
    keyword these two are not extracted and stay in the display text, where
    their lower-case spelling is extracted. *)
Theorem label_keyword_case_sensitive :
  Re.ignoreCase <$> [colorRegex; labelRegex; posRegex; jpRegex; tagsRegex; refRegex]
    = [true; false; true; true; true; false] /\
  fieldsOf RawNode.color (str "a \COLOR{red}") = fieldsOf RawNode.color (str "a \color{red}") /\
  fieldsOf RawNode.pos (str "a \Pos{noun}") = [None; Some (str "noun")] /\
  fieldsOf RawNode.jp (str "a \JP{x}") = [None; Some (str "x")] /\
  fieldsOf RawNode.tags (str "a \tAGS{x}") = [[]; [str "x"]] /\
  fieldsOf RawNode.text (str "a \COLOR{red} \Pos{noun} \JP{x} \tAGS{y}")
    = [str "root"; str "a"] /\
  fieldsOf RawNode.label (str "a \label{x}") = [None; Some (str "x")] /\
  fieldsOf RawNode.label (str "a \LABEL{x}") = [None; None] /\
  fieldsOf RawNode.text (str "a \label{x}") = [str "root"; str "a"] /\
  fieldsOf RawNode.text (str "a \LABEL{x}") = [str "root"; str "a \LABEL{x}"] /\
  fieldsOf RawNode.refs (str "b \ref{x}") = [[]; [str "x"]] /\
  fieldsOf RawNode.refs (str "b \Ref{x}") = [[]; []] /\
  fieldsOf RawNode.text (str "b \ref{x}") = [str "root"; str "b"] /\
  fieldsOf RawNode.text (str "b \Ref{x}") = [str "root"; str "b \Ref{x}"] /\
  labelOf (str "a \label{x}") (str "x") = Some (str "n_0") /\
  labelOf (str "a \LABEL{x}") (str "x") = None.
Proof. split_and!; by vm_compute. Qed.

End CaseOfKeyword.

(** ** The walk over the hierarchy *)

Section Each.
Context (h : heap) (Htree : treeHeap h).

Lemma elem_of_childrenOf r c :
  c ∈ childrenOf h r <-> exists n, h !! r = Some n /\ c ∈ RawNode.children n.
Proof.
  unfold childrenOf. destruct (h !! r) as [n|]; simpl.
  - split; [eauto|]. by intros (n' & [= <-] & ?).
  - split; [by intros ?%elem_of_nil|]. by intros (n' & ? & _).
Qed.

(** The breadth-first walk ends by itself and meets the descendants of the
    nodes it starts from, and nothing else. *)
Lemma eachFrom_spec fuel : forall m cur,
  (forall x, x ∈ cur -> m <= x < length h) -> length h <= fuel + m ->
  exists vs, eachFrom fuel h cur = Ok vs /\
             forall r, r ∈ vs <-> exists c, c ∈ cur /\ descendant h c r.
Proof.
  induction fuel as [|fuel IH]; intros m cur Hcur Hfuel.
  - destruct cur as [|x cur].
    + exists []. split; [done|]. intros r. split; [by intros ?%elem_of_nil|].
      by intros (c & ?%elem_of_nil & _).
    + specialize (Hcur x (list_elem_of_here _ _)). lia.
  - destruct cur as [|x cur].
    { exists []. split; [done|]. intros r. split; [by intros ?%elem_of_nil|].
      by intros (c & ?%elem_of_nil & _). }
    set (cur' := x :: cur) in *.
    destruct (IH (S m) (cur' ≫= childrenOf h)) as (rest & Hrest & Hin).
    { intros y (x0 & Hy & Hx0)%list_elem_of_bind.
      apply elem_of_childrenOf in Hy as (n & Hn & Hc).
      pose proof (tree_bound _ Htree _ _ _ Hn Hc). specialize (Hcur x0 Hx0). lia. }
    { lia. }
    exists (cur' ++ rest). split.
    { change (eachFrom (S fuel) h cur') with
        (rest0 ← eachFrom fuel h (cur' ≫= childrenOf h); Ok (cur' ++ rest0)).
      by rewrite Hrest. }
    intros r. rewrite elem_of_app, Hin. split.
    + intros [Hr|(c & (x0 & Hc & Hx0)%list_elem_of_bind & Hd)].
      * exists r. split; [done|constructor].
      * apply elem_of_childrenOf in Hc as (n & Hn & Hc).
        exists x0. split; [done|]. by econstructor.
    + intros (c & Hc & Hd). inversion Hd as [|? nd c' ? Hnd Hc' Hd']; subst.
      * by left.
      * right. exists c'. split; [|done]. apply list_elem_of_bind.
        exists c. split; [|done]. apply elem_of_childrenOf. eauto.
Qed.

Context (Hinj : forall r r' n n',
           h !! r = Some n -> h !! r' = Some n' -> RawNode.id n = RawNode.id n' -> r = r')
        (Htruthy : forall r n, h !! r = Some n -> Js.truthy (RawNode.id n) = true).

Lemma nodePos_snoc vs d :
  nodePos h (vs ++ [d]) =
  match h !! d with
  | Some data =>
      if Js.truthy (RawNode.id data) then <[RawNode.id data := d]> (nodePos h vs)
      else nodePos h vs
  | None => nodePos h vs
  end.
Proof. unfold nodePos. by rewrite foldl_snoc. Qed.

Lemma nodePos_lookup vs i d :
  nodePos h vs !! i = Some d <->
  d ∈ vs /\ exists data, h !! d = Some data /\ RawNode.id data = i.
Proof.
  induction vs as [|d0 vs IH] using rev_ind.
  - unfold nodePos. simpl. rewrite lookup_empty. split; [done|].
    by intros [?%elem_of_nil _].
  - rewrite nodePos_snoc, elem_of_app, list_elem_of_singleton.
    destruct (h !! d0) as [data0|] eqn:E0.
    + rewrite (Htruthy _ _ E0).
      destruct (decide (RawNode.id data0 = i)) as [<-|Hne].
      * rewrite lookup_insert_eq. split.
        -- intros [= <-]. split; [by right|eauto].
        -- intros (_ & data & Hd & Hid). f_equal. by apply (Hinj d0 d data0 data).
      * rewrite lookup_insert_ne by done. rewrite IH. split.
        -- intros (? & ?). split; [by left|done].
        -- intros ([Hd| ->] & data & Hdata & Hid); [eauto|]. congruence.
    + rewrite IH. split.
      * intros (? & ?). split; [by left|done].
      * intros ([Hd| ->] & data & Hdata & Hid); [eauto|]. congruence.
Qed.

End Each.

(** ** Identities *)

Section Identities.

Lemma str_inj s s' : str s = str s' -> s = s'.
Proof.
  intros H. apply (f_equal string_of_list_ascii) in H.
  unfold str in H. by rewrite !string_of_list_ascii_of_string in H.
Qed.

Lemma id_of_line ls st r n :
  invariant ls st -> nodes st !! r = Some n ->
  (r = ROOT /\ RawNode.id n = str "root") \/
  (r <> ROOT /\ exists idx, RawNode.line n = Z.of_nat idx /\
                            RawNode.id n = str "n_" ++ str (pretty idx)).
Proof.
  intros Hinv Hn. destruct (decide (r = ROOT)) as [->|Hr].
  - left. split; [done|]. pose proof (inv_root _ _ Hinv) as H0. rewrite Hn in H0.
    by apply created_root in H0 as (_ & _ & ? & _).
  - right. split; [done|].
    destruct (inv_line _ _ Hinv r n Hr Hn) as (idx & raw & _ & _ & Hmk).
    exists idx. split.
    + by apply makeNode_line in Hmk.
    + by apply makeNode_id in Hmk.
Qed.

Lemma ids_injective ls st r r' n n' :
  invariant ls st -> nodes st !! r = Some n -> nodes st !! r' = Some n' ->
  RawNode.id n = RawNode.id n' -> r = r'.
Proof.
  intros Hinv Hn Hn' Hid.
  destruct (id_of_line _ _ _ _ Hinv Hn) as [[-> Hi]|[Hr (idx & Hl & Hi)]],
           (id_of_line _ _ _ _ Hinv Hn') as [[-> Hi']|[Hr' (idx' & Hl' & Hi')]];
    rewrite Hi, Hi' in Hid; try done.
  apply app_inv_head in Hid. apply str_inj in Hid. apply (inj pretty) in Hid. subst idx'.
  destruct (Nat.lt_trichotomy r r') as [Hlt|[->|Hlt]]; [|done|].
  - pose proof (inv_line_mono _ _ Hinv r r' n n' Hlt Hn Hn'). lia.
  - pose proof (inv_line_mono _ _ Hinv r' r n' n Hlt Hn' Hn). lia.
Qed.

Lemma ids_truthy ls st r n :
  invariant ls st -> nodes st !! r = Some n -> Js.truthy (RawNode.id n) = true.
Proof.
  intros Hinv Hn.
  by destruct (id_of_line _ _ _ _ Hinv Hn) as [[_ ->]|[_ (idx & _ & ->)]].
Qed.

Lemma descendant_sameShape h0 h a b :
  sameShape h0 h -> descendant h0 a b -> descendant h a b.
Proof.
  intros Hs. induction 1 as [|n nd c r Hn Hc _ IH]; [constructor|].
  destruct (sameShape_lookup _ _ _ _ Hs Hn) as (nd' & Hn' & Hsh).
  econstructor; [exact Hn'| |exact IH]. by rewrite (shapeOf_children _ _ Hsh).
Qed.

Lemma treeHeap_sameShape h0 h : sameShape h0 h -> treeHeap h0 -> treeHeap h.
Proof.
  intros Hs Ht. split.
  - intros p n c Hn Hc. destruct (sameShape_created _ _ _ _ Hs Hn) as (n0 & Hn0 & _ & Hk).
    rewrite Hk in Hc. rewrite <- (sameShape_length _ _ Hs).
    by apply (tree_bound _ Ht p n0).
  - intros p n Hn. destruct (sameShape_created _ _ _ _ Hs Hn) as (n0 & Hn0 & _ & Hk).
    rewrite Hk. by apply (tree_nodup _ Ht p).
  - intros p1 p2 n1 n2 c Hn1 Hn2 Hc1 Hc2.
    destruct (sameShape_created _ _ _ _ Hs Hn1) as (m1 & Hm1 & _ & Hk1).
    destruct (sameShape_created _ _ _ _ Hs Hn2) as (m2 & Hm2 & _ & Hk2).
    rewrite Hk1 in Hc1. rewrite Hk2 in Hc2.
    by apply (tree_parent _ Ht p1 p2 m1 m2 c).
Qed.

(** The heap that a parse returns: a tree, every object of which is
    reachable from the root and has an identity of its own. *)
Lemma parseText_heap input :
  exists p,
    parseText input = Ok p /\ rootRef p = ROOT /\
    treeHeap (objects p) /\ 0 < length (objects p) /\
    (forall q, q < length (objects p) -> descendant (objects p) ROOT q) /\
    (forall r r' n n', objects p !! r = Some n -> objects p !! r' = Some n' ->
       RawNode.id n = RawNode.id n' -> r = r') /\
    (forall r n, objects p !! r = Some n -> Js.truthy (RawNode.id n) = true) /\
    (forall l i, labels p !! l = Some i ->
       exists r n, r <> ROOT /\ objects p !! r = Some n /\
                   RawNode.id n = i /\ RawNode.label n = Some l).
Proof.
  destruct (parseText_facts input) as (st & p & _ & Hinv & Hp & Hroot & Hlab & Hshape & _).
  destruct (parseText_nodes input) as (p' & Hp' & _ & _ & Hlabels & _).
  assert (p' = p) as -> by congruence.
  exists p. split_and!; try done.
  6: { intros l i Hl. destruct (Hlabels l i Hl) as (r & n & ? & ? & ? & ? & _). eauto 10. }
  - apply (treeHeap_sameShape _ _ Hshape), (invariant_treeHeap _ _ Hinv).
  - rewrite <- (sameShape_length _ _ Hshape).
    pose proof (inv_root _ _ Hinv) as H0.
    destruct (nodes st !! ROOT) eqn:E; [|done]. by apply lookup_lt_Some in E.
  - intros q Hq. apply (descendant_sameShape _ _ _ _ Hshape).
    apply (all_reachable _ _ _ Hinv). by rewrite (sameShape_length _ _ Hshape).
  - intros r r' n n' Hn Hn' Hid.
    destruct (sameShape_created _ _ _ _ Hshape Hn) as (m & Hm & Hc & _).
    destruct (sameShape_created _ _ _ _ Hshape Hn') as (m' & Hm' & Hc' & _).
    apply (ids_injective _ _ r r' m m' Hinv Hm Hm').
    apply (f_equal RawNode.id) in Hc, Hc'. simpl in *. congruence.
  - intros r n Hn.
    destruct (sameShape_created _ _ _ _ Hshape Hn) as (m & Hm & Hc & _).
    apply (f_equal RawNode.id) in Hc. simpl in Hc. rewrite Hc.
    by apply (ids_truthy _ _ r m Hinv).
Qed.

End Identities.

(** ** Cross links *)

Section Links.

Lemma descendant_bound h a b :
  treeHeap h -> descendant h a b -> a < length h -> b < length h.
Proof.
  intros Ht. induction 1 as [|n nd c r Hn Hc _ IH]; [done|].
  intros _. apply IH. pose proof (tree_bound _ Ht _ _ _ Hn Hc). lia.
Qed.

Lemma linksOf_spec p pos d data lk :
  (forall i r, pos !! i = Some r <-> exists n, objects p !! r = Some n /\ RawNode.id n = i) ->
  (forall r n, objects p !! r = Some n -> Js.truthy (RawNode.id n) = true) ->
  objects p !! d = Some data ->
  lk ∈ linksOf p pos data <->
  exists label tid t tdata,
    label ∈ RawNode.refs data /\ labels p !! label = Some tid /\
    objects p !! t = Some tdata /\ RawNode.id tdata = tid /\ t <> d /\
    lk = Link.mk d t (RawNode.effectiveColor data).
Proof.
  intros Hpos Htruthy Hd. unfold linksOf.
  assert (Hfrom : pos !! RawNode.id data = Some d) by (apply Hpos; eauto).
  destruct (Js.truthy_list (RawNode.refs data)) eqn:Erefs.
  2: { destruct (RawNode.refs data); [|done]. split; [by intros ?%elem_of_nil|].
       by intros (label & ? & ? & ? & ?%elem_of_nil & _). }
  rewrite list_elem_of_bind. rewrite Hfrom. split.
  - intros (label & Hlk & Hlabel).
    destruct (labels p !! label) as [tid|] eqn:El; [|by apply elem_of_nil in Hlk].
    destruct (Js.truthy tid) eqn:Et; [|by apply elem_of_nil in Hlk].
    destruct (pos !! tid) as [t|] eqn:Ept; [|by apply elem_of_nil in Hlk].
    destruct (bool_decide (d ≠ t)) eqn:Eb; [|by apply elem_of_nil in Hlk].
    apply bool_decide_eq_true in Eb. apply list_elem_of_singleton in Hlk.
    apply Hpos in Ept as (tdata & Htd & Hid).
    exists label, tid, t, tdata. by split_and!.
  - intros (label & tid & t & tdata & Hlabel & El & Htd & Hid & Hne & ->).
    exists label. split; [|done]. rewrite El.
    assert (Js.truthy tid = true) as -> by (rewrite <- Hid; by apply (Htruthy t)).
    assert (pos !! tid = Some t) as -> by (apply Hpos; eauto).
    rewrite bool_decide_eq_true_2 by (by intros ->). by apply list_elem_of_singleton.
Qed.

End Links.

(** C8: the cross links of a parse are computed without an error, and there
    is a link from the node [f] to the node [t] exactly when a label among
    the references of [f] has an entry in the label map and that entry is
    the identity of [t] and not the identity of [f] itself.  A reference to
    a label without an entry, or to the label of the node itself, gives no
    link; every entry of the label map is the identity of a node. *)
Theorem crossLinks_spec (input : jsstring) :
  (exists p links,
     parseText input = Ok p /\ crossLinks p = Ok links /\
     (forall f t col,
        Link.mk f t col ∈ links <->
        exists data label tid tdata,
          objects p !! f = Some data /\ col = RawNode.effectiveColor data /\
          label ∈ RawNode.refs data /\ labels p !! label = Some tid /\
          objects p !! t = Some tdata /\ RawNode.id tdata = tid /\
          tid <> RawNode.id data) /\
     (forall label tid, labels p !! label = Some tid ->
        exists t tdata, objects p !! t = Some tdata /\ RawNode.id tdata = tid)) /\
  linksOfInput refSample = [Link.mk 2 1 None] /\
  linksOfInput (str "a \ref{nope}") = [] /\
  linksOfInput (str "a \label{x} \ref{x}") = [] /\
  linksOfInput (str "a \label{x} \color{red}" ++ [LF] ++ str "b \ref{x} \ref{a} \ref{x}"
                  ++ [LF] ++ str " c \ref{x} \color{blue}")
  = [Link.mk 2 1 None; Link.mk 2 1 None; Link.mk 3 1 (Some (VString (str "#3b82f6")))].
Proof.
  split; [|clear input; split_and!; by vm_compute].
  destruct (parseText_heap input)
    as (p & Hp & Hroot & Htree & Hlen & Hreach & Hinj & Htruthy & Hlabels).
  destruct (eachFrom_spec (objects p) Htree (length (objects p)) 0 [rootRef p])
    as (vs & Hvs & Hin).
  { intros x ->%list_elem_of_singleton. rewrite Hroot. unfold ROOT. lia. }
  { lia. }
  assert (Hall : forall r, r ∈ vs <-> r < length (objects p)).
  { intros r. rewrite Hin. split.
    - intros (c & ->%list_elem_of_singleton & Hd).
      apply (descendant_bound _ _ _ Htree Hd). rewrite Hroot. exact Hlen.
    - intros Hr. exists (rootRef p). split; [by apply list_elem_of_singleton|].
      rewrite Hroot. by apply Hreach. }
  set (pos := nodePos (objects p) vs).
  assert (Hpos : forall i r, pos !! i = Some r <->
            exists n, objects p !! r = Some n /\ RawNode.id n = i).
  { intros i r. unfold pos. rewrite (nodePos_lookup (objects p) Hinj Htruthy vs i r).
    rewrite Hall. split; [by intros [_ ?]|].
    intros (n & Hn & Hid). split; [by apply lookup_lt_Some in Hn|eauto]. }
  exists p, (vs ≫= fun d => from_option (linksOf p pos) [] (objects p !! d)).
  split; [done|]. split.
  { unfold crossLinks, each. rewrite Hvs. done. }
  split.
  - intros f t col. rewrite list_elem_of_bind. split.
    + intros (d & Hlk & Hd). destruct (objects p !! d) as [data|] eqn:Ed;
        [|by apply elem_of_nil in Hlk]. simpl in Hlk.
      apply (linksOf_spec p pos d data _ Hpos Htruthy Ed) in Hlk
        as (label & tid & t' & tdata & Hlabel & El & Htd & Hid & Hne & Heq).
      injection Heq as -> -> ->.
      exists data, label, tid, tdata. split_and!; try done.
      intros Hsame. apply Hne. apply (Hinj _ _ _ _ Htd Ed). congruence.
    + intros (data & label & tid & tdata & Hf & -> & Hlabel & El & Htd & Hid & Hne).
      exists f. split; [|apply Hall; by apply lookup_lt_Some in Hf].
      rewrite Hf. simpl. apply (linksOf_spec p pos f data _ Hpos Htruthy Hf).
      exists label, tid, t, tdata. split_and!; try done.
      intros ->. apply Hne. congruence.
  - intros label tid Hl. destruct (Hlabels label tid Hl) as (r & n & _ & Hn & Hid & _).
    eauto.
Qed.

(** * Properties of the editor and the view *)

#[local] Arguments JsStr.join : simpl never.

(** ** Splitting and joining *)

Section SplitJoin.

Variable sep : ascii.

Lemma eqb_sep_true c : Ascii.eqb c sep = true <-> c = sep.
Proof. apply Ascii.eqb_eq. Qed.

Lemma eqb_sep_false c : Ascii.eqb c sep = false <-> c <> sep.
Proof. apply Ascii.eqb_neq. Qed.

Lemma splitOn_cons_sep s : Js.splitOn sep (sep :: s) = [] :: Js.splitOn sep s.
Proof. simpl. by rewrite Ascii.eqb_refl. Qed.

Lemma splitOn_not_nil s : Js.splitOn sep s <> [].
Proof.
  destruct s as [|c s]; simpl; [done|].
  destruct (Ascii.eqb c sep); [done|]. by destruct (Js.splitOn sep s).
Qed.

Lemma splitOn_cons_other c s :
  c <> sep ->
  exists piece rest,
    Js.splitOn sep s = piece :: rest /\ Js.splitOn sep (c :: s) = (c :: piece) :: rest.
Proof.
  intros Hc. simpl. apply eqb_sep_false in Hc. rewrite Hc.
  destruct (Js.splitOn sep s) as [|piece rest] eqn:E.
  - by destruct (splitOn_not_nil s).
  - by exists piece, rest.
Qed.

Lemma join_cons p q rest :
  JsStr.join [sep] (p :: q :: rest) = p ++ sep :: JsStr.join [sep] (q :: rest).
Proof. done. Qed.

Lemma join_cons_head c p rest :
  JsStr.join [sep] ((c :: p) :: rest) = c :: JsStr.join [sep] (p :: rest).
Proof. by destruct rest. Qed.

Lemma join_splitOn s : JsStr.join [sep] (Js.splitOn sep s) = s.
Proof.
  induction s as [|c s IH]; [done|].
  destruct (decide (c = sep)) as [->|Hc].
  - rewrite splitOn_cons_sep.
    destruct (Js.splitOn sep s) as [|q rest] eqn:E; [by destruct (splitOn_not_nil s)|].
    rewrite join_cons. cbn [app]. by rewrite IH.
  - destruct (splitOn_cons_other c s Hc) as (piece & rest & E & ->).
    rewrite join_cons_head. by rewrite <- E, IH.
Qed.

Lemma splitOn_no_sep s : Forall (fun l => sep ∉ l) (Js.splitOn sep s).
Proof.
  induction s as [|c s IH].
  - constructor; [apply not_elem_of_nil|constructor].
  - destruct (decide (c = sep)) as [->|Hc].
    + rewrite splitOn_cons_sep. constructor; [apply not_elem_of_nil|done].
    + destruct (splitOn_cons_other c s Hc) as (piece & rest & E & ->).
      rewrite E in IH. inversion IH as [|? ? Hp Hrest]; subst.
      constructor; [|done]. rewrite not_elem_of_cons. split; [congruence|done].
Qed.

Lemma splitOn_plain a : sep ∉ a -> Js.splitOn sep a = [a].
Proof.
  induction a as [|c a IH]; [done|]. rewrite not_elem_of_cons. intros [Hc Ha].
  destruct (splitOn_cons_other c a (not_eq_sym Hc)) as (piece & rest & E & ->).
  rewrite IH in E by done. by injection E as <- <-.
Qed.

Lemma splitOn_app_sep a b :
  sep ∉ a -> Js.splitOn sep (a ++ sep :: b) = a :: Js.splitOn sep b.
Proof.
  induction a as [|c a IH]; [intros _; apply splitOn_cons_sep|].
  rewrite not_elem_of_cons. intros [Hc Ha]. cbn [app].
  destruct (splitOn_cons_other c (a ++ sep :: b) (not_eq_sym Hc)) as (piece & rest & E & ->).
  rewrite IH in E by done. by injection E as <- <-.
Qed.

Lemma splitOn_app a b :
  Js.splitOn sep (a ++ sep :: b) = Js.splitOn sep a ++ Js.splitOn sep b.
Proof.
  induction a as [|c a IH]; [apply splitOn_cons_sep|]. cbn [app].
  destruct (decide (c = sep)) as [->|Hc].
  - by rewrite !splitOn_cons_sep, IH.
  - destruct (splitOn_cons_other c (a ++ sep :: b) Hc) as (piece & rest & E & ->).
    destruct (splitOn_cons_other c a Hc) as (piece' & rest' & E' & ->).
    rewrite IH, E' in E. simpl in E. by injection E as <- <-.
Qed.

Lemma splitOn_join ls :
  ls <> [] -> Forall (fun l => sep ∉ l) ls -> Js.splitOn sep (JsStr.join [sep] ls) = ls.
Proof.
  induction ls as [|p rest IH]; [done|]. intros _ Hall.
  inversion Hall as [|? ? Hp Hrest]; subst.
  destruct rest as [|q rest].
  - by apply splitOn_plain.
  - rewrite join_cons, splitOn_app_sep by done. by rewrite IH.
Qed.

Lemma join_app ls ls' :
  ls <> [] -> ls' <> [] ->
  JsStr.join [sep] (ls ++ ls') = JsStr.join [sep] ls ++ sep :: JsStr.join [sep] ls'.
Proof.
  induction ls as [|p rest IH]; [done|]. intros _ Hne.
  destruct rest as [|q rest].
  - destruct ls' as [|q' rest']; [done|]. done.
  - change ((p :: q :: rest) ++ ls') with (p :: q :: (rest ++ ls')).
    rewrite !join_cons. change (q :: rest ++ ls') with ((q :: rest) ++ ls').
    rewrite IH by done. by rewrite <- app_assoc.
Qed.

Lemma join_length ls :
  length (JsStr.join [sep] ls) = sum_list (length <$> ls) + (length ls - 1).
Proof.
  induction ls as [|p rest IH]; [done|].
  destruct rest as [|q rest]; [unfold JsStr.join; simpl; lia|].
  rewrite join_cons, length_app. cbn [length]. rewrite IH.
  rewrite !fmap_cons. simpl. lia.
Qed.

End SplitJoin.

(** ** Line ends *)

Lemma normalizeNewlines_cons_other c s :
  c <> CR -> Js.normalizeNewlines (c :: s) = c :: Js.normalizeNewlines s.
Proof. intros Hc. simpl. apply Ascii.eqb_neq in Hc. by rewrite Hc. Qed.

Lemma normalizeNewlines_no_CR s : CR ∉ Js.normalizeNewlines s.
Proof.
  induction s as [s IH] using jsstring_length_ind.
  destruct s as [|c s1]; [apply not_elem_of_nil|].
  destruct (decide (c = CR)) as [->|Hc].
  - simpl. destruct s1 as [|c1 s2].
    + rewrite not_elem_of_cons. split; [done|apply not_elem_of_nil].
    + destruct (Ascii.eqb c1 LF); rewrite not_elem_of_cons; (split; [done|]);
        apply IH; simpl; lia.
  - rewrite normalizeNewlines_cons_other by done.
    rewrite not_elem_of_cons. split; [congruence|apply IH; simpl; lia].
Qed.

Lemma normalizeNewlines_plain s : CR ∉ s -> Js.normalizeNewlines s = s.
Proof.
  induction s as [|c s IH]; [done|]. rewrite not_elem_of_cons. intros [Hc Hs].
  rewrite normalizeNewlines_cons_other by congruence. by rewrite IH.
Qed.

Lemma normalizeNewlines_idemp s :
  Js.normalizeNewlines (Js.normalizeNewlines s) = Js.normalizeNewlines s.
Proof. apply normalizeNewlines_plain, normalizeNewlines_no_CR. Qed.

Lemma normalizeNewlines_length s : length (Js.normalizeNewlines s) <= length s.
Proof.
  induction s as [s IH] using jsstring_length_ind.
  destruct s as [|c s1]; [done|].
  destruct (decide (c = CR)) as [->|Hc].
  - simpl. destruct s1 as [|c1 s2]; [simpl; lia|].
    destruct (Ascii.eqb c1 LF); simpl.
    + pose proof (IH s2 ltac:(simpl; lia)). lia.
    + pose proof (IH (c1 :: s2) ltac:(simpl; lia)). simpl in *. lia.
  - rewrite normalizeNewlines_cons_other by done. simpl.
    pose proof (IH s1 ltac:(simpl; lia)). lia.
Qed.

Lemma lines_no_line_end input : Forall (fun l => (LF ∉ l) /\ (CR ∉ l)) (lines input).
Proof.
  unfold lines. apply Forall_forall. intros l Hl. split.
  - pose proof (splitOn_no_sep LF (Js.normalizeNewlines input)) as H.
    rewrite Forall_forall in H. by apply H.
  - intros HCR. apply (normalizeNewlines_no_CR input).
    rewrite <- (join_splitOn LF (Js.normalizeNewlines input)).
    clear -Hl HCR. induction (Js.splitOn LF (Js.normalizeNewlines input)) as [|p rest IH].
    + by apply elem_of_nil in Hl.
    + destruct rest as [|q rest].
      * apply list_elem_of_singleton in Hl. by subst.
      * rewrite join_cons. apply elem_of_app.
        apply elem_of_cons in Hl as [->|Hl]; [by left|].
        right. apply elem_of_cons. right. by apply IH.
Qed.

(** X1: the lines that [parseText] numbers are those of the text with every
    line end written as one line feed: joined by line feeds they give that
    text back, none of them holds a line feed or a carriage return, and
    there is one more line than there are line ends.  A list of such lines,
    joined and split again, is the list itself, and a text without a
    carriage return is the join of its lines. *)
Theorem lines_join (input : jsstring) :
  JsStr.join [LF] (lines input) = Js.normalizeNewlines input /\
  Forall (fun l => (LF ∉ l) /\ (CR ∉ l)) (lines input) /\
  length (Js.normalizeNewlines input)
    = sum_list (length <$> lines input) + (length (lines input) - 1) /\
  0 < length (lines input) /\
  (CR ∉ input -> JsStr.join [LF] (lines input) = input) /\
  (forall ls, ls <> [] -> Forall (fun l => (LF ∉ l) /\ (CR ∉ l)) ls ->
     lines (JsStr.join [LF] ls) = ls) /\
  lines (str "a" ++ [CR; LF] ++ str "b" ++ [CR] ++ str "c" ++ [LF; CR] ++ str "d")
    = [str "a"; str "b"; str "c"; []; str "d"].
Proof.
  split_and!.
  - apply join_splitOn.
  - apply lines_no_line_end.
  - rewrite <- (join_length LF). unfold lines. by rewrite join_splitOn.
  - unfold lines. pose proof (splitOn_not_nil LF (Js.normalizeNewlines input)).
    destruct (Js.splitOn LF (Js.normalizeNewlines input)); [done|simpl; lia].
  - intros HCR. unfold lines. rewrite join_splitOn. by apply normalizeNewlines_plain.
  - intros ls Hne Hall. unfold lines.
    rewrite normalizeNewlines_plain.
    + apply splitOn_join; [done|]. eapply Forall_impl; [exact Hall|]. by intros l [? _].
    + clear Hne. induction ls as [|p rest IH]; [apply not_elem_of_nil|].
      inversion Hall as [|? ? [_ Hp] Hrest]; subst.
      destruct rest as [|q rest]; [done|].
      rewrite join_cons. rewrite not_elem_of_app, not_elem_of_cons.
      split_and!; [done|done|by apply IH].
  - by vm_compute.
Qed.

(** ** Lines and character ranges *)

Section Ranges.

Lemma sumLines_ok ls : forall todo i start,
  i + todo <= length ls ->
  sumLines ls i todo start
  = Ok (start + sum_list ((fun l => length l + 1) <$> take todo (drop i ls))).
Proof.
  induction todo as [|todo IH]; intros i start Hle.
  - simpl. f_equal. lia.
  - simpl. destruct (ls !! i) as [l|] eqn:El.
    + rewrite IH by lia. f_equal.
      rewrite (drop_S ls l i El). simpl. rewrite <- Nat.add_assoc. reflexivity.
    + apply lookup_ge_None in El. lia.
Qed.

Lemma sumLines_error ls : forall todo i start,
  i <= length ls -> length ls < i + todo -> sumLines ls i todo start = TypeError.
Proof.
  induction todo as [|todo IH]; intros i start Hle Hlt; [lia|].
  simpl. destruct (ls !! i) as [l|] eqn:El; [|done].
  apply lookup_lt_Some in El. apply IH; lia.
Qed.

Lemma offsetOf_join ls k :
  0 < k -> k <= length ls -> offsetOf ls k = length (JsStr.join [LF] (take k ls)) + 1.
Proof.
  intros Hk Hle. unfold offsetOf. rewrite join_length.
  rewrite length_take, Nat.min_l by done.
  assert (forall l : list jsstring,
            sum_list ((fun l => length l + 1) <$> l) = sum_list (length <$> l) + length l) as ->.
  { induction l as [|x l IH]; [done|]. rewrite !fmap_cons. simpl. rewrite IH. lia. }
  rewrite length_take, Nat.min_l by done. lia.
Qed.

(** The text around the line [k]. *)
Lemma join_lookup ls k l :
  ls !! k = Some l ->
  exists pre post,
    JsStr.join [LF] ls = pre ++ l ++ post /\ length pre = offsetOf ls k /\
    (k = 0 /\ pre = [] \/ 0 < k /\ pre = JsStr.join [LF] (take k ls) ++ [LF]) /\
    (post = [] \/ exists post', post = LF :: post').
Proof.
  intros Hl.
  pose proof (take_drop_middle ls k l Hl) as Hsplit.
  assert (Hk : k < length ls) by (by apply lookup_lt_Some in Hl).
  assert (Hmid : exists post, JsStr.join [LF] (l :: drop (S k) ls) = l ++ post /\
                   (post = [] \/ exists post', post = LF :: post')).
  { destruct (drop (S k) ls) as [|q rest].
    - exists []. split; [by rewrite app_nil_r|by left].
    - exists (LF :: JsStr.join [LF] (q :: rest)). split; [apply join_cons|right; eauto]. }
  destruct Hmid as (post & Hmid & Hpost).
  destruct k as [|k].
  - exists [], post. rewrite take_0 in Hsplit. simpl in Hsplit.
    rewrite <- Hsplit at 1. rewrite Hmid. split_and!; [done|done|by left|done].
  - exists (JsStr.join [LF] (take (S k) ls) ++ [LF]), post.
    split_and!.
    + rewrite <- Hsplit at 1. rewrite join_app; [|by destruct ls|done].
      rewrite Hmid. by rewrite <- app_assoc.
    + rewrite length_app. simpl. rewrite offsetOf_join by lia. done.
    + right. split; [lia|done].
    + done.
Qed.

Lemma handleSelectLine_ok text (k : nat) :
  k <= length (lines text) ->
  handleSelectLine text (Z.of_nat k)
  = Ok (offsetOf (lines text) k,
        offsetOf (lines text) k + from_option length 0 (lines text !! k), Z.of_nat k).
Proof.
  intros Hk. unfold handleSelectLine. rewrite Nat2Z.id.
  rewrite sumLines_ok by (simpl; lia). rewrite drop_0. cbn [mbind result_bind].
  assert ((Z.of_nat k <? 0)%Z = false) as -> by lia. done.
Qed.

Lemma splitOn_take_line ls k part :
  LF ∉ part -> Forall (fun l => LF ∉ l) ls -> 0 < k -> k <= length ls ->
  Js.splitOn LF ((JsStr.join [LF] (take k ls) ++ [LF]) ++ part) = take k ls ++ [part].
Proof.
  intros Hpart Hall Hk Hle. rewrite <- app_assoc. cbn [app].
  rewrite splitOn_app. rewrite splitOn_join.
  - by rewrite splitOn_plain.
  - destruct ls; [simpl in Hle; lia|]. destruct k; [lia|done].
  - by apply Forall_take.
Qed.

End Ranges.

(** X2: [handleSelectLine] selects the line it is given, in the text with
    every line end written as one line feed: the range it passes on starts
    at the first character of the line, right after a line feed or at the
    start of the text, and ends at its end, before a line feed or at the end
    of the text.  The index that is one past the last line is accepted and
    gives an empty range; a larger one makes the loop read the length of
    [undefined], a TypeError; a negative one gives the empty range at 0. *)
Theorem handleSelectLine_spec (text : jsstring) (lineIdx : nat) :
  (forall l, lines text !! lineIdx = Some l ->
     exists start pre post,
       handleSelectLine text (Z.of_nat lineIdx)
         = Ok (start, start + length l, Z.of_nat lineIdx) /\
       Js.normalizeNewlines text = pre ++ l ++ post /\ length pre = start /\
       JsStr.slice (Js.normalizeNewlines text) start (start + length l) = l /\
       (lineIdx = 0 /\ pre = [] \/ 0 < lineIdx /\ last pre = Some LF) /\
       (post = [] \/ head post = Some LF)) /\
  (lineIdx = length (lines text) ->
     handleSelectLine text (Z.of_nat lineIdx)
       = Ok (length (Js.normalizeNewlines text) + 1,
             length (Js.normalizeNewlines text) + 1, Z.of_nat lineIdx)) /\
  (length (lines text) < lineIdx ->
     handleSelectLine text (Z.of_nat lineIdx) = TypeError) /\
  (forall z, (z < 0)%Z -> handleSelectLine text z = Ok (0, 0, z)) /\
  handleSelectLine (str "ab" ++ [CR; LF] ++ str "  cd" ++ [LF] ++ str "e") 1
    = Ok (3, 7, 1%Z).
Proof.
  split_and!.
  - intros l Hl.
    destruct (join_lookup (lines text) lineIdx l Hl) as (pre & post & Hjoin & Hlen & Hpre & Hpost).
    exists (offsetOf (lines text) lineIdx), pre, post.
    assert (Hnorm : Js.normalizeNewlines text = pre ++ l ++ post).
    { rewrite <- Hjoin. unfold lines. by rewrite join_splitOn. }
    split_and!.
    + rewrite handleSelectLine_ok by (apply lookup_lt_Some in Hl; lia).
      by rewrite Hl.
    + done.
    + done.
    + unfold JsStr.slice. rewrite Hnorm, <- Hlen.
      rewrite drop_app_length.
      replace (length pre + length l - length pre) with (length l) by lia.
      by rewrite take_app_length.
    + destruct Hpre as [[-> ->]|[Hk ->]]; [by left|right].
      split; [done|]. by rewrite last_snoc.
    + destruct Hpost as [->|[post' ->]]; [by left|by right].
  - intros ->. rewrite handleSelectLine_ok by done.
    rewrite (lookup_ge_None_2 (lines text) (length (lines text))) by done.
    simpl. rewrite Nat.add_0_r.
    assert (Hne : 0 < length (lines text)).
    { unfold lines. pose proof (splitOn_not_nil LF (Js.normalizeNewlines text)).
      destruct (Js.splitOn LF (Js.normalizeNewlines text)); [done|simpl; lia]. }
    rewrite offsetOf_join by lia. rewrite firstn_all.
    unfold lines. by rewrite join_splitOn.
  - intros Hlt. unfold handleSelectLine. rewrite Nat2Z.id.
    by rewrite sumLines_error by (simpl; lia).
  - intros z Hz. unfold handleSelectLine.
    replace (Z.to_nat z) with 0 by lia. simpl.
    by assert ((z <? 0)%Z = true) as -> by lia.
  - by vm_compute.
Qed.

(** X3: the caret line that [onEditorCursor] computes is the number of line
    feeds before the caret, and it undoes [handleSelectLine]: for every
    position of the range that [handleSelectLine] selects for a line of the
    text, both ends included, it is the index of that line. *)
Theorem onEditorCursor_line (text : jsstring) :
  (forall upto,
     onEditorCursor (Js.normalizeNewlines text) upto
     = Z.of_nat (length (filter (fun c => c = LF) (take upto (Js.normalizeNewlines text))))) /\
  (forall lineIdx l start stop caretLine upto,
     lines text !! lineIdx = Some l ->
     handleSelectLine text (Z.of_nat lineIdx) = Ok (start, stop, caretLine) ->
     start <= upto <= stop ->
     onEditorCursor (Js.normalizeNewlines text) upto = caretLine) /\
  onEditorCursor (str "ab" ++ [LF] ++ str "  cd" ++ [LF] ++ str "e") 5 = 1%Z.
Proof.
  split_and!.
  - intros upto. unfold onEditorCursor, JsStr.slice. rewrite drop_0, Nat.sub_0_r.
    rewrite normalizeNewlines_plain.
    2:{ intros Hin. apply (normalizeNewlines_no_CR text).
        apply elem_of_take in Hin as (i & Hi & _). by eapply list_elem_of_lookup_2. }
    generalize (take upto (Js.normalizeNewlines text)). intros s.
    assert (length (Js.splitOn LF s) = S (length (filter (fun c => c = LF) s))) as ->; [|lia].
    induction s as [|c s IH]; [done|].
    destruct (decide (c = LF)) as [->|Hc].
    + rewrite splitOn_cons_sep. rewrite filter_cons_True by done. simpl. by rewrite IH.
    + destruct (splitOn_cons_other LF c s Hc) as (piece & rest & E & ->).
      rewrite filter_cons_False by done. rewrite <- IH, E. done.
  - intros lineIdx l start stop caretLine upto Hl Hsel Hupto.
    assert (Hk : lineIdx < length (lines text)) by (by apply lookup_lt_Some in Hl).
    rewrite handleSelectLine_ok in Hsel by lia. rewrite Hl in Hsel. simpl in Hsel.
    injection Hsel as <- <- <-.
    destruct (join_lookup (lines text) lineIdx l Hl) as (pre & post & Hjoin & Hlen & Hpre & _).
    assert (Hnorm : Js.normalizeNewlines text = pre ++ l ++ post).
    { rewrite <- Hjoin. unfold lines. by rewrite join_splitOn. }
    unfold onEditorCursor, JsStr.slice. rewrite drop_0, Nat.sub_0_r.
    rewrite normalizeNewlines_plain.
    2:{ intros Hin. apply (normalizeNewlines_no_CR text).
        apply elem_of_take in Hin as (i & Hi & _). by eapply list_elem_of_lookup_2. }
    rewrite Hnorm.
    assert (Htake : take upto (pre ++ l ++ post) = pre ++ take (upto - length pre) l).
    { rewrite take_app. rewrite take_ge by lia. f_equal.
      apply take_app_le. lia. }
    rewrite Htake.
    pose proof (lines_no_line_end text) as Hall.
    assert (Hall' : Forall (fun l => LF ∉ l) (lines text)).
    { eapply Forall_impl; [exact Hall|]. by intros ? [? _]. }
    assert (Hpart : LF ∉ take (upto - length pre) l).
    { intros Hin. apply elem_of_take in Hin as (i & Hi & _).
      rewrite Forall_forall in Hall'. apply (Hall' l); [by eapply list_elem_of_lookup_2|].
      by eapply list_elem_of_lookup_2. }
    destruct Hpre as [[-> ->]|[Hpos ->]].
    + cbn [app]. by rewrite splitOn_plain.
    + rewrite splitOn_take_line by (done || lia).
      rewrite length_app, length_take. simpl. lia.
  - by vm_compute.
Qed.

(** ** The click on a node *)

Section Walk.

(** The walk of [each] over a parse meets every object. *)
Lemma each_total input :
  exists p vs,
    parseText input = Ok p /\ each p = Ok vs /\
    (forall r, r ∈ vs <-> r < length (objects p)) /\
    (forall r r' n n', objects p !! r = Some n -> objects p !! r' = Some n' ->
       RawNode.id n = RawNode.id n' -> r = r').
Proof.
  destruct (parseText_heap input)
    as (p & Hp & Hroot & Htree & Hlen & Hreach & Hinj & Htruthy & Hlabels).
  destruct (eachFrom_spec (objects p) Htree (length (objects p)) 0 [rootRef p])
    as (vs & Hvs & Hin).
  { intros x ->%list_elem_of_singleton. rewrite Hroot. unfold ROOT. lia. }
  { lia. }
  exists p, vs. split_and!; [done|done| |done].
  intros r. rewrite Hin. split.
  - intros (c & ->%list_elem_of_singleton & Hd).
    apply (descendant_bound _ _ _ Htree Hd). rewrite Hroot. exact Hlen.
  - intros Hr. exists (rootRef p). split; [by apply list_elem_of_singleton|].
    rewrite Hroot. by apply Hreach.
Qed.

(** The objects of a parse: the root, and one node per line that is not
    blank. *)
Lemma parsed_objects input p :
  parseText input = Ok p ->
  (forall n, objects p !! ROOT = Some n -> created n = root) /\
  (forall r n, objects p !! r = Some n -> r <> ROOT ->
     exists idx raw,
       lines input !! idx = Some raw /\ blank raw = false /\
       makeNode idx raw = Ok (created n)).
Proof.
  intros Hp. split.
  - intros n Hn.
    destruct (parseText_facts input) as (st & p' & Hst & Hinv & Hp' & _ & _ & Hshape & _).
    assert (p' = p) as -> by congruence.
    destruct (sameShape_created _ _ _ _ Hshape Hn) as (n0 & Hn0 & Hc & _).
    pose proof (inv_root _ _ Hinv) as Hr. rewrite Hn0 in Hr. simpl in Hr.
    rewrite Hc. congruence.
  - destruct (parseText_nodes input) as (p' & Hp' & Hnodes & _).
    assert (p' = p) as -> by congruence. exact Hnodes.
Qed.

Lemma makeNode_jp idx raw n :
  makeNode idx raw = Ok n ->
  forall j, RawNode.jp n = Some j -> Js.trim j = j.
Proof.
  intros Hn j Hj. destruct (makeNode_eq idx raw) as (refs & _ & Heq).
  rewrite Heq in Hn. injection Hn as <-. simpl in Hj.
  destruct (extract jpRegex (afterPos raw)).1 as [m|]; [|done].
  simpl in Hj. injection Hj as <-. apply trim_idemp.
Qed.

Context (h : heap)
        (Hinj : forall r r' n n',
           h !! r = Some n -> h !! r' = Some n' -> RawNode.id n = RawNode.id n' -> r = r').

Lemma idToLineOf_snoc vs d :
  idToLineOf h (vs ++ [d]) =
  match h !! d with
  | Some data =>
      if (0 <=? RawNode.line data)%Z
      then <[RawNode.id data := RawNode.line data]> (idToLineOf h vs)
      else idToLineOf h vs
  | None => idToLineOf h vs
  end.
Proof. unfold idToLineOf. by rewrite foldl_snoc. Qed.

Lemma idToLineOf_lookup vs i z :
  idToLineOf h vs !! i = Some z <->
  exists d data, d ∈ vs /\ h !! d = Some data /\ RawNode.id data = i /\
                 (0 <= RawNode.line data)%Z /\ RawNode.line data = z.
Proof.
  induction vs as [|d0 vs IH] using rev_ind.
  - unfold idToLineOf. simpl. rewrite lookup_empty. split; [done|].
    by intros (d & data & ?%elem_of_nil & _).
  - rewrite idToLineOf_snoc.
    assert (Hold : (exists d data, d ∈ vs ++ [d0] /\ h !! d = Some data /\
                      RawNode.id data = i /\ (0 <= RawNode.line data)%Z /\
                      RawNode.line data = z) <->
                   (exists d data, d ∈ vs /\ h !! d = Some data /\
                      RawNode.id data = i /\ (0 <= RawNode.line data)%Z /\
                      RawNode.line data = z) \/
                   (exists data, h !! d0 = Some data /\ RawNode.id data = i /\
                      (0 <= RawNode.line data)%Z /\ RawNode.line data = z)).
    { split.
      - intros (d & data & [Hd| ->%list_elem_of_singleton]%elem_of_app & Hrest).
        + left. by exists d, data.
        + right. by exists data.
      - intros [(d & data & Hd & Hrest)|(data & Hrest)].
        + exists d, data. split; [apply elem_of_app; by left|done].
        + exists d0, data. split; [apply elem_of_app; right; by apply list_elem_of_singleton|done]. }
    rewrite Hold. clear Hold.
    destruct (h !! d0) as [data0|] eqn:E0.
    + destruct (0 <=? RawNode.line data0)%Z eqn:Eline.
      * destruct (decide (RawNode.id data0 = i)) as [<-|Hne].
        -- rewrite lookup_insert_eq. split.
           ++ intros [= <-]. right. exists data0. split_and!; [done|done|lia|done].
           ++ intros [(d & data & Hd & Hdata & Hid & _ & Hz)|(data & [= <-] & _ & _ & Hz)].
              ** assert (d = d0) as -> by (by apply (Hinj d d0 data data0)).
                 congruence.
              ** congruence.
        -- rewrite lookup_insert_ne by done. rewrite IH. split; [by left|].
           intros [?|(data & [= <-] & Hid & _)]; [done|congruence].
      * rewrite IH. split; [by left|].
        intros [?|(data & [= <-] & _ & Hpos & _)]; [done|lia].
    + rewrite IH. split; [by left|]. by intros [?|(data & ? & _)].
Qed.

End Walk.

(** X4: a click on a node selects the line the node was made from.  The map
    [idToLine] of a parse has an entry for the identity of every node but
    the root, its line, and no other; [onNodeClick] on such a node raises no
    error and selects, in the text with plain line feeds, exactly the
    characters of the line whose node it is, and sets the caret line to its
    index.  The alert is shown exactly when the node has a translation that
    is not empty, and reads text, colon, translation; the second test of the
    condition never decides.  On the root, which has no entry, nothing is
    selected. *)
Theorem onNodeClick_selects (text : jsstring) :
  (exists p lineOf,
     parseText text = Ok p /\ idToLine p = Ok lineOf /\
     (forall i z, lineOf !! i = Some z <->
        exists r n, r <> ROOT /\ objects p !! r = Some n /\
                    RawNode.id n = i /\ RawNode.line n = z) /\
     (forall n, objects p !! ROOT = Some n ->
        onNodeClick text lineOf n = Ok (None, None)) /\
     (forall r n, objects p !! r = Some n -> r <> ROOT ->
        exists idx raw start,
          lines text !! idx = Some raw /\ makeNode idx raw = Ok (created n) /\
          onNodeClick text lineOf n
          = Ok (match RawNode.jp n with
                | Some (c :: jp) => Some (RawNode.text n ++ str " : " ++ c :: jp)
                | _ => None
                end,
                Some (start, start + length raw, Z.of_nat idx)) /\
          JsStr.slice (Js.normalizeNewlines text) start (start + length raw) = raw)) /\
  (exists p lineOf n,
     parseText (str "a" ++ [LF; LF] ++ str "  b \jp{x y}") = Ok p /\
     idToLine p = Ok lineOf /\ objects p !! 2 = Some n /\
     onNodeClick (str "a" ++ [LF; LF] ++ str "  b \jp{x y}") lineOf n
     = Ok (Some (str "b : x y"), Some (3, 15, 2%Z))).
Proof.
  split.
  2:{ clear text. eexists _, _, _. split_and!; by vm_compute. }
  destruct (each_total text) as (p & vs & Hp & Hvs & Hall & Hinj).
  destruct (parsed_objects text p Hp) as [Hroot Hnodes].
  exists p, (idToLineOf (objects p) vs).
  assert (Hline : forall r n, objects p !! r = Some n -> r <> ROOT ->
            exists idx raw, lines text !! idx = Some raw /\
              makeNode idx raw = Ok (created n) /\ RawNode.line n = Z.of_nat idx).
  { intros r n Hn Hr. destruct (Hnodes r n Hn Hr) as (idx & raw & Hl & _ & Hmk).
    exists idx, raw. split_and!; [done|done|]. by apply makeNode_line in Hmk. }
  assert (Hmap : forall i z, idToLineOf (objects p) vs !! i = Some z <->
            exists r n, r <> ROOT /\ objects p !! r = Some n /\
                        RawNode.id n = i /\ RawNode.line n = z).
  { intros i z. rewrite (idToLineOf_lookup (objects p) Hinj). split.
    - intros (d & data & Hd & Hdata & Hid & Hpos & Hz).
      exists d, data. split_and!; [|done|done|done].
      intros ->. apply Hroot in Hdata. apply (f_equal RawNode.line) in Hdata.
      simpl in Hdata. lia.
    - intros (r & n & Hr & Hn & Hid & Hz). exists r, n.
      split_and!; [|done|done| |done].
      + apply Hall. by apply lookup_lt_Some in Hn.
      + destruct (Hline r n Hn Hr) as (idx & raw & _ & _ & ->). lia. }
  split_and!.
  - done.
  - unfold idToLine. by rewrite Hvs.
  - exact Hmap.
  - intros n Hn. pose proof (Hroot n Hn) as Hc. unfold onNodeClick.
    assert (RawNode.jp n = None) as -> by (by apply (f_equal RawNode.jp) in Hc).
    destruct (idToLineOf (objects p) vs !! RawNode.id n) as [z|] eqn:Ez; [|done].
    apply Hmap in Ez as (r & n' & Hr & Hn' & Hid & _).
    destruct Hr. symmetry. by apply (Hinj ROOT r n n').
  - intros r n Hn Hr. destruct (Hline r n Hn Hr) as (idx & raw & Hl & Hmk & Hidx).
    exists idx, raw, (offsetOf (lines text) idx). split_and!; [done|done| |].
    + unfold onNodeClick.
      assert (idToLineOf (objects p) vs !! RawNode.id n = Some (Z.of_nat idx)) as ->.
      { apply Hmap. exists r, n. by split_and!. }
      rewrite handleSelectLine_ok by (apply lookup_lt_Some in Hl; lia).
      rewrite Hl. cbn [mbind result_bind from_option]. do 2 f_equal.
      destruct (RawNode.jp n) as [j|] eqn:Ej; [|done].
      assert (Js.trim j = j) as ->.
      { apply (makeNode_jp idx raw (created n) Hmk). exact Ej. }
      destruct j as [|c j]; [done|]. done.
    + destruct (join_lookup (lines text) idx raw Hl) as (pre & post & Hjoin & Hlen & _).
      assert (Hnorm : Js.normalizeNewlines text = pre ++ raw ++ post).
      { rewrite <- Hjoin. unfold lines. by rewrite join_splitOn. }
      unfold JsStr.slice. rewrite Hnorm, <- Hlen. rewrite drop_app_length.
      replace (length pre + length raw - length pre) with (length raw) by lia.
      by rewrite take_app_length.
Qed.

(** ** Automatic indentation *)

Section Indent.

Lemma getDepth_tabs n rest :
  getDepth (replicate n TAB ++ rest) = (n + (getDepth rest).1, (getDepth rest).2).
Proof.
  induction n as [|n IH]; simpl; [by destruct (getDepth rest)|].
  by rewrite getDepth_tab, IH.
Qed.

Lemma getDepth_pairs n rest :
  getDepth (replicate (2 * n) SPACE ++ rest) = (n + (getDepth rest).1, (getDepth rest).2).
Proof.
  induction n as [|n IH]; simpl; [by destruct (getDepth rest)|].
  replace (n + S (n + 0)) with (S (2 * n)) by lia. simpl replicate.
  cbn [app]. change (n + (n + 0)) with (2 * n). by rewrite getDepth_pair, IH.
Qed.

Lemma takeWhile_isTab s :
  exists n, Js.takeWhile isTab s = replicate n TAB /\
            head (Js.dropWhile isTab s) <> Some TAB.
Proof.
  induction s as [|c s (n & IH & Hhead)].
  - exists 0. by split.
  - simpl. unfold isTab at 1 3. destruct (Ascii.eqb_spec c TAB) as [->|Hc].
    + exists (S n). simpl. by rewrite IH.
    + exists 0. split; [done|]. simpl. congruence.
Qed.

Lemma spacePairs_spec s :
  exists n rest,
    spacePairs s = replicate (2 * n) SPACE /\ s = spacePairs s ++ rest /\
    ~ [SPACE; SPACE] `prefix_of` rest.
Proof.
  induction s as [s IH] using jsstring_length_ind.
  destruct s as [|c [|c1 s2]].
  - exists 0, []. split_and!; [done|done|]. by intros [k Hk].
  - exists 0, [c]. split_and!; [done|done|]. by intros [k Hk].
  - simpl. destruct (Ascii.eqb_spec c SPACE) as [->|Hc].
    + destruct (Ascii.eqb_spec c1 SPACE) as [->|Hc1].
      * destruct (IH s2 ltac:(simpl; lia)) as (n & rest & Hsp & Hs & Hrest).
        exists (S n), rest. simpl. split_and!; [|by rewrite <- Hs|done].
        rewrite Hsp. replace (n + S (n + 0)) with (S (2 * n)) by lia. done.
      * exists 0, (SPACE :: c1 :: s2). split_and!; [done|done|].
        intros [k Hk]. simpl in Hk. congruence.
    + exists 0, (c :: c1 :: s2). split_and!; [done|done|].
      intros [k Hk]. simpl in Hk. congruence.
Qed.

(** What the expression of [leadingIndent] matches. *)
Lemma leadingIndent_cases s :
  exists n rest,
    s = leadingIndent s ++ rest /\
    (0 < n /\ leadingIndent s = replicate n TAB /\ head rest <> Some TAB \/
     leadingIndent s = replicate (2 * n) SPACE /\ head s <> Some TAB /\
     ~ [SPACE; SPACE] `prefix_of` rest).
Proof.
  unfold leadingIndent.
  destruct (takeWhile_isTab s) as (n & Htabs & Hhead).
  destruct n as [|n].
  - rewrite Htabs. simpl.
    destruct (spacePairs_spec s) as (k & rest & Hsp & Hs & Hrest).
    exists k, rest. split; [done|]. right. split_and!; [done| |done].
    pose proof (takeWhile_dropWhile isTab s) as Hsplit. rewrite Htabs in Hsplit.
    simpl in Hsplit. by rewrite <- Hsplit.
  - exists (S n), (Js.dropWhile isTab s). rewrite Htabs. simpl replicate. cbv iota beta.
    split.
    + change (TAB :: replicate n TAB) with (replicate (S n) TAB).
      rewrite <- Htabs. symmetry. apply takeWhile_dropWhile.
    + left. split_and!; [lia|done|done].
Qed.

Lemma stopsIndent_head rest :
  head rest <> Some TAB -> ~ [SPACE; SPACE] `prefix_of` rest -> stopsIndent rest.
Proof.
  intros Htab Hpair u Hu Hpre. destruct Hu.
  - destruct Hpre as [k ->]. by apply Htab.
  - by apply Hpair.
Qed.

Lemma takeWhile_isTab_tabs n rest :
  head rest <> Some TAB -> Js.takeWhile isTab (replicate n TAB ++ rest) = replicate n TAB.
Proof.
  intros Hrest. induction n as [|n IH]; simpl.
  - destruct rest as [|c rest]; [done|]. simpl. unfold isTab.
    destruct (Ascii.eqb_spec c TAB) as [->|_]; [by destruct Hrest|done].
  - by rewrite IH.
Qed.

Lemma leadingIndent_tabs n rest :
  0 < n -> head rest <> Some TAB ->
  leadingIndent (replicate n TAB ++ rest) = replicate n TAB.
Proof.
  intros Hn Hrest. unfold leadingIndent. rewrite takeWhile_isTab_tabs by done.
  destruct n; [lia|done].
Qed.

Lemma spacePairs_pairs n rest :
  ~ [SPACE; SPACE] `prefix_of` rest ->
  spacePairs (replicate (2 * n) SPACE ++ rest) = replicate (2 * n) SPACE.
Proof.
  intros Hrest. induction n as [|n IH].
  - simpl. destruct rest as [|c [|c1 rest]]; [done|done|]. simpl.
    destruct (Ascii.eqb_spec c SPACE) as [->|_]; [|done].
    destruct (Ascii.eqb_spec c1 SPACE) as [->|_]; [|done].
    destruct Hrest. by exists rest.
  - replace (2 * S n) with (S (S (2 * n))) by lia. simpl.
    simpl in IH. by rewrite IH.
Qed.

Lemma leadingIndent_pairs n rest :
  (n = 0 -> head rest <> Some TAB) -> ~ [SPACE; SPACE] `prefix_of` rest ->
  leadingIndent (replicate (2 * n) SPACE ++ rest) = replicate (2 * n) SPACE.
Proof.
  intros Hn Hrest. unfold leadingIndent.
  assert (Js.takeWhile isTab (replicate (2 * n) SPACE ++ rest) = []) as ->.
  { destruct n as [|n].
    - exact (takeWhile_isTab_tabs 0 rest (Hn eq_refl)).
    - by replace (2 * S n) with (S (S (2 * n))) by lia. }
  by apply spacePairs_pairs.
Qed.

(** The inherited indentation is a whole number of levels, a part of the
    depth of the line. *)
Lemma nextLineIndent_levels s :
  exists n rest,
    s = nextLineIndent s ++ rest /\
    getDepth (nextLineIndent s) = (n, []) /\
    (getDepth s).1 = n + (getDepth rest).1 /\
    (n = 0 <-> (getDepth s).1 = 0) /\
    (forall body, stopsIndent body -> getDepth (nextLineIndent s ++ body) = (n, body)).
Proof.
  unfold nextLineIndent.
  destruct (leadingIndent_cases s) as (n & rest & Hs & [(Hn & Hli & Hrest)|(Hli & Hhead & Hrest)]).
  - exists n, rest. split; [done|]. rewrite Hli.
    split_and!.
    + rewrite <- (app_nil_r (replicate n TAB)), getDepth_tabs. simpl. f_equal. lia.
    + rewrite Hs at 1. rewrite Hli, getDepth_tabs. done.
    + split; [lia|]. rewrite Hs, Hli, getDepth_tabs. simpl. lia.
    + intros body Hbody. rewrite getDepth_tabs, (getDepth_stop body Hbody). simpl.
      f_equal. lia.
  - exists n, rest. split; [done|]. rewrite Hli.
    split_and!.
    + rewrite <- (app_nil_r (replicate (2 * n) SPACE)), getDepth_pairs. simpl. f_equal. lia.
    + rewrite Hs at 1. rewrite Hli, getDepth_pairs. done.
    + split; [|rewrite Hs, Hli, getDepth_pairs; simpl; lia].
      intros ->. rewrite Hli in Hs. simpl in Hs. subst rest.
      by rewrite (getDepth_stop s (stopsIndent_head s Hhead Hrest)).
    + intros body Hbody. rewrite getDepth_pairs, (getDepth_stop body Hbody). simpl.
      f_equal. lia.
Qed.

End Indent.

(** X5: [leadingIndent] returns a prefix of the line that is either a run of
    tabs, the longest there is, or else a run of pairs of spaces, the
    longest there is; it never mixes the two, and it is empty when the line
    starts with neither a tab nor two spaces.  Applied to its own result it
    changes nothing. *)
Theorem leadingIndent_spec (s : jsstring) :
  (exists n rest,
     s = leadingIndent s ++ rest /\
     (0 < n /\ leadingIndent s = replicate n TAB /\ head rest <> Some TAB \/
      leadingIndent s = replicate (2 * n) SPACE /\ head s <> Some TAB /\
      ~ [SPACE; SPACE] `prefix_of` rest)) /\
  (forall n, 0 < n -> head s <> Some TAB ->
     leadingIndent (replicate n TAB ++ s) = replicate n TAB) /\
  (forall n, (n = 0 -> head s <> Some TAB) -> ~ [SPACE; SPACE] `prefix_of` s ->
     leadingIndent (replicate (2 * n) SPACE ++ s) = replicate (2 * n) SPACE) /\
  (leadingIndent s = [] <-> head s <> Some TAB /\ ~ [SPACE; SPACE] `prefix_of` s) /\
  leadingIndent (leadingIndent s) = leadingIndent s /\
  nextLineIndent s = leadingIndent s /\
  leadingIndent (str "  foo") = str "  " /\
  leadingIndent ([TAB; TAB] ++ str "bar") = [TAB; TAB] /\
  leadingIndent (str "    baz") = str "    " /\
  leadingIndent (str "   x") = str "  " /\
  leadingIndent ([TAB] ++ str "  x") = [TAB] /\
  leadingIndent (str "  " ++ [TAB] ++ str "x") = str "  ".
Proof.
  split; [apply leadingIndent_cases|].
  split; [intros n; apply leadingIndent_tabs|].
  split; [intros n; apply leadingIndent_pairs|].
  split.
  { destruct (leadingIndent_cases s) as (n & rest & Hs & [(Hn & Hli & Hrest)|(Hli & Hhead & Hrest)]).
    - split.
      + intros Hnil. rewrite Hnil in Hli. destruct n; [lia|done].
      + intros [Hhead _]. rewrite Hs, Hli in Hhead. destruct n; [lia|]. by destruct Hhead.
    - split.
      + intros Hnil. rewrite Hnil in Hs. simpl in Hs. by subst rest.
      + intros [_ Hpair]. destruct n as [|n]; [done|]. destruct Hpair.
        rewrite Hs, Hli. replace (2 * S n) with (S (S (2 * n))) by lia.
        simpl. by exists (replicate (n + (n + 0)) SPACE ++ rest). }
  split.
  { destruct (leadingIndent_cases s) as (n & rest & Hs & [(Hn & Hli & Hrest)|(Hli & Hhead & Hrest)]).
    - rewrite Hli. rewrite <- (app_nil_r (replicate n TAB)) at 1.
      by apply leadingIndent_tabs.
    - rewrite Hli. rewrite <- (app_nil_r (replicate (2 * n) SPACE)) at 1.
      apply leadingIndent_pairs; [done|]. by intros [k Hk]. }
  split; [done|]. clear s. split_and!; by vm_compute.
Qed.

(** X6: the indentation that a new line inherits, read by the parser, is a
    whole number of levels with nothing left over, never more than the depth
    of the line it is taken from, and none exactly when that line has depth
    0.  It is the full depth of the line when the indentation of the line is
    of one kind, tabs only or pairs of spaces only; a line that mixes the
    two hands on only its first run.  A new line made of the inherited
    indentation and a text that starts with no indentation has the inherited
    depth. *)
Theorem nextLineIndent_depth (prevLine : jsstring) :
  (exists n rest,
     prevLine = nextLineIndent prevLine ++ rest /\
     getDepth (nextLineIndent prevLine) = (n, []) /\
     (getDepth prevLine).1 = n + (getDepth rest).1 /\
     (n = 0 <-> (getDepth prevLine).1 = 0) /\
     (forall body, stopsIndent body ->
        getDepth (nextLineIndent prevLine ++ body) = (n, body))) /\
  (forall n body, stopsIndent body ->
     (getDepth (nextLineIndent (replicate n TAB ++ body))).1
       = (getDepth (replicate n TAB ++ body)).1 /\
     (getDepth (nextLineIndent (replicate (2 * n) SPACE ++ body))).1
       = (getDepth (replicate (2 * n) SPACE ++ body)).1) /\
  getDepth ([TAB] ++ str "  x") = (2, str "x") /\
  getDepth (nextLineIndent ([TAB] ++ str "  x")) = (1, []).
Proof.
  split; [apply nextLineIndent_levels|]. split; [|split; by vm_compute].
  intros n body Hbody.
  assert (Htab : head body <> Some TAB).
  { intros Hh. apply (Hbody [TAB]); [constructor|].
    destruct body as [|c body]; [done|]. injection Hh as ->. by exists body. }
  assert (Hpair : ~ [SPACE; SPACE] `prefix_of` body).
  { apply Hbody. constructor. }
  unfold nextLineIndent. split.
  - destruct n as [|n].
    + pose proof (leadingIndent_pairs 0 body (fun _ => Htab) Hpair) as H0.
      simpl in H0. simpl. rewrite H0. by rewrite (getDepth_stop body Hbody).
    + rewrite leadingIndent_tabs by (done || lia).
      rewrite <- (app_nil_r (replicate (S n) TAB)) at 1. rewrite !getDepth_tabs.
      by rewrite (getDepth_stop body Hbody).
  - rewrite leadingIndent_pairs by done.
    rewrite <- (app_nil_r (replicate (2 * n) SPACE)) at 1. rewrite !getDepth_pairs.
    by rewrite (getDepth_stop body Hbody).
Qed.

(** ** Positions in a text *)

Section Positions.

Lemma startsWith_char c s : JsStr.startsWith [c] s = true <-> head s = Some c.
Proof.
  unfold JsStr.startsWith. destruct s as [|x s]; simpl; [done|].
  destruct (Ascii.eqb_spec c x) as [->|Hne]; [done|].
  split; [done|]. intros [= ->]. done.
Qed.

Lemma lastIndexBelow_char c s : forall n,
  match JsStr.lastIndexBelow [c] s n with
  | Some k => k < n /\ s !! k = Some c /\ forall j, k < j < n -> s !! j <> Some c
  | None => forall j, j < n -> s !! j <> Some c
  end.
Proof.
  induction n as [|n IH]; simpl; [intros j; lia|].
  assert (Hhead : head (drop n s) = s !! n).
  { rewrite head_lookup, lookup_drop. f_equal. lia. }
  destruct (JsStr.startsWith [c] (drop n s)) eqn:E.
  - apply startsWith_char in E. rewrite Hhead in E.
    split_and!; [lia|done|]. intros j Hj. lia.
  - assert (Hn : s !! n <> Some c).
    { rewrite <- Hhead. intros Hh. apply startsWith_char in Hh. congruence. }
    destruct (JsStr.lastIndexBelow [c] s n) as [k|].
    + destruct IH as (Hk & Hc & Hrest). split_and!; [lia|done|].
      intros j Hj. destruct (decide (j = n)) as [->|]; [done|]. apply Hrest. lia.
    + intros j Hj. destruct (decide (j = n)) as [->|]; [done|]. apply IH. lia.
Qed.

Lemma lastIndexOf_end c s :
  JsStr.lastIndexOf [c] s None = JsStr.lastIndexBelow [c] s (length s).
Proof. unfold JsStr.lastIndexOf. simpl. f_equal. lia. Qed.

Lemma not_elem_of_lookup (c : ascii) s :
  (forall j, j < length s -> s !! j <> Some c) -> c ∉ s.
Proof.
  intros H Hin. apply list_elem_of_lookup in Hin as (j & Hj).
  apply (H j); [by apply lookup_lt_Some in Hj|done].
Qed.

(** A string splits into pieces of which the last is what follows the last
    separator. *)
Lemma splitOn_last s :
  exists A x,
    Js.splitOn LF s = A ++ [x] /\ (LF ∉ x) /\
    JsStr.sliceFrom s
      (match JsStr.lastIndexOf [LF] s None with Some i => S i | None => 0 end) = x.
Proof.
  rewrite lastIndexOf_end. pose proof (lastIndexBelow_char LF s (length s)) as H.
  destruct (JsStr.lastIndexBelow [LF] s (length s)) as [k|].
  - destruct H as (Hk & Hc & Hrest).
    exists (Js.splitOn LF (take k s)), (drop (S k) s).
    assert (Hx : LF ∉ drop (S k) s).
    { apply not_elem_of_lookup. intros j Hj. rewrite lookup_drop. apply Hrest.
      rewrite length_drop in Hj. lia. }
    split_and!; [|done|done].
    rewrite <- (take_drop_middle s k LF Hc) at 1.
    rewrite splitOn_app. by rewrite (splitOn_plain LF (drop (S k) s)).
  - exists [], s. assert (Hx : LF ∉ s) by (by apply not_elem_of_lookup).
    split_and!; [by apply splitOn_plain|done|done].
Qed.

Lemma splitOn_glue sep a : forall A x y B b,
  Js.splitOn sep a = A ++ [x] -> Js.splitOn sep b = y :: B ->
  Js.splitOn sep (a ++ b) = A ++ [x ++ y] ++ B.
Proof.
  induction a as [|c a IH]; intros A x y B b Ha Hb.
  - simpl in Ha. destruct A as [|? [|? ?]]; simplify_eq/=. done.
  - cbn [app]. destruct (decide (c = sep)) as [->|Hc].
    + rewrite splitOn_cons_sep in *.
      destruct A as [|a0 A]; simpl in Ha.
      * injection Ha as _ Ha. by destruct (splitOn_not_nil sep a).
      * injection Ha as <- Ha. rewrite (IH A x y B b Ha Hb). done.
    + destruct (splitOn_cons_other sep c (a ++ b) Hc) as (piece & rest & E & ->).
      destruct (splitOn_cons_other sep c a Hc) as (piece' & rest' & E' & Ha').
      rewrite Ha' in Ha.
      destruct A as [|a0 A]; simpl in Ha.
      * injection Ha as <- ->. rewrite (IH [] piece' y B b E' Hb) in E.
        simpl in E. by injection E as <- <-.
      * injection Ha as <- ->. rewrite (IH (piece' :: A) x y B b E' Hb) in E.
        simpl in E. by injection E as <- <-.
Qed.

Lemma splitOn_length sep s :
  length (Js.splitOn sep s) = S (length (filter (fun c => c = sep) s)).
Proof.
  induction s as [|c s IH]; [done|].
  destruct (decide (c = sep)) as [->|Hc].
  - rewrite splitOn_cons_sep. rewrite filter_cons_True by done. simpl. by rewrite IH.
  - destruct (splitOn_cons_other sep c s Hc) as (piece & rest & E & ->).
    rewrite filter_cons_False by done. rewrite <- IH, E. done.
Qed.

Lemma onEditorCursor_lineAt value upto :
  CR ∉ value -> onEditorCursor value upto = Z.of_nat (lineAt value upto).
Proof.
  intros HCR. unfold onEditorCursor, lineAt, JsStr.slice. rewrite drop_0, Nat.sub_0_r.
  rewrite normalizeNewlines_plain.
  - rewrite splitOn_length. lia.
  - intros Hin. apply elem_of_take in Hin as (i & Hi & _).
    apply HCR. by eapply list_elem_of_lookup_2.
Qed.

Lemma leadingIndent_no_LF x : LF ∉ x -> LF ∉ leadingIndent x.
Proof.
  intros Hx Hin. apply Hx.
  destruct (leadingIndent_cases x) as (n & rest & Hs & _).
  rewrite Hs. apply elem_of_app. by left.
Qed.

End Positions.

(** X7: Enter splits the line of the caret in two and gives the second part
    the indentation that the first part starts with.  The text before the
    selection and the text after it are kept, the selection is replaced by a
    line feed and that indentation, and the caret is put right after the
    indentation.  Line by line: the lines before and after are untouched;
    the caret moves one line down; when the text that moves to the new line
    starts with no indentation of its own (the caret at the end of a line,
    say), the new line has the inherited depth. *)
Theorem enterKey_spec (value : jsstring) (start end_ : nat) :
  exists A x y B,
    Js.splitOn LF (take start value) = A ++ [x] /\
    Js.splitOn LF (drop end_ value) = y :: B /\
    enterKey value start end_
      = (take start value ++ [LF] ++ nextLineIndent x ++ drop end_ value,
         length (take start value) + (1 + length (nextLineIndent x))) /\
    Js.splitOn LF (enterKey value start end_).1
      = A ++ [x; nextLineIndent x ++ y] ++ B /\
    take (enterKey value start end_).2 (enterKey value start end_).1
      = take start value ++ [LF] ++ nextLineIndent x /\
    lineAt (enterKey value start end_).1 (enterKey value start end_).2
      = S (lineAt value start) /\
    (start = end_ -> Js.splitOn LF value = A ++ [x ++ y] ++ B) /\
    (stopsIndent y ->
       getDepth (nextLineIndent x ++ y) = ((getDepth (nextLineIndent x)).1, y) /\
       (getDepth (nextLineIndent x ++ y)).1 <= (getDepth x).1).
Proof.
  destruct (splitOn_last (take start value)) as (A & x & HA & Hx & Hprev).
  destruct (Js.splitOn LF (drop end_ value)) as [|y B] eqn:HB.
  { by destruct (splitOn_not_nil LF (drop end_ value)). }
  exists A, x, y, B.
  assert (Hkey : enterKey value start end_
            = (take start value ++ [LF] ++ nextLineIndent x ++ drop end_ value,
               length (take start value) + (1 + length (nextLineIndent x)))).
  { assert (Hsl : JsStr.slice value 0 start = take start value).
    { unfold JsStr.slice. by rewrite drop_0, Nat.sub_0_r. }
    unfold enterKey. rewrite !Hsl. rewrite Hprev. unfold JsStr.sliceFrom.
    done. }
  rewrite Hkey. cbn [fst snd].
  assert (Hind : LF ∉ nextLineIndent x) by (by apply leadingIndent_no_LF).
  assert (Hnew : Js.splitOn LF (nextLineIndent x ++ drop end_ value)
                 = [nextLineIndent x ++ y] ++ B).
  { apply (splitOn_glue LF (nextLineIndent x) [] (nextLineIndent x) y B); [|done].
    by apply splitOn_plain. }
  split_and!.
  - done.
  - done.
  - done.
  - cbn [app]. rewrite splitOn_app, HA, Hnew. by rewrite <- app_assoc.
  - rewrite (app_assoc _ [LF]), (app_assoc _ (nextLineIndent x)).
    rewrite take_app_length'; [by rewrite <- app_assoc|]. rewrite !length_app. simpl. lia.
  - unfold lineAt.
    rewrite (app_assoc _ [LF]), (app_assoc _ (nextLineIndent x)).
    rewrite take_app_length' by (rewrite !length_app; simpl; lia).
    rewrite <- app_assoc. cbn [app]. rewrite splitOn_app, HA.
    rewrite (splitOn_plain LF (nextLineIndent x)) by done.
    rewrite !length_app. simpl. lia.
  - intros <-. rewrite <- (take_drop start value) at 1.
    by apply splitOn_glue.
  - intros Hy.
    destruct (nextLineIndent_levels x) as (n & rest & Hsplit & Hd & Hsum & _ & Hbody).
    rewrite (Hbody y Hy), Hd. simpl. split; [done|lia].
Qed.

(** ** Tab and Shift+Tab *)

Section TabKey.

Lemma slice_0 {A : Type} (a : list A) n : JsStr.slice a 0 n = take n a.
Proof. unfold JsStr.slice. by rewrite drop_0, Nat.sub_0_r. Qed.

Lemma tabKey_eq value selStart selEnd isShift :
  tabKey value selStart selEnd isShift =
  (take (lineStartOf value selStart) value
     ++ JsStr.join [LF]
          (shiftLine isShift
             <$> Js.splitOn LF
                   (JsStr.slice value (lineStartOf value selStart) (lineEndOf value selEnd)))
     ++ drop (lineEndOf value selEnd) value,
   selStart + (if isShift then 0 else 2),
   (Z.of_nat selEnd
    + (Z.of_nat
         (length
            (JsStr.join [LF]
               (shiftLine isShift
                  <$> Js.splitOn LF
                        (JsStr.slice value (lineStartOf value selStart)
                           (lineEndOf value selEnd)))))
       - Z.of_nat
           (length (JsStr.slice value (lineStartOf value selStart) (lineEndOf value selEnd)))))%Z).
Proof.
  unfold tabKey, lineStartOf, lineEndOf, shiftLine, JsStr.sliceFrom.
  by rewrite slice_0.
Qed.

Lemma indexOf_char c s :
  match Js.indexOf [c] s with
  | Some k => s !! k = Some c /\ forall j, j < k -> s !! j <> Some c
  | None => c ∉ s
  end.
Proof.
  induction s as [|x s IH]; [apply not_elem_of_nil|].
  cbn [Js.indexOf Js.stripPrefix].
  destruct (Ascii.eqb_spec c x) as [->|Hne].
  - split; [done|]. intros j Hj. lia.
  - destruct (Js.indexOf [c] s) as [k|]; simpl.
    + destruct IH as [Hk Hbefore]. split; [done|].
      intros [|j] Hj; simpl; [congruence|]. apply Hbefore. lia.
    + rewrite not_elem_of_cons. split; [congruence|done].
Qed.

Lemma lineEndOf_at pre M3 Q :
  LF ∉ M3 -> (Q = [] \/ exists Q', Q = LF :: Q') ->
  lineEndOf (pre ++ M3 ++ Q) (length pre) = length (pre ++ M3).
Proof.
  intros HM3 HQ. unfold lineEndOf, JsStr.indexOfFrom.
  rewrite Nat.min_l by (rewrite length_app; lia).
  rewrite drop_app_length.
  pose proof (indexOf_char LF (M3 ++ Q)) as H.
  destruct (Js.indexOf [LF] (M3 ++ Q)) as [k|]; simpl.
  - destruct H as [Hk Hbefore]. rewrite length_app. f_equal.
    destruct (decide (k < length M3)) as [Hlt|Hge].
    + rewrite lookup_app_l in Hk by done. destruct HM3.
      by eapply list_elem_of_lookup_2.
    + destruct HQ as [->|[Q' ->]].
      * rewrite app_nil_r in Hk. apply lookup_lt_Some in Hk. lia.
      * destruct (decide (k = length M3)) as [->|Hne]; [done|].
        destruct (Hbefore (length M3)); [lia|].
        by rewrite list_lookup_middle.
  - destruct HQ as [->|[Q' ->]].
    + by rewrite app_nil_r.
    + destruct H. apply elem_of_app. right. apply list_elem_of_here.
Qed.

Lemma lineStartOf_at P M1 rest :
  (P = [] \/ exists P', P = P' ++ [LF]) -> LF ∉ M1 ->
  (P ++ M1 = [] -> head rest <> Some LF) ->
  lineStartOf (P ++ M1 ++ rest) (length (P ++ M1)) = length P.
Proof.
  intros HP HM1 Htop. unfold lineStartOf, JsStr.lastIndexOf.
  set (value := P ++ M1 ++ rest). set (selStart := length (P ++ M1)).
  cbn [from_option id length].
  set (n := Z.to_nat
              (((Z.of_nat selStart - 1) `max` 0) `min` (Z.of_nat (length value) - Z.of_nat 1) + 1)).
  assert (Hlen : selStart <= length value).
  { unfold selStart, value. rewrite !length_app. lia. }
  pose proof (lastIndexBelow_char LF value n) as H.
  destruct (decide (selStart = 0)) as [H0|Hpos].
  - assert (HPM : P ++ M1 = []) by (by apply nil_length_inv).
    apply app_eq_nil in HPM as [-> ->]. simpl.
    assert (Hvalue : value = rest) by done.
    destruct (JsStr.lastIndexBelow [LF] value n) as [k|]; [|done].
    destruct H as (Hk & Hc & _). exfalso.
    assert (k = 0) as -> by (unfold n in Hk; lia).
    apply (Htop eq_refl). rewrite <- Hvalue. by rewrite head_lookup.
  - assert (Hn : n = selStart) by (unfold n; lia). rewrite Hn in H.
    assert (HM1' : forall j, length P <= j < selStart -> value !! j <> Some LF).
    { intros j Hj Hc. unfold value in Hc. rewrite lookup_app_r in Hc by lia.
      rewrite lookup_app_l in Hc.
      - destruct HM1. by eapply list_elem_of_lookup_2.
      - unfold selStart in Hj. rewrite length_app in Hj. lia. }
    rewrite Hn.
    destruct HP as [->|[P' ->]].
    + destruct (JsStr.lastIndexBelow [LF] value selStart) as [k|]; [|done].
      destruct H as (Hk & Hc & _). destruct (HM1' k); [simpl; lia|done].
    + assert (HP' : value !! length P' = Some LF).
      { unfold value. rewrite <- !app_assoc.
        exact (list_lookup_middle P' (M1 ++ rest) LF (length P') eq_refl). }
      assert (HltP : length P' < selStart).
      { unfold selStart. rewrite !length_app. simpl. lia. }
      destruct (JsStr.lastIndexBelow [LF] value selStart) as [k|].
      * destruct H as (Hk & Hc & Hrest). rewrite length_app. simpl.
        destruct (decide (k = length P')) as [->|Hne]; [lia|].
        destruct (decide (k < length P')) as [Hlt|Hge].
        -- destruct (Hrest (length P')); [lia|done].
        -- destruct (HM1' k); [rewrite length_app; simpl; lia|done].
      * destruct (H (length P')); [lia|done].
Qed.

(** The branch of [Tab] on a text with its selected lines marked. *)
Lemma tabKey_selected P M1 M2 M3 Q isShift :
  selectedLines P M1 M2 M3 Q ->
  tabKey (P ++ M1 ++ M2 ++ M3 ++ Q) (length (P ++ M1)) (length (P ++ M1 ++ M2)) isShift
  = (P ++ JsStr.join [LF] (shiftLine isShift <$> Js.splitOn LF (M1 ++ M2 ++ M3)) ++ Q,
     length (P ++ M1) + (if isShift then 0 else 2),
     (Z.of_nat (length (P ++ M1 ++ M2))
      + (Z.of_nat (length (JsStr.join [LF]
                             (shiftLine isShift <$> Js.splitOn LF (M1 ++ M2 ++ M3))))
         - Z.of_nat (length (M1 ++ M2 ++ M3))))%Z).
Proof.
  intros [HP HM1 HM3 HQ Htop].
  rewrite tabKey_eq.
  rewrite (lineStartOf_at P M1 (M2 ++ M3 ++ Q) HP HM1 Htop).
  assert (Hend : lineEndOf (P ++ M1 ++ M2 ++ M3 ++ Q) (length (P ++ M1 ++ M2))
                 = length (P ++ M1 ++ M2 ++ M3)).
  { pose proof (lineEndOf_at (P ++ M1 ++ M2) M3 Q HM3 HQ) as H.
    rewrite <- !app_assoc in H. exact H. }
  rewrite Hend.
  assert (Hslice : JsStr.slice (P ++ M1 ++ M2 ++ M3 ++ Q) (length P)
                     (length (P ++ M1 ++ M2 ++ M3)) = M1 ++ M2 ++ M3).
  { unfold JsStr.slice. rewrite drop_app_length.
    replace (length (P ++ M1 ++ M2 ++ M3) - length P) with (length (M1 ++ M2 ++ M3))
      by (rewrite !length_app; lia).
    rewrite !app_assoc. rewrite take_app_length'; [done|].
    by rewrite <- !app_assoc. }
  rewrite Hslice. rewrite take_app_length.
  replace (P ++ M1 ++ M2 ++ M3 ++ Q) with ((P ++ M1 ++ M2 ++ M3) ++ Q)
    by (by rewrite <- !app_assoc).
  by rewrite drop_app_length.
Qed.

(** Every selection of a text marks its lines in one way. *)
Lemma selectedLines_exist value selStart selEnd :
  selStart <= selEnd <= length value ->
  (selStart = 0 -> head value <> Some LF) ->
  exists P M1 M2 M3 Q,
    value = P ++ M1 ++ M2 ++ M3 ++ Q /\ selectedLines P M1 M2 M3 Q /\
    length (P ++ M1) = selStart /\ length (P ++ M1 ++ M2) = selEnd /\
    M2 = JsStr.slice value selStart selEnd.
Proof.
  intros Hsel Htop.
  destruct (splitOn_last (take selStart value)) as (A & x & HA & Hx & Hprev).
  assert (HP : exists P, take selStart value = P ++ x /\
                         (P = [] \/ exists P', P = P' ++ [LF])).
  { rewrite lastIndexOf_end in Hprev.
    pose proof (lastIndexBelow_char LF (take selStart value) (length (take selStart value))) as H.
    unfold JsStr.sliceFrom in Hprev.
    destruct (JsStr.lastIndexBelow [LF] (take selStart value) (length (take selStart value)))
      as [k|].
    - destruct H as (Hk & Hc & _). exists (take (S k) (take selStart value)).
      split; [by rewrite <- Hprev, take_drop|]. right.
      exists (take k (take selStart value)). by apply take_S_r.
    - exists []. split; [by rewrite <- Hprev|by left]. }
  destruct HP as (P & HPx & HP).
  pose proof (indexOf_char LF (drop selEnd value)) as Hidx.
  assert (HQ : exists M3 Q, drop selEnd value = M3 ++ Q /\ (LF ∉ M3) /\
                            (Q = [] \/ exists Q', Q = LF :: Q')).
  { destruct (Js.indexOf [LF] (drop selEnd value)) as [k|].
    - destruct Hidx as [Hk Hbefore].
      exists (take k (drop selEnd value)), (drop k (drop selEnd value)).
      split_and!; [by rewrite take_drop| |].
      + apply not_elem_of_lookup. intros j Hj. rewrite length_take in Hj.
        rewrite lookup_take_lt by lia. apply Hbefore. lia.
      + right. exists (drop (S k) (drop selEnd value)).
        by apply drop_S.
    - exists (drop selEnd value), []. split_and!; [by rewrite app_nil_r|done|by left]. }
  destruct HQ as (M3 & Q & HQx & HM3 & HQ).
  exists P, x, (JsStr.slice value selStart selEnd), M3, Q.
  assert (Hvalue : value = P ++ x ++ JsStr.slice value selStart selEnd ++ M3 ++ Q).
  { rewrite <- HQx. rewrite app_assoc, <- HPx. unfold JsStr.slice.
    rewrite <- (take_drop selStart value) at 1. f_equal.
    rewrite <- (take_drop (selEnd - selStart) (drop selStart value)) at 1. f_equal.
    rewrite drop_drop. f_equal. lia. }
  assert (HlenPx : length (P ++ x) = selStart).
  { rewrite <- HPx. rewrite length_take. lia. }
  split_and!; [done| |done| |done].
  - constructor; [done|done|done|done|].
    intros Hnil. rewrite Hnil in HlenPx. simpl in HlenPx.
    rewrite Hvalue, app_assoc, Hnil in Htop. by apply Htop.
  - rewrite app_assoc, length_app, HlenPx. unfold JsStr.slice.
    rewrite length_take, length_drop. lia.
Qed.

Lemma join_snoc_app (L : list jsstring) u v :
  JsStr.join [LF] (L ++ [u ++ v]) = JsStr.join [LF] (L ++ [u]) ++ v.
Proof.
  destruct L as [|l0 L].
  - simpl. by unfold JsStr.join.
  - rewrite !(join_app LF (l0 :: L)) by done.
    unfold JsStr.join at 2 4. by rewrite <- !app_assoc.
Qed.

Lemma join_head_app (R : list jsstring) u v :
  JsStr.join [LF] ((u ++ v) :: R) = u ++ JsStr.join [LF] (v :: R).
Proof.
  destruct R as [|r R]; [by unfold JsStr.join|].
  rewrite !join_cons. by rewrite <- app_assoc.
Qed.

Lemma elem_of_drop_inv {A : Type} (x : A) n l : x ∈ drop n l -> x ∈ l.
Proof. intros H. rewrite <- (take_drop n l). apply elem_of_app. by right. Qed.

Lemma shiftLine_no_LF isShift ln : LF ∉ ln -> LF ∉ shiftLine isShift ln.
Proof.
  intros Hln. unfold shiftLine, outdentLine, indentLine, JsStr.sliceFrom.
  destruct isShift.
  - destruct (JsStr.startsWith [TAB] ln); [|destruct (JsStr.startsWith [SPACE; SPACE] ln)];
      try done; intros Hin; apply elem_of_drop_inv in Hin; tauto.
  - rewrite elem_of_app. intros [Hin|Hin]; [|done].
    apply elem_of_cons in Hin as [Hin|Hin]; [done|].
    apply elem_of_cons in Hin as [Hin|Hin]; [done|]. by apply elem_of_nil in Hin.
Qed.

Lemma outdent_indent ln : outdentLine (indentLine ln) = ln.
Proof. done. Qed.

(** The lines of a text with its selected lines marked. *)
Lemma selectedLines_split P M1 M2 M3 Q :
  selectedLines P M1 M2 M3 Q ->
  exists LP LQ,
    length LP = lineAt (P ++ M1 ++ M2 ++ M3 ++ Q) (length (P ++ M1)) /\
    length LP + length (Js.splitOn LF (M1 ++ M2 ++ M3))
      = S (lineAt (P ++ M1 ++ M2 ++ M3 ++ Q) (length (P ++ M1 ++ M2))) /\
    forall M, Js.splitOn LF (P ++ M ++ Q) = LP ++ Js.splitOn LF M ++ LQ.
Proof.
  intros [HP HM1 HM3 HQ _].
  assert (HLP : exists LP, forall s, Js.splitOn LF (P ++ s) = LP ++ Js.splitOn LF s).
  { destruct HP as [->|[P' ->]]; [by exists []|].
    exists (Js.splitOn LF P'). intros s. rewrite <- app_assoc. cbn [app].
    apply splitOn_app. }
  destruct HLP as [LP HLP].
  assert (HLQ : exists LQ, forall s, Js.splitOn LF (s ++ Q) = Js.splitOn LF s ++ LQ).
  { destruct HQ as [->|[Q' ->]].
    - exists []. intros s. by rewrite !app_nil_r.
    - exists (Js.splitOn LF Q'). intros s. apply splitOn_app. }
  destruct HLQ as [LQ HLQ].
  exists LP, LQ. split_and!.
  - unfold lineAt. rewrite (app_assoc P M1), take_app_length.
    rewrite HLP, (splitOn_plain LF M1) by done. rewrite length_app. simpl. lia.
  - unfold lineAt.
    replace (P ++ M1 ++ M2 ++ M3 ++ Q) with ((P ++ M1 ++ M2) ++ M3 ++ Q)
      by (by rewrite <- !app_assoc).
    rewrite take_app_length.
    rewrite HLP. rewrite length_app.
    destruct (Js.splitOn LF (M1 ++ M2)) as [|x0 A0] eqn:E12 using rev_ind.
    { by destruct (splitOn_not_nil LF (M1 ++ M2)). }
    clear IHA0.
    rewrite (app_assoc M1 M2 M3).
    rewrite (splitOn_glue LF (M1 ++ M2) A0 x0 M3 [] M3 E12 (splitOn_plain LF M3 HM3)).
    rewrite !length_app. simpl. lia.
  - intros M. by rewrite HLP, HLQ.
Qed.

End TabKey.

(** X8: Tab and Shift+Tab change the lines that the selection touches, from
    the line of its start to the line of its end, and nothing else: each of
    these lines gets two spaces in front (Tab), or loses a leading tab or
    else two leading spaces if it has them (Shift+Tab); the other lines and
    the number of lines stay as they are.  This holds for every selection of
    the text but those that start at position 0 of a text that starts with
    a line feed, whatever their end. *)
Theorem tabKey_lines (value : jsstring) (selStart selEnd : nat) (isShift : bool) :
  selStart <= selEnd <= length value ->
  (selStart = 0 -> head value <> Some LF) ->
  lineAt value selStart <= lineAt value selEnd < length (Js.splitOn LF value) /\
  Js.splitOn LF (tabKey value selStart selEnd isShift).1.1
  = take (lineAt value selStart) (Js.splitOn LF value)
    ++ (shiftLine isShift
          <$> take (S (lineAt value selEnd) - lineAt value selStart)
                (drop (lineAt value selStart) (Js.splitOn LF value)))
    ++ drop (S (lineAt value selEnd)) (Js.splitOn LF value) /\
  length (Js.splitOn LF (tabKey value selStart selEnd isShift).1.1)
  = length (Js.splitOn LF value).
Proof.
  intros Hsel Htop.
  destruct (selectedLines_exist value selStart selEnd Hsel Htop)
    as (P & M1 & M2 & M3 & Q & Hvalue & Hmarked & Hstart & Hend & _).
  destruct (selectedLines_split P M1 M2 M3 Q Hmarked) as (LP & LQ & Ha & Hb & Hsplit).
  pose proof (tabKey_selected P M1 M2 M3 Q isShift Hmarked) as Hkey.
  rewrite Hstart, Hend, <- Hvalue in Hkey. rewrite Hstart, <- Hvalue in Ha.
  rewrite Hend, <- Hvalue in Hb. rewrite Hkey. cbn [fst].
  set (mid := Js.splitOn LF (M1 ++ M2 ++ M3)) in *.
  assert (Hmid : mid <> []) by apply splitOn_not_nil.
  assert (Hlines : Js.splitOn LF value = LP ++ mid ++ LQ).
  { rewrite Hvalue. unfold mid. rewrite <- (Hsplit (M1 ++ M2 ++ M3)).
    by rewrite <- !app_assoc. }
  assert (Hnext : Js.splitOn LF (P ++ JsStr.join [LF] (shiftLine isShift <$> mid) ++ Q)
                  = LP ++ (shiftLine isShift <$> mid) ++ LQ).
  { rewrite Hsplit. rewrite splitOn_join; [done| |].
    - by destruct mid.
    - apply Forall_fmap. eapply Forall_impl; [apply (splitOn_no_sep LF)|].
      intros l Hl. by apply shiftLine_no_LF. }
  assert (Hlen : length mid = S (lineAt value selEnd) - lineAt value selStart) by lia.
  assert (0 < length mid) by (destruct mid; [done|simpl; lia]).
  split_and!.
  - lia.
  - rewrite Hlines, !length_app. lia.
  - rewrite Hnext, Hlines. rewrite <- Hlen, <- Ha.
    rewrite take_app_length, drop_app_length.
    rewrite take_app_length. f_equal. f_equal.
    replace (S (lineAt value selEnd)) with (length (LP ++ mid))
      by (rewrite length_app; lia).
    rewrite app_assoc. by rewrite drop_app_length.
  - rewrite Hnext, Hlines. rewrite !length_app, length_fmap. done.
Qed.

Lemma tabKey_lines_witness :
  Js.splitOn LF (tabKey (str "a" ++ [LF] ++ str "b" ++ [LF] ++ str "c") 3 3 false).1.1
  = [str "a"; str "  b"; str "c"].
Proof.
  destruct (tabKey_lines (str "a" ++ [LF] ++ str "b" ++ [LF] ++ str "c") 3 3 false)
    as (_ & H & _).
  - simpl. lia.
  - intros H. discriminate H.
  - exact H.
Defined.

(** X9: in terms of the depth that the parser reads, Tab puts a line one
    level deeper and Shift+Tab one level up, and both leave the working text
    of the line as it is; Shift+Tab leaves a line unchanged exactly when its
    depth is 0, and undoes Tab. *)
Theorem shiftLine_depth (ln : jsstring) :
  getDepth (indentLine ln) = (S (getDepth ln).1, (getDepth ln).2) /\
  getDepth (outdentLine ln) = ((getDepth ln).1 - 1, (getDepth ln).2) /\
  (outdentLine ln = ln <-> (getDepth ln).1 = 0) /\
  outdentLine (indentLine ln) = ln /\
  (getDepth (indentLine (outdentLine ln))).2 = (getDepth ln).2 /\
  (0 < (getDepth ln).1 ->
   (getDepth (indentLine (outdentLine ln))).1 = (getDepth ln).1) /\
  indentLine (outdentLine ([TAB] ++ str "x")) = str "  x".
Proof.
  assert (Hin : forall l, getDepth (indentLine l) = (S (getDepth l).1, (getDepth l).2)).
  { intros l. unfold indentLine. cbn [app]. apply getDepth_pair. }
  assert (Hout : getDepth (outdentLine ln) = ((getDepth ln).1 - 1, (getDepth ln).2) /\
                 (outdentLine ln = ln <-> (getDepth ln).1 = 0)).
  { unfold outdentLine, JsStr.sliceFrom.
    destruct (JsStr.startsWith [TAB] ln) eqn:Etab.
    { apply startsWith_char in Etab. destruct ln as [|c ln]; [done|].
      injection Etab as ->. simpl drop. rewrite getDepth_tab. simpl.
      rewrite drop_0, Nat.sub_0_r. split; [by destruct (getDepth ln)|].
      split; [|lia]. intros H. apply (f_equal length) in H. simpl in H. lia. }
    destruct (JsStr.startsWith [SPACE; SPACE] ln) eqn:Epair.
    { unfold JsStr.startsWith in Epair.
      destruct (Js.stripPrefix [SPACE; SPACE] ln) as [rest|] eqn:E; [|done].
      apply stripPrefix_Some in E.
      change ([SPACE; SPACE] ++ rest) with (SPACE :: SPACE :: rest) in E. subst ln.
      simpl drop. rewrite getDepth_pair. simpl. rewrite ?drop_0, Nat.sub_0_r. split; [by destruct (getDepth rest)|].
      split; [|lia]. intros H. apply (f_equal length) in H. simpl in H. lia. }
    assert (Hstop : stopsIndent ln).
    { intros u Hu [k Hk]. destruct Hu.
      - assert (JsStr.startsWith [TAB] ln = true); [|congruence].
        apply startsWith_char. by rewrite Hk.
      - unfold JsStr.startsWith in Epair.
        rewrite (proj2 (stripPrefix_Some [SPACE; SPACE] ln k) Hk) in Epair. done. }
    rewrite (getDepth_stop ln Hstop). simpl. done. }
  destruct Hout as [Hout Hfix].
  split_and!; [apply Hin|done|done|done| | |by vm_compute].
  - by rewrite Hin, Hout.
  - intros Hpos. rewrite Hin, Hout. simpl. lia.
Qed.

(** ** Tab, then Shift+Tab *)

Section TabUndo.

Lemma sum_length_indent (t : list jsstring) :
  sum_list (length <$> (indentLine <$> t)) = sum_list (length <$> t) + 2 * length t.
Proof.
  induction t as [|l t IH]; [done|]. rewrite !fmap_cons. simpl. rewrite IH. lia.
Qed.

Lemma indentedSelection_length M2 :
  length (indentedSelection M2) = length M2 + 2 * (length (Js.splitOn LF M2) - 1).
Proof.
  unfold indentedSelection. rewrite <- (join_splitOn LF M2) at 2.
  destruct (Js.splitOn LF M2) as [|h t]; [done|].
  rewrite !join_length. rewrite !fmap_cons. simpl. rewrite sum_length_indent.
  rewrite length_fmap. lia.
Qed.

(** The text that Tab puts in the place of the selected lines. *)
Lemma indented_selected P M1 M2 M3 Q :
  selectedLines P M1 M2 M3 Q ->
  JsStr.join [LF] (indentLine <$> Js.splitOn LF (M1 ++ M2 ++ M3))
    = ([SPACE; SPACE] ++ M1) ++ indentedSelection M2 ++ M3 /\
  selectedLines P ([SPACE; SPACE] ++ M1) (indentedSelection M2) M3 Q.
Proof.
  intros [HP HM1 HM3 HQ Htop]. split.
  - unfold indentedSelection.
    destruct (Js.splitOn LF M2) as [|h t] eqn:E2; [by destruct (splitOn_not_nil LF M2)|].
    assert (E12 : Js.splitOn LF (M1 ++ M2) = (M1 ++ h) :: t).
    { apply (splitOn_glue LF M1 [] M1 h t M2); [by apply splitOn_plain|done]. }
    assert (Hlast : exists A x, (M1 ++ h) :: t = A ++ [x]).
    { destruct t as [|z t'] using rev_ind.
      - by exists [], (M1 ++ h).
      - exists ((M1 ++ h) :: t'), z. done. }
    destruct Hlast as (A & x & Hlast). rewrite Hlast in E12.
    rewrite (app_assoc M1 M2 M3).
    rewrite (splitOn_glue LF (M1 ++ M2) A x M3 [] M3 E12 (splitOn_plain LF M3 HM3)).
    rewrite app_nil_r. rewrite fmap_app. simpl fmap.
    unfold indentLine at 2. rewrite (app_assoc [SPACE; SPACE] x M3).
    rewrite join_snoc_app.
    change ([SPACE; SPACE] ++ x) with (indentLine x).
    change [indentLine x] with (indentLine <$> [x]).
    rewrite <- fmap_app, <- Hlast. rewrite fmap_cons.
    unfold indentLine at 1. rewrite (app_assoc [SPACE; SPACE] M1 h).
    rewrite join_head_app. by rewrite <- !app_assoc.
  - constructor; [done| |done|done|].
    + rewrite not_elem_of_app. split; [|done].
      intros Hin. apply elem_of_cons in Hin as [Hin|Hin]; [done|].
      apply elem_of_cons in Hin as [Hin|Hin]; [done|]. by apply elem_of_nil in Hin.
    + intros Hnil. apply app_eq_nil in Hnil as [_ Hnil]. discriminate Hnil.
Qed.

(** Tab on a text with its selected lines marked, and Shift+Tab on what it
    returns. *)
Lemma tabKey_indent_selected P M1 M2 M3 Q :
  selectedLines P M1 M2 M3 Q ->
  let value := P ++ M1 ++ M2 ++ M3 ++ Q in
  let next := P ++ ([SPACE; SPACE] ++ M1) ++ indentedSelection M2 ++ M3 ++ Q in
  let newStart := length (P ++ M1) + 2 in
  let newEnd := length (P ++ M1) + 2 + length (indentedSelection M2) in
  tabKey value (length (P ++ M1)) (length (P ++ M1 ++ M2)) false
    = (next, newStart, Z.of_nat newEnd) /\
  JsStr.slice next newStart newEnd = indentedSelection M2 /\
  tabKey next newStart newEnd true
    = (value, newStart, Z.of_nat (length (P ++ M1 ++ M2))).
Proof.
  intros Hmarked value next newStart newEnd.
  destruct (indented_selected P M1 M2 M3 Q Hmarked) as [Hchanged Hmarked'].
  pose proof (tabKey_selected P M1 M2 M3 Q false Hmarked) as Hkey.
  pose proof (tabKey_selected P ([SPACE; SPACE] ++ M1) (indentedSelection M2) M3 Q true Hmarked')
    as Hkey'.
  change (shiftLine false) with indentLine in Hkey.
  change (shiftLine true) with outdentLine in Hkey'. rewrite Hchanged in Hkey.
  assert (HnewStart : length (P ++ [SPACE; SPACE] ++ M1) = newStart).
  { unfold newStart. rewrite !length_app. simpl. lia. }
  assert (HnewEnd : length (P ++ ([SPACE; SPACE] ++ M1) ++ indentedSelection M2) = newEnd).
  { unfold newEnd. rewrite !length_app. simpl. lia. }
  rewrite HnewStart, HnewEnd in Hkey'.
  assert (Hback : JsStr.join [LF]
                    (outdentLine <$> Js.splitOn LF
                       (([SPACE; SPACE] ++ M1) ++ indentedSelection M2 ++ M3))
                  = M1 ++ M2 ++ M3).
  { rewrite <- Hchanged. rewrite splitOn_join.
    - rewrite <- list_fmap_compose.
      change (outdentLine ∘ indentLine) with (@id jsstring).
      rewrite list_fmap_id. apply join_splitOn.
    - pose proof (splitOn_not_nil LF (M1 ++ M2 ++ M3)).
      by destruct (Js.splitOn LF (M1 ++ M2 ++ M3)).
    - apply Forall_fmap. eapply Forall_impl; [apply (splitOn_no_sep LF)|].
      intros l Hl. by apply (shiftLine_no_LF false). }
  split_and!.
  - unfold value. rewrite Hkey. unfold next, newStart, newEnd. f_equal; [f_equal|].
    + by rewrite <- !app_assoc.
    + rewrite !length_app. simpl. lia.
  - unfold JsStr.slice, next. rewrite <- HnewStart.
    rewrite (app_assoc P ([SPACE; SPACE] ++ M1) (indentedSelection M2 ++ M3 ++ Q)).
    rewrite drop_app_length.
    replace (newEnd - length (P ++ [SPACE; SPACE] ++ M1))
      with (length (indentedSelection M2)) by (rewrite HnewStart; unfold newEnd; lia).
    by rewrite take_app_length.
  - unfold next. rewrite Hkey', Hback. unfold value. f_equal.
    + f_equal; [by rewrite <- !app_assoc|lia].
    + rewrite <- HnewEnd. rewrite !length_app. simpl. lia.
Qed.

End TabUndo.

(** X10: for every selection that does not start at position 0 of a text
    that starts with a line feed, after Tab the selection is still on the
    text it was on: the new selection starts two characters to the right of
    the old one, and what it covers is the old selected text with two spaces
    in front of each of its lines but the first. *)
Theorem tabKey_selection (value : jsstring) (selStart selEnd : nat) :
  selStart <= selEnd <= length value ->
  (selStart = 0 -> head value <> Some LF) ->
  exists next newEnd,
    tabKey value selStart selEnd false = (next, selStart + 2, Z.of_nat newEnd) /\
    selStart + 2 <= newEnd <= length next /\
    newEnd = selEnd + 2 * (S (lineAt value selEnd) - lineAt value selStart) /\
    length next = length value + 2 * (S (lineAt value selEnd) - lineAt value selStart) /\
    JsStr.slice next (selStart + 2) newEnd
      = indentedSelection (JsStr.slice value selStart selEnd) /\
    drop newEnd next = drop selEnd value.
Proof.
  intros Hsel Htop.
  destruct (selectedLines_exist value selStart selEnd Hsel Htop)
    as (P & M1 & M2 & M3 & Q & Hvalue & Hmarked & Hstart & Hend & HM2).
  destruct (tabKey_indent_selected P M1 M2 M3 Q Hmarked) as (Hkey & Hslice & _).
  destruct (selectedLines_split P M1 M2 M3 Q Hmarked) as (LP & LQ & Ha & Hb & _).
  cbv zeta in Hkey, Hslice.
  rewrite Hstart, Hend, <- Hvalue in Hkey. rewrite Hstart in Hslice.
  rewrite Hstart, <- Hvalue in Ha. rewrite Hend, <- Hvalue in Hb.
  exists (P ++ ([SPACE; SPACE] ++ M1) ++ indentedSelection M2 ++ M3 ++ Q),
         (selStart + 2 + length (indentedSelection M2)).
  assert (Hlines2 : length (Js.splitOn LF (M1 ++ M2 ++ M3)) = length (Js.splitOn LF M2)).
  { destruct (Js.splitOn LF M2) as [|h t] eqn:E2; [by destruct (splitOn_not_nil LF M2)|].
    destruct Hmarked as [_ HM1 HM3 _ _].
    assert (E12 : Js.splitOn LF (M1 ++ M2) = (M1 ++ h) :: t).
    { apply (splitOn_glue LF M1 [] M1 h t M2); [by apply splitOn_plain|done]. }
    assert (Hlast : exists A x, (M1 ++ h) :: t = A ++ [x] /\ length A = length t).
    { destruct t as [|z t'] using rev_ind.
      - by exists [], (M1 ++ h).
      - exists ((M1 ++ h) :: t'), z. split; [done|]. rewrite length_app. simpl. lia. }
    destruct Hlast as (A & x & Hlast & HlenA). rewrite Hlast in E12.
    rewrite (app_assoc M1 M2 M3).
    rewrite (splitOn_glue LF (M1 ++ M2) A x M3 [] M3 E12 (splitOn_plain LF M3 HM3)).
    rewrite !length_app. simpl. lia. }
  assert (Hcount : length (Js.splitOn LF M2) - 1
                   = lineAt value selEnd - lineAt value selStart) by lia.
  pose proof (indentedSelection_length M2) as HlenM2'.
  assert (HlenV : length value = selEnd + length (M3 ++ Q)).
  { rewrite Hvalue, <- Hend. rewrite !length_app. lia. }
  assert (HlenPM : length P + length M1 = selStart).
  { rewrite <- Hstart, length_app. lia. }
  assert (HlenM2 : length M2 = selEnd - selStart).
  { rewrite <- Hend, <- Hstart. rewrite !length_app. lia. }
  assert (Hone : 1 <= length (Js.splitOn LF M2)).
  { pose proof (splitOn_not_nil LF M2). destruct (Js.splitOn LF M2); [done|simpl; lia]. }
  rewrite length_app in HlenV.
  split_and!.
  - exact Hkey.
  - lia.
  - rewrite !length_app. simpl. lia.
  - lia.
  - rewrite !length_app. simpl. lia.
  - by rewrite <- HM2.
  - assert (Hpre : selStart + 2 + length (indentedSelection M2)
                   = length (P ++ ([SPACE; SPACE] ++ M1) ++ indentedSelection M2)).
    { rewrite <- Hstart. rewrite !length_app. simpl. lia. }
    rewrite Hpre.
    replace (P ++ ([SPACE; SPACE] ++ M1) ++ indentedSelection M2 ++ M3 ++ Q)
      with ((P ++ ([SPACE; SPACE] ++ M1) ++ indentedSelection M2) ++ M3 ++ Q)
      by (by rewrite <- !app_assoc).
    rewrite drop_app_length. rewrite Hvalue, <- Hend.
    replace (P ++ M1 ++ M2 ++ M3 ++ Q) with ((P ++ M1 ++ M2) ++ M3 ++ Q)
      by (by rewrite <- !app_assoc).
    by rewrite drop_app_length.
Qed.

Lemma tabKey_selection_witness :
  exists next newEnd,
    tabKey (str "a" ++ [LF] ++ str "b" ++ [LF] ++ str "c") 1 4 false
      = (next, 3, Z.of_nat newEnd) /\
    JsStr.slice next 3 newEnd = [LF] ++ str "  b" ++ [LF] ++ str "  ".
Proof.
  destruct (tabKey_selection (str "a" ++ [LF] ++ str "b" ++ [LF] ++ str "c") 1 4)
    as (next & newEnd & Hkey & _ & _ & _ & Hslice & _).
  - simpl. lia.
  - intros H. discriminate H.
  - exists next, newEnd. split; [exact Hkey|exact Hslice].
Defined.

(** X11: for every selection that does not start at position 0 of a text
    that starts with a line feed, Shift+Tab undoes Tab: applied to the text
    and the selection that Tab returns, it gives the text back as it was.
    The end of the selection is back where it was too; its start is not, it
    stays two characters to the right of where it was. *)
Theorem tabKey_undo (value : jsstring) (selStart selEnd : nat) :
  selStart <= selEnd <= length value ->
  (selStart = 0 -> head value <> Some LF) ->
  exists next newStart newEnd,
    tabKey value selStart selEnd false = (next, newStart, Z.of_nat newEnd) /\
    tabKey next newStart newEnd true = (value, selStart + 2, Z.of_nat selEnd).
Proof.
  intros Hsel Htop.
  destruct (selectedLines_exist value selStart selEnd Hsel Htop)
    as (P & M1 & M2 & M3 & Q & Hvalue & Hmarked & Hstart & Hend & HM2).
  destruct (tabKey_indent_selected P M1 M2 M3 Q Hmarked) as (Hkey & _ & Hkey').
  cbv zeta in Hkey, Hkey'.
  rewrite Hstart, Hend, <- Hvalue in Hkey. rewrite Hstart, Hend, <- Hvalue in Hkey'.
  eexists _, _, _. split; [exact Hkey|exact Hkey'].
Qed.

Lemma tabKey_undo_witness :
  exists next newStart newEnd,
    tabKey (str "x" ++ [LF] ++ [TAB] ++ str "y" ++ [LF] ++ str "z") 3 5 false
      = (next, newStart, Z.of_nat newEnd) /\
    tabKey next newStart newEnd true
      = (str "x" ++ [LF] ++ [TAB] ++ str "y" ++ [LF] ++ str "z", 5, 5%Z).
Proof.
  apply (tabKey_undo (str "x" ++ [LF] ++ [TAB] ++ str "y" ++ [LF] ++ str "z") 3 5).
  - simpl. lia.
  - intros H. discriminate H.
Defined.

(** X12: a selection that the branch of Tab gets wrong.  With the caret
    at position 0 of a text that starts with a line feed, the search for the
    start of the line, from position -1, is clamped to position 0 and finds
    that line feed, so the line is taken to start at 1 and to end at 0: the
    empty first line is not indented; a new line is put after it instead,
    of two spaces for Tab and empty for Shift+Tab, and the text has one more
    line than before. *)
Theorem tabKey_leading_line_feed (v : jsstring) (isShift : bool) :
  tabKey (LF :: v) 0 0 isShift
    = (LF :: shiftLine isShift [] ++ LF :: v,
       if isShift then 0 else 2, if isShift then 0%Z else 2%Z) /\
  Js.splitOn LF (tabKey (LF :: v) 0 0 isShift).1.1
    = [] :: shiftLine isShift [] :: Js.splitOn LF v /\
  Js.splitOn LF (LF :: v) = [] :: Js.splitOn LF v.
Proof.
  assert (Hkey : tabKey (LF :: v) 0 0 isShift
    = (LF :: shiftLine isShift [] ++ LF :: v,
       if isShift then 0 else 2, if isShift then 0%Z else 2%Z)).
  { rewrite tabKey_eq.
    assert (lineStartOf (LF :: v) 0 = 1) as ->.
    { unfold lineStartOf, JsStr.lastIndexOf. cbn [from_option id length].
      replace (Z.to_nat _) with 1 by lia. done. }
    assert (lineEndOf (LF :: v) 0 = 0) as -> by done.
    unfold JsStr.slice. simpl. destruct isShift; done. }
  split_and!.
  - exact Hkey.
  - rewrite Hkey. cbn [fst]. rewrite splitOn_cons_sep.
    rewrite splitOn_app_sep; [done|].
    apply shiftLine_no_LF, not_elem_of_nil.
  - apply splitOn_cons_sep.
Qed.

(** ** Tags and the tag filter *)

Section Runs.

Variable sep : ascii -> bool.

Lemma splitRuns_not_nil s : JsStr.splitRuns sep s <> [].
Proof.
  induction s as [|c s IH]; [done|]. simpl.
  destruct (sep c).
  - destruct s as [|c' s']; [done|]. by destruct (sep c').
  - by destruct (JsStr.splitRuns sep s).
Qed.

Lemma splitRuns_cons_other c s :
  sep c = false ->
  exists piece rest,
    JsStr.splitRuns sep s = piece :: rest /\
    JsStr.splitRuns sep (c :: s) = (c :: piece) :: rest.
Proof.
  intros Hc. simpl. rewrite Hc.
  destruct (JsStr.splitRuns sep s) as [|piece rest] eqn:E.
  - by destruct (splitRuns_not_nil s).
  - by exists piece, rest.
Qed.

(** No piece holds a separator. *)
Lemma splitRuns_pieces s :
  Forall (Forall (fun c => sep c = false)) (JsStr.splitRuns sep s).
Proof.
  induction s as [|c s IH]; [by repeat constructor|].
  destruct (sep c) eqn:Ec.
  - simpl. rewrite Ec. destruct s as [|c' s']; [by repeat constructor|].
    destruct (sep c'); [done|]. by constructor.
  - destruct (splitRuns_cons_other c s Ec) as (piece & rest & E & ->).
    rewrite E in IH. inversion IH as [|? ? Hp Hrest]; subst.
    constructor; [by constructor|done].
Qed.

Lemma splitRuns_plain s :
  Forall (fun c => sep c = false) s -> JsStr.splitRuns sep s = [s].
Proof.
  induction 1 as [|c s Hc _ IH]; [done|].
  destruct (splitRuns_cons_other c s Hc) as (piece & rest & E & ->).
  rewrite IH in E. by injection E as <- <-.
Qed.

Lemma splitRuns_sep_sep c c' s :
  sep c = true -> sep c' = true ->
  JsStr.splitRuns sep (c :: c' :: s) = JsStr.splitRuns sep (c' :: s).
Proof. intros Hc Hc'. simpl. by rewrite Hc, Hc'. Qed.

Lemma splitRuns_sep_other c c' s :
  sep c = true -> sep c' = false ->
  JsStr.splitRuns sep (c :: c' :: s) = [] :: JsStr.splitRuns sep (c' :: s).
Proof. intros Hc Hc'. simpl. by rewrite Hc, Hc'. Qed.

(** A text that starts with a separator starts with an empty piece. *)
Lemma splitRuns_sep_head b : forall c,
  sep c = true ->
  exists R, JsStr.splitRuns sep (c :: b) = [] :: R /\
            (R = JsStr.splitRuns sep b \/ JsStr.splitRuns sep b = [] :: R).
Proof.
  induction b as [|c' b IH]; intros c Hc.
  - exists [[]]. simpl. rewrite Hc. by split; [|left].
  - destruct (sep c') eqn:Ec'.
    + destruct (IH c' Ec') as (R & HR & _). exists R.
      split; [|by right]. by rewrite splitRuns_sep_sep.
    + exists (JsStr.splitRuns sep (c' :: b)). split; [|by left].
      by apply splitRuns_sep_other.
Qed.

(** The pieces of a text and of what is put after it, behind a separator. *)
Lemma splitRuns_app a : forall s R,
  JsStr.splitRuns sep s = [] :: R -> (exists c b, s = c :: b /\ sep c = true) ->
  exists P, P <> [] /\
            (JsStr.splitRuns sep a = P \/ JsStr.splitRuns sep a = P ++ [[]]) /\
            JsStr.splitRuns sep (a ++ s) = P ++ R.
Proof.
  induction a as [|c0 a IH]; intros s R HR Hs.
  - exists [[]]. split_and!; [done|by left|done].
  - destruct (sep c0) eqn:Ec0.
    + destruct a as [|c1 a'].
      * exists [[]]. split_and!; [done|right; simpl; by rewrite Ec0|].
        destruct Hs as (c & b & -> & Hc). cbn [app]. rewrite <- HR.
        by apply splitRuns_sep_sep.
      * destruct (IH s R HR Hs) as (P & HP & Ha & Happ).
        destruct (sep c1) eqn:Ec1.
        -- exists P. split_and!; [done| |].
           ++ by rewrite splitRuns_sep_sep.
           ++ cbn [app]. cbn [app] in Happ. by rewrite splitRuns_sep_sep.
        -- exists ([] :: P). split_and!; [done| |].
           ++ rewrite splitRuns_sep_other by done.
              destruct Ha as [Ha|Ha]; [left|right]; by rewrite Ha.
           ++ cbn [app]. cbn [app] in Happ. rewrite splitRuns_sep_other by done.
              by rewrite Happ.
    + destruct (IH s R HR Hs) as (P & HP & Ha & Happ).
      destruct P as [|p0 P0]; [done|].
      destruct (splitRuns_cons_other c0 a Ec0) as (piece & rest & E & ->).
      cbn [app].
      destruct (splitRuns_cons_other c0 (a ++ s) Ec0) as (piece' & rest' & E' & ->).
      rewrite Happ in E'. simpl in E'. injection E' as <- <-.
      exists ((c0 :: p0) :: P0). split_and!; [done| |done].
      rewrite E in Ha. destruct Ha as [Ha|Ha]; simpl in Ha; injection Ha as -> ->;
        [by left|by right].
Qed.

(** The pieces that are kept, for a map [f] that keeps the empty piece
    empty, add up. *)
Lemma splitRuns_kept (f : jsstring -> jsstring) a c b :
  f [] = [] -> sep c = true ->
  filter (fun t => Js.truthy t) (f <$> JsStr.splitRuns sep (a ++ c :: b))
  = filter (fun t => Js.truthy t) (f <$> JsStr.splitRuns sep a)
    ++ filter (fun t => Js.truthy t) (f <$> JsStr.splitRuns sep b).
Proof.
  intros Hf Hc.
  destruct (splitRuns_sep_head b c Hc) as (R & HR & HRb).
  destruct (splitRuns_app a (c :: b) R HR) as (P & _ & Ha & Happ); [by eauto|].
  rewrite Happ, fmap_app, filter_app. f_equal.
  - destruct Ha as [->| ->]; [done|].
    rewrite fmap_app, filter_app. simpl. rewrite Hf.
    rewrite filter_cons_False by (simpl; tauto). by rewrite filter_nil, app_nil_r.
  - destruct HRb as [->| ->]; [done|].
    rewrite fmap_cons, Hf. by rewrite filter_cons_False by (simpl; tauto).
Qed.

End Runs.

Section Tags.

Lemma splitTags_splitRuns s : Js.splitTags s = JsStr.splitRuns Js.isTagSep s.
Proof.
  induction s as [|c s IH]; [done|]. simpl. rewrite IH.
  destruct (Js.isTagSep c); [|done]. destruct s as [|c' s']; [done|].
  by destruct (Js.isTagSep c').
Qed.

Lemma toLowerChar_idemp c : Js.toLowerChar (Js.toLowerChar c) = Js.toLowerChar c.
Proof. destruct c as [[] [] [] [] [] [] [] []]; reflexivity. Qed.

Lemma toLowerChar_whiteSpace c : Js.isWhiteSpace (Js.toLowerChar c) = Js.isWhiteSpace c.
Proof. destruct c as [[] [] [] [] [] [] [] []]; reflexivity. Qed.

Lemma toLowerChar_tagSep c : Js.isTagSep (Js.toLowerChar c) = Js.isTagSep c.
Proof. destruct c as [[] [] [] [] [] [] [] []]; reflexivity. Qed.

Lemma toLowerChar_querySep c : isQuerySep (Js.toLowerChar c) = isQuerySep c.
Proof. destruct c as [[] [] [] [] [] [] [] []]; reflexivity. Qed.

Lemma toLowerCase_idemp s : Js.toLowerCase (Js.toLowerCase s) = Js.toLowerCase s.
Proof.
  unfold Js.toLowerCase. rewrite map_map. apply map_ext. intros c. apply toLowerChar_idemp.
Qed.

Lemma toLowerCase_noOuterWhiteSpace s :
  noOuterWhiteSpace s -> noOuterWhiteSpace (Js.toLowerCase s).
Proof.
  intros [Hh Hl]. unfold Js.toLowerCase. split.
  - intros c Hc. destruct s as [|x s]; [done|]. simpl in Hc. injection Hc as <-.
    rewrite toLowerChar_whiteSpace. by apply Hh.
  - intros c Hc. change (map Js.toLowerChar s) with (Js.toLowerChar <$> s) in Hc.
    rewrite fmap_last in Hc. destruct (last s) as [x|] eqn:E; [|done].
    simpl in Hc. injection Hc as <-. rewrite toLowerChar_whiteSpace. by apply Hl.
Qed.

Lemma toLowerCase_trim s : Js.toLowerCase (Js.trim s) = Js.trim (Js.toLowerCase s).
Proof.
  assert (Hdrop : forall s, Js.toLowerCase (Js.dropWhile Js.isWhiteSpace s)
                            = Js.dropWhile Js.isWhiteSpace (Js.toLowerCase s)).
  { clear. induction s as [|c s IH]; [done|]. simpl. rewrite toLowerChar_whiteSpace.
    by destruct (Js.isWhiteSpace c). }
  unfold Js.trim, Js.trimEnd, Js.trimStart.
  unfold Js.toLowerCase at 1. rewrite map_rev.
  change (map Js.toLowerChar ?x) with (Js.toLowerCase x).
  rewrite Hdrop. unfold Js.toLowerCase at 1. rewrite map_rev.
  change (map Js.toLowerChar ?x) with (Js.toLowerCase x). by rewrite Hdrop.
Qed.

Lemma toLowerCase_sep (sep : ascii -> bool) (b : bool) s :
  (forall c, sep (Js.toLowerChar c) = sep c) ->
  Forall (fun c => sep c = b) s -> Forall (fun c => sep c = b) (Js.toLowerCase s).
Proof.
  intros Hsep. induction 1 as [|c s Hc _ IH]; [constructor|].
  simpl. constructor; [by rewrite Hsep|exact IH].
Qed.

Lemma noSep_noOuterWhiteSpace (sep : ascii -> bool) t :
  (forall c, Js.isWhiteSpace c = true -> sep c = true) ->
  Forall (fun c => sep c = false) t -> noOuterWhiteSpace t.
Proof.
  intros Hsep Hall. rewrite Forall_forall in Hall.
  assert (Hin : forall c, c ∈ t -> Js.isWhiteSpace c = false).
  { intros c Hc. destruct (Js.isWhiteSpace c) eqn:E; [|done].
    specialize (Hsep c E). by rewrite (Hall c Hc) in Hsep. }
  split; intros c Hc; apply Hin.
  - destruct t; [done|]. injection Hc as ->. apply list_elem_of_here.
  - apply last_Some in Hc as [t' ->]. apply elem_of_app. right. apply list_elem_of_here.
Qed.

(** The tags that a tags directive declares. *)
Lemma tagsOf_spec m :
  Forall (fun t => wellFormedTag t /\ Forall (fun c => Js.isTagSep c = false) t) (tagsOf m).
Proof.
  unfold tagsOf. rewrite splitTags_splitRuns.
  pose proof (splitRuns_pieces Js.isTagSep (Re.group1 m)) as Hpieces.
  induction Hpieces as [|p ps Hp _ IH]; [constructor|].
  simpl. assert (Htrim : Js.trim p = p).
  { apply trim_fixed. apply (noSep_noOuterWhiteSpace Js.isTagSep); [|done].
    intros c Hc. unfold Js.isTagSep. rewrite Hc. by destruct (Ascii.eqb c COMMA). }
  rewrite Htrim.
  destruct (Js.truthy (Js.toLowerCase p)) eqn:Et.
  - rewrite filter_cons_True by (rewrite Et; simpl; tauto). constructor; [|exact IH].
    assert (Hsep : Forall (fun c => Js.isTagSep c = false) (Js.toLowerCase p)).
    { by apply toLowerCase_sep; [apply toLowerChar_tagSep|]. }
    split; [|done]. split_and!.
    + by destruct (Js.toLowerCase p).
    + apply toLowerCase_idemp.
    + apply (noSep_noOuterWhiteSpace Js.isTagSep); [|done].
      intros c Hc. unfold Js.isTagSep. rewrite Hc. by destruct (Ascii.eqb c COMMA).
  - rewrite filter_cons_False by (rewrite Et; simpl; tauto). exact IH.
Qed.

(** A tag without a space or a comma is what the filter makes of it. *)
Lemma wantedTags_single t :
  wellFormedTag t -> Forall (fun c => isQuerySep c = false) t -> wantedTags t = [t].
Proof.
  intros (Hne & Hlow & Houter) Hsep. unfold wantedTags. rewrite Hlow.
  rewrite splitRuns_plain by done. simpl. rewrite (trim_fixed t Houter).
  rewrite filter_cons_True by (by destruct t). done.
Qed.

Lemma nodeMatches_forall wanted n :
  nodeMatches wanted n = true <-> forall t, t ∈ wanted -> t ∈ RawNode.tags n.
Proof.
  unfold nodeMatches. destruct wanted as [|w ws].
  - simpl. split; [|done]. by intros _ t ?%elem_of_nil.
  - cbn [length Nat.eqb orb]. rewrite <- Is_true_true, forallb_True, Forall_forall. split.
    + intros H t Ht. specialize (H t Ht). by apply bool_decide_unpack in H.
    + intros H t Ht. apply bool_decide_pack. by apply H.
Qed.

Lemma nodeMatches_app w1 w2 n :
  nodeMatches (w1 ++ w2) n = nodeMatches w1 n && nodeMatches w2 n.
Proof.
  apply eq_true_iff_eq. rewrite andb_true_iff, !nodeMatches_forall. split.
  - intros H. split; intros t Ht; apply H, elem_of_app; [by left|by right].
  - intros [H1 H2] t [Ht|Ht]%elem_of_app; [by apply H1|by apply H2].
Qed.

Lemma makeNode_tags_spec idx raw n :
  makeNode idx raw = Ok n ->
  RawNode.tags n
  = declaredTags raw
    ++ match RawNode.pos n with
       | Some p => if Js.truthy p then [p] else []
       | None => []
       end /\
  Forall wellFormedTag (RawNode.tags n).
Proof.
  intros Hn. destruct (makeNode_pos idx raw n Hn) as [Hpos Htags].
  assert (Heq : RawNode.tags n
    = declaredTags raw
      ++ match RawNode.pos n with
         | Some p => if Js.truthy p then [p] else []
         | None => []
         end).
  { rewrite Htags. unfold declaredTags. cbv zeta.
    destruct (RawNode.pos n) as [p|]; [|by rewrite app_nil_r].
    destruct (Js.truthy p); [done|by rewrite app_nil_r]. }
  split; [exact Heq|]. rewrite Heq. apply Forall_app. split.
  - unfold declaredTags. destruct (extract tagsRegex (afterJp raw)).1 as [m|]; [|constructor].
    simpl. eapply Forall_impl; [apply tagsOf_spec|]. by intros t [? _].
  - rewrite Hpos. destruct (extract posRegex (afterLabel raw)).1 as [m|]; [|constructor].
    simpl. destruct (Js.truthy (Js.toLowerCase (payloadOf m))) eqn:Et; [|constructor].
    constructor; [|constructor]. split_and!.
    + by destruct (Js.toLowerCase (payloadOf m)).
    + apply toLowerCase_idemp.
    + apply toLowerCase_noOuterWhiteSpace. unfold payloadOf. apply trim_noOuterWhiteSpace.
Qed.

End Tags.

(** X13: the wanted tags of a query are the pieces between its runs of spaces
    and commas, in lower case and trimmed, the empty ones left out: each is
    not empty, is in lower case and has no space, no comma and no white
    space at its ends.  A query of spaces and commas only wants nothing; a
    single well-formed tag wants itself; and the wanted tags of two queries
    joined by a space or a comma are those of the first followed by those of
    the second. *)
Theorem wantedTags_spec (tagQuery : jsstring) :
  Forall (fun t => wellFormedTag t /\ Forall (fun c => isQuerySep c = false) t)
         (wantedTags tagQuery) /\
  (Forall (fun c => isQuerySep c = true) tagQuery -> wantedTags tagQuery = []) /\
  (wellFormedTag tagQuery -> Forall (fun c => isQuerySep c = false) tagQuery ->
   wantedTags tagQuery = [tagQuery]) /\
  (forall c q, isQuerySep c = true ->
     wantedTags (tagQuery ++ c :: q) = wantedTags tagQuery ++ wantedTags q) /\
  wantedTags (str " Noun,, TOPIC " ++ [TAB]) = [str "noun"; str "topic"].
Proof.
  split_and!.
  - unfold wantedTags.
    pose proof (splitRuns_pieces isQuerySep (Js.toLowerCase tagQuery)) as Hpieces.
    assert (Hlow : Forall (fun p => Js.toLowerCase p = p)
                     (JsStr.splitRuns isQuerySep (Js.toLowerCase tagQuery))).
    { generalize (toLowerCase_idemp tagQuery). generalize (Js.toLowerCase tagQuery).
      clear. intros s. induction s as [|c s IH]; intros Hs; [by repeat constructor|].
      injection Hs as Hc Hs. specialize (IH Hs).
      destruct (isQuerySep c) eqn:Ec.
      - simpl. rewrite Ec. destruct s as [|c' s']; [by repeat constructor|].
        destruct (isQuerySep c'); [done|]. by constructor.
      - destruct (splitRuns_cons_other isQuerySep c s Ec) as (piece & rest & E & ->).
        rewrite E in IH. inversion IH as [|? ? Hp Hrest]; subst.
        constructor; [|done]. simpl. by rewrite Hc, Hp. }
    induction Hpieces as [|p ps Hp _ IH]; [constructor|].
    inversion Hlow as [|? ? Hlp Hlps]; subst. simpl.
    destruct (Js.truthy (Js.trim p)) eqn:Et.
    + rewrite filter_cons_True by (rewrite Et; simpl; tauto). constructor; [|by apply IH].
      destruct (trim_split p) as (pre & post & Hsplit & _ & _).
      split; [split_and!|].
      * by destruct (Js.trim p).
      * rewrite toLowerCase_trim. by rewrite Hlp.
      * apply trim_noOuterWhiteSpace.
      * rewrite Hsplit in Hp. apply Forall_app in Hp as [_ Hp].
        by apply Forall_app in Hp as [Hp _].
    + rewrite filter_cons_False by (rewrite Et; simpl; tauto). by apply IH.
  - intros Hall. unfold wantedTags.
    assert (Hall' : Forall (fun c => isQuerySep c = true) (Js.toLowerCase tagQuery)).
    { by apply toLowerCase_sep; [apply toLowerChar_querySep|]. }
    revert Hall'. generalize (Js.toLowerCase tagQuery). clear.
    intros s Hall. induction Hall as [|c s Hc Hs IH]; [done|].
    simpl. rewrite Hc. destruct s as [|c' s']; [done|].
    inversion Hs as [|? ? Hc' _]; subst. rewrite Hc'. exact IH.
  - apply wantedTags_single.
  - intros c q Hc. unfold wantedTags, Js.toLowerCase. rewrite map_app. simpl.
    apply (splitRuns_kept isQuerySep Js.trim); [done|].
    by rewrite toLowerChar_querySep.
  - by vm_compute.
Qed.

(** X14: the tag filter is a conjunction.  A node matches when it carries
    every wanted tag; the empty query matches every node; the query made of
    two queries joined by a space or a comma matches exactly the nodes that
    match both; and a node that matches keeps matching when tags are added
    to it. *)
Theorem nodeMatches_spec (tagQuery : jsstring) (n : RawNode.t) :
  (nodeMatches (wantedTags tagQuery) n = true <->
   forall t, t ∈ wantedTags tagQuery -> t ∈ RawNode.tags n) /\
  nodeMatches (wantedTags []) n = true /\
  (forall c q, isQuerySep c = true ->
     nodeMatches (wantedTags (tagQuery ++ c :: q)) n
     = nodeMatches (wantedTags tagQuery) n && nodeMatches (wantedTags q) n) /\
  (forall n', RawNode.tags n ⊆ RawNode.tags n' ->
     nodeMatches (wantedTags tagQuery) n = true ->
     nodeMatches (wantedTags tagQuery) n' = true).
Proof.
  split_and!.
  - apply nodeMatches_forall.
  - done.
  - intros c q Hc. rewrite <- nodeMatches_app. f_equal.
    unfold wantedTags, Js.toLowerCase. rewrite map_app. simpl.
    apply (splitRuns_kept isQuerySep Js.trim); [done|].
    by rewrite toLowerChar_querySep.
  - intros n' Hsub. rewrite !nodeMatches_forall. intros H t Ht. apply Hsub. by apply H.
Qed.

(** X15: the tags of a node are those that its tags directive declares,
    followed by its part of speech when it has one that is not empty.  Each
    is not empty, in lower case and without white space at its ends; a
    declared tag holds no comma and no white space at all, so that the
    filter asked for it finds the node, as it does for every tag of the node
    that holds no space and no comma.  A part of speech of two words is a
    tag that no query asks for. *)
Theorem tags_searchable (idx : nat) (raw : jsstring) :
  (exists n,
     makeNode idx raw = Ok n /\
     RawNode.tags n
     = declaredTags raw
       ++ match RawNode.pos n with
          | Some p => if Js.truthy p then [p] else []
          | None => []
          end /\
     Forall wellFormedTag (RawNode.tags n) /\
     Forall (fun t => Forall (fun c => Js.isTagSep c = false) t) (declaredTags raw) /\
     (forall t, t ∈ declaredTags raw -> nodeMatches (wantedTags t) n = true) /\
     (forall t, t ∈ RawNode.tags n -> Forall (fun c => isQuerySep c = false) t ->
        nodeMatches (wantedTags t) n = true)) /\
  (forall input p r n,
     parseText input = Ok p -> objects p !! r = Some n ->
     Forall wellFormedTag (RawNode.tags n)) /\
  fieldsOf RawNode.tags (str "w \tags{Food, basic} \pos{Proper Noun}")
    = [[]; [str "food"; str "basic"; str "proper noun"]] /\
  wantedTags (str "Proper Noun") = [str "proper"; str "noun"] /\
  (forall q, str "proper noun" ∉ wantedTags q).
Proof.
  split_and!.
  - destruct (makeNode_total idx raw) as [n Hn]. exists n.
    destruct (makeNode_tags_spec idx raw n Hn) as [Heq Hwf].
    assert (Hdecl : Forall (fun t => wellFormedTag t /\ Forall (fun c => Js.isTagSep c = false) t)
                      (declaredTags raw)).
    { unfold declaredTags. destruct (extract tagsRegex (afterJp raw)).1 as [m|]; [|constructor].
      apply tagsOf_spec. }
    assert (Hfind : forall t, t ∈ RawNode.tags n -> Forall (fun c => isQuerySep c = false) t ->
              nodeMatches (wantedTags t) n = true).
    { intros t Ht Hsep. rewrite Forall_forall in Hwf.
      rewrite (wantedTags_single t (Hwf t Ht) Hsep).
      apply nodeMatches_forall. by intros ? ->%list_elem_of_singleton. }
    split_and!; [done|done|done| | |done].
    + eapply Forall_impl; [exact Hdecl|]. by intros t [_ ?].
    + intros t Ht. rewrite Forall_forall in Hdecl. destruct (Hdecl t Ht) as [_ Hsep].
      apply Hfind.
      * rewrite Heq. apply elem_of_app. by left.
      * eapply Forall_impl; [exact Hsep|]. intros c Hc. unfold Js.isTagSep in Hc.
        unfold isQuerySep. apply orb_false_iff in Hc as [Hcomma Hws].
        rewrite Hcomma, orb_false_r. destruct (Ascii.eqb_spec c SPACE) as [->|]; [done|done].
  - intros input p r n Hp Hn.
    destruct (parsed_objects input p Hp) as [Hroot Hnodes].
    destruct (decide (r = ROOT)) as [->|Hr].
    + apply Hroot in Hn. apply (f_equal RawNode.tags) in Hn. simpl in Hn.
      rewrite Hn. constructor.
    + destruct (Hnodes r n Hn Hr) as (idx' & raw' & _ & _ & Hmk).
      by destruct (makeNode_tags_spec idx' raw' (created n) Hmk) as [_ Hwf].
  - by vm_compute.
  - by vm_compute.
  - intros q Hin.
    destruct (wantedTags_spec q) as [Hall _]. rewrite Forall_forall in Hall.
    destruct (Hall _ Hin) as [_ Hsep]. rewrite Forall_forall in Hsep.
    specialize (Hsep SPACE). simpl in Hsep.
    assert (SPACE ∈ str "proper noun") by (vm_compute; in_list).
    by specialize (Hsep H).
Qed.

(** ** The snapshot history *)

Section History.

Lemma saveSnapshot_eq now text history :
  saveSnapshot now text history = take 30 (Snapshot.mk now text :: history).
Proof. unfold saveSnapshot, JsStr.slice. by rewrite drop_0. Qed.

Lemma saveAll_eq saves : forall history,
  saveAll saves history
  = take 30 (rev ((fun s => Snapshot.mk s.1 s.2) <$> saves) ++ history)
    \/ saves = [] /\ saveAll saves history = history.
Proof.
  induction saves as [|s saves IH] using rev_ind; intros history; [by right|].
  left. unfold saveAll. rewrite foldl_snoc. fold (saveAll saves history).
  rewrite saveSnapshot_eq, fmap_app, rev_app_distr. simpl.
  destruct (IH history) as [->|[-> ->]]; [|done].
  set (l := rev ((fun s0 => Snapshot.mk s0.1 s0.2) <$> saves) ++ history).
  change (take 30 (Snapshot.mk s.1 s.2 :: take 30 l)) with
    (Snapshot.mk s.1 s.2 :: take 29 (take 30 l)).
  by rewrite take_take.
Qed.

End History.

(** X16: the snapshot history is the most recent snapshots, the newest first,
    and never more than 30 of them.  A save puts the new snapshot in front
    and lets the oldest go when there are 30 already; after any number of
    saves the history is the first 30 of the new snapshots, in reverse order
    of saving, followed by what was there before. *)
Theorem saveSnapshot_history (history : list Snapshot.t) :
  (forall now text,
     head (saveSnapshot now text history) = Some (Snapshot.mk now text) /\
     length (saveSnapshot now text history) = (S (length history)) `min` 30 /\
     (length history < 30 ->
      saveSnapshot now text history = Snapshot.mk now text :: history) /\
     (30 <= length history ->
      saveSnapshot now text history = Snapshot.mk now text :: take 29 history)) /\
  (forall s saves,
     saveAll (s :: saves) history
     = take 30 (rev ((fun s => Snapshot.mk s.1 s.2) <$> (s :: saves)) ++ history) /\
     length (saveAll (s :: saves) history) <= 30 /\
     (30 <= length (s :: saves) ->
      saveAll (s :: saves) history
      = take 30 (rev ((fun s => Snapshot.mk s.1 s.2) <$> (s :: saves))))).
Proof.
  split.
  - intros now text. rewrite saveSnapshot_eq. split_and!.
    + done.
    + rewrite length_take. cbn [length]. lia.
    + intros Hlt. apply take_ge. cbn [length]. lia.
    + done.
  - intros s saves.
    destruct (saveAll_eq (s :: saves) history) as [Heq|[? _]]; [|done].
    split_and!.
    + exact Heq.
    + rewrite Heq, length_take. lia.
    + intros Hlen. rewrite Heq. apply take_app_le.
      rewrite length_rev, length_fmap. exact Hlen.
Qed.

(** ** Colours of a parse *)

Section Colours2.

Lemma ownProperty_Some key obj v :
  ownProperty key obj = Some v -> (key, v) ∈ obj.
Proof.
  induction obj as [|[k v'] obj IH]; [done|]. simpl.
  destruct (bool_decide (k = key)) eqn:E.
  - apply bool_decide_eq_true in E. intros [= ->]. subst. apply list_elem_of_here.
  - intros H. apply list_elem_of_further. by apply IH.
Qed.

Lemma presets_hex k v : (k, v) ∈ COLOR_PRESETS -> isHexColor v = true.
Proof.
  intros Hin.
  assert (Hall : Forall (fun kv => isHexColor kv.2 = true) COLOR_PRESETS).
  { repeat constructor. }
  rewrite Forall_forall in Hall. exact (Hall _ Hin).
Qed.

Lemma resolveColor_value o v : resolveColor o = Some v -> hexOrInherited v.
Proof.
  unfold resolveColor. destruct o as [s|]; [|done].
  destruct (negb (Js.truthy s)); [done|].
  destruct (isHexColor (Js.trim s)) eqn:Ehex.
  - by intros [= <-].
  - unfold getProperty.
    destruct (ownProperty (Js.toLowerCase (Js.trim s)) COLOR_PRESETS) as [v'|] eqn:Eown.
    + intros [= <-]. simpl. eapply presets_hex. by apply ownProperty_Some in Eown.
    + destruct (bool_decide (Js.toLowerCase (Js.trim s) ∈ objectPrototype)) eqn:Eproto; [|done].
      intros [= <-]. simpl. by apply bool_decide_eq_true in Eproto.
Qed.

Lemma makeNode_color idx raw n v :
  makeNode idx raw = Ok n -> RawNode.color n = Some v -> hexOrInherited v.
Proof.
  intros Hn Hv. destruct (makeNode_eq idx raw) as (refs & _ & Heq).
  rewrite Heq in Hn. injection Hn as <-. simpl in Hv. by apply resolveColor_value in Hv.
Qed.

Lemma ancestry_objects h r path :
  ancestry h r path -> forall m, m ∈ path -> exists q, h !! q = Some m.
Proof.
  induction 1 as [n Hn|q nq path c nc _ IH Hc Hnc]; intros m Hm.
  - apply list_elem_of_singleton in Hm as ->. eauto.
  - apply elem_of_cons in Hm as [->|Hm]; [eauto|]. by apply IH.
Qed.

Lemma nearestColor_Some path v :
  nearestColor path = Some v -> exists m, m ∈ path /\ RawNode.color m = Some v.
Proof.
  induction path as [|n path IH]; [done|]. simpl.
  destruct (RawNode.color n) as [c|] eqn:Ec.
  - intros [= <-]. exists n. split; [apply list_elem_of_here|done].
  - intros H. destruct (IH H) as (m & Hm & Hc). exists m.
    split; [by apply list_elem_of_further|done].
Qed.

End Colours2.

(** X17: the colours of a parse are values the view can draw with, the slip
    of the preset lookup apart: the declared colour and the effective colour
    of every node, when it is a string, is a hex literal, a hash sign
    followed by 3, 6 or 8 hex digits; the presets are such literals.  A
    value that is not a string is a member inherited from
    [Object.prototype].  The effective colour of a node is the declared
    colour of the node or of one of the nodes of the parse. *)
Theorem colors_are_hex (input : jsstring) :
  (exists p,
     parseText input = Ok p /\
     forall r n, objects p !! r = Some n ->
       (forall v, RawNode.color n = Some v -> hexOrInherited v) /\
       (forall v, RawNode.effectiveColor n = Some v ->
          hexOrInherited v /\
          exists q m, objects p !! q = Some m /\ RawNode.color m = Some v)) /\
  (forall s, isHexColor s = true ->
     exists digits, s = HASH :: digits /\ Forall (fun c => isHexDigit c = true) digits /\
                    (length digits = 3 \/ length digits = 6 \/ length digits = 8)) /\
  Forall (fun kv => isHexColor kv.2 = true) COLOR_PRESETS.
Proof.
  split_and!.
  - destruct (parseText_facts input)
      as (st & p & Hst & Hinv & Hp & Hroot & _ & Hshape & Heff0 & Heff).
    exists p. split; [done|].
    destruct (parsed_objects input p Hp) as [Hrootn Hnodes].
    assert (Hcolor : forall r n v, objects p !! r = Some n -> RawNode.color n = Some v ->
              hexOrInherited v).
    { intros r n v Hn Hv. destruct (decide (r = ROOT)) as [->|Hr].
      - apply Hrootn in Hn. apply (f_equal RawNode.color) in Hn. simpl in Hn. congruence.
      - destruct (Hnodes r n Hn Hr) as (idx & raw & _ & _ & Hmk).
        by apply (makeNode_color idx raw (created n) v Hmk). }
    intros r n Hn. split; [intros v; by apply (Hcolor r)|].
    intros v Hv.
    destruct (ancestry_exists _ _ _ Hinv Hshape r n Hn) as (path & Hpath).
    destruct (ancestry_color _ Heff0 Heff r _ Hpath) as (n' & Hhead & Hn' & Hnear).
    assert (n' = n) as -> by congruence.
    rewrite Hv in Hnear. symmetry in Hnear.
    destruct (nearestColor_Some _ _ Hnear) as (m & Hm & Hc).
    destruct (ancestry_objects _ _ _ Hpath m Hm) as (q & Hq).
    split; [by apply (Hcolor q m)|eauto].
  - intros s Hs. unfold isHexColor in Hs. destruct s as [|c digits]; [done|].
    apply andb_true_iff in Hs as [Hs Hlen]. apply andb_true_iff in Hs as [Hc Hdigits].
    apply Ascii.eqb_eq in Hc as ->. exists digits. split_and!; [done| |].
    + apply Forall_forall. intros c Hc. rewrite forallb_forall in Hdigits.
      apply Hdigits. by apply list_elem_of_In.
    + apply orb_true_iff in Hlen as [Hlen|Hlen]; [apply orb_true_iff in Hlen as [Hlen|Hlen]|];
        apply Nat.eqb_eq in Hlen; auto.
  - repeat constructor.
Qed.

(** ** Identities of a parse *)

(** X18: the identities of a parse tell its nodes apart.  The root is "root",
    the node of the line [idx] is "n_" followed by [idx] in decimal, so no
    two objects share an identity; the position map built by the walk over
    the hierarchy therefore has one entry per object, and looking up the
    identity of a node gives that node and no other. *)
Theorem node_identities (input : jsstring) :
  exists p vs,
    parseText input = Ok p /\ each p = Ok vs /\
    (forall n, objects p !! ROOT = Some n ->
       RawNode.id n = str "root" /\ RawNode.line n = (-1)%Z) /\
    (forall r n, objects p !! r = Some n -> r <> ROOT ->
       exists idx raw,
         lines input !! idx = Some raw /\ blank raw = false /\
         RawNode.line n = Z.of_nat idx /\
         RawNode.id n = str "n_" ++ str (pretty idx)) /\
    (forall r r' n n', objects p !! r = Some n -> objects p !! r' = Some n' ->
       RawNode.id n = RawNode.id n' -> r = r') /\
    (forall r r' n n', objects p !! r = Some n -> objects p !! r' = Some n' ->
       r < r' -> (RawNode.line n < RawNode.line n')%Z) /\
    (forall r n, objects p !! r = Some n ->
       nodePos (objects p) vs !! RawNode.id n = Some r) /\
    (forall i r, nodePos (objects p) vs !! i = Some r ->
       exists n, objects p !! r = Some n /\ RawNode.id n = i) /\
    size (nodePos (objects p) vs) = length (objects p).
Proof.
  destruct (parseText_heap input)
    as (p & Hp & Hroot & Htree & Hlen & Hreach & Hinj & Htruthy & Hlabels).
  destruct (each_total input) as (p' & vs & Hp' & Hvs & Hall & _).
  assert (p' = p) as -> by congruence.
  destruct (parsed_objects input p Hp) as [Hrootn Hnodes].
  destruct (parseText_facts input) as (st & p' & Hst & Hinv & Hp'' & _ & _ & Hshape & _).
  assert (p' = p) as -> by congruence.
  exists p, vs.
  assert (Hpos : forall i r, nodePos (objects p) vs !! i = Some r <->
            exists n, objects p !! r = Some n /\ RawNode.id n = i).
  { intros i r. rewrite (nodePos_lookup (objects p) Hinj Htruthy vs i r).
    rewrite Hall. split; [by intros [_ ?]|].
    intros (n & Hn & Hid). split; [by apply lookup_lt_Some in Hn|eauto]. }
  split_and!; [done|done| | |exact Hinj| | | |].
  - intros n Hn. apply Hrootn in Hn.
    split; [by apply (f_equal RawNode.id) in Hn|by apply (f_equal RawNode.line) in Hn].
  - intros r n Hn Hr. destruct (Hnodes r n Hn Hr) as (idx & raw & Hl & Hb & Hmk).
    exists idx, raw. split_and!; [done|done| |].
    + by apply makeNode_line in Hmk.
    + by apply makeNode_id in Hmk.
  - intros r r' n n' Hn Hn' Hlt.
    destruct (sameShape_created _ _ _ _ Hshape Hn) as (n0 & Hn0 & Hc & _).
    destruct (sameShape_created _ _ _ _ Hshape Hn') as (n0' & Hn0' & Hc' & _).
    pose proof (inv_line_mono _ _ Hinv r r' n0 n0' Hlt Hn0 Hn0') as Hmono.
    apply (f_equal RawNode.line) in Hc, Hc'. simpl in Hc, Hc'. lia.
  - intros r n Hn. apply Hpos. eauto.
  - intros i r Hi. by apply Hpos.
  - (* one entry per object *)
    assert (Hcard : forall k, k <= length (objects p) ->
              exists m : gmap jsstring ref,
                size m = k /\
                forall i r, m !! i = Some r <->
                  r < k /\ exists n, objects p !! r = Some n /\ RawNode.id n = i).
    { induction k as [|k IH]; intros Hk.
      - exists ∅. split; [done|]. intros i r. rewrite lookup_empty. split; [done|lia].
      - destruct (IH ltac:(lia)) as (m & Hsize & Hm).
        destruct (lookup_lt_is_Some_2 (objects p) k ltac:(lia)) as [nk Hnk].
        exists (<[RawNode.id nk := k]> m). split.
        + rewrite map_size_insert_None; [lia|].
          destruct (m !! RawNode.id nk) as [r|] eqn:E; [|done].
          apply Hm in E as (Hr & n & Hn & Hid).
          assert (r = k) by (by apply (Hinj r k n nk)). lia.
        + intros i r. destruct (decide (RawNode.id nk = i)) as [<-|Hne].
          * rewrite lookup_insert_eq. split.
            -- intros [= <-]. split; [lia|eauto].
            -- intros (_ & n & Hn & Hid). f_equal. by apply (Hinj k r nk n).
          * rewrite lookup_insert_ne by done. rewrite Hm. split.
            -- intros (Hr & Hn). split; [lia|done].
            -- intros (Hr & n & Hn & Hid). split; [|eauto].
               destruct (decide (r = k)) as [->|]; [|lia]. congruence. }
    destruct (Hcard (length (objects p)) ltac:(lia)) as (m & Hsize & Hm).
    assert (nodePos (objects p) vs = m) as ->; [|done].
    apply map_eq. intros i. apply option_eq. intros r. rewrite Hpos, Hm.
    split; [|by intros [_ ?]].
    intros (n & Hn & Hid). split; [by apply lookup_lt_Some in Hn|eauto].
Qed.

(** ** The tree in the order of the text *)

Section Preorder.

Lemma preorder_ext h h' fuel : forall r,
  (forall q, childrenOf h q = childrenOf h' q) ->
  preorder fuel h r = preorder fuel h' r.
Proof.
  induction fuel as [|fuel IH]; intros r Hch; [done|]. simpl.
  rewrite Hch. f_equal. apply Forall_bind_ext, Forall_forall. intros c _. by apply IH.
Qed.

Context (h : heap) (Htree : treeHeap h).

Lemma childrenOf_bound r c : c ∈ childrenOf h r -> r < c < length h.
Proof.
  intros Hc. apply elem_of_childrenOf in Hc as (n & Hn & Hc).
  by apply (tree_bound _ Htree _ _ _ Hn Hc).
Qed.

(** Enough fuel is as good as more. *)
Lemma preorder_fuel fuel : forall fuel' r,
  r < length h -> length h - r <= fuel -> length h - r <= fuel' ->
  preorder fuel h r = preorder fuel' h r.
Proof.
  induction fuel as [|fuel IH]; intros fuel' r Hr Hf Hf'; [lia|].
  destruct fuel' as [|fuel']; [lia|]. simpl. f_equal.
  apply Forall_bind_ext, Forall_forall. intros c Hc.
  apply childrenOf_bound in Hc. apply IH; lia.
Qed.

Lemma preorder_unfold r :
  r < length h ->
  preorder (length h) h r = r :: (childrenOf h r ≫= preorder (length h) h).
Proof.
  intros Hr. remember (length h) as m eqn:E. destruct m as [|m]; [lia|].
  change (preorder (S m) h r) with (r :: (childrenOf h r ≫= preorder m h)). f_equal.
  apply Forall_bind_ext, Forall_forall. intros c Hc.
  apply childrenOf_bound in Hc. apply preorder_fuel; lia.
Qed.

End Preorder.

Section Attach.

(** A node [n] without children is attached as the last child of [p]. *)
Context (h : heap) (n : RawNode.t) (p : ref) (pn : RawNode.t).
Context (Htree : treeHeap h) (Hp : h !! p = Some pn) (Hn : RawNode.children n = []).

Let N := length h.
Let h' := <[p := RawNode.pushChild N pn]> (h ++ [n]).

Context (Htree' : treeHeap h').

Lemma childrenOf_attached r :
  childrenOf h' r =
  if decide (r = p) then childrenOf h p ++ [N]
  else if decide (r = N) then [] else childrenOf h r.
Proof.
  unfold childrenOf, h', N. rewrite (lookup_attached h n p pn r Hp).
  destruct (decide (r = p)) as [->|_]; [by rewrite Hp|].
  destruct (decide (r = length h)) as [->|_]; [by simpl|done].
Qed.

Lemma length_attached : length h' = S N.
Proof. unfold h', N. rewrite length_insert, length_app. simpl. lia. Qed.

Lemma preorder_old c :
  c < N -> preorder N h c = c :: (childrenOf h c ≫= preorder N h).
Proof. apply (preorder_unfold h Htree c). Qed.

Lemma preorder_attached c :
  c < S N -> preorder (S N) h' c = c :: (childrenOf h' c ≫= preorder (S N) h').
Proof.
  intros Hc. pose proof (preorder_unfold h' Htree' c) as H.
  rewrite length_attached in H. by apply H.
Qed.

Lemma preorder_new : preorder (S N) h' N = [N].
Proof.
  simpl. rewrite childrenOf_attached.
  assert (N <> p) by (apply lookup_lt_Some in Hp; unfold N; lia).
  rewrite decide_False by done. by rewrite decide_True by done.
Qed.

(** The subtree of a node that is not above [p] stays as it is. *)
Lemma preorder_unchanged : forall k c,
  N - c <= k -> c < N -> ~ descendant h c p ->
  preorder (S N) h' c = preorder N h c.
Proof.
  induction k as [|k IH]; intros c Hk Hc Hnot; [lia|].
  rewrite preorder_attached by lia. rewrite preorder_old by done. f_equal.
  rewrite childrenOf_attached.
  rewrite decide_False by (intros ->; apply Hnot; constructor).
  rewrite decide_False by lia.
  apply Forall_bind_ext, Forall_forall. intros d Hd.
  pose proof (childrenOf_bound h Htree c d Hd) as Hbound. fold N in Hbound.
  apply IH; [lia|lia|].
  intros Hdp. apply Hnot. apply elem_of_childrenOf in Hd as (nc & Hnc & Hd).
  by econstructor.
Qed.

Lemma preorder_parent : preorder (S N) h' p = preorder N h p ++ [N].
Proof.
  pose proof (lookup_lt_Some _ _ _ Hp) as HpN. fold N in HpN.
  rewrite preorder_attached by lia. rewrite preorder_old by done.
  rewrite childrenOf_attached, decide_True by done.
  rewrite bind_app. cbn [mbind list_bind app]. rewrite app_nil_r, preorder_new.
  f_equal. f_equal.
  apply Forall_bind_ext, Forall_forall. intros d Hd.
  pose proof (childrenOf_bound h Htree p d Hd) as Hbound. fold N in Hbound.
  apply (preorder_unchanged (N - d)); [done|lia|].
  intros Hdp. apply (descendant_le h Htree) in Hdp. lia.
Qed.

(** Along the last children, from [p] down to the bottom of the stack. *)
Lemma preorder_chain s : forall top,
  lastChildChain h (top :: s) ->
  StronglySorted (fun a b => b < a) (top :: s) ->
  top <= p -> descendant h top p ->
  preorder (S N) h' top = preorder N h top ++ [N] ->
  forall b, last (top :: s) = Some b ->
  preorder (S N) h' b = preorder N h b ++ [N].
Proof.
  pose proof (lookup_lt_Some _ _ _ Hp) as HpN. fold N in HpN.
  induction s as [|b0 s IH]; intros top Hchain Hsorted Hle Hdesc Htop b Hlast.
  - simpl in Hlast. by injection Hlast as <-.
  - destruct Hchain as [Hlastchild Hchain].
    apply StronglySorted_inv in Hsorted as [Hsorted Hall].
    assert (Hb0 : b0 < top) by (by inversion Hall).
    apply (IH b0); [done|done|lia| | |done].
    + apply last_Some in Hlastchild as [init Hinit].
      destruct (h !! b0) as [nb|] eqn:Enb.
      * apply (desc_step h b0 nb top p); [done| |done].
        unfold childrenOf in Hinit. rewrite Enb in Hinit. simpl in Hinit.
        rewrite Hinit. apply elem_of_app. right. apply list_elem_of_here.
      * unfold childrenOf in Hinit. rewrite Enb in Hinit. simpl in Hinit.
        by destruct init.
    + apply last_Some in Hlastchild as [init Hinit].
      rewrite preorder_attached by lia. rewrite preorder_old by lia.
      rewrite childrenOf_attached.
      rewrite decide_False by lia. rewrite decide_False by lia.
      rewrite Hinit, !bind_app. cbn [mbind list_bind app]. rewrite !app_nil_r.
      rewrite Htop. cbn [app]. f_equal.
      rewrite app_assoc. f_equal. f_equal.
      apply Forall_bind_ext, Forall_forall. intros d Hd.
      assert (Hdin : d ∈ childrenOf h b0).
      { rewrite Hinit. apply elem_of_app. by left. }
      pose proof (childrenOf_bound h Htree b0 d Hdin) as Hbound. fold N in Hbound.
      apply (preorder_unchanged (N - d)); [done|lia|].
      intros Hdp.
      apply elem_of_childrenOf in Hdin as (nb & Hnb & Hdin).
      assert (Htopin : top ∈ RawNode.children nb).
      { unfold childrenOf in Hinit. rewrite Hnb in Hinit. simpl in Hinit.
        rewrite Hinit. apply elem_of_app. right. apply list_elem_of_here. }
      apply (descendant_siblings h Htree b0 nb d top p Hnb Hdin Htopin); [|done|done].
      intros ->.
      pose proof (tree_nodup _ Htree _ _ Hnb) as Hnodup.
      unfold childrenOf in Hinit. rewrite Hnb in Hinit. simpl in Hinit.
      rewrite Hinit in Hnodup. apply NoDup_app in Hnodup as (_ & Hdisj & _).
      apply (Hdisj top Hd). apply list_elem_of_here.
Qed.

Lemma lastChildChain_attached s :
  Forall (fun b => b < p) s -> lastChildChain h (p :: s) -> lastChildChain h' (p :: s).
Proof.
  pose proof (lookup_lt_Some _ _ _ Hp) as HpN. fold N in HpN.
  intros Hall. generalize p at 1 2 as top. revert Hall.
  induction s as [|b s IH]; intros Hall top Hchain; [done|].
  destruct Hchain as [Hlast Hchain]. inversion Hall as [|? ? Hb Hall']; subst.
  split; [|by apply IH].
  rewrite childrenOf_attached. rewrite decide_False by lia.
  by rewrite decide_False by lia.
Qed.

End Attach.

Section Order.

Lemma lastChildChain_suffix h popped s :
  lastChildChain h (popped ++ s) -> lastChildChain h s.
Proof.
  induction popped as [|a popped IH]; [done|]. intros H. apply IH.
  simpl in H. destruct (popped ++ s); [done|]. by destruct H.
Qed.

Lemma inTextOrder_initial : inTextOrder initialState.
Proof. by split. Qed.

Lemma step_inTextOrder ls st raw st' :
  invariant ls st -> inTextOrder st -> step st (length ls) raw = Ok st' -> inTextOrder st'.
Proof.
  intros Hinv [Hpre Hchain] Hstep.
  destruct (step_spec ls st raw Hinv) as [Hblank Hfull].
  destruct (blank raw) eqn:Eb.
  { rewrite (Hblank eq_refl) in Hstep. injection Hstep as <-. by split. }
  destruct (Hfull eq_refl) as (n & p & pn & popped & kept & Hn & Hstack & _ & Hp & _ & Hst').
  rewrite Hst' in Hstep. injection Hstep as <-. cbn [nodes stack].
  pose proof (step_invariant _ _ _ _ Hinv Hst') as Hinv'.
  pose proof (invariant_treeHeap _ _ Hinv) as Htree.
  pose proof (invariant_treeHeap _ _ Hinv') as Htree'. cbn [nodes] in Htree'.
  pose proof (makeNode_children _ _ _ Hn) as Hch.
  pose proof (inv_stack_sorted _ _ Hinv) as Hsorted. rewrite Hstack in Hsorted.
  apply sorted_app_inv in Hsorted as [Hsorted' _].
  pose proof (lastChildChain_suffix _ _ _ (eq_rect _ (lastChildChain (nodes st)) Hchain _ Hstack))
    as Hchain'.
  unfold inTextOrder. cbn [nodes stack]. split.
  - rewrite (length_attached (nodes st) n p pn).
    rewrite seq_S. cbn [Nat.add]. rewrite <- Hpre.
    apply (preorder_chain (nodes st) n p pn Htree Hp Hch Htree' kept p);
      [done|done|lia|constructor| |].
    + by apply preorder_parent.
    + pose proof (inv_stack_root _ _ Hinv) as Hroot. rewrite Hstack in Hroot.
      rewrite last_app in Hroot.
      destruct (last (p :: kept)) eqn:E; [done|]. by apply last_None in E.
  - split.
    + rewrite (childrenOf_attached (nodes st) n p pn Hp Hch), decide_True by done.
      by rewrite last_snoc.
    + apply (lastChildChain_attached (nodes st) n p pn Hp Hch); [|done].
      apply StronglySorted_inv in Hsorted' as [_ Hall]. exact Hall.
Qed.

(** The loop keeps a property that every turn keeps. *)
Lemma forEachLine_keeps (K : state -> Prop) :
  K initialState ->
  (forall ls st raw st',
     invariant ls st -> K st -> step st (length ls) raw = Ok st' -> K st') ->
  forall ls, exists st,
    forEachLine ls 0 initialState = Ok st /\ invariant ls st /\ K st.
Proof.
  intros Hinit Hstep ls. induction ls as [|raw ls IH] using rev_ind.
  - exists initialState. split_and!; [done|apply invariant_initial|done].
  - destruct IH as (st & Hrun & Hinv & HK).
    destruct (forEachLine_invariant [raw] ls st Hinv) as (st' & Hrun' & Hinv').
    exists st'. rewrite forEachLine_app, Hrun. cbn [mbind result_bind].
    split_and!; [done|done|].
    simpl in Hrun'. destruct (step st (length ls) raw) as [st1| |] eqn:E; [|done..].
    cbn [mbind result_bind] in Hrun'. injection Hrun' as <-.
    by apply (Hstep ls st raw st1).
Qed.

End Order.

(** X19: the tree keeps the order of the text.  Read depth first, a node
    before its children and the children in the order in which they stand
    in their parent, the tree that [parseText] returns lists its nodes in
    the order of their creation, that is the root first and then the nodes
    in the order of their lines; every node is met once. *)
Theorem tree_in_text_order (input : jsstring) :
  (exists p,
     parseText input = Ok p /\
     preorder (length (objects p)) (objects p) (rootRef p) = seq 0 (length (objects p)) /\
     (forall fuel, length (objects p) <= fuel ->
        preorder fuel (objects p) (rootRef p) = seq 0 (length (objects p))) /\
     (forall r r' n n', objects p !! r = Some n -> objects p !! r' = Some n' ->
        r < r' -> (RawNode.line n < RawNode.line n')%Z)) /\
  (forall fuel, preorder (S fuel) [root] ROOT = [ROOT]) /\
  match parseText (str "a" ++ [LF] ++ str "    b" ++ [LF] ++ str "  c" ++ [LF] ++ str "      d"
                     ++ [LF] ++ str " e") with
  | Ok p => RawNode.children <$> objects p = [[1; 5]; [2; 3]; []; [4]; []; []] /\
            preorder 6 (objects p) ROOT = [0; 1; 2; 3; 4; 5]
  | _ => False
  end.
Proof.
  split; [|split; [by intros []|by vm_compute]].
  destruct (parseText_facts input) as (st & p & Hst & Hinv & Hp & Hroot & _ & Hshape & _).
  destruct (forEachLine_keeps inTextOrder inTextOrder_initial step_inTextOrder (lines input))
    as (st' & Hst' & _ & [Hpre _]).
  assert (st' = st) as -> by congruence.
  assert (Hch : forall q, childrenOf (nodes st) q = childrenOf (objects p) q).
  { intros q. unfold childrenOf. destruct (nodes st !! q) as [nq|] eqn:E.
    - destruct (sameShape_lookup _ _ _ _ Hshape E) as (nq' & -> & Hs). simpl.
      symmetry. by apply shapeOf_children.
    - apply lookup_ge_None_1 in E. rewrite (sameShape_length _ _ Hshape) in E.
      by rewrite (lookup_ge_None_2 _ _ E). }
  pose proof (sameShape_length _ _ Hshape) as Hlen.
  pose proof (treeHeap_sameShape _ _ Hshape (invariant_treeHeap _ _ Hinv)) as Htree.
  assert (Hmain : preorder (length (objects p)) (objects p) (rootRef p)
                  = seq 0 (length (objects p))).
  { rewrite Hroot, <- Hlen, <- Hpre. symmetry. by apply preorder_ext. }
  assert (Hpos : 0 < length (objects p)).
  { rewrite <- Hlen. pose proof (inv_root _ _ Hinv) as Hr.
    destruct (nodes st); [done|simpl; lia]. }
  exists p. split_and!; [done|done| |].
  - intros fuel Hfuel. rewrite <- Hmain. rewrite Hroot.
    apply (preorder_fuel _ Htree); unfold ROOT; lia.
  - intros r r' n n' Hn Hn' Hlt.
    destruct (sameShape_created _ _ _ _ Hshape Hn) as (n0 & Hn0 & Hc & _).
    destruct (sameShape_created _ _ _ _ Hshape Hn') as (n0' & Hn0' & Hc' & _).
    pose proof (inv_line_mono _ _ Hinv r r' n0 n0' Hlt Hn0 Hn0') as Hmono.
    apply (f_equal RawNode.line) in Hc, Hc'. simpl in Hc, Hc'. lia.
Qed.

(** * Properties on an engine *)

Section Fuel.

Lemma foldl_applyColor_error fuel cur cs (r : result heap) :
  (forall h, r <> Ok h) ->
  foldl (fun acc c => h' ← acc; applyColor fuel c cur h') r cs = r.
Proof.
  intros Hr. induction cs as [|c cs IH]; [done|]. simpl.
  destruct r as [h| |]; [by destruct (Hr h)|exact IH|exact IH].
Qed.

(** A larger bound gives the same result. *)
Lemma applyColor_mono fuel : forall fuel' n inh h h',
  fuel <= fuel' -> applyColor fuel n inh h = Ok h' -> applyColor fuel' n inh h = Ok h'.
Proof.
  induction fuel as [|fuel IH]; intros fuel' n inh h h' Hle Hrun; [done|].
  destruct fuel' as [|fuel']; [lia|]. simpl in *.
  destruct (h !! n) as [nd|]; [|done].
  set (cur := match RawNode.color nd with Some c => Some c | None => inh end) in *.
  revert Hrun. generalize (<[n := RawNode.setEffectiveColor cur nd]> h).
  induction (RawNode.children nd) as [|c cs IHcs]; intros h1 Hrun; [done|].
  simpl in *. destruct (applyColor fuel c cur h1) as [h2| |] eqn:E.
  - rewrite (IH fuel' c cur h1 h2) by (done || lia). by apply IHcs.
  - rewrite foldl_applyColor_error in Hrun; done.
  - rewrite foldl_applyColor_error in Hrun; done.
Qed.

Context (h0 : heap) (Htree : treeHeap h0).

Lemma applyColor_shape fuel n inh h h' :
  sameShape h0 h -> n < length h0 -> applyColor fuel n inh h = Ok h' -> sameShape h0 h'.
Proof.
  intros Hshape Hn Hrun.
  apply (applyColor_mono fuel (fuel + length h0)) in Hrun; [|lia].
  destruct (applyColor_spec h0 Htree (fuel + length h0) n inh h Hshape Hn ltac:(lia))
    as (h'' & Hrun' & Hshape' & _).
  congruence.
Qed.

(** On a tree no call reads a node that is not there. *)
Lemma applyColor_no_TypeError fuel : forall n inh h,
  sameShape h0 h -> n < length h0 -> applyColor fuel n inh h <> TypeError.
Proof.
  induction fuel as [|fuel IH]; intros n inh h Hshape Hn; [done|].
  destruct (lookup_lt_is_Some_2 _ _ Hn) as [nd0 Hnd0].
  destruct (sameShape_lookup _ _ _ _ Hshape Hnd0) as (nd & Hnd & Hnd_shape).
  pose proof (shapeOf_children _ _ Hnd_shape) as Hkids.
  simpl. rewrite Hnd, Hkids.
  set (cur := match RawNode.color nd with Some c => Some c | None => inh end).
  assert (Hshape1 : sameShape h0 (<[n := RawNode.setEffectiveColor cur nd]> h))
    by (by apply sameShape_insert).
  revert Hshape1. generalize (<[n := RawNode.setEffectiveColor cur nd]> h).
  assert (Hsub : forall c, c ∈ RawNode.children nd0 -> c < length h0).
  { intros c Hc. pose proof (tree_bound _ Htree _ _ _ Hnd0 Hc). lia. }
  clear Hkids. revert Hsub. induction (RawNode.children nd0) as [|c cs IHcs]; intros Hsub h1 Hshape1; [done|].
  simpl. destruct (applyColor fuel c cur h1) as [h2| |] eqn:E.
  - refine (IHcs (fun c' Hc' => Hsub c' (list_elem_of_further _ _ _ Hc')) h2 _).
    apply (applyColor_shape fuel c cur h1); [done| |done]. apply Hsub, list_elem_of_here.
  - exfalso. apply (IH c cur h1); [done| |done]. apply Hsub, list_elem_of_here.
  - by rewrite foldl_applyColor_error.
Qed.

(** Where nodes lead down from a node as many levels as the bound counts,
    the calls run out. *)
Lemma applyColor_deep fuel : forall n inh h path h',
  sameShape h0 h -> n < length h0 ->
  leadsDown h0 n path -> fuel <= length path ->
  applyColor fuel n inh h <> Ok h'.
Proof.
  induction fuel as [|fuel IH]; intros n inh h path h' Hshape Hn Hpath Hlen; [done|].
  destruct path as [|c path]; [simpl in Hlen; lia|]. destruct Hpath as [Hc Hpath].
  simpl in Hlen.
  destruct (lookup_lt_is_Some_2 _ _ Hn) as [nd0 Hnd0].
  destruct (sameShape_lookup _ _ _ _ Hshape Hnd0) as (nd & Hnd & Hnd_shape).
  pose proof (shapeOf_children _ _ Hnd_shape) as Hkids.
  unfold childrenOf in Hc. rewrite Hnd0 in Hc. simpl in Hc.
  simpl. rewrite Hnd, Hkids. clear Hkids.
  set (cur := match RawNode.color nd with Some c => Some c | None => inh end).
  assert (Hshape1 : sameShape h0 (<[n := RawNode.setEffectiveColor cur nd]> h))
    by (by apply sameShape_insert).
  revert Hshape1. generalize (<[n := RawNode.setEffectiveColor cur nd]> h).
  assert (Hsub : forall c, c ∈ RawNode.children nd0 -> c < length h0).
  { intros c' Hc'. pose proof (tree_bound _ Htree _ _ _ Hnd0 Hc'). lia. }
  revert Hc Hsub. generalize (RawNode.children nd0). intros kids.
  induction kids as [|c0 cs IHcs]; intros Hc Hsub h1 Hshape1; [by apply elem_of_nil in Hc|].
  simpl. destruct (applyColor fuel c0 cur h1) as [h2| |] eqn:E.
  - apply elem_of_cons in Hc as [->|Hc].
    + exfalso. apply (IH c0 cur h1 path h2); [done| |done|lia|done].
      apply Hsub, list_elem_of_here.
    + refine (IHcs Hc (fun c' Hc' => Hsub c' (list_elem_of_further _ _ _ Hc')) h2 _).
      apply (applyColor_shape fuel c0 cur h1); [done| |done]. apply Hsub, list_elem_of_here.
  - by rewrite foldl_applyColor_error.
  - by rewrite foldl_applyColor_error.
Qed.

(** Where the calls run out, nodes lead down from the node as many levels
    as the bound counts. *)
Lemma applyColor_runs_out fuel : forall n inh h,
  sameShape h0 h -> n < length h0 -> applyColor fuel n inh h = OutOfFuel ->
  exists path, leadsDown h0 n path /\ length path = fuel.
Proof.
  induction fuel as [|fuel IH]; intros n inh h Hshape Hn Hrun; [by exists []|].
  destruct (lookup_lt_is_Some_2 _ _ Hn) as [nd0 Hnd0].
  destruct (sameShape_lookup _ _ _ _ Hshape Hnd0) as (nd & Hnd & Hnd_shape).
  pose proof (shapeOf_children _ _ Hnd_shape) as Hkids.
  simpl in Hrun. rewrite Hnd, Hkids in Hrun. clear Hkids.
  set (cur := match RawNode.color nd with Some c => Some c | None => inh end) in Hrun.
  assert (Hshape1 : sameShape h0 (<[n := RawNode.setEffectiveColor cur nd]> h))
    by (by apply sameShape_insert).
  revert Hrun Hshape1. generalize (<[n := RawNode.setEffectiveColor cur nd]> h).
  assert (Hsub : forall c, c ∈ RawNode.children nd0 -> c ∈ childrenOf h0 n /\ c < length h0).
  { intros c Hc. pose proof (tree_bound _ Htree _ _ _ Hnd0 Hc).
    unfold childrenOf. rewrite Hnd0. split; [done|lia]. }
  revert Hsub. generalize (RawNode.children nd0). intros kids.
  induction kids as [|c0 cs IHcs]; intros Hsub h1 Hrun Hshape1; [done|].
  destruct (Hsub c0 (list_elem_of_here _ _)) as [Hc0 Hc0b].
  simpl in Hrun. destruct (applyColor fuel c0 cur h1) as [h2| |] eqn:E.
  - refine (IHcs (fun c' Hc' => Hsub c' (list_elem_of_further _ _ _ Hc')) h2 Hrun _).
    by apply (applyColor_shape fuel c0 cur h1).
  - by rewrite foldl_applyColor_error in Hrun.
  - destruct (IH c0 cur h1 Hshape1 Hc0b E) as (path & Hpath & Hlen).
    exists (c0 :: path). split; [by split|]. simpl. by rewrite Hlen.
Qed.

(** The depth grows from a node to its children; then the call for a node
    needs no more nested calls than its subtree is deep. *)
Lemma applyColor_enough fuel : forall n inh h,
  (forall p np c, h0 !! p = Some np -> c ∈ RawNode.children np ->
                  (RawNode.depth np < depthOf h0 c)%Z) ->
  sameShape h0 h -> n < length h0 ->
  (forall r, descendant h0 n r -> (depthOf h0 r - depthOf h0 n < Z.of_nat fuel)%Z) ->
  exists h', applyColor fuel n inh h = Ok h'.
Proof.
  induction fuel as [|fuel IH]; intros n inh h Hdepth Hshape Hn Hdeep.
  { specialize (Hdeep n (desc_refl _ _)). lia. }
  destruct (lookup_lt_is_Some_2 _ _ Hn) as [nd0 Hnd0].
  destruct (sameShape_lookup _ _ _ _ Hshape Hnd0) as (nd & Hnd & Hnd_shape).
  pose proof (shapeOf_children _ _ Hnd_shape) as Hkids.
  simpl. rewrite Hnd, Hkids.
  set (cur := match RawNode.color nd with Some c => Some c | None => inh end).
  assert (Hshape1 : sameShape h0 (<[n := RawNode.setEffectiveColor cur nd]> h))
    by (by apply sameShape_insert).
  revert Hshape1. generalize (<[n := RawNode.setEffectiveColor cur nd]> h).
  assert (Hsub : forall c, c ∈ RawNode.children nd0 -> c ∈ RawNode.children nd0) by done.
  revert Hsub. generalize (RawNode.children nd0) at 1 3. intros kids.
  induction kids as [|c cs IHcs]; intros Hsub h1 Hshape1; [by exists h1|].
  assert (Hc : c ∈ RawNode.children nd0) by apply Hsub, list_elem_of_here.
  pose proof (tree_bound _ Htree _ _ _ Hnd0 Hc) as Hcb.
  pose proof (Hdepth _ _ _ Hnd0 Hc) as Hcd.
  destruct (IH c cur h1 Hdepth Hshape1 ltac:(lia)) as [h2 Hrun].
  { intros r Hr. assert (Hnr : descendant h0 n r) by (by econstructor).
    specialize (Hdeep r Hnr). unfold depthOf at 2 in Hdeep. rewrite Hnd0 in Hdeep.
    simpl in Hdeep. lia. }
  simpl. rewrite Hrun.
  refine (IHcs (fun c' Hc' => Hsub c' (list_elem_of_further _ _ _ Hc')) h2 _).
  apply (applyColor_shape fuel c cur h1); [done|lia|done].
Qed.

End Fuel.

(** Along a chain of only children the calls are nested as deep as the
    chain is long. *)
Lemma applyColor_chain fuel : forall i inh h,
  (forall j, i <= j < i + fuel -> childrenOf h j = [S j]) ->
  applyColor fuel i inh h = OutOfFuel.
Proof.
  induction fuel as [|fuel IH]; intros i inh h Hchain; [done|].
  pose proof (Hchain i ltac:(lia)) as Hi. unfold childrenOf in Hi.
  simpl. destruct (h !! i) as [ni|] eqn:Eni; [|done]. simpl in Hi. rewrite Hi. simpl.
  apply IH. intros j Hj. unfold childrenOf.
  rewrite list_lookup_insert_ne by lia. apply Hchain. lia.
Qed.

Section OnEngine.

Context (e : engine).

Lemma stepOn_within st idx raw :
  (blank raw = false -> length (declaredTags raw) <= maxArguments e) ->
  stepOn e st idx raw = Within (step st idx raw).
Proof.
  intros Hfit. unfold stepOn, step. unfold blank in Hfit.
  destruct (negb (Js.truthy (Js.trim raw))); [done|].
  by rewrite (proj2 (Nat.ltb_ge _ _) (Hfit eq_refl)).
Qed.

Lemma stepOn_exceeds st idx raw :
  blank raw = false -> maxArguments e < length (declaredTags raw) ->
  stepOn e st idx raw = RangeError.
Proof.
  intros Hb Hlt. unfold stepOn. unfold blank in Hb. rewrite Hb.
  by rewrite (proj2 (Nat.ltb_lt _ _) Hlt).
Qed.

(** Where no line declares more tags than a call takes arguments, the loop
    does what it does without the limit. *)
Lemma forEachLineOn_within ls : forall idx st,
  Forall (fun raw => blank raw = false -> length (declaredTags raw) <= maxArguments e) ls ->
  forEachLineOn e ls idx st = Within (forEachLine ls idx st).
Proof.
  induction ls as [|raw ls IH]; intros idx st Hfit; [done|].
  apply Forall_cons in Hfit as [Hraw Hfit]. simpl.
  rewrite (stepOn_within st idx raw Hraw).
  destruct (step st idx raw) as [st1| |]; [|done..].
  cbn [mbind limited_bind result_bind]. by apply IH.
Qed.

(** Where a line declares more, the loop throws. *)
Lemma forEachLineOn_exceeds ls : forall done st,
  invariant done st ->
  Exists (fun raw => blank raw = false /\ maxArguments e < length (declaredTags raw)) ls ->
  forEachLineOn e ls (length done) st = RangeError.
Proof.
  induction ls as [|raw ls IH]; intros done st Hinv Hex; [by apply Exists_nil in Hex|].
  simpl.
  destruct (decide (blank raw = false /\ maxArguments e < length (declaredTags raw)))
    as [[Hb Hlt]|Hno].
  { by rewrite (stepOn_exceeds st _ raw Hb Hlt). }
  rewrite stepOn_within by (intros Hb; destruct (decide
    (length (declaredTags raw) <= maxArguments e)); [done|exfalso; apply Hno; split; [done|lia]]).
  destruct (forEachLine_invariant [raw] done st Hinv) as (st1 & Hrun & Hinv1).
  simpl in Hrun. destruct (step st (length done) raw) as [st2| |]; [|done..].
  cbn [mbind result_bind] in Hrun. injection Hrun as ->.
  cbn [mbind limited_bind].
  replace (S (length done)) with (length (done ++ [raw])) by (rewrite length_app; simpl; lia).
  apply IH; [done|]. apply Exists_cons in Hex as [Hex|Hex]; [by destruct Hno|done].
Qed.

(** The engine changes nothing but the [RangeError]. *)
Lemma parseTextOn_cases input :
  parseTextOn e input = RangeError \/ parseTextOn e input = Within (parseText input).
Proof.
  unfold parseTextOn, parseText.
  destruct (forEachLine_total (lines input)) as (st & Hrun & Hinv).
  destruct (decide (Exists (fun raw => blank raw = false /\
                                       maxArguments e < length (declaredTags raw))
                      (lines input))) as [Hex|Hno].
  { left. pose proof (forEachLineOn_exceeds (lines input) [] initialState
                        invariant_initial Hex) as Hthrow.
    simpl in Hthrow. by rewrite Hthrow. }
  rewrite forEachLineOn_within, Hrun.
  2:{ apply Forall_forall. intros raw Hin Hb.
      destruct (decide (length (declaredTags raw) <= maxArguments e)); [done|].
      exfalso. apply Hno, Exists_exists. exists raw. split; [done|]. split; [done|lia]. }
  cbn [mbind limited_bind result_bind]. unfold applyColorOn.
  pose proof (invariant_treeHeap _ _ Hinv) as Htree.
  assert (Hlen : 0 < length (nodes st)).
  { pose proof (inv_root _ _ Hinv) as H0.
    destruct (nodes st !! ROOT) eqn:E; [|done]. by apply lookup_lt_Some in E. }
  destruct (applyColor (maxCalls e) ROOT None (nodes st)) as [h| |] eqn:E.
  - right. cbn [mbind limited_bind].
    destruct (applyColor_spec (nodes st) Htree (length (nodes st)) ROOT None (nodes st)
                (sameShape_refl _) Hlen ltac:(lia)) as (h' & Hrun' & _).
    apply (applyColor_mono _ (maxCalls e + length (nodes st))) in E; [|lia].
    apply (applyColor_mono _ (maxCalls e + length (nodes st))) in Hrun' as Hrun''; [|lia].
    assert (h = h') as -> by congruence. rewrite Hrun'. done.
  - exfalso. by apply (applyColor_no_TypeError (nodes st) Htree (maxCalls e) ROOT None
                         (nodes st) (sameShape_refl _) Hlen).
  - by left.
Qed.

Lemma leadsDown_sameShape h h' : sameShape h h' ->
  forall path n, leadsDown h n path <-> leadsDown h' n path.
Proof.
  intros Hshape.
  assert (Hch : forall q, childrenOf h q = childrenOf h' q).
  { intros q. unfold childrenOf. destruct (h !! q) as [nq|] eqn:E.
    - destruct (sameShape_lookup _ _ _ _ Hshape E) as (nq' & -> & Hs). simpl.
      symmetry. by apply shapeOf_children.
    - apply lookup_ge_None_1 in E. rewrite (sameShape_length _ _ Hshape) in E.
      by rewrite (lookup_ge_None_2 _ _ E). }
  induction path as [|c path IH]; intros n; [done|]. simpl. by rewrite Hch, IH.
Qed.

(** [parseText] throws on the engine exactly where a line declares more tags
    than a call takes arguments, or nodes lead down from the root as many
    levels as the engine has room for nested calls. *)
Lemma parseTextOn_throws input p :
  parseText input = Ok p ->
  parseTextOn e input = RangeError <->
  Exists (fun raw => blank raw = false /\ maxArguments e < length (declaredTags raw))
    (lines input) \/
  exists path, leadsDown (objects p) ROOT path /\ maxCalls e <= length path.
Proof.
  intros Hp.
  destruct (parseText_facts input) as (st & p' & Hrun & Hinv & Hp' & _ & _ & Hshape & _).
  assert (p' = p) as -> by congruence.
  pose proof (invariant_treeHeap _ _ Hinv) as Htree.
  assert (Hlen : 0 < length (nodes st)).
  { pose proof (inv_root _ _ Hinv) as H0.
    destruct (nodes st !! ROOT) eqn:E; [|done]. by apply lookup_lt_Some in E. }
  destruct (decide (Exists (fun raw => blank raw = false /\
                                       maxArguments e < length (declaredTags raw))
                      (lines input))) as [Hex|Hno].
  { split; [by left|]. intros _. unfold parseTextOn.
    pose proof (forEachLineOn_exceeds (lines input) [] initialState
                  invariant_initial Hex) as Hthrow.
    simpl in Hthrow. by rewrite Hthrow. }
  unfold parseTextOn. rewrite forEachLineOn_within, Hrun.
  2:{ apply Forall_forall. intros raw Hin Hb.
      destruct (decide (length (declaredTags raw) <= maxArguments e)); [done|].
      exfalso. apply Hno, Exists_exists. exists raw. split; [done|]. split; [done|lia]. }
  cbn [mbind limited_bind]. unfold applyColorOn.
  destruct (applyColor (maxCalls e) ROOT None (nodes st)) as [h| |] eqn:E.
  - split; [done|]. intros [Hex|(path & Hpath & Hdeep)]; [done|]. exfalso.
    apply (leadsDown_sameShape _ _ Hshape) in Hpath.
    by apply (applyColor_deep (nodes st) Htree (maxCalls e) ROOT None (nodes st) path h
                (sameShape_refl _) Hlen Hpath Hdeep).
  - exfalso. by apply (applyColor_no_TypeError (nodes st) Htree (maxCalls e) ROOT None
                         (nodes st) (sameShape_refl _) Hlen).
  - split; [|done]. intros _. right.
    destruct (applyColor_runs_out (nodes st) Htree (maxCalls e) ROOT None (nodes st)
                (sameShape_refl _) Hlen E) as (path & Hpath & Hdeep).
    exists path. split; [by apply (leadsDown_sameShape _ _ Hshape)|lia].
Qed.

(** Within the limits [parseText] does on the engine what it does without
    them: no line declares more tags than a call takes arguments, and no
    line is indented deeper than the nested calls reach. *)
Lemma parseTextOn_within input :
  Forall (fun raw => blank raw = false ->
                     length (declaredTags raw) <= maxArguments e /\
                     (getDepth raw).1 + 1 < maxCalls e) (lines input) ->
  0 < maxCalls e ->
  parseTextOn e input = Within (parseText input).
Proof.
  intros Hfit Hpos.
  destruct (parseTextOn_cases input) as [Hthrow|Hsame]; [exfalso|done].
  unfold parseTextOn in Hthrow.
  destruct (forEachLine_total (lines input)) as (st & Hrun & Hinv).
  rewrite forEachLineOn_within, Hrun in Hthrow.
  2:{ eapply Forall_impl; [exact Hfit|]. intros raw H Hb. by apply H. }
  cbn [mbind limited_bind result_bind] in Hthrow. unfold applyColorOn in Hthrow.
  pose proof (invariant_treeHeap _ _ Hinv) as Htree.
  assert (Hlen : 0 < length (nodes st)).
  { pose proof (inv_root _ _ Hinv) as H0.
    destruct (nodes st !! ROOT) eqn:E; [|done]. by apply lookup_lt_Some in E. }
  destruct (applyColor_enough (nodes st) Htree (maxCalls e) ROOT None (nodes st))
    as [h Hh]; [..|by rewrite Hh in Hthrow]; [|done|done|].
  - intros p np c Hp Hc. by apply (inv_children_depth _ _ Hinv p np c).
  - intros r Hr.
    assert (Hroot : depthOf (nodes st) ROOT = (-1)%Z).
    { unfold depthOf. destruct (nodes st !! ROOT) as [n0|] eqn:E0.
      - pose proof (depth_nonneg _ _ _ _ Hinv E0) as H. by rewrite decide_True in H.
      - apply lookup_ge_None_1 in E0. unfold ROOT in E0. lia. }
    rewrite Hroot. destruct (decide (r = ROOT)) as [->|Hne]; [rewrite Hroot; lia|].
    assert (Hlt : r < length (nodes st)).
    { destruct (descendant_inv_r _ _ _ Hr) as [->|(q & nq & _ & Hq & Hc)]; [done|].
      pose proof (tree_bound _ Htree _ _ _ Hq Hc). lia. }
    destruct (lookup_lt_is_Some_2 _ _ Hlt) as [n En].
    unfold depthOf. rewrite En. simpl.
    destruct (inv_line _ _ Hinv r n Hne En) as (idx & raw & Hraw & Hb & Hmk).
    apply makeNode_depth in Hmk. simpl in Hmk. rewrite Hmk.
    rewrite Forall_forall in Hfit.
    destruct (Hfit raw (list_elem_of_lookup_2 _ _ _ Hraw) Hb) as [_ Hd]. lia.
Qed.

End OnEngine.

Section DeepOutline.

Lemma trim_deepLine k : Js.trim (deepLine k) = str "a".
Proof. induction k as [|k IH]; [done|]. exact IH. Qed.

Lemma deepLine_facts k :
  blank (deepLine k) = false /\ getDepth (deepLine k) = (k, str "a") /\
  declaredTags (deepLine k) = [] /\ (LF ∉ deepLine k) /\ (CR ∉ deepLine k).
Proof.
  assert (Hd : getDepth (deepLine k) = (k, str "a")).
  { unfold deepLine. rewrite getDepth_tabs. simpl. by rewrite Nat.add_0_r. }
  split_and!; [|done| | |].
  - unfold blank. by rewrite trim_deepLine.
  - unfold declaredTags, afterJp, afterPos, afterLabel, afterColor. by rewrite Hd.
  - unfold deepLine. intros [H|H]%elem_of_app.
    + by apply elem_of_replicate in H as [? _].
    + vm_compute in H. apply elem_of_cons in H as [H|H]; [done|by apply elem_of_nil in H].
  - unfold deepLine. intros [H|H]%elem_of_app.
    + by apply elem_of_replicate in H as [? _].
    + vm_compute in H. apply elem_of_cons in H as [H|H]; [done|by apply elem_of_nil in H].
Qed.

Lemma join_no_CR ls : Forall (fun l => CR ∉ l) ls -> CR ∉ JsStr.join [LF] ls.
Proof.
  induction ls as [|p [|q rest] IH]; intros Hall.
  - apply not_elem_of_nil.
  - by apply Forall_cons in Hall as [Hp _].
  - apply Forall_cons in Hall as [Hp Hall]. rewrite join_cons.
    intros [H|H]%elem_of_app; [done|].
    apply elem_of_cons in H as [H|H]; [done|]. by apply IH.
Qed.

Lemma lines_deepOutline n : lines (deepOutline (S n)) = deepLine <$> seq 0 (S n).
Proof.
  unfold lines, deepOutline. rewrite normalizeNewlines_plain.
  - apply splitOn_join; [done|].
    apply Forall_fmap, Forall_forall. intros k _. apply deepLine_facts.
  - apply join_no_CR, Forall_fmap, Forall_forall. intros k _. apply deepLine_facts.
Qed.

Lemma rev_seq_S m : rev (seq 0 (S m)) = m :: rev (seq 0 m).
Proof. by rewrite seq_S, rev_app_distr. Qed.

Lemma chainState_initial : chainState 0 initialState.
Proof.
  split; [apply invariant_initial|done|done| |lia|done].
  intros i Hi. by replace i with 0 by lia.
Qed.

Lemma chainState_step k st :
  chainState k st ->
  exists st', step st k (deepLine k) = Ok st' /\ chainState (S k) st'.
Proof.
  intros [Hinv Hlen Hstack Hdepth Hchildren Hlast].
  destruct (deepLine_facts k) as (Hb & Hd & _).
  destruct (step_spec _ st (deepLine k) Hinv) as [_ Hfull].
  destruct (Hfull Hb) as (n & p & pn & popped & kept & Hn & Hst & Hpopped & Hp & _ & Hstep).
  rewrite length_fmap, length_seq in Hn, Hstep.
  pose proof (makeNode_depth _ _ _ Hn) as Hdn. rewrite Hd in Hdn. simpl in Hdn.
  pose proof (makeNode_children _ _ _ Hn) as Hcn.
  rewrite Hstack, rev_seq_S in Hst.
  destruct popped as [|a popped].
  2:{ exfalso. injection Hst as <- _. apply Forall_cons in Hpopped as [Ha _].
      rewrite Hdepth in Ha by done. lia. }
  injection Hst as <- <-.
  eexists. split; [exact Hstep|].
  assert (Hinv' := fun st' => step_invariant _ st (deepLine k) st' Hinv).
  rewrite length_fmap, length_seq in Hinv'. specialize (Hinv' _ Hstep).
  assert (Hlook : forall r,
    (<[k := RawNode.pushChild (length (nodes st)) pn]> (nodes st ++ [n])) !! r =
    if decide (r = k) then Some (RawNode.pushChild (length (nodes st)) pn)
    else if decide (r = length (nodes st)) then Some n else nodes st !! r).
  { intros r. by apply lookup_attached. }
  split; cbn [nodes stack].
  - by rewrite seq_S, fmap_app.
  - rewrite length_insert, length_app, Hlen. simpl. lia.
  - rewrite Hlen. by rewrite (rev_seq_S (S k)), rev_seq_S.
  - intros i Hi. unfold depthOf. rewrite Hlook, Hlen.
    destruct (decide (i = k)) as [->|Hne].
    + simpl. specialize (Hdepth k ltac:(lia)). unfold depthOf in Hdepth.
      by rewrite Hp in Hdepth.
    + destruct (decide (i = S k)) as [->|Hne']; [simpl; lia|].
      apply (Hdepth i). lia.
  - intros i Hi. unfold childrenOf. rewrite Hlook, Hlen.
    destruct (decide (i = k)) as [->|Hne].
    + simpl. unfold childrenOf in Hlast. rewrite Hp in Hlast. simpl in Hlast.
      by rewrite Hlast.
    + destruct (decide (i = S k)) as [->|Hne']; [lia|]. apply (Hchildren i). lia.
  - unfold childrenOf. rewrite Hlook, Hlen.
    rewrite decide_False by lia. by rewrite decide_True.
Qed.

Lemma chainState_run n :
  exists st, forEachLine (deepLine <$> seq 0 n) 0 initialState = Ok st /\ chainState n st.
Proof.
  induction n as [|n (st & Hrun & Hchain)].
  - exists initialState. split; [done|apply chainState_initial].
  - destruct (chainState_step n st Hchain) as (st' & Hstep & Hchain').
    exists st'. split; [|done].
    rewrite seq_S, fmap_app, forEachLine_app, Hrun. cbn [mbind result_bind].
    rewrite length_fmap, length_seq. simpl. by rewrite Hstep.
Qed.

(** The outline with as many levels as the engine has room for nested calls
    needs one call more, that of the root. *)
Lemma deepOutline_throws e n :
  maxCalls e <= n -> parseTextOn e (deepOutline n) = RangeError.
Proof.
  intros Hle. unfold parseTextOn. destruct n as [|m].
  { assert (Em : maxCalls e = 0) by lia.
    unfold deepOutline, applyColorOn. simpl. by rewrite Em. }
  rewrite lines_deepOutline.
  destruct (chainState_run (S m)) as (st & Hrun & Hchain).
  rewrite forEachLineOn_within, Hrun.
  2:{ apply Forall_fmap, Forall_forall. intros k _ _. simpl.
      destruct (deepLine_facts k) as (_ & _ & -> & _). simpl. lia. }
  cbn [mbind limited_bind]. unfold applyColorOn.
  rewrite (applyColor_chain (maxCalls e) ROOT None (nodes st)); [done|].
  intros j Hj. apply (chain_children _ _ Hchain). unfold ROOT in Hj. lia.
Qed.

End DeepOutline.

Section ManyTags.

Lemma manyTags_eq n :
  manyTags n = str "x " ++ BACKSLASH :: (str "tags{" ++ tagList n ++ [RBRACE]).
Proof. done. Qed.

Lemma tagList_chars n c : c ∈ tagList n -> c = "a"%char \/ c = COMMA.
Proof.
  unfold tagList. induction n as [|n IH]; simpl; [by intros ?%elem_of_nil|].
  intros [->|[->|H]%elem_of_cons]%elem_of_cons; [by left|by right|by apply IH].
Qed.

Lemma manyTags_chars n c :
  c ∈ str "tags{" ++ tagList n ++ [RBRACE] ->
  c <> BACKSLASH /\ c <> LF /\ c <> CR /\ Js.isWhiteSpace c = false.
Proof.
  intros [H|[H|H]%elem_of_app]%elem_of_app.
  - vm_compute in H.
    repeat (apply elem_of_cons in H as [->|H]; [done|]). by apply elem_of_nil in H.
  - by apply tagList_chars in H as [-> | ->].
  - apply elem_of_cons in H as [->|H]; [done|by apply elem_of_nil in H].
Qed.

Lemma splitTags_tagList n :
  Js.splitTags (tagList n) = replicate n (str "a") ++ [[]].
Proof.
  induction n as [|n IH]; [done|].
  change (tagList (S n)) with ("a"%char :: COMMA :: tagList n).
  assert (Hsep : Js.splitTags (COMMA :: tagList n) = [] :: Js.splitTags (tagList n)).
  { destruct n as [|n]; [done|]. done. }
  change (Js.splitTags ("a"%char :: COMMA :: tagList n))
    with (match Js.splitTags (COMMA :: tagList n) with
          | piece :: rest => ("a"%char :: piece) :: rest
          | [] => [["a"%char]]
          end).
  by rewrite Hsep, IH.
Qed.

Lemma manyTags_facts n :
  blank (manyTags n) = false /\ length (declaredTags (manyTags n)) = n /\
  lines (manyTags n) = [manyTags n].
Proof.
  assert (Hplain : plain (str "tags{" ++ tagList n ++ [RBRACE])).
  { intros H. by apply manyTags_chars in H as [? _]. }
  assert (Htrim : Js.trim (manyTags n) = manyTags n).
  { apply trim_fixed. split.
    - intros c [= <-]. done.
    - unfold manyTags. rewrite app_assoc, last_snoc. by intros c [= <-]. }
  assert (Hdepth : getDepth (manyTags n) = (0, manyTags n)) by done.
  assert (Hother : forall re, re ∈ [colorRegex; labelRegex; posRegex; jpRegex] ->
            extract re (manyTags n) = (None, manyTags n)).
  { intros re Hre. unfold extract, Re.search.
    rewrite (proj2 (searchFrom_None re 0 (manyTags n))); [done|].
    rewrite manyTags_eq. apply sole_backslash; [|done|].
    - intros H. vm_compute in H.
      repeat (apply elem_of_cons in H as [H|H]; [done|]). by apply elem_of_nil in H.
    - repeat (apply elem_of_cons in Hre as [->|Hre]); [..|by apply elem_of_nil in Hre];
        by eapply other_keyword. }
  assert (Hjp : afterJp (manyTags n) = manyTags n).
  { unfold afterJp, afterPos, afterLabel, afterColor. rewrite Hdepth. cbn [snd].
    rewrite Htrim. by rewrite !Hother by in_list. }
  split_and!.
  - unfold blank. rewrite Htrim. done.
  - unfold declaredTags. rewrite Hjp. destruct n as [|n]; [by vm_compute|].
    assert (Hfound : Re.search tagsRegex (manyTags (S n))
              = Some (Re.mkMatch 2 (BACKSLASH :: str "tags{" ++ tagList (S n) ++ [RBRACE])
                        (tagList (S n)))).
    { unfold Re.search.
      replace (manyTags (S n))
        with (str "x " ++ (BACKSLASH :: str "tags{" ++ tagList (S n) ++ [RBRACE]) ++ [])
        by (by rewrite app_nil_r).
      apply (searchFrom_found tagsRegex 0 (str "x ")).
      - intros [|[|k]] Hk; [done|done|]. simpl in Hk. lia.
      - apply matchHere_complete; [apply keywordStartsPlain_all; in_list|].
        exists [BACKSLASH], (str "tags"). split_and!; [by left| |done| |done].
        + by repeat constructor.
        + intros H. by apply tagList_chars in H as [?|?]. }
    unfold extract. rewrite Hfound. cbn [fst from_option]. unfold tagsOf. cbn [Re.group1].
    rewrite splitTags_tagList, map_app, filter_app, length_app.
    assert (Hall : forall k,
      length (filter (fun t => Js.truthy t)
                (map (fun t => Js.toLowerCase (Js.trim t)) (replicate k (str "a")))) = k).
    { clear. induction k as [|k IH]; [done|].
      change (replicate (S k) (str "a")) with (str "a" :: replicate k (str "a")).
      rewrite map_cons, filter_cons_True by done. cbn [length]. by rewrite IH. }
    rewrite Hall. simpl. lia.
  - unfold lines. rewrite normalizeNewlines_plain.
    + apply splitOn_plain. rewrite manyTags_eq. intros [H|H]%elem_of_app.
      * vm_compute in H.
        repeat (apply elem_of_cons in H as [H|H]; [done|]). by apply elem_of_nil in H.
      * apply elem_of_cons in H as [H|H]; [done|]. by apply manyTags_chars in H as (_ & ? & _).
    + rewrite manyTags_eq. intros [H|H]%elem_of_app.
      * vm_compute in H.
        repeat (apply elem_of_cons in H as [H|H]; [done|]). by apply elem_of_nil in H.
      * apply elem_of_cons in H as [H|H]; [done|]. by apply manyTags_chars in H as (_ & _ & ? & _).
Qed.

(** More tags than a call takes arguments. *)
Lemma manyTags_throws e n :
  maxArguments e < n -> parseTextOn e (manyTags n) = RangeError.
Proof.
  intros Hlt. destruct (manyTags_facts n) as (Hb & Hlen & Hlines).
  unfold parseTextOn. rewrite Hlines.
  rewrite (forEachLineOn_exceeds e _ [] initialState invariant_initial); [done|].
  apply Exists_cons. left. split; [done|]. rewrite Hlen. lia.
Qed.

End ManyTags.

(** C1 fails on the code: [parseText] throws on inputs that are well formed.
    [applyColor] calls itself once for every level of nesting, and
    [tags.push(...arr)] passes every tag as an argument of one call; an
    engine has room for finitely many nested calls and takes finitely many
    arguments, and throws a [RangeError] beyond.  Whatever these two limits
    are, the outlines that are nested at least as many levels deep as the
    engine has room for nested calls, and the lines that declare more tags
    than a call takes arguments, make [parseText] throw.  It throws exactly
    on the inputs of which a line declares more tags than a call takes
    arguments, or of which nodes lead down from the root as many levels as
    the engine has room for nested calls.  With these two limits the
    [RangeError] is the only exception: on every input [parseText] either
    throws it or returns what it returns without the limits, and it returns
    whenever no line declares more tags than a call takes arguments and no
    line is indented as deep as the nested calls reach. *)
Theorem parseText_range_error (e : engine) :
  (forall n, maxCalls e <= n -> parseTextOn e (deepOutline n) = RangeError) /\
  (forall n, maxArguments e < n -> parseTextOn e (manyTags n) = RangeError) /\
  (forall input p,
     parseText input = Ok p ->
     parseTextOn e input = RangeError <->
     Exists (fun raw => blank raw = false /\ maxArguments e < length (declaredTags raw))
       (lines input) \/
     exists path, leadsDown (objects p) ROOT path /\ maxCalls e <= length path) /\
  (forall input,
     parseTextOn e input = RangeError \/
     exists p, parseTextOn e input = Within (Ok p) /\ parseText input = Ok p) /\
  (forall input,
     0 < maxCalls e ->
     Forall (fun raw => blank raw = false ->
                        length (declaredTags raw) <= maxArguments e /\
                        (getDepth raw).1 + 1 < maxCalls e) (lines input) ->
     exists p, parseTextOn e input = Within (Ok p) /\ parseText input = Ok p) /\
  (forall n, lines (deepOutline (S n)) = deepLine <$> seq 0 (S n)) /\
  (forall k, getDepth (deepLine k) = (k, str "a")) /\
  (forall n, lines (manyTags n) = [manyTags n] /\ length (declaredTags (manyTags n)) = n) /\
  deepOutline 3 = str "a" ++ [LF; TAB] ++ str "a" ++ [LF; TAB; TAB] ++ str "a" /\
  fieldsOf RawNode.depth (deepOutline 3) = [-1; 0; 1; 2]%Z /\
  fieldsOf RawNode.children (deepOutline 3) = [[1]; [2]; [3]; []] /\
  parseTextOn (mkEngine 3 4) (deepOutline 3) = Within (parseText (deepOutline 3)) /\
  parseTextOn (mkEngine 3 3) (deepOutline 3) = RangeError /\
  manyTags 3 = str "x \tags{a,a,a,}" /\
  fieldsOf RawNode.tags (manyTags 3) = [[]; [str "a"; str "a"; str "a"]] /\
  parseTextOn (mkEngine 3 2) (manyTags 3) = Within (parseText (manyTags 3)) /\
  parseTextOn (mkEngine 2 2) (manyTags 3) = RangeError.
Proof.
  assert (Hreturns : forall input,
            parseTextOn e input = Within (parseText input) ->
            exists p, parseTextOn e input = Within (Ok p) /\ parseText input = Ok p).
  { intros input Hsame. destruct (parseText_facts input) as (_ & p & _ & _ & Hp & _).
    exists p. by rewrite Hsame, Hp. }
  split; [apply deepOutline_throws|]. split; [apply manyTags_throws|].
  split; [|split; [|split; [|split; [|split; [|split;
    [|clear e Hreturns; split_and!; by vm_compute]]]]]].
  - intros input p. apply parseTextOn_throws.
  - intros input. destruct (parseTextOn_cases e input) as [?|Hsame]; [by left|right].
    by apply Hreturns.
  - intros input Hpos Hfit. by apply Hreturns, parseTextOn_within.
  - apply lines_deepOutline.
  - intros k. apply deepLine_facts.
  - intros n. destruct (manyTags_facts n) as (_ & ? & ?). done.
Qed.
